(** * Sneaker store back end: the Lambda handlers over the relational store

    A shallow embedding of the request handlers of the repository
    (the guarded DELETE handler with [withDb], the PUT / PATCH handler
    [handlePutUpdate] / [handlePatchInventory], the POST handler that seeds
    or creates shoes, their older unguarded copies and the handlers of
    GET), together with the part of the environment they talk to: the two
    tables [shoes] and [shoe_inventory], a connection with transactions,
    and a schedule of faults for the calls that leave the process.

    Conventions of the embedding.
    - A finite JavaScript number is kept as the decimal that JavaScript
      prints for it, which is also the text the driver puts in a
      statement; [Number(s)] rounds the numeral [s] to the nearest double
      and gives that decimal.  Every double is such a decimal; the numbers
      of a request are taken among all decimals.
    - The tables have the columns of the README with their types: a value
      that does not fit its column is rounded when it has too many
      decimals and refused otherwise, as the server does in its strict
      mode (the default of MySQL); ids stay below [2 ^ 53], where the
      driver hands them over as they are.  Texts are ASCII.
    - An external call (a statement, BEGIN, COMMIT, ROLLBACK, a connect, a
      fetch of the secret) either goes through or fails without effect on
      the database, as the fault schedule says.
    - A response body is kept as the value handed to [JSON.stringify];
      serialisation itself is not modelled.
    - [async] / [await] is sequential composition in a state-and-exception
      monad over the [world]: the module-level caches, the store and the
      fault schedule. *)

From Stdlib Require Import ZArith List String Ascii Bool Lia DecimalString.
From Stdlib Require Import Sorted Permutation.
Import ListNotations.
Open Scope Z_scope.

Set Implicit Arguments.
Set Warnings "-register-all".

(** ** Numbers *)

Module Numbers.

(** The decimal [mant / 10 ^ scale]. *)
Record dec : Type := Dec { mant : Z; scale : nat }.

Definition pow10 (n : nat) : Z := 10 ^ Z.of_nat n.

Fixpoint norm_aux (m : Z) (s : nat) : dec :=
  match s with
  | O => Dec m O
  | S s' => if m mod 10 =? 0 then norm_aux (m / 10) s' else Dec m s
  end.

(** The same number without the zeros that end its fraction. *)
Definition norm (d : dec) : dec := norm_aux (mant d) (scale d).

Definition of_Z (z : Z) : dec := Dec z O.

(** [d] counted in units of [10 ^ -s], for [s] at least the scale of [d]. *)
Definition units (s : nat) (d : dec) : Z := mant d * pow10 (s - scale d).

Definition compare (a b : dec) : comparison :=
  let s := Nat.max (scale a) (scale b) in Z.compare (units s a) (units s b).

Definition eqb (a b : dec) : bool :=
  match compare a b with Eq => true | _ => false end.

Definition ltb (a b : dec) : bool :=
  match compare a b with Lt => true | _ => false end.

Definition is_zero (a : dec) : bool := mant a =? 0.

Definition add (a b : dec) : dec :=
  let s := Nat.max (scale a) (scale b) in Dec (units s a + units s b) s.

Definition opp (a : dec) : dec := Dec (- mant a) (scale a).

Definition max (a b : dec) : dec := if ltb a b then b else a.

(** The integer nearest to [a / b] for a positive [b], a half going away
    from zero. *)
Definition round_div (a b : Z) : Z := Z.sgn a * ((2 * Z.abs a + b) / (2 * b)).

(** [d] rounded to [s] decimals, in units of [10 ^ -s]. *)
Definition rounded (s : nat) (d : dec) : Z :=
  if (scale d <=? s)%nat then units s d
  else round_div (mant d) (pow10 (scale d - s)).

(** The integer [d] is, if it is one. *)
Definition int_of (d : dec) : option Z :=
  match norm d with
  | Dec m O => Some m
  | _ => None
  end.

Fixpoint ndigits_fuel (fuel : nat) (a : Z) : nat :=
  match fuel with
  | O => O
  | S f => if a <=? 0 then O else S (ndigits_fuel f (a / 10))
  end.

(** The number of decimal digits of a positive integer. *)
Definition ndigits (a : Z) : nat := ndigits_fuel (S (Z.to_nat (Z.log2 a))) a.

Fixpoint strip10_fuel (fuel : nat) (a : Z) (n : nat) : Z * nat :=
  match fuel with
  | O => (a, n)
  | S f => if (a mod 10 =? 0) && negb (a =? 0) then strip10_fuel f (a / 10) (S n)
           else (a, n)
  end.

(** A positive integer without the zeros that end it, and their number. *)
Definition strip10 (a : Z) : Z * nat := strip10_fuel (S (Z.to_nat (Z.log2 a))) a O.

(** *** Doubles *)

(** The double nearest to [n / d] for positive [n] and [d], a tie going to
    the even mantissa: [(m, e)] for [m * 2 ^ e] with [m < 2 ^ 53] and
    [-1074 <= e], or [None] past the largest double. *)
Definition nearest_double (n d : Z) : option (Z * Z) :=
  let k := Z.log2 n - Z.log2 d in
  let quot (e : Z) := if 0 <=? e then n / (d * 2 ^ e) else (n * 2 ^ (- e)) / d in
  let e1 := k - 52 in
  let e2 := if quot e1 <? 2 ^ 52 then e1 - 1 else e1 in
  let e := Z.max e2 (-1074) in
  let num := if 0 <=? e then n else n * 2 ^ (- e) in
  let den := if 0 <=? e then d * 2 ^ e else d in
  let q := num / den in
  let r := num mod den in
  let q' := if (den <? 2 * r) || ((den =? 2 * r) && Z.odd q) then q + 1 else q in
  let '(m, e') := if q' =? 2 ^ 53 then (2 ^ 52, e + 1) else (q', e) in
  if 971 <? e' then None else Some (m, e').

(** [m * 2 ^ e] written out. *)
Definition dec_of_binary (m e : Z) : dec :=
  if 0 <=? e then Dec (m * 2 ^ e) O
  else norm (Dec (m * 5 ^ (- e)) (Z.to_nat (- e))).

Definition rounds_to (x : Z * Z) (c : dec) : bool :=
  match nearest_double (mant c) (pow10 (scale c)) with
  | Some (m, e) => (m =? fst x) && (e =? snd x)
  | None => false
  end.

(** [c * 10 ^ p] *)
Definition scaled (c p : Z) : dec :=
  if 0 <=? p then Dec (c * 10 ^ p) O else norm (Dec c (Z.to_nat (- p))).

(** The decimal with the fewest digits that [Number] reads back as the
    double [x], whose exact value is [X]; of two such decimals the one
    nearer to [X].  The search goes from [k] digits on; seventeen always
    suffice. *)
Fixpoint shortest_fuel (fuel : nat) (k : Z) (x : Z * Z) (X : dec) : dec :=
  match fuel with
  | O => X
  | S f =>
      let n10 := Z.of_nat (ndigits (mant X)) - Z.of_nat (scale X) in
      let p := n10 - k in
      let sp := Z.of_nat (scale X) + p in
      if sp <=? 0 then X
      else
        let den := 10 ^ sp in
        let lo := mant X / den in
        let r := mant X mod den in
        let hi := lo + 1 in
        let lo_ok := rounds_to x (scaled lo p) in
        let hi_ok := rounds_to x (scaled hi p) in
        let prefer_hi := (den <? 2 * r) || ((den =? 2 * r) && Z.odd lo) in
        if lo_ok && hi_ok then (if prefer_hi then scaled hi p else scaled lo p)
        else if lo_ok then scaled lo p
        else if hi_ok then scaled hi p
        else shortest_fuel f (k + 1) x X
  end.

Definition double_of_positive (d : dec) : option dec :=
  match nearest_double (mant d) (pow10 (scale d)) with
  | None => None
  | Some (m, e) =>
      if m =? 0 then Some (Dec 0 O)
      else Some (shortest_fuel 17 1 (m, e) (dec_of_binary m e))
  end.

(** The double nearest to [d], as JavaScript prints it; [None] when [d] is
    past the largest double. *)
Definition to_double (d : dec) : option dec :=
  if mant d =? 0 then Some (Dec 0 O)
  else if mant d <? 0 then
    match double_of_positive (opp d) with
    | Some r => Some (opp r)
    | None => None
    end
  else double_of_positive d.

(** [Number.MAX_VALUE] *)
Definition max_double : dec := Dec (17976931348623157 * 10 ^ 292) O.

(** What a numeral with the digits [m] and the exponent [e] stands for,
    [m * 10 ^ e]; numerals far outside the doubles are not written out. *)
Inductive magnitude : Type :=
| Exact (d : dec)
| Huge
| Tiny.

Definition sci_value (m e : Z) : magnitude :=
  if m =? 0 then Exact (Dec 0 O)
  else
    let top := Z.of_nat (ndigits m) + e in
    if 400 <? top then Huge
    else if top <? -400 then Tiny
    else Exact (scaled m e).

End Numbers.
Export Numbers.
Coercion of_Z : Z >-> dec.

(** ** JavaScript values and coercions *)

Module JS.

Inductive jsval : Type :=
| JUndef
| JNull
| JBool (b : bool)
| JNum (n : dec)
| JInf (negative : bool)     (* [Infinity] and [-Infinity] *)
| JStr (s : string)
| JArr (items : list jsval)
| JObj (fields : list (string * jsval)).

(** Result of [Number(v)]. *)
Inductive jsnum : Type :=
| Fin (d : dec)
| Inf (negative : bool)
| NaN.

(** [Number.isFinite(n)] *)
Definition isFinite (n : jsnum) : bool :=
  match n with Fin _ => true | _ => false end.

(** [!!v] *)
Definition truthy (v : jsval) : bool :=
  match v with
  | JUndef | JNull => false
  | JBool b => b
  | JNum n => negb (is_zero n)
  | JInf _ => true
  | JStr s => negb (String.eqb s EmptyString)
  | JArr _ | JObj _ => true
  end.

(** [a || b] *)
Definition js_or (a b : jsval) : jsval := if truthy a then a else b.

(** [v == null] *)
Definition is_nullish (v : jsval) : bool :=
  match v with JUndef | JNull => true | _ => false end.

Definition isArray (v : jsval) : bool :=
  match v with JArr _ => true | _ => false end.

Fixpoint assoc (k : string) (fields : list (string * jsval)) : jsval :=
  match fields with
  | [] => JUndef
  | (k', v) :: rest => if String.eqb k k' then v else assoc k rest
  end.

(** [v?.k], and [v.k] on a value that is neither [null] nor [undefined]:
    the handlers only read own data properties of parsed JSON. *)
Definition get (v : jsval) (k : string) : jsval :=
  match v with
  | JObj fields => assoc k fields
  | _ => JUndef
  end.

(** *** Strings *)

Definition is_ws (c : ascii) : bool :=
  let n := nat_of_ascii c in
  ((9 <=? n) && (n <=? 13))%nat || (n =? 32)%nat.

Fixpoint trim_left (s : string) : string :=
  match s with
  | String c r => if is_ws c then trim_left r else s
  | EmptyString => EmptyString
  end.

Fixpoint rev_string (s acc : string) : string :=
  match s with
  | EmptyString => acc
  | String c r => rev_string r (String c acc)
  end.

Definition trim (s : string) : string :=
  rev_string (trim_left (rev_string (trim_left s) EmptyString)) EmptyString.

Fixpoint all_ws (s : string) : bool :=
  match s with
  | EmptyString => true
  | String c r => is_ws c && all_ws r
  end.

(** The value of a digit in a base up to sixteen. *)
Definition hex_digit_of (c : ascii) : option Z :=
  let n := nat_of_ascii c in
  if ((48 <=? n) && (n <=? 57))%nat then Some (Z.of_nat (n - 48))
  else if ((97 <=? n) && (n <=? 102))%nat then Some (Z.of_nat (n - 87))
  else if ((65 <=? n) && (n <=? 70))%nat then Some (Z.of_nat (n - 55))
  else None.

Definition digit_of (c : ascii) : option Z :=
  let n := nat_of_ascii c in
  if ((48 <=? n) && (n <=? 57))%nat then Some (Z.of_nat (n - 48)) else None.

(** The decimal digits at the head of [s]: [acc] with their value added
    to it, their number added to [n], and what follows them. *)
Fixpoint scan_digits (s : string) (acc : Z) (n : nat) : Z * nat * string :=
  match s with
  | String c r =>
      match digit_of c with
      | Some d => scan_digits r (10 * acc + d) (S n)
      | None => (acc, n, s)
      end
  | EmptyString => (acc, n, s)
  end.

(** An exponent part at the head of [s], [e] or [E] with a signed run of
    digits: its value and what follows it; without one, 0 and [s]. *)
Definition scan_exponent (s : string) : Z * string :=
  match s with
  | String c r =>
      if Ascii.eqb c "e" || Ascii.eqb c "E" then
        let '(neg, r1) :=
          match r with
          | String "-" r' => (true, r')
          | String "+" r' => (false, r')
          | _ => (false, r)
          end in
        match scan_digits r1 0 O with
        | (_, O, _) => (0, s)
        | (v, _, rest) => (if neg then - v else v, rest)
        end
      else (0, s)
  | EmptyString => (0, s)
  end.

(** An unsigned decimal numeral at the head of [s], as long as it can be:
    digits, a point, digits, an exponent part, with a digit at least
    before the exponent.  The result is [(m, e, rest)] for the numeral
    [m * 10 ^ e] followed by [rest]. *)
Definition scan_numeral (s : string) : option (Z * Z * string) :=
  let '(i, ni, s1) := scan_digits s 0 O in
  let '(m, nf, s2) :=
    match s1 with
    | String "." r => scan_digits r i O
    | _ => (i, O, s1)
    end in
  match (ni + nf)%nat with
  | O => None
  | _ => let '(e, s3) := scan_exponent s2 in Some (m, e - Z.of_nat nf, s3)
  end.

(** A sign at the head of [s]. *)
Definition scan_sign (s : string) : bool * string :=
  match s with
  | String "-" r => (true, r)
  | String "+" r => (false, r)
  | _ => (false, s)
  end.

(** The value of a string of digits of the base, which has one at least. *)
Fixpoint radix_digits (base : Z) (s : string) (acc : Z) : option Z :=
  match s with
  | EmptyString => Some acc
  | String c r =>
      match hex_digit_of c with
      | Some d => if d <? base then radix_digits base r (base * acc + d) else None
      | None => None
      end
  end.

(** [0x], [0o] and [0b] numerals. *)
Definition radix_numeral (s : string) : option Z :=
  match s with
  | String "0" (String c (String d r)) =>
      let digits := String d r in
      if Ascii.eqb c "x" || Ascii.eqb c "X" then radix_digits 16 digits 0
      else if Ascii.eqb c "o" || Ascii.eqb c "O" then radix_digits 8 digits 0
      else if Ascii.eqb c "b" || Ascii.eqb c "B" then radix_digits 2 digits 0
      else None
  | _ => None
  end.

(** The number a numeral denotes once it is rounded to a double. *)
Definition number_of_magnitude (negative : bool) (v : magnitude) : jsnum :=
  match v with
  | Exact d =>
      match to_double d with
      | Some r => Fin (if negative then opp r else r)
      | None => Inf negative
      end
  | Huge => Inf negative
  | Tiny => Fin (Dec 0 O)
  end.

(** [Number(s)] for a string: surrounding white space is dropped, the empty
    string is 0; then a numeral with a radix prefix, a signed [Infinity]
    or a signed decimal numeral is its value, and anything else is
    [NaN]. *)
Definition StringToNumber (s : string) : jsnum :=
  match trim s with
  | EmptyString => Fin (Dec 0 O)
  | t =>
      match radix_numeral t with
      | Some v => number_of_magnitude false (Exact (Dec v O))
      | None =>
          let '(negative, u) := scan_sign t in
          if String.eqb u "Infinity" then Inf negative
          else
            match scan_numeral u with
            | Some (m, e, EmptyString) => number_of_magnitude negative (sci_value m e)
            | _ => NaN
            end
      end
  end.

Definition string_of_Z (z : Z) : string := NilZero.string_of_int (Z.to_int z).

Fixpoint zeros (n : nat) : string :=
  match n with
  | O => EmptyString
  | S k => String "0" (zeros k)
  end.

(** The text of a finite number: its digits with the point where it
    belongs up to 21 digits before it and 6 zeros after it, and in
    exponent notation beyond; [plus] is what precedes a positive
    exponent. *)
Definition number_text (plus : string) (d : dec) : string :=
  let n := norm d in
  if mant n =? 0 then "0"%string
  else
    let sign := if mant n <? 0 then "-"%string else EmptyString in
    let '(sig, tz) :=
      match scale n with
      | O => strip10 (Z.abs (mant n))
      | _ => (Z.abs (mant n), O)
      end in
    let digits := string_of_Z sig in
    let k := String.length digits in
    let point := (Z.of_nat k + Z.of_nat tz - Z.of_nat (scale n)) in
    let body :=
      if (Z.of_nat k <=? point) && (point <=? 21)
      then (digits ++ zeros (Z.to_nat (point - Z.of_nat k)))%string
      else if (0 <? point) && (point <=? 21)
      then (substring 0 (Z.to_nat point) digits ++ "."
            ++ substring (Z.to_nat point) (k - Z.to_nat point) digits)%string
      else if (-6 <? point) && (point <=? 0)
      then ("0." ++ zeros (Z.to_nat (- point)) ++ digits)%string
      else
        let e := point - 1 in
        let minus := "-"%string in
        let exponent :=
          String.append (if e <? 0 then minus else plus) (string_of_Z (Z.abs e)) in
        match k with
        | 1%nat => (digits ++ "e" ++ exponent)%string
        | _ => (substring 0 1 digits ++ "." ++ substring 1 (k - 1) digits
                ++ "e" ++ exponent)%string
        end in
    (sign ++ body)%string.

(** [String(n)] for a finite number. *)
Definition string_of_dec (d : dec) : string := number_text "+" d.

Fixpoint join (sep : string) (l : list string) : string :=
  match l with
  | [] => EmptyString
  | [x] => x
  | x :: rest => x ++ sep ++ join sep rest
  end.

(** [String(v)] *)
Fixpoint ToString (v : jsval) : string :=
  match v with
  | JUndef => "undefined"
  | JNull => "null"
  | JBool true => "true"
  | JBool false => "false"
  | JNum n => string_of_dec n
  | JInf false => "Infinity"
  | JInf true => "-Infinity"
  | JStr s => s
  | JArr items =>
      join ","
        (map (fun x => match x with
                       | JUndef | JNull => EmptyString
                       | _ => ToString x
                       end) items)
  | JObj _ => "[object Object]"
  end.

(** [Number(v)] *)
Definition ToNumber (v : jsval) : jsnum :=
  match v with
  | JUndef => NaN
  | JNull => Fin 0
  | JBool b => Fin (if b then 1 else 0)
  | JNum n => Fin n
  | JInf negative => Inf negative
  | JStr s => StringToNumber s
  | JArr _ => StringToNumber (ToString v)
  | JObj _ => NaN
  end.

(** [s.split(sep)] for a one-character separator; [cur] holds the characters
    of the current piece in reverse. *)
Fixpoint split_acc (sep : ascii) (s : string) (cur : string) : list string :=
  match s with
  | EmptyString => [rev_string cur EmptyString]
  | String c r =>
      if Ascii.eqb c sep then rev_string cur EmptyString :: split_acc sep r EmptyString
      else split_acc sep r (String c cur)
  end.

Definition split (sep : ascii) (s : string) : list string := split_acc sep s EmptyString.

Definition lower (c : ascii) : ascii :=
  let n := nat_of_ascii c in
  if ((65 <=? n) && (n <=? 90))%nat then ascii_of_nat (n + 32) else c.

Fixpoint lower_string (s : string) : string :=
  match s with
  | EmptyString => EmptyString
  | String c r => String (lower c) (lower_string r)
  end.

(** [pat] occurs somewhere in [s]. *)
Fixpoint occurs (pat s : string) : bool :=
  String.prefix pat s ||
  match s with
  | EmptyString => false
  | String _ r => occurs pat r
  end.

(** [/pat/i.test(s)] for a pattern without metacharacters. *)
Definition occurs_ci (pat s : string) : bool :=
  occurs (lower_string pat) (lower_string s).

(** [arr.includes(x)] against a string: strict equality, no coercion. *)
Definition includes_str (x : string) (items : list jsval) : bool :=
  existsb (fun v => match v with JStr s => String.eqb s x | _ => false end) items.

Definition string_in (x : string) (l : list string) : bool :=
  existsb (String.eqb x) l.

(** An optional string read as a condition: [undefined] and [''] are falsy. *)
Definition str_or (a : option string) (b : option string) : option string :=
  match a with
  | Some s => if String.eqb s EmptyString then b else a
  | None => b
  end.

Definition str_truthy (a : option string) : bool :=
  match a with
  | Some s => negb (String.eqb s EmptyString)
  | None => false
  end.

End JS.
Export JS.


(** ** The relational store *)

Module Store.

(** [shoes(id BIGINT, name VARCHAR(255), brand VARCHAR(100),
    price DECIMAL(10,2), image VARCHAR(512))], every column NOT NULL.  The
    price is kept in hundredths. *)
Record shoe_row : Type := {
  shoe_id : Z;
  shoe_name : string;
  shoe_brand : string;
  shoe_price : Z;
  shoe_image : string
}.

(** [shoe_inventory(id BIGINT, shoe_id BIGINT, size DECIMAL(3,1),
    quantity INT)], every column NOT NULL, with [UNIQUE (shoe_id, size)].
    The size is kept in tenths. *)
Record inv_row : Type := {
  inv_id : Z;
  inv_shoe : Z;
  inv_size : Z;
  inv_quantity : Z
}.

(** The database: the two tables with their AUTO_INCREMENT counters, and
    whether the schema declares the optional
    [FOREIGN KEY (shoe_id) REFERENCES shoes(id) ON DELETE CASCADE]
    (only its delete action is modelled). *)
Record db : Type := {
  shoes : list shoe_row;
  shoes_auto : Z;
  shoe_inventory : list inv_row;
  inventory_auto : Z;
  on_delete_cascade : bool
}.

(** A placeholder value as the driver receives it. *)
Inductive param : Type :=
| PNull
| PNum (n : dec)
| PStr (s : string)
| PNaN                (* NaN or an infinity: escaped to an unknown identifier *)
| PComposite.         (* an array or object: expands to several SQL terms *)

Definition param_of_js (v : jsval) : param :=
  match v with
  | JUndef | JNull => PNull
  | JBool b => PNum (if b then 1 else 0)
  | JNum n => PNum n
  | JInf _ => PNaN
  | JStr s => PStr s
  | JArr _ | JObj _ => PComposite
  end.

Definition param_of_num (n : jsnum) : param :=
  match n with Fin d => PNum d | Inf _ | NaN => PNaN end.

(** Outcome of one statement: its result and the new database, or the
    message of the error it raises (the database is then as before). *)
Inductive stmt_result (A : Type) : Type :=
| Done (a : A) (d : db)
| Failed (msg : string).
Arguments Failed {A} msg.

Definition bad_param_msg : string := "ER_BAD_FIELD_ERROR".
Definition bad_null_msg : string := "ER_BAD_NULL_ERROR".
Definition bad_value_msg : string := "ER_TRUNCATED_WRONG_VALUE".
Definition out_of_range_msg : string := "ER_WARN_DATA_OUT_OF_RANGE".
Definition too_long_msg : string := "ER_DATA_TOO_LONG".
Definition dup_entry_msg : string := "ER_DUP_ENTRY".

Definition signed (negative : bool) (d : dec) : dec :=
  if negative then opp d else d.

(** The number MySQL compares a string with: past leading white space, the
    longest numeral at its head, read as a double (0 when there is
    none). *)
Definition mysql_number (s : string) : dec :=
  let '(negative, u) := scan_sign (trim_left s) in
  match scan_numeral u with
  | None => Dec 0 O
  | Some (m, e, _) =>
      match sci_value m e with
      | Exact d =>
          match to_double d with
          | Some r => signed negative r
          | None => signed negative max_double
          end
      | Huge => signed negative max_double
      | Tiny => Dec 0 O
      end
  end.

(** The number a string stands for when it is stored in a numeric column:
    a numeral between white space, or nothing. *)
Definition mysql_numeral (s : string) : option (bool * magnitude) :=
  let '(negative, u) := scan_sign (trim_left s) in
  match scan_numeral u with
  | Some (m, e, rest) =>
      if all_ws rest then Some (negative, sci_value m e) else None
  | None => None
  end.

(** What [col = ?] compares a column with. *)
Inductive key : Type :=
| KeyNum (n : dec)
| KeyNull            (* comparison with NULL: no row matches *)
| KeyError.

Definition key_of_param (p : param) : key :=
  match p with
  | PNull => KeyNull
  | PNum n => KeyNum n
  | PStr s => KeyNum (mysql_number s)
  | PNaN | PComposite => KeyError
  end.

(** The integer [z] of a BIGINT column is the number [k]. *)
Definition id_is (k : dec) (z : Z) : bool :=
  match int_of k with
  | Some m => m =? z
  | None => false
  end.

(** The size [t], in tenths, of a DECIMAL(3,1) column is the number [k]. *)
Definition size_is (k : dec) (t : Z) : bool := eqb k (Dec t 1).

(** *** Column types *)

Definition INT_MAX : Z := 2147483647.
Definition INT_MIN : Z := -2147483648.
Definition BIGINT_MAX : Z := 9223372036854775807.
Definition BIGINT_MIN : Z := -9223372036854775808.

Definition within (lo hi v : Z) : string + Z :=
  if (lo <=? v) && (v <=? hi) then inr v else inl out_of_range_msg.

(** The value a numeric NOT NULL column takes from a placeholder: the
    number rounded to the [places] decimals of the column, in units of its
    last decimal, when that lies between [lo] and [hi]. *)
Definition numeric_of_param (places : nat) (lo hi : Z) (p : param) : string + Z :=
  match p with
  | PNull => inl bad_null_msg
  | PNum n => within lo hi (rounded places n)
  | PStr s =>
      match mysql_numeral s with
      | Some (negative, Exact d) => within lo hi (rounded places (signed negative d))
      | Some (_, Huge) => inl out_of_range_msg
      | Some (_, Tiny) => inr 0
      | None => inl bad_value_msg
      end
  | PNaN | PComposite => inl bad_param_msg
  end.

(** BIGINT *)
Definition bigint_of_param : param -> string + Z :=
  numeric_of_param 0 BIGINT_MIN BIGINT_MAX.

(** INT *)
Definition int_of_param : param -> string + Z :=
  numeric_of_param 0 INT_MIN INT_MAX.

(** DECIMAL(3,1), in tenths *)
Definition size_of_param : param -> string + Z :=
  numeric_of_param 1 (-999) 999.

(** DECIMAL(10,2), in hundredths *)
Definition price_of_param : param -> string + Z :=
  numeric_of_param 2 (-9999999999) 9999999999.

(** The text a number is when it is stored in a VARCHAR column. *)
Definition mysql_text (d : dec) : string := number_text EmptyString d.

(** The value a VARCHAR([len]) NOT NULL column takes from a placeholder.
    Spaces past the length are dropped, anything else there is refused. *)
Definition text_of_param (len : nat) (p : param) : string + string :=
  let fit (s : string) :=
    if (String.length s <=? len)%nat then inr s
    else if forallb (fun c => Ascii.eqb c " ")
                    (list_ascii_of_string (substring len (String.length s - len) s))
         then inr (substring 0 len s)
         else inl too_long_msg in
  match p with
  | PNull => inl bad_null_msg
  | PNum n => fit (mysql_text n)
  | PStr s => fit s
  | PNaN | PComposite => inl bad_param_msg
  end.

(** The text of a DECIMAL column with [places] decimals that holds [u]
    units of its last decimal. *)
Definition decimal_text (places : nat) (u : Z) : string :=
  let a := Z.abs u in
  let sign := if u <? 0 then "-"%string else EmptyString in
  match places with
  | O => (sign ++ string_of_Z a)%string
  | _ =>
      let fraction := string_of_Z (a mod pow10 places) in
      (sign ++ string_of_Z (a / pow10 places) ++ "."
       ++ zeros (places - String.length fraction) ++ fraction)%string
  end.

Definition set_shoes (l : list shoe_row) (d : db) : db :=
  {| shoes := l; shoes_auto := shoes_auto d;
     shoe_inventory := shoe_inventory d; inventory_auto := inventory_auto d;
     on_delete_cascade := on_delete_cascade d |}.

Definition set_inventory (l : list inv_row) (d : db) : db :=
  {| shoes := shoes d; shoes_auto := shoes_auto d;
     shoe_inventory := l; inventory_auto := inventory_auto d;
     on_delete_cascade := on_delete_cascade d |}.

Definition set_shoes_auto (n : Z) (d : db) : db :=
  {| shoes := shoes d; shoes_auto := n;
     shoe_inventory := shoe_inventory d; inventory_auto := inventory_auto d;
     on_delete_cascade := on_delete_cascade d |}.

Definition set_inventory_auto (n : Z) (d : db) : db :=
  {| shoes := shoes d; shoes_auto := shoes_auto d;
     shoe_inventory := shoe_inventory d; inventory_auto := n;
     on_delete_cascade := on_delete_cascade d |}.

(** [shoe_id = ? AND size = ?] for the numbers [shoe] and [size]. *)
Definition has_key (shoe size : dec) (r : inv_row) : bool :=
  id_is shoe (inv_shoe r) && size_is size (inv_size r).

(** The row holds the shoe [shoe] and the size [size], in tenths: what the
    unique key compares. *)
Definition holds_key (shoe size : Z) (r : inv_row) : bool :=
  (inv_shoe r =? shoe) && (inv_size r =? size).

(** [SELECT ... FROM shoes WHERE id = ?] *)
Definition select_shoe (p : param) (d : db) : stmt_result (list shoe_row) :=
  match key_of_param p with
  | KeyNum n => Done (filter (fun r => id_is n (shoe_id r)) (shoes d)) d
  | KeyNull => Done [] d
  | KeyError => Failed bad_param_msg
  end.

(** [DELETE FROM shoes WHERE id = ?]; the result is [affectedRows].  The
    inventory rows of a deleted shoe go with it only under ON DELETE
    CASCADE. *)
Definition delete_shoe (p : param) (d : db) : stmt_result Z :=
  match key_of_param p with
  | KeyNum n =>
      let gone := filter (fun r => id_is n (shoe_id r)) (shoes d) in
      let kept := filter (fun r => negb (id_is n (shoe_id r))) (shoes d) in
      let inv :=
        if on_delete_cascade d && negb (List.length gone =? 0)%nat
        then filter (fun r => negb (id_is n (inv_shoe r))) (shoe_inventory d)
        else shoe_inventory d in
      Done (Z.of_nat (List.length gone)) (set_inventory inv (set_shoes kept d))
  | KeyNull => Done 0 d
  | KeyError => Failed bad_param_msg
  end.

(** One assignment of [UPDATE shoes SET ...]. *)
Inductive column : Type := ColName | ColBrand | ColPrice | ColImage.

(** The row with the column set to the value the placeholder gives it. *)
Definition assign (c : column) (p : param) (r : shoe_row) : string + shoe_row :=
  match c with
  | ColName =>
      match text_of_param 255 p with
      | inr v => inr {| shoe_id := shoe_id r; shoe_name := v; shoe_brand := shoe_brand r;
                        shoe_price := shoe_price r; shoe_image := shoe_image r |}
      | inl m => inl m
      end
  | ColBrand =>
      match text_of_param 100 p with
      | inr v => inr {| shoe_id := shoe_id r; shoe_name := shoe_name r; shoe_brand := v;
                        shoe_price := shoe_price r; shoe_image := shoe_image r |}
      | inl m => inl m
      end
  | ColPrice =>
      match price_of_param p with
      | inr v => inr {| shoe_id := shoe_id r; shoe_name := shoe_name r;
                        shoe_brand := shoe_brand r;
                        shoe_price := v; shoe_image := shoe_image r |}
      | inl m => inl m
      end
  | ColImage =>
      match text_of_param 512 p with
      | inr v => inr {| shoe_id := shoe_id r; shoe_name := shoe_name r;
                        shoe_brand := shoe_brand r;
                        shoe_price := shoe_price r; shoe_image := v |}
      | inl m => inl m
      end
  end.

Fixpoint assignments (sets : list (column * param)) (r : shoe_row) : string + shoe_row :=
  match sets with
  | [] => inr r
  | (c, p) :: rest =>
      match assign c p r with
      | inr r' => assignments rest r'
      | inl m => inl m
      end
  end.

(** The rows of [l], those numbered [n] updated. *)
Fixpoint update_rows (sets : list (column * param)) (n : dec) (l : list shoe_row)
  : string + list shoe_row :=
  match l with
  | [] => inr []
  | r :: rest =>
      match (if id_is n (shoe_id r) then assignments sets r else inr r),
            update_rows sets n rest with
      | inr r', inr rest' => inr (r' :: rest')
      | inl m, _ => inl m
      | _, inl m => inl m
      end
  end.

(** [UPDATE shoes SET c1 = ?, ... WHERE id = ?]; [affectedRows] counts the
    rows the WHERE clause matches.  A placeholder the driver cannot write
    is an error whether a row matches or not; a value that does not fit
    its column is one when a row is to take it. *)
Definition update_shoe (sets : list (column * param)) (p : param) (d : db)
  : stmt_result Z :=
  if existsb (fun cp => match snd cp with PNaN | PComposite => true | _ => false end) sets
  then Failed bad_param_msg
  else
    match key_of_param p with
    | KeyError => Failed bad_param_msg
    | KeyNull => Done 0 d
    | KeyNum n =>
        match update_rows sets n (shoes d) with
        | inl m => Failed m
        | inr l =>
            Done (Z.of_nat (List.length (filter (fun r => id_is n (shoe_id r)) (shoes d))))
                 (set_shoes l d)
        end
    end.

(** Rows of a multi-row [INSERT INTO shoes (name, brand, price, image)
    VALUES ?], numbered from [first]. *)
Fixpoint new_shoes (first : Z) (rows : list (param * param * param * param))
  : string + list shoe_row :=
  match rows with
  | [] => inr []
  | (n, b, p, i) :: rest =>
      match text_of_param 255 n, text_of_param 100 b, price_of_param p,
            text_of_param 512 i, new_shoes (first + 1) rest with
      | inr n', inr b', inr p', inr i', inr l =>
          inr ({| shoe_id := first; shoe_name := n'; shoe_brand := b';
                  shoe_price := p'; shoe_image := i' |} :: l)
      | inl m, _, _, _, _ => inl m
      | _, inl m, _, _, _ => inl m
      | _, _, inl m, _, _ => inl m
      | _, _, _, inl m, _ => inl m
      | _, _, _, _, inl m => inl m
      end
  end.

(** The statement; its result is [insertId], the id of the first new row. *)
Definition insert_shoes (rows : list (param * param * param * param)) (d : db)
  : stmt_result Z :=
  match new_shoes (shoes_auto d) rows with
  | inl m => Failed m
  | inr l =>
      Done (shoes_auto d)
           (set_shoes_auto (shoes_auto d + Z.of_nat (List.length l))
              (set_shoes (shoes d ++ l) d))
  end.

(** [DELETE FROM shoe_inventory WHERE shoe_id = ?] *)
Definition delete_inventory (p : param) (d : db) : stmt_result Z :=
  match key_of_param p with
  | KeyNum n =>
      Done (Z.of_nat (List.length (filter (fun r => id_is n (inv_shoe r))
                                          (shoe_inventory d))))
           (set_inventory (filter (fun r => negb (id_is n (inv_shoe r)))
                                  (shoe_inventory d)) d)
  | KeyNull => Done 0 d
  | KeyError => Failed bad_param_msg
  end.

(** Rows of a multi-row [INSERT INTO shoe_inventory (shoe_id, size,
    quantity) VALUES ?], numbered from [first]; [table] is what the unique
    key is checked against and grows with each row. *)
Fixpoint new_inventory (first : Z) (table : list inv_row)
  (rows : list (param * param * param)) : string + list inv_row :=
  match rows with
  | [] => inr []
  | (s, z, q) :: rest =>
      match bigint_of_param s, size_of_param z, int_of_param q with
      | inr s', inr z', inr q' =>
          if existsb (holds_key s' z') table then inl dup_entry_msg
          else
            let r := {| inv_id := first; inv_shoe := s'; inv_size := z';
                        inv_quantity := q' |} in
            match new_inventory (first + 1) (table ++ [r]) rest with
            | inr l => inr (r :: l)
            | inl m => inl m
            end
      | inl m, _, _ => inl m
      | _, inl m, _ => inl m
      | _, _, inl m => inl m
      end
  end.

Definition insert_inventory (rows : list (param * param * param)) (d : db)
  : stmt_result Z :=
  match new_inventory (inventory_auto d) (shoe_inventory d) rows with
  | inl m => Failed m
  | inr l =>
      Done (Z.of_nat (List.length l))
           (set_inventory_auto (inventory_auto d + Z.of_nat (List.length l))
              (set_inventory (shoe_inventory d ++ l) d))
  end.

(** The quantities of [l], those of the rows [hit] picks replaced by [f]
    of them; a quantity past INT is refused. *)
Fixpoint requantified (hit : inv_row -> bool) (f : Z -> Z) (l : list inv_row)
  : string + list inv_row :=
  match l with
  | [] => inr []
  | r :: rest =>
      match (if hit r
             then match within INT_MIN INT_MAX (f (inv_quantity r)) with
                  | inr q => inr {| inv_id := inv_id r; inv_shoe := inv_shoe r;
                                    inv_size := inv_size r; inv_quantity := q |}
                  | inl m => inl m
                  end
             else inr r),
            requantified hit f rest with
      | inr r', inr rest' => inr (r' :: rest')
      | inl m, _ => inl m
      | _, inl m => inl m
      end
  end.

(** [INSERT INTO shoe_inventory (shoe_id, size, quantity) VALUES (?, ?, ?)
    ON DUPLICATE KEY UPDATE quantity = <on_dup>]: [on_dup old new] is the
    quantity a row that already holds the key gets, [new] being the
    quantity of the row that was to be inserted.  The AUTO_INCREMENT
    counter advances on both branches, as InnoDB reserves the id before it
    finds the duplicate. *)
Definition upsert_inventory (on_dup : Z -> Z -> Z) (s z q : param) (d : db)
  : stmt_result Z :=
  match bigint_of_param s, size_of_param z, int_of_param q with
  | inr s', inr z', inr q' =>
      let d' := set_inventory_auto (inventory_auto d + 1) d in
      if existsb (holds_key s' z') (shoe_inventory d)
      then
        match requantified (holds_key s' z') (fun old => on_dup old q')
                           (shoe_inventory d) with
        | inr l => Done 2 (set_inventory l d')
        | inl m => Failed m
        end
      else
        Done 1 (set_inventory
                  (shoe_inventory d ++
                   [{| inv_id := inventory_auto d; inv_shoe := s'; inv_size := z';
                       inv_quantity := q' |}]) d')
  | inl m, _, _ => Failed m
  | _, inl m, _ => Failed m
  | _, _, inl m => Failed m
  end.

(** [SELECT ... FROM shoe_inventory WHERE shoe_id = ? AND size = ?] *)
Definition select_inventory (s z : param) (d : db) : stmt_result (list inv_row) :=
  match key_of_param s, key_of_param z with
  | KeyError, _ | _, KeyError => Failed bad_param_msg
  | KeyNum s', KeyNum z' => Done (filter (has_key s' z') (shoe_inventory d)) d
  | _, _ => Done [] d
  end.

(** [GREATEST(0, quantity + delta)] as an INT takes it: rounded, a half
    going away from zero. *)
Definition greatest (delta : dec) (quantity : Z) : Z :=
  rounded 0 (Numbers.max (Dec 0 O) (add (Dec quantity O) delta)).

(** [UPDATE shoe_inventory SET quantity = GREATEST(0, quantity + ?)
    WHERE shoe_id = ? AND size = ?] *)
Definition update_inventory_greatest (delta s z : param) (d : db) : stmt_result Z :=
  match key_of_param delta, key_of_param s, key_of_param z with
  | KeyError, _, _ | _, KeyError, _ | _, _, KeyError => Failed bad_param_msg
  | KeyNum dl, KeyNum s', KeyNum z' =>
      match requantified (has_key s' z') (greatest dl) (shoe_inventory d) with
      | inr l =>
          Done (Z.of_nat (List.length (filter (has_key s' z') (shoe_inventory d))))
               (set_inventory l d)
      | inl m => Failed m
      end
  | KeyNull, KeyNum _, KeyNum _ => Failed bad_null_msg
  | _, _, _ => Done 0 d
  end.

End Store.
Export Store.

(** ** The process: caches, connection, faults *)

Module Runtime.

(** A thrown [Error]; only its [message] is ever inspected. *)
Record exn : Type := Err { message : string }.

Inductive outcome (A : Type) : Type :=
| Ok (a : A)
| Throw (e : exn).
Arguments Throw {A} e.

(** What the environment does to one call that leaves the process: the
    call fails with this message; a fatal fault also closes the connection
    it travelled on. *)
Record fault : Type := {
  fault_message : string;
  fault_fatal : bool
}.

(** A connection of the driver: [disconnected] is what the health check of
    [getConnection] reads, [txn] is the private state of the transaction
    open on it, if any. *)
Record connection : Type := {
  conn_id : nat;
  disconnected : bool;
  txn : option db
}.

(** - [store]: the committed database;
    - [cachedConn], [cachedSecret]: the module-level caches;
    - [faults]: the outcome scheduled for each coming external call
      ([None]: it succeeds); past the end of the list every call succeeds;
    - [config_source], [secret_name]: [process.env.CONFIG_SOURCE] and
      [process.env.SECRET_NAME]. *)
Record world : Type := {
  store : db;
  cachedConn : option connection;
  next_conn_id : nat;
  faults : list (option fault);
  cachedSecret : bool;
  config_source : option string;
  secret_name : option string
}.

Definition set_store (d : db) (w : world) : world :=
  {| store := d; cachedConn := cachedConn w; next_conn_id := next_conn_id w;
     faults := faults w; cachedSecret := cachedSecret w;
     config_source := config_source w; secret_name := secret_name w |}.

Definition set_cachedConn (c : option connection) (w : world) : world :=
  {| store := store w; cachedConn := c; next_conn_id := next_conn_id w;
     faults := faults w; cachedSecret := cachedSecret w;
     config_source := config_source w; secret_name := secret_name w |}.

Definition set_next_conn_id (n : nat) (w : world) : world :=
  {| store := store w; cachedConn := cachedConn w; next_conn_id := n;
     faults := faults w; cachedSecret := cachedSecret w;
     config_source := config_source w; secret_name := secret_name w |}.

Definition set_faults (l : list (option fault)) (w : world) : world :=
  {| store := store w; cachedConn := cachedConn w; next_conn_id := next_conn_id w;
     faults := l; cachedSecret := cachedSecret w;
     config_source := config_source w; secret_name := secret_name w |}.

Definition set_cachedSecret (b : bool) (w : world) : world :=
  {| store := store w; cachedConn := cachedConn w; next_conn_id := next_conn_id w;
     faults := faults w; cachedSecret := b;
     config_source := config_source w; secret_name := secret_name w |}.

Definition with_txn (t : option db) (c : connection) : connection :=
  {| conn_id := conn_id c; disconnected := disconnected c; txn := t |}.

(** *** The monad of an [async] function *)

Definition M (A : Type) : Type := world -> outcome A * world.

Definition ret {A : Type} (a : A) : M A := fun w => (Ok a, w).

Definition throw {A : Type} (e : exn) : M A := fun w => (Throw e, w).

Definition bind {A B : Type} (m : M A) (k : A -> M B) : M B :=
  fun w =>
    match m w with
    | (Ok a, w') => k a w'
    | (Throw e, w') => (Throw e, w')
    end.

(** [try { m } catch (e) { h e }] *)
Definition try_catch {A : Type} (m : M A) (h : exn -> M A) : M A :=
  fun w =>
    match m w with
    | (Ok a, w') => (Ok a, w')
    | (Throw e, w') => h e w'
    end.

Declare Scope async_scope.
Delimit Scope async_scope with async.
Notation "x <- c1 ;; c2" := (bind c1 (fun x => c2))
  (at level 100, c1 at next level, right associativity) : async_scope.
Notation "c1 ;; c2" := (bind c1 (fun _ => c2))
  (at level 100, right associativity) : async_scope.
Open Scope async_scope.

(** *** Calls on a connection *)

Definition closed_msg : string :=
  "Can't add new command when connection is in closed state".

Definition take_fault : M (option fault) :=
  fun w =>
    match faults w with
    | [] => (Ok None, w)
    | f :: rest => (Ok f, set_faults rest w)
    end.

(** The connection behind the handle [c], which must be the cached one and
    still open. *)
Definition live (c : nat) : M connection :=
  fun w =>
    match cachedConn w with
    | Some cn =>
        if (conn_id cn =? c)%nat && negb (disconnected cn)
        then (Ok cn, w) else (Throw (Err closed_msg), w)
    | None => (Throw (Err closed_msg), w)
    end.

Definition put_conn (cn : connection) : M unit :=
  fun w => (Ok tt, set_cachedConn (Some cn) w).

(** One round trip to the server on [c].  A fault makes the call throw with
    no effect on the database; a fatal one closes the connection, and the
    server then drops the transaction open on it.  [ends_txn] is set for
    COMMIT and ROLLBACK, after whose failure no transaction is left open. *)
Definition round_trip (c : nat) (ends_txn : bool) : M connection :=
  cn <- live c ;;
  f <- take_fault ;;
  match f with
  | None => ret cn
  | Some ft =>
      put_conn {| conn_id := conn_id cn;
                  disconnected := fault_fatal ft;
                  txn := if fault_fatal ft || ends_txn then None else txn cn |} ;;
      throw (Err (fault_message ft))
  end.

(** [conn.beginTransaction()]: START TRANSACTION, which first commits a
    transaction still open on the connection. *)
Definition beginTransaction (c : nat) : M unit :=
  cn <- round_trip c false ;;
  fun w =>
    let base := match txn cn with Some d => d | None => store w end in
    (Ok tt, set_cachedConn (Some (with_txn (Some base) cn)) (set_store base w)).

(** [conn.commit()] *)
Definition commit (c : nat) : M unit :=
  cn <- round_trip c true ;;
  fun w =>
    match txn cn with
    | Some d => (Ok tt, set_cachedConn (Some (with_txn None cn)) (set_store d w))
    | None => (Ok tt, w)
    end.

(** [conn.rollback()] *)
Definition rollback (c : nat) : M unit :=
  cn <- round_trip c true ;;
  put_conn (with_txn None cn).

(** [conn.query(sql, params)] for the statement [stmt]: it runs on the
    transaction's state when one is open, on the committed store otherwise
    (autocommit).  A statement that raises an error changes nothing and
    leaves the transaction open. *)
Definition query {A : Type} (c : nat) (stmt : db -> stmt_result A) : M A :=
  cn <- round_trip c false ;;
  fun w =>
    match txn cn with
    | Some d =>
        match stmt d with
        | Done a d' => (Ok a, set_cachedConn (Some (with_txn (Some d') cn)) w)
        | Failed m => (Throw (Err m), w)
        end
    | None =>
        match stmt (store w) with
        | Done a d' => (Ok a, set_store d' w)
        | Failed m => (Throw (Err m), w)
        end
    end.

(** *** Secrets and connection *)

Definition secrets_manager_mode (w : world) : bool :=
  match config_source w with
  | Some s => String.eqb s "SecretsManager"
  | None => false
  end.

(** The fetch from Secrets Manager and the parse of its answer: one
    external call.  The credentials themselves play no part here. *)
Definition fetch_secret : M unit :=
  f <- take_fault ;;
  match f with
  | None => fun w => (Ok tt, set_cachedSecret true w)
  | Some ft => throw (Err (fault_message ft))
  end.

(** [getSecret] of the guarded DELETE handler and of [lib/config.js]:
    [SECRET_NAME] is required in Secrets Manager mode. *)
Definition getSecret_strict : M unit :=
  fun w =>
    if negb (secrets_manager_mode w) then (Ok tt, w)
    else if cachedSecret w then (Ok tt, w)
    else if negb (str_truthy (secret_name w))
    then (Throw (Err "SECRET_NAME env var is required when CONFIG_SOURCE=SecretsManager"), w)
    else fetch_secret w.

(** [getSecret] of the other handlers: [SECRET_NAME || 'admin_cred']. *)
Definition getSecret_default : M unit :=
  fun w =>
    if negb (secrets_manager_mode w) then (Ok tt, w)
    else if cachedSecret w then (Ok tt, w)
    else fetch_secret w.

Section ConnectionManager.

Variable getSecret : M unit.

(** [mysql.createConnection]: one external call; a new connection has no
    transaction open. *)
Definition createConnection : M connection :=
  getSecret ;;
  f <- take_fault ;;
  match f with
  | Some ft => throw (Err (fault_message ft))
  | None =>
      fun w =>
        (Ok {| conn_id := next_conn_id w; disconnected := false; txn := None |},
         set_next_conn_id (S (next_conn_id w)) w)
  end.

(** Return a healthy connection, recreating if needed. *)
Definition getConnection : M nat :=
  fun w =>
    match cachedConn w with
    | Some cn =>
        if negb (disconnected cn) then (Ok (conn_id cn), w)
        else (connection <- createConnection ;;
              put_conn connection ;;
              ret (conn_id connection)) w
    | None =>
        (connection <- createConnection ;;
         put_conn connection ;;
         ret (conn_id connection)) w
    end.

Definition transient_patterns : list string :=
  ["PROTOCOL_CONNECTION_LOST"; "ECONNRESET"; "ETIMEDOUT"; "EPIPE";
   "read ECONNRESET"; "write EPIPE"]%string.

(** [/PROTOCOL_CONNECTION_LOST|ECONNRESET|ETIMEDOUT|EPIPE|read ECONNRESET|write EPIPE/i
     .test(String(err && err.message))] *)
Definition transient (err : exn) : bool :=
  existsb (fun p => occurs_ci p (message err)) transient_patterns.

(** [cachedConn = null] *)
Definition discard_cached : M unit :=
  fun w => (Ok tt, set_cachedConn None w).

(** If the connection dropped mid-query, retry once with a fresh
    connection. *)
Definition withDb {A : Type} (fn : nat -> M A) : M A :=
  conn <- getConnection ;;
  try_catch (fn conn)
    (fun err =>
       if negb (transient err) then throw err
       else
         discard_cached ;;
         conn' <- getConnection ;;
         fn conn').

End ConnectionManager.

(** *** Requests and responses *)

(** The part of the Lambda event the handlers read.
    - [ctx_method]: [event.requestContext?.http?.method];
    - [jwt_claims], [authorizer_claims]:
      [event?.requestContext?.authorizer?.jwt?.claims] and
      [event?.requestContext?.authorizer?.claims];
    - [path_id]: [event.pathParameters?.id];
    - [body]: [event.body]; [body_json] is what [JSON.parse] makes of the
      body when it is a non-empty string ([None]: it throws);
    - [event_shoes]: [event.shoes], read by the seeder when it is invoked
      without a body. *)
Record event : Type := {
  ctx_method : option string;
  httpMethod : option string;
  jwt_claims : jsval;
  authorizer_claims : jsval;
  rawPath : option string;
  path : option string;
  path_id : option string;
  body : jsval;
  body_json : option jsval;
  event_shoes : jsval
}.

(** The response object; every response of the guarded handlers carries the
    same constant [CORS_HEADERS], which are left out.  [body] is [None] for
    the empty string and otherwise the value that is serialised. *)
Record response : Type := {
  statusCode : Z;
  resp_body : option jsval
}.

Definition resp (status : Z) (b : jsval) : response :=
  {| statusCode := status;
     resp_body := if is_nullish b then None else Some b |}.

(** [s] between double quotes. *)
Definition quoted (s : string) : string :=
  (String (ascii_of_nat 34) s ++ String (ascii_of_nat 34) EmptyString)%string.

Definition msg_body (m : string) : jsval := JObj [("message"%string, JStr m)].

Definition msg_error_body (m e : string) : jsval :=
  JObj [("message"%string, JStr m); ("error"%string, JStr e)].

(** [event?.requestContext?.authorizer?.jwt?.claims ||
     event?.requestContext?.authorizer?.claims || {}] *)
Definition getClaims (ev : event) : jsval :=
  js_or (jwt_claims ev) (js_or (authorizer_claims ev) (JObj [])).

Definition isAdmin (claims : jsval) : bool :=
  let groups := get claims "cognito:groups" in
  if negb (truthy groups) then false
  else match groups with
       | JArr items => includes_str "admin" items
       | _ => string_in "admin" (split "," (ToString groups))
       end.

(** [String(err && err.message || err)] for an [Error]. *)
Definition error_text (err : exn) : string :=
  if String.eqb (message err) EmptyString then "Error" else message err.

(** [/\/shoes\/[^/]+$/.test(p)]: the last piece of the path is not empty,
    the one before it is [shoes], and a slash precedes that. *)
Definition shoe_route (p : string) : bool :=
  match rev (split "/" p) with
  | last :: prev :: _ :: _ => negb (String.eqb last EmptyString) && String.eqb prev "shoes"
  | _ => false
  end.

(** [/\/shoes\/[^/]+\/inventory$/.test(p)] *)
Definition inventory_route (p : string) : bool :=
  match rev (split "/" p) with
  | last :: seg :: prev :: _ :: _ =>
      String.eqb last "inventory" && negb (String.eqb seg EmptyString) && String.eqb prev "shoes"
  | _ => false
  end.

(** [event.rawPath || event.path || ''] *)
Definition request_path (ev : event) : string :=
  match str_or (rawPath ev) (path ev) with
  | Some p => p
  | None => EmptyString
  end.

(** The rows a SELECT returns, as the driver hands them over: a BIGINT
    and an INT as numbers, a VARCHAR as a string, and a DECIMAL as the
    string of its digits, which is why the handlers of GET call
    [parseFloat] on [row.size]. *)
Definition js_of_shoe (r : shoe_row) : jsval :=
  JObj [("id", JNum (shoe_id r)); ("name", JStr (shoe_name r));
        ("brand", JStr (shoe_brand r));
        ("price", JStr (decimal_text 2 (shoe_price r)));
        ("image", JStr (shoe_image r))]%string.

Definition js_of_inventory (r : inv_row) : jsval :=
  JObj [("id", JNum (inv_id r)); ("shoe_id", JNum (inv_shoe r));
        ("size", JStr (decimal_text 1 (inv_size r)));
        ("quantity", JNum (inv_quantity r))]%string.

(** A number inside a response body: [JSON.stringify] writes [null] for
    one that is not finite. *)
Definition js_of_num (n : jsnum) : jsval :=
  match n with Fin d => JNum d | Inf _ | NaN => JNull end.

(** [rows.slice(i, i + 10)] for [i = 0, 10, 20, ...] while [i < rows.length]:
    the batches of the insert loops, with the length as fuel. *)
Fixpoint batches_fuel {A : Type} (fuel : nat) (l : list A) : list (list A) :=
  match fuel with
  | O => []
  | S fuel' =>
      match l with
      | [] => []
      | _ => firstn 10 l :: batches_fuel fuel' (skipn 10 l)
      end
  end.

Definition batches {A : Type} (l : list A) : list (list A) :=
  batches_fuel (List.length l) l.

(** [for (const x of l) await f(x)] *)
Fixpoint for_each {A : Type} (f : A -> M unit) (l : list A) : M unit :=
  match l with
  | [] => ret tt
  | x :: rest => f x ;; for_each f rest
  end.

End Runtime.
Export Runtime.

(** ** DELETE /shoes/{id}, guarded handler with [withDb] *)

Module DeleteShoes.

Definition getConnection : M nat := Runtime.getConnection getSecret_strict.
Definition withDb {A : Type} (fn : nat -> M A) : M A :=
  Runtime.withDb getSecret_strict fn.

(** [{ notFound: true }] or [{ ok: true }] *)
Inductive result : Type := NotFound | Deleted.

(** The function handed to [withDb]. *)
Definition delete_in_transaction (shoeId : string) (conn : nat) : M result :=
  beginTransaction conn ;;
  try_catch
    (del <- query conn (delete_shoe (PStr shoeId)) ;;
     if del =? 0 then
       rollback conn ;;
       ret NotFound
     else
       commit conn ;;
       ret Deleted)
    (fun e => rollback conn ;; throw e).

Definition route (ev : event) : M response :=
  let method := str_or (ctx_method ev) (httpMethod ev) in
  if match method with Some m => String.eqb m "OPTIONS" | None => false end
  then ret (resp 200 JNull)
  else
    let claims := getClaims ev in
    if negb (isAdmin claims)
    then ret (resp 403 (msg_body "Forbidden: admin role required"))
    else
      let path := request_path ev in
      let httpMethod := match method with Some m => m | None => "GET"%string end in
      if String.eqb httpMethod "DELETE" && shoe_route path then
        let shoeId :=
          str_or (path_id ev) (Some (last (split "/" path) EmptyString)) in
        match shoeId with
        | Some shoeId =>
            if String.eqb shoeId EmptyString
            then ret (resp 400 (msg_body "Shoe ID is required."))
            else
              result <- withDb (delete_in_transaction shoeId) ;;
              match result with
              | NotFound => ret (resp 404 (msg_body "Shoe not found."))
              | Deleted => ret (resp 200 (msg_body "Shoe deleted successfully."))
              end
        | None => ret (resp 400 (msg_body "Shoe ID is required."))
        end
      else ret (resp 404 (msg_body "Route not found.")).

(** [exports.handler]: the body above inside [try], any error becoming a
    500. *)
Definition handler (ev : event) : M response :=
  try_catch (route ev)
    (fun err => ret (resp 500 (msg_error_body "Internal Server Error" (error_text err)))).

End DeleteShoes.

(** ** DELETE /shoes/{id}, the handler without guard *)

Module DeleteShoesPlain.

Definition getConnection : M nat := Runtime.getConnection getSecret_default.

Definition handler (ev : event) : M response :=
  if negb (str_truthy (path_id ev))
  then ret (resp 400 (msg_body "Shoe ID is required."))
  else
    let shoeId := match path_id ev with Some s => s | None => EmptyString end in
    fun w =>
      match getConnection w with
      | (Throw error, w1) =>
          (* [connection] is still undefined: no rollback *)
          (Ok (resp 500 (msg_error_body "Error deleting shoe." (message error))), w1)
      | (Ok connection, w1) =>
          try_catch
            (beginTransaction connection ;;
             deleteResult <- query connection (delete_shoe (PStr shoeId)) ;;
             if deleteResult =? 0 then
               rollback connection ;;
               ret (resp 404 (msg_body "Shoe not found."))
             else
               commit connection ;;
               ret (resp 200 (msg_body "Shoe and inventory deleted successfully.")))
            (fun error =>
               rollback connection ;;
               ret (resp 500 (msg_error_body "Error deleting shoe." (message error))))
            w1
      end.

End DeleteShoesPlain.

(** ** PUT /shoes/{id} and PATCH /shoes/{id}/inventory *)

Module UpdateShoes.

Definition getConnection : M nat := Runtime.getConnection getSecret_default.

(** [parseJsonBody]; [JNull] stands for the [null] of a failed parse. *)
Definition parseJsonBody (ev : event) : jsval :=
  match body ev with
  | JStr s =>
      if String.eqb s EmptyString then JObj []
      else match body_json ev with Some v => v | None => JNull end
  | b => js_or b (JObj [])
  end.

(** The [sets] / [vals] of the dynamic UPDATE. *)
Definition field_sets (body : jsval) : list (column * param) :=
  let name := get body "name" in
  let brand := get body "brand" in
  let price := get body "price" in
  let image := get body "image" in
  (if negb (is_nullish name) then [(ColName, PStr (ToString name))] else []) ++
  (if negb (is_nullish brand) then [(ColBrand, PStr (ToString brand))] else []) ++
  (if negb (is_nullish price) then [(ColPrice, param_of_num (ToNumber price))] else []) ++
  (if negb (is_nullish image) then [(ColImage, param_of_js (js_or image JNull))] else []).

(** The row pushed for one entry of [inventory], if any:
    [[Number(shoeId), Number(item.size), Number(item.quantity || 1)]]. *)
Definition inventory_row (shoeId : string) (item : jsval)
  : option (jsnum * jsnum * jsnum) :=
  if truthy item && negb (is_nullish (get item "size"))
  then Some (ToNumber (JStr shoeId),
             ToNumber (get item "size"),
             ToNumber (js_or (get item "quantity") (JNum 1)))
  else None.

Fixpoint inventory_rows (shoeId : string) (inventory : list jsval)
  : list (jsnum * jsnum * jsnum) :=
  match inventory with
  | [] => []
  | item :: rest =>
      match inventory_row shoeId item with
      | Some r => r :: inventory_rows shoeId rest
      | None => inventory_rows shoeId rest
      end
  end.

Definition row_params (r : jsnum * jsnum * jsnum) : param * param * param :=
  let '(s, z, q) := r in (param_of_num s, param_of_num z, param_of_num q).

(** Replace entire inventory. *)
Definition replace_inventory (conn : nat) (shoeId : string) (inventory : jsval)
  : M unit :=
  match inventory with
  | JArr items =>
      query conn (delete_inventory (PStr shoeId)) ;;
      let rows := map row_params (inventory_rows shoeId items) in
      for_each (fun batch => query conn (insert_inventory batch) ;; ret tt)
               (batches rows)
  | _ => ret tt
  end.

(** The [try] block of [handlePutUpdate]. *)
Definition update_in_transaction (conn : nat) (shoeId : string) (body : jsval)
  : M response :=
  let sets := field_sets body in
  found <-
    match sets with
    | _ :: _ =>
        upd <- query conn (update_shoe sets (PStr shoeId)) ;;
        ret (negb (upd =? 0))
    | [] =>
        (* if only inventory is provided, make sure shoe exists *)
        exists_ <- query conn (select_shoe (PStr shoeId)) ;;
        ret (match exists_ with [] => false | _ => true end)
    end ;;
  if negb found then
    rollback conn ;;
    ret (resp 404 (msg_body "Shoe not found."))
  else
    replace_inventory conn shoeId (get body "inventory") ;;
    rows <- query conn (select_shoe (PStr shoeId)) ;;
    commit conn ;;
    ret (resp 200 (match rows with
                   | r :: _ => js_of_shoe r
                   | [] => JObj [("id"%string, js_of_num (ToNumber (JStr shoeId)))]
                   end)).

Definition handlePutUpdate (ev : event) (shoeId : string) : M response :=
  let body := parseJsonBody ev in
  if negb (truthy body) then ret (resp 400 (msg_body "Invalid JSON body"))
  else
    conn <- getConnection ;;
    beginTransaction conn ;;
    try_catch (update_in_transaction conn shoeId body)
      (fun e => rollback conn ;; throw e).

(** The write of [handlePatchInventory], after the checks; [None] is the
    early return of the decrement on a missing row. *)
Definition patch_write (conn : nat) (shoeId : string) (size : dec) (body : jsval)
  : M (option response) :=
  let sid := param_of_num (ToNumber (JStr shoeId)) in
  if negb (is_nullish (get body "quantity")) then
    match ToNumber (get body "quantity") with
    | Fin quantity =>
        if Numbers.ltb quantity 0
        then ret (Some (resp 400 (msg_body (quoted "quantity" ++ " must be a non-negative number."))))
        else
          (* Upsert absolute value *)
          query conn (upsert_inventory (fun _ new => new) sid (PNum size) (PNum quantity)) ;;
          ret None
    | Inf _ | NaN =>
        ret (Some (resp 400 (msg_body (quoted "quantity" ++ " must be a non-negative number."))))
    end
  else
    match ToNumber (get body "delta") with
    | Inf _ | NaN => ret (Some (resp 400 (msg_body (quoted "delta" ++ " must be a number."))))
    | Fin delta =>
        if Numbers.ltb 0 delta then
          query conn (upsert_inventory (fun old new => old + new) sid (PNum size) (PNum delta)) ;;
          ret None
        else if Numbers.ltb delta 0 then
          (* Don't allow negative quantities; if row missing, 400 *)
          curRows <- query conn (select_inventory sid (PNum size)) ;;
          match curRows with
          | [] =>
              ret (Some (resp 400 (msg_body
                "Cannot decrement: inventory row does not exist for this size.")))
          | _ =>
              query conn (update_inventory_greatest (PNum delta) sid (PNum size)) ;;
              ret None
          end
        else ret None
    end.

Definition handlePatchInventory (ev : event) (shoeId : string) : M response :=
  let body := parseJsonBody ev in
  if negb (truthy body) then ret (resp 400 (msg_body "Invalid JSON body"))
  else
    let hasQuantity := negb (is_nullish (get body "quantity")) in
    let hasDelta := negb (is_nullish (get body "delta")) in
    match ToNumber (get body "size") with
    | Inf _ | NaN => ret (resp 400 (msg_body "size (number) is required."))
    | Fin size =>
        if hasQuantity && hasDelta
        then ret (resp 400 (msg_body ("Provide either " ++ quoted "quantity" ++ " or " ++ quoted "delta" ++ ", not both.")))
        else if negb hasQuantity && negb hasDelta
        then ret (resp 400 (msg_body ("Provide " ++ quoted "quantity" ++ " or " ++ quoted "delta" ++ ".")))
        else
          conn <- getConnection ;;
          (* Ensure shoe exists *)
          exists_ <- query conn (select_shoe (PStr shoeId)) ;;
          match exists_ with
          | [] => ret (resp 404 (msg_body "Shoe not found."))
          | _ =>
              early <- patch_write conn shoeId size body ;;
              match early with
              | Some r => ret r
              | None =>
                  rows <- query conn
                            (select_inventory (param_of_num (ToNumber (JStr shoeId)))
                                              (PNum size)) ;;
                  ret (resp 200
                         (match rows with
                          | r :: _ => js_of_inventory r
                          | [] => JObj [("shoe_id", js_of_num (ToNumber (JStr shoeId)));
                                        ("size", JNum size);
                                        ("quantity", JNum 0)]%string
                          end))
              end
          end
    end.

(** [path.split('/').filter(Boolean).pop()] *)
Definition last_piece (p : string) : option string :=
  match rev (filter (fun s => negb (String.eqb s EmptyString)) (split "/" p)) with
  | s :: _ => Some s
  | [] => None
  end.

Definition route (ev : event) : M response :=
  let method :=
    match str_or (ctx_method ev) (httpMethod ev) with
    | Some m => m
    | None => "GET"%string
    end in
  if String.eqb method "OPTIONS" then ret (resp 200 JNull)
  else
    let claims := getClaims ev in
    if negb (isAdmin claims)
    then ret (resp 403 (msg_body "Forbidden: admin role required"))
    else
      let path := request_path ev in
      let idFromPath := str_or (path_id ev) (last_piece path) in
      if String.eqb method "PATCH" && inventory_route path then
        match idFromPath with
        | Some id => handlePatchInventory ev id
        | None => ret (resp 400 (msg_body "Shoe ID is required."))
        end
      else if String.eqb method "PUT" && shoe_route path then
        match idFromPath with
        | Some id => handlePutUpdate ev id
        | None => ret (resp 400 (msg_body "Shoe ID is required."))
        end
      else ret (resp 404 (msg_body "Route not found.")).

Definition handler (ev : event) : M response :=
  try_catch (route ev)
    (fun err => ret (resp 500 (msg_error_body "Internal Server Error" (error_text err)))).

End UpdateShoes.

(** ** POST /shoes *)

(** What both versions of the seeder share. *)
Module Seeding.

(** The TypeError of destructuring [null] or [undefined] (its text is
    abbreviated). *)
Definition destructure_error : exn :=
  Err "Cannot destructure property of null or undefined".

(** The TypeError of reading a property of [null]. *)
Definition property_error : exn :=
  Err "Cannot read properties of null".

Definition lift {A : Type} (o : outcome A) : M A := fun w => (o, w).

(** [l.map(f)] for an [f] that may throw. *)
Fixpoint map_throwing {A B : Type} (f : A -> outcome B) (l : list A)
  : outcome (list B) :=
  match l with
  | [] => Ok []
  | x :: rest =>
      match f x with
      | Throw e => Throw e
      | Ok y =>
          match map_throwing f rest with
          | Throw e => Throw e
          | Ok ys => Ok (y :: ys)
          end
      end
  end.

(** The rows collected for the shoes of one batch, the first of which got
    the id [shoeId]: [row shoeId entry] for every entry of every
    [shoe.inventory] that is an array. *)
Fixpoint collect_inventory (row : Z -> jsval -> outcome (option (param * param * param)))
  (shoeId : Z) (shoeBatch : list jsval) : outcome (list (param * param * param)) :=
  match shoeBatch with
  | [] => Ok []
  | shoe :: rest =>
      match
        match get shoe "inventory" with
        | JArr entries => map_throwing (row shoeId) entries
        | _ => Ok []
        end
      with
      | Throw e => Throw e
      | Ok mine =>
          match collect_inventory row (shoeId + 1) rest with
          | Throw e => Throw e
          | Ok others =>
              Ok (flat_map (fun o => match o with Some r => [r] | None => [] end) mine
                  ++ others)
          end
      end
  end.

Definition seeded_message (totalInserted : nat) : string :=
  ("Shoes seeded successfully! Inserted "
   ++ string_of_Z (Z.of_nat totalInserted) ++ " shoes.")%string.

End Seeding.

(** *** The guarded handler: single item or batch, through [withDb] *)

Module CreateShoes.
Import Seeding.

Definition getConnection : M nat := Runtime.getConnection getSecret_default.
Definition withDb {A : Type} (fn : nat -> M A) : M A :=
  Runtime.withDb getSecret_default fn.

(** Parse body safely: [None] when [JSON.parse] throws. *)
Definition parse_body (ev : event) : option jsval :=
  match body ev with
  | JStr s => if String.eqb s EmptyString then Some (JObj []) else body_json ev
  | b => Some (js_or b (JObj []))
  end.

(** Shape B, the single item form, turned into a one-element batch. *)
Definition single_item (body : jsval) : jsval :=
  let inventory := get body "inventory" in
  let size := get body "size" in
  JObj [("name", get body "name"); ("brand", get body "brand");
        ("price", get body "price"); ("image", get body "image");
        ("inventory",
         if isArray inventory then inventory
         else if negb (is_nullish size)
              then JArr [JObj [("size", size); ("quantity", JNum 1)]]
              else JArr [])]%string.

(** The value of [shoes] once both payload shapes are supported. *)
Definition shoes_of (body : jsval) : jsval :=
  let shoes := get body "shoes" in
  if isArray shoes then shoes
  else if truthy (get body "name") && truthy (get body "brand")
          && negb (is_nullish (get body "price"))
       then JArr [single_item body]
       else shoes.

Definition shoe_values (shoe : jsval) : outcome (param * param * param * param) :=
  if is_nullish shoe then Throw destructure_error
  else Ok (param_of_js (get shoe "name"), param_of_js (get shoe "brand"),
           param_of_num (ToNumber (get shoe "price")),
           param_of_js (js_or (get shoe "image") JNull)).

Definition inventory_entry (shoeId : Z) (entry : jsval)
  : outcome (option (param * param * param)) :=
  if is_nullish entry then Throw destructure_error
  else if negb (is_nullish (get entry "size"))
       then Ok (Some (PNum shoeId,
                      param_of_num (ToNumber (get entry "size")),
                      param_of_num (ToNumber (js_or (get entry "quantity") (JNum 1)))))
       else Ok None.

(** [{ totalInserted, createdRows }] *)
Record progress : Type := {
  totalInserted : nat;
  createdRows : list jsval
}.

(** One turn of the outer loop. *)
Definition seed_batch (conn : nat) (single : bool) (acc : progress)
  (shoeBatch : list jsval) : M progress :=
  shoeValues <- lift (map_throwing shoe_values shoeBatch) ;;
  insertId <- query conn (insert_shoes shoeValues) ;;
  created <-
    (if single then
       (* fetch the created row so UI can append it *)
       rows <- query conn (select_shoe (PNum insertId)) ;;
       ret (match rows with
            | r :: _ => createdRows acc ++ [js_of_shoe r]
            | [] => createdRows acc
            end)
     else ret (createdRows acc)) ;;
  invRows <- lift (collect_inventory inventory_entry insertId shoeBatch) ;;
  for_each (fun invBatch => query conn (insert_inventory invBatch) ;; ret tt)
           (batches invRows) ;;
  ret {| totalInserted := totalInserted acc + List.length shoeBatch;
         createdRows := created |}.

Fixpoint seed_loop (conn : nat) (single : bool) (acc : progress)
  (chunks : list (list jsval)) : M progress :=
  match chunks with
  | [] => ret acc
  | shoeBatch :: rest =>
      acc' <- seed_batch conn single acc shoeBatch ;;
      seed_loop conn single acc' rest
  end.

(** The function handed to [withDb]. *)
Definition seed (shoes : list jsval) (conn : nat) : M progress :=
  seed_loop conn (List.length shoes =? 1)%nat
            {| totalInserted := 0; createdRows := [] |} (batches shoes).

Definition respond (shoes : list jsval) (result : progress) : response :=
  match createdRows result with
  | [row] =>
      if (List.length shoes =? 1)%nat then resp 201 row
      else resp 200 (msg_body (seeded_message (totalInserted result)))
  | _ => resp 200 (msg_body (seeded_message (totalInserted result)))
  end.

(** The handler past the guard: parse, validate, insert, respond. *)
Definition create (ev : event) : M response :=
  match parse_body ev with
  | None => ret (resp 400 (msg_body "Invalid JSON body"))
  | Some body =>
      if is_nullish body then throw property_error
      else
        match shoes_of body with
        | JArr (s :: l) =>
            let shoes := s :: l in
            result <- withDb (seed shoes) ;;
            ret (respond shoes result)
        | _ => ret (resp 400 (msg_body "Invalid or missing shoe data."))
        end
  end.

Definition route (ev : event) : M response :=
  let method :=
    match str_or (ctx_method ev) (httpMethod ev) with
    | Some m => m
    | None => "POST"%string
    end in
  (* CORS preflight *)
  if String.eqb method "OPTIONS" then ret (resp 200 JNull)
  else
    let claims := getClaims ev in
    if negb (isAdmin claims)
    then ret (resp 403 (msg_body "Forbidden: admin role required"))
    else create ev.

Definition handler (ev : event) : M response :=
  try_catch (route ev)
    (fun err => ret (resp 500 (msg_error_body "Seeding/creation failed." (error_text err)))).

End CreateShoes.

(** *** The seeder of [src/handlers]: batch only, no guard *)

Module SeedShoes.
Import Seeding.

Definition getConnection : M nat := Runtime.getConnection getSecret_default.

(** Bulletproof body parsing: the value of [requestBody.shoes]. *)
Definition requested_shoes (ev : event) : outcome jsval :=
  if truthy (body ev) then
    match body ev with
    | JStr _ =>
        match body_json ev with
        | None => Throw (Err "Unexpected token in JSON")
        | Some requestBody =>
            if is_nullish requestBody then Throw property_error
            else Ok (get requestBody "shoes")
        end
    | requestBody => Ok (get requestBody "shoes")
    end
  else Ok (event_shoes ev).

Definition shoe_values (shoe : jsval) : outcome (param * param * param * param) :=
  if is_nullish shoe then Throw destructure_error
  else Ok (param_of_js (get shoe "name"), param_of_js (get shoe "brand"),
           param_of_js (get shoe "price"), param_of_js (get shoe "image")).

Definition inventory_entry (shoeId : Z) (entry : jsval)
  : outcome (option (param * param * param)) :=
  if is_nullish entry then Throw destructure_error
  else Ok (Some (PNum shoeId, param_of_js (get entry "size"),
                 param_of_js (get entry "quantity"))).

Definition seed_batch (connection : nat) (totalInserted : nat)
  (shoeBatch : list jsval) : M nat :=
  shoeValues <- lift (map_throwing shoe_values shoeBatch) ;;
  insertId <- query connection (insert_shoes shoeValues) ;;
  inventoryRows <- lift (collect_inventory inventory_entry insertId shoeBatch) ;;
  for_each (fun inventoryBatch =>
              query connection (insert_inventory inventoryBatch) ;; ret tt)
           (batches inventoryRows) ;;
  ret (totalInserted + List.length shoeBatch)%nat.

Fixpoint seed_loop (connection : nat) (totalInserted : nat)
  (chunks : list (list jsval)) : M nat :=
  match chunks with
  | [] => ret totalInserted
  | shoeBatch :: rest =>
      n <- seed_batch connection totalInserted shoeBatch ;;
      seed_loop connection n rest
  end.

Definition body_of_handler (ev : event) : M response :=
  connection <- getConnection ;;
  shoes <- lift (requested_shoes ev) ;;
  match shoes with
  | JArr (s :: l) =>
      totalInserted <- seed_loop connection 0 (batches (s :: l)) ;;
      ret (resp 200 (msg_body (seeded_message totalInserted)))
  | _ => ret (resp 400 (msg_body "Invalid or missing shoe data."))
  end.

Definition handler (ev : event) : M response :=
  try_catch (body_of_handler ev)
    (fun error => ret (resp 500 (msg_error_body "Seeding failed." (message error)))).

End SeedShoes.

(** ** The read-only handlers *)

(** The statements of GET /shoes and GET /shoes/{id}. *)
Module Reading.

Section Collation.

(** Equality of two texts under the collation of [shoes.brand], which the
    schema leaves to the server. *)
Variable same_text : string -> string -> bool.

(** [brand = ?] for a string. *)
Definition brand_is (brand : string) (r : shoe_row) : bool :=
  same_text (shoe_brand r) brand.

(** The WHERE clause the list handlers build: none without a brand. *)
Definition where_brand (brand : option string) (r : shoe_row) : bool :=
  match brand with
  | Some b => brand_is b r
  | None => true
  end.

(** [SELECT * FROM shoes], with [WHERE brand = ?] when a brand is given.
    The rows come in the order of the table. *)
Definition select_shoes (brand : option string) (d : db)
  : stmt_result (list shoe_row) :=
  Done (filter (where_brand brand) (shoes d)) d.

End Collation.

(** A row of [shoes s LEFT JOIN shoe_inventory i ON s.id = i.shoe_id]: the
    columns of the shoe with one of its inventory rows, or with NULL for
    [size] and [quantity] when it has none. *)
Record joined : Type := {
  j_shoe : shoe_row;
  j_inv : option inv_row
}.

Definition with_shoe (s : shoe_row) (i : inv_row) : joined :=
  {| j_shoe := s; j_inv := Some i |}.

Definition inventory_of (id : Z) (inventory : list inv_row) : list inv_row :=
  filter (fun i => inv_shoe i =? id) inventory.

Definition join_shoe (inventory : list inv_row) (s : shoe_row) : list joined :=
  match inventory_of (shoe_id s) inventory with
  | [] => [{| j_shoe := s; j_inv := None |}]
  | l => map (with_shoe s) l
  end.

Definition left_join (keep : shoe_row -> bool) (d : db) : list joined :=
  flat_map (join_shoe (shoe_inventory d)) (filter keep (shoes d)).

(** ORDER BY, as an insertion into rows already in order.  Of two rows
    that compare equal the one the join gave first stays first; SQL leaves
    their order open, and the keys of the schema leave no two such rows. *)
Fixpoint insert_by {A : Type} (le : A -> A -> bool) (x : A) (l : list A) : list A :=
  match l with
  | [] => [x]
  | y :: rest => if le x y then x :: l else y :: insert_by le x rest
  end.

Definition order_by {A : Type} (le : A -> A -> bool) (l : list A) : list A :=
  fold_right (insert_by le) [] l.

Definition by_size (a b : inv_row) : bool := inv_size a <=? inv_size b.

Definition by_id (a b : shoe_row) : bool := shoe_id a <=? shoe_id b.

(** [ORDER BY i.size]: NULL sorts first. *)
Definition by_joined_size (a b : joined) : bool :=
  match j_inv a, j_inv b with
  | None, _ => true
  | Some _, None => false
  | Some x, Some y => by_size x y
  end.

(** [ORDER BY s.id, i.size] *)
Definition by_id_size (a b : joined) : bool :=
  (shoe_id (j_shoe a) <? shoe_id (j_shoe b)) ||
  ((shoe_id (j_shoe a) =? shoe_id (j_shoe b)) && by_joined_size a b).

(** [SELECT s.id, s.name, s.brand, s.price, s.image, i.size, i.quantity
     FROM shoes s LEFT JOIN shoe_inventory i ON s.id = i.shoe_id
     WHERE s.id = ? ORDER BY i.size] *)
Definition select_shoe_inventory (p : param) (d : db) : stmt_result (list joined) :=
  match key_of_param p with
  | KeyNum n =>
      Done (order_by by_joined_size (left_join (fun s => id_is n (shoe_id s)) d)) d
  | KeyNull => Done [] d
  | KeyError => Failed bad_param_msg
  end.

(** The same over all shoes, or over those of a brand,
    [ORDER BY s.id, i.size]. *)
Definition select_shoes_inventory (keep : shoe_row -> bool) (d : db)
  : stmt_result (list joined) :=
  Done (order_by by_id_size (left_join keep d)) d.

(** [{ size: parseFloat(row.size), quantity: row.quantity }]: the number
    that the text of the size denotes, which has three digits at most. *)
Definition entry_of (i : inv_row) : jsval :=
  JObj [("size", JNum (norm (Dec (inv_size i) 1)));
        ("quantity", JNum (inv_quantity i))]%string.

(** The entries pushed for the rows whose [size] and [quantity] are not
    NULL. *)
Definition entries (rows : list joined) : list jsval :=
  flat_map (fun row => match j_inv row with
                       | Some i => [entry_of i]
                       | None => []
                       end) rows.

(** [{ id, name, brand, price, image, inventory }] *)
Definition shoe_with_inventory (s : shoe_row) (inventory : list jsval) : jsval :=
  JObj [("id", JNum (shoe_id s)); ("name", JStr (shoe_name s));
        ("brand", JStr (shoe_brand s));
        ("price", JStr (decimal_text 2 (shoe_price s)));
        ("image", JStr (shoe_image s)); ("inventory", JArr inventory)]%string.

(** [shoesMap]: a Map, in insertion order, from the id of a shoe to the
    object built for it, kept as the shoe and the entries pushed so far. *)
Definition shoes_map : Type := list (Z * (shoe_row * list jsval)).

(** [shoesMap.has(id)] *)
Definition has (m : shoes_map) (id : Z) : bool :=
  existsb (fun kv => fst kv =? id) m.

(** [shoesMap.get(id).inventory.push(e)] *)
Fixpoint push (id : Z) (e : jsval) (m : shoes_map) : shoes_map :=
  match m with
  | [] => []
  | (k, (s, inventory)) :: rest =>
      if k =? id then (k, (s, inventory ++ [e])) :: rest
      else (k, (s, inventory)) :: push id e rest
  end.

(** One turn of the loop that groups inventory under each shoe. *)
Definition visit (m : shoes_map) (row : joined) : shoes_map :=
  let shoeId := shoe_id (j_shoe row) in
  let m' := if has m shoeId then m else m ++ [(shoeId, (j_shoe row, []))] in
  match j_inv row with
  | Some i => push shoeId (entry_of i) m'
  | None => m'
  end.

Definition group (rows : list joined) : shoes_map :=
  fold_left visit rows [].

(** [Array.from(shoesMap.values())] *)
Definition values (m : shoes_map) : list jsval :=
  map (fun kv => shoe_with_inventory (fst (snd kv)) (snd (snd kv))) m.

End Reading.

(** [getSecret] of the first handlers: always from Secrets Manager, kept
    once fetched. *)
Definition getSecret_cached : M unit :=
  fun w => if cachedSecret w then (Ok tt, w) else fetch_secret w.

(** [event.queryStringParameters], which API Gateway delivers as [null] or
    as an object whose values are strings. *)
Definition query_params : Type := option (list (string * string)).

(** [queryParams && queryParams.brand], when truthy. *)
Definition requested_brand (queryParams : query_params) : option string :=
  match queryParams with
  | Some fields =>
      match find (fun kv => String.eqb (fst kv) "brand") fields with
      | Some (_, brand) => if String.eqb brand EmptyString then None else Some brand
      | None => None
      end
  | None => None
  end.

(** *** GET /shoes, the rows of [shoes] alone *)

Module GetShoesPlain.

Definition getConnection : M nat := Runtime.getConnection getSecret_cached.

Section Handler.

Variable same_text : string -> string -> bool.

Definition handler (queryParams : query_params) : M response :=
  try_catch
    (connection <- getConnection ;;
     rows <- query connection
               (Reading.select_shoes same_text (requested_brand queryParams)) ;;
     ret (resp 200 (JArr (map js_of_shoe rows))))
    (fun error => ret (resp 500 (msg_error_body "Error fetching shoes." (message error)))).

End Handler.

End GetShoesPlain.

(** *** GET /shoes/{id}, the row of [shoes] alone *)

Module GetShoeByIdPlain.

Definition getConnection : M nat := Runtime.getConnection getSecret_cached.

Definition handler (ev : event) : M response :=
  match path_id ev with
  | None => ret (resp 400 (msg_body "Shoe ID is required."))
  | Some shoeId =>
      if String.eqb shoeId EmptyString
      then ret (resp 400 (msg_body "Shoe ID is required."))
      else
        try_catch
          (connection <- getConnection ;;
           rows <- query connection (select_shoe (PStr shoeId)) ;;
           match rows with
           | [] => ret (resp 404 (msg_body "Shoe not found."))
           | row :: _ => ret (resp 200 (js_of_shoe row))
           end)
          (fun error => ret (resp 500 (msg_error_body "Error fetching shoe." (message error))))
  end.

End GetShoeByIdPlain.

(** *** GET /shoes/{id} with the inventory *)

Module GetShoeById.

Section Handler.

(** [getSecret_cached] in the copy of the build directory,
    [getSecret_default] in the other. *)
Variable getSecret : M unit.

Definition getConnection : M nat := Runtime.getConnection getSecret.

Definition handler (ev : event) : M response :=
  match path_id ev with
  | None => ret (resp 400 (msg_body "Shoe ID is required."))
  | Some shoeId =>
      if String.eqb shoeId EmptyString
      then ret (resp 400 (msg_body "Shoe ID is required."))
      else
        try_catch
          (connection <- getConnection ;;
           rows <- query connection (Reading.select_shoe_inventory (PStr shoeId)) ;;
           match rows with
           | [] => ret (resp 404 (msg_body "Shoe not found."))
           | first :: _ =>
               ret (resp 200 (Reading.shoe_with_inventory (Reading.j_shoe first)
                                                          (Reading.entries rows)))
           end)
          (fun error => ret (resp 500 (msg_error_body "Error fetching shoe." (message error))))
  end.

End Handler.

End GetShoeById.

(** *** GET /shoes with the inventory grouped under each shoe *)

Module GetShoes.

Section Handler.

(** [getSecret_default] in [src/handlers], [getSecret_cached] in the other
    copy. *)
Variable getSecret : M unit.
Variable same_text : string -> string -> bool.

Definition getConnection : M nat := Runtime.getConnection getSecret.

Definition handler (queryParams : query_params) : M response :=
  try_catch
    (connection <- getConnection ;;
     rows <- query connection
               (Reading.select_shoes_inventory
                  (Reading.where_brand same_text (requested_brand queryParams))) ;;
     ret (resp 200 (JArr (Reading.values (Reading.group rows)))))
    (fun error => ret (resp 500 (msg_error_body "Error fetching shoes." (message error)))).

End Handler.

End GetShoes.

(** ** GET /images: the objects of the bucket *)

Module ListImages.

Definition BUCKET_NAME : string := "sneakersbucket-publicfiles".

(** [key.endsWith("/")] *)
Fixpoint endsWith_slash (key : string) : bool :=
  match key with
  | EmptyString => false
  | String c EmptyString => Ascii.eqb c "/"
  | String _ rest => endsWith_slash rest
  end.

Definition url_of (key : string) : string :=
  ("https://" ++ BUCKET_NAME ++ ".s3.amazonaws.com/" ++ key)%string.

(** [imageUrls]: the folder itself is excluded. *)
Definition imageUrls (contents : list string) : list string :=
  map url_of (filter (fun key => negb (endsWith_slash key)) contents).

(** The handler, given what [ListObjectsV2] answers for the prefix:
    [contents] is [response.Contents], the keys of the objects, absent
    when there is none.  The call to S3 is one external call. *)
Definition handler (contents : option (list string)) : M response :=
  try_catch
    (f <- take_fault ;;
     match f with
     | Some ft => throw (Err (fault_message ft))
     | None =>
         match contents with
         | None | Some [] => ret (resp 404 (msg_body "No images found."))
         | Some keys =>
             ret (resp 200 (JObj [("images"%string,
                                   JArr (map JStr (imageUrls keys)))]))
         end
     end)
    (fun error => ret (resp 500 (msg_error_body "Error listing images" (message error)))).

End ListImages.

(** ** Concrete stores, worlds and requests *)

Module Samples.

(** Air Zoom, at 129.99. *)
Definition air_zoom : shoe_row :=
  {| shoe_id := 1; shoe_name := "Air Zoom"; shoe_brand := "Nike";
     shoe_price := 12999; shoe_image := "u" |}.

(** Three pairs of size 9.5. *)
Definition size9 : inv_row :=
  {| inv_id := 1; inv_shoe := 1; inv_size := 95; inv_quantity := 3 |}.

(** One shoe with one inventory row, in a schema with or without the
    optional ON DELETE CASCADE. *)
Definition one_shoe (cascade : bool) : db :=
  {| shoes := [air_zoom]; shoes_auto := 2;
     shoe_inventory := [size9]; inventory_auto := 2;
     on_delete_cascade := cascade |}.

(** A cold process over [d]: nothing cached, no fault scheduled,
    credentials from the environment. *)
Definition cold (d : db) : world :=
  {| store := d; cachedConn := None; next_conn_id := 0; faults := [];
     cachedSecret := false; config_source := None; secret_name := None |}.

Definition with_faults (l : list (option fault)) (w : world) : world :=
  set_faults l w.

Definition admin_claims : jsval :=
  JObj [("cognito:groups"%string, JStr "customers,admin")].

Definition customer_claims : jsval :=
  JObj [("cognito:groups"%string, JStr "customers")].

Definition request (method : string) (claims : jsval) (p : string)
  (id : option string) (b : jsval) : event :=
  {| ctx_method := Some method; httpMethod := None;
     jwt_claims := claims; authorizer_claims := JUndef;
     rawPath := Some p; path := None; path_id := id;
     body := b; body_json := None; event_shoes := JUndef |}.

Definition delete_1 : event :=
  request "DELETE" admin_claims "/shoes/1" (Some "1"%string) JUndef.

Definition reset : fault :=
  {| fault_message := "read ECONNRESET"; fault_fatal := true |}.

Definition deadlock : fault :=
  {| fault_message := "ER_LOCK_DEADLOCK"; fault_fatal := false |}.

(** [PUT /shoes/1] replacing the inventory by [items]. *)
Definition put_inventory (items : list jsval) : event :=
  request "PUT" admin_claims "/shoes/1" (Some "1"%string)
          (JObj [("inventory"%string, JArr items)]).

(** [{ size, quantity }] *)
Definition entry (size : dec) (quantity : jsval) : jsval :=
  JObj [("size", JNum size); ("quantity", quantity)]%string.

(** [PATCH /shoes/1/inventory] with the given body. *)
Definition patch_1 (b : jsval) : event :=
  request "PATCH" admin_claims "/shoes/1/inventory" (Some "1"%string) b.

(** [POST /shoes] with the given body. *)
Definition post (b : jsval) : event :=
  request "POST" admin_claims "/shoes" None b.


Definition air_max : jsval :=
  JObj [("name", JStr "Air Max"); ("brand", JStr "Nike");
        ("price", JNum (Dec 14999 2)); ("image", JStr "v");
        ("inventory", JArr [entry (Dec 95 1) (JNum 3)])]%string.


(** [{ shoes: [...] }] *)
Definition batch (items : list jsval) : jsval :=
  JObj [("shoes"%string, JArr items)].

(** The operation of the retry example: one DELETE in autocommit. *)
Definition delete_once (conn : nat) : M Z :=
  query conn (delete_shoe (PStr "1")).

(** The first statement meets a connection reset; everything else goes
    through. *)
Definition flaky : world :=
  with_faults [None; Some reset] (cold (one_shoe false)).

(** The fifth external call of a PUT (the insert of the batch) fails. *)
Definition failing_insert : world :=
  with_faults [None; None; None; None; Some deadlock] (cold (one_shoe false)).

Definition customer_delete : event :=
  request "DELETE" customer_claims "/shoes/1" (Some "1"%string) JUndef.

Definition preflight : event :=
  request "OPTIONS" JUndef "/shoes/1" None JUndef.

End Samples.

(** ** Notions the statements use *)

Module Spec.

(** [event.requestContext?.http?.method || event.httpMethod], before the
    default each handler puts in its place. *)
Definition method_of (ev : event) : option string :=
  str_or (ctx_method ev) (httpMethod ev).

Definition forbidden : response :=
  resp 403 (msg_body "Forbidden: admin role required").

(** Status 200 and the empty string as body. *)
Definition preflight_ok : response :=
  {| statusCode := 200; resp_body := None |}.

(** The shoe a path parameter names is in the table: the row
    [SELECT id FROM shoes WHERE id = ?] looks for. *)
Definition product_exists (shoeId : string) (d : db) : bool :=
  existsb (fun r => id_is (mysql_number shoeId) (shoe_id r)) (shoes d).

(** The inventory rows of [d] that [shoe_id = ? AND size = ?] finds for
    the numbers [shoe] and [size]. *)
Definition rows_at (shoe size : dec) (d : db) : list inv_row :=
  filter (has_key shoe size) (shoe_inventory d).

(** [r] with its quantity replaced by [f] of it, when [hit] picks [r]. *)
Definition requantify (hit : inv_row -> bool) (f : Z -> Z) (r : inv_row) : inv_row :=
  if hit r
  then {| inv_id := inv_id r; inv_shoe := inv_shoe r; inv_size := inv_size r;
          inv_quantity := f (inv_quantity r) |}
  else r.

(** The shoe, the size in tenths and the quantity that the columns of
    [shoe_inventory] take from three numbers: each rounded to the
    decimals of its column. *)
Definition shoe_stored (shoe : dec) : Z := rounded 0 shoe.
Definition size_stored (size : dec) : Z := rounded 1 size.
Definition quantity_stored (quantity : dec) : Z := rounded 0 quantity.

(** The three fit their columns: BIGINT, DECIMAL(3,1) and INT. *)
Definition fits (shoe size quantity : dec) : Prop :=
  BIGINT_MIN <= shoe_stored shoe <= BIGINT_MAX /\
  -999 <= size_stored size <= 999 /\
  INT_MIN <= quantity_stored quantity <= INT_MAX.

(** The inventory after an upsert of the quantity [q] for the shoe [shoe]
    and the size [size], in tenths: the rows that hold the pair get
    [on_dup old q]; when there is none, a row with [q] is added under the
    next id. *)
Definition upserted (on_dup : Z -> Z -> Z) (shoe size q : Z) (d : db)
  : list inv_row :=
  if existsb (holds_key shoe size) (shoe_inventory d)
  then map (requantify (holds_key shoe size) (fun old => on_dup old q))
           (shoe_inventory d)
  else shoe_inventory d ++
       [{| inv_id := inventory_auto d; inv_shoe := shoe; inv_size := size;
           inv_quantity := q |}].

(** The errors of a statement that the server refuses. *)
Definition statement_errors : list string :=
  [bad_param_msg; bad_null_msg; bad_value_msg; out_of_range_msg; too_long_msg;
   dup_entry_msg].

(** The inventory row [r] is what the INSERT stores for the placeholders
    [p]. *)
Definition stored (p : param * param * param) (r : inv_row) : Prop :=
  let '(s, z, q) := p in
  bigint_of_param s = inr (inv_shoe r) /\
  size_of_param z = inr (inv_size r) /\
  int_of_param q = inr (inv_quantity r).

(** The inventory row [r] carries the numbers of the row [row] that
    [handlePutUpdate] pushed, each rounded to its column. *)
Definition carries (row : jsnum * jsnum * jsnum) (r : inv_row) : Prop :=
  exists shoe size quantity,
    row = (Fin shoe, Fin size, Fin quantity) /\
    fits shoe size quantity /\
    inv_shoe r = shoe_stored shoe /\
    inv_size r = size_stored size /\
    inv_quantity r = quantity_stored quantity.

(** The quantity of an inventory entry is one the default replaces: it is
    missing, [null], 0, or falsy in another way. *)
Definition no_quantity (item : jsval) : Prop :=
  truthy (get item "quantity") = false.

(** The inventory rows that [DELETE FROM shoe_inventory WHERE shoe_id = ?]
    leaves for the id of a path: those of other shoes. *)
Definition rows_of_others (shoeId : string) (d : db) : list inv_row :=
  filter (fun r => negb (id_is (mysql_number shoeId) (inv_shoe r))) (shoe_inventory d).



(** The body [PATCH] answers with when no row holds the key. *)
Definition no_row_body (shoe size : dec) : jsval :=
  JObj [("shoe_id", JNum shoe); ("size", JNum size); ("quantity", JNum 0)]%string.

(** The row [PATCH] answers with. *)
Definition patch_body (shoe size : dec) (d : db) : jsval :=
  match rows_at shoe size d with
  | r :: _ => js_of_inventory r
  | [] => no_row_body shoe size
  end.

(** What is left of [handlePatchInventory] after its checks and the
    look-up of the shoe, [pid] being [Number(shoeId)]. *)
Definition patch_tail (shoeId : string) (size pid : dec) (body : jsval)
  (conn : nat) : M response :=
  early <- UpdateShoes.patch_write conn shoeId size body ;;
  match early with
  | Some r => ret r
  | None =>
      rows <- query conn (select_inventory (PNum pid) (PNum size)) ;;
      ret (resp 200
             (match rows with
              | r :: _ => js_of_inventory r
              | [] => no_row_body pid size
              end))
  end.

End Spec.
Export Spec.

(** ** Assertions on the process *)

Module Assertions.

(** [triple P m Q E]: from a world in [P], [m] ends in [Q] when it returns
    and in [E] when it throws.  [M] is a total function, so [m] always
    does one or the other. *)
Definition triple {A : Type} (P : world -> Prop) (m : M A)
  (Q : A -> world -> Prop) (E : exn -> world -> Prop) : Prop :=
  forall w, P w ->
    match m w with
    | (Ok a, w') => Q a w'
    | (Throw e, w') => E e w'
    end.

(** No transaction is open on the cached connection. *)
Definition idle (w : world) : Prop :=
  match cachedConn w with
  | Some cn => txn cn = None
  | None => True
  end.

(** The handle [c] is the cached connection, open, outside a transaction:
    statements commit as they run. *)
Definition autocommit (c : nat) (w : world) : Prop :=
  cachedConn w = Some {| conn_id := c; disconnected := false; txn := None |}.

(** A transaction is open on [c]: the committed store is [s0], the
    transaction sees [d]. *)
Definition in_txn (c : nat) (s0 d : db) (w : world) : Prop :=
  store w = s0 /\
  cachedConn w = Some {| conn_id := c; disconnected := false; txn := Some d |}.

(** Where a failure inside a transaction on [c] leaves the process:
    nothing was committed, and a closed connection has lost its
    transaction. *)
Definition unsettled (c : nat) (s0 : db) (w : world) : Prop :=
  store w = s0 /\
  match cachedConn w with
  | Some cn => conn_id cn = c /\ (disconnected cn = true -> txn cn = None)
  | None => True
  end.

(** Committed store [s0], nothing open. *)
Definition settled (s0 : db) (w : world) : Prop :=
  store w = s0 /\ idle w.

(** What [getSecret] leaves alone. *)
Definition secret_frame (g : M unit) : Prop :=
  forall w,
    store (snd (g w)) = store w /\
    cachedConn (snd (g w)) = cachedConn w /\
    next_conn_id (snd (g w)) = next_conn_id w.

(** No fault is scheduled: every coming external call goes through. *)
Definition no_fault (w : world) : Prop :=
  Forall (fun f => f = None) (faults w).

(** No fault is scheduled, the committed store is [d], and [c] is the
    cached connection in autocommit. *)
Definition steady (c : nat) (d : db) (w : world) : Prop :=
  no_fault w /\ store w = d /\ autocommit c w.

(** No fault is scheduled, the committed store is [d], nothing is open. *)
Definition calm (d : db) (w : world) : Prop :=
  no_fault w /\ store w = d /\ idle w.

End Assertions.
Export Assertions.

(** ** What the handlers are expected to leave *)

Module Expected.

(** The shoe a guarded DELETE names: the path parameter, or else the last
    piece of the path. *)
Definition delete_target (ev : event) : string :=
  match str_or (path_id ev)
               (Some (last (split "/" (request_path ev)) EmptyString)) with
  | Some s => s
  | None => EmptyString
  end.

(** The shoes left when those numbered [n] are gone. *)
Definition without (n : dec) (l : list shoe_row) : list shoe_row :=
  filter (fun s => negb (id_is n (shoe_id s))) l.

Definition deleted_guarded : response :=
  resp 200 (msg_body "Shoe deleted successfully.").

Definition deleted_plain : response :=
  resp 200 (msg_body "Shoe and inventory deleted successfully.").

(** The answer that asks for an id. *)
Definition id_required : response :=
  resp 400 (msg_body "Shoe ID is required.").

(** [g] fetches what it needs when nothing fails, and touches neither the
    store nor the connection. *)
Definition secret_calm (g : M unit) : Prop :=
  forall w, no_fault w ->
    exists w1, g w = (Ok tt, w1) /\ no_fault w1 /\ store w1 = store w /\
               cachedConn w1 = cachedConn w.

(** PRIMARY KEY of [shoes]. *)
Definition primary_key (d : db) : Prop := NoDup (map shoe_id (shoes d)).

(** UNIQUE (shoe_id, size) of [shoe_inventory]. *)
Definition unique_key (d : db) : Prop :=
  NoDup (map (fun i => (inv_shoe i, inv_size i)) (shoe_inventory d)).

(** The inventory rows of a shoe in the order of their sizes. *)
Definition sizes_of (id : Z) (d : db) : list inv_row :=
  Reading.order_by Reading.by_size (Reading.inventory_of id (shoe_inventory d)).

(** What GET /shoes is to list: the kept shoes in the order of their ids,
    each with its inventory in the order of the sizes. *)
Definition catalogue (keep : shoe_row -> bool) (d : db) : Reading.shoes_map :=
  map (fun s => (shoe_id s, (s, map Reading.entry_of (sizes_of (shoe_id s) d))))
      (Reading.order_by Reading.by_id (filter keep (shoes d))).

(** The shoe a row belongs to is one that [shoeId] names: the number that
    MySQL reads in it, under which the statements of a PUT update and
    delete, or the number that [Number] reads in it, under which the rows
    of a new inventory go.  The two are one for an id written in decimal
    digits; an id written with a radix prefix, [0x10], is 16 for [Number]
    and 0 for MySQL. *)
Definition named (shoeId : string) (shoe : Z) : bool :=
  id_is (mysql_number shoeId) shoe ||
  match ToNumber (JStr shoeId) with
  | Fin pid => shoe =? shoe_stored pid
  | _ => false
  end.

(** The inventory rows of the shoes that [shoeId] does not name. *)
Definition rows_beside (shoeId : string) (d : db) : list inv_row :=
  filter (fun r => negb (named shoeId (inv_shoe r))) (shoe_inventory d).

(** [d] is [s0] but for the shoe that [shoeId] names: the same ids in the
    same order, the other shoes as they were, the inventory rows of the
    other shoes as they were; and, unless the inventory was to be
    replaced, the whole inventory as it was. *)
Definition beside (shoeId : string) (replaced : bool) (s0 d : db) : Prop :=
  map shoe_id (shoes d) = map shoe_id (shoes s0) /\
  without (mysql_number shoeId) (shoes d) = without (mysql_number shoeId) (shoes s0) /\
  rows_beside shoeId d = rows_beside shoeId s0 /\
  (replaced = false -> shoe_inventory d = shoe_inventory s0).

(** The text a VARCHAR([len]) column keeps of [s]. *)
Definition kept (len : nat) (s : string) : string := substring 0 len s.

(** The row of a shoe once the fields a PUT gives are stored in it: a
    field that is [null] or missing leaves the column as it is; [name] and
    [brand] are stored as [String] makes them, [price] as [Number] makes it,
    rounded to hundredths, and [image] as it is. *)
Definition updated (body : jsval) (r : shoe_row) : shoe_row :=
  {| shoe_id := shoe_id r;
     shoe_name := if is_nullish (get body "name") then shoe_name r
                  else kept 255 (ToString (get body "name"));
     shoe_brand := if is_nullish (get body "brand") then shoe_brand r
                   else kept 100 (ToString (get body "brand"));
     shoe_price := if is_nullish (get body "price") then shoe_price r
                   else match ToNumber (get body "price") with
                        | Fin d => rounded 2 d
                        | _ => shoe_price r
                        end;
     shoe_image := match get body "image" with
                   | JStr s => kept 512 s
                   | JNum n => kept 512 (mysql_text n)
                   | JBool true => "1"
                   | _ => shoe_image r
                   end |}.

(** The inventory rows under other keys than (shoe, size): the key of a
    row is the pair its columns hold, so the numbers are taken as the
    columns round them. *)
Definition elsewhere (shoe size : dec) (d : db) : list inv_row :=
  filter (fun r => negb (holds_key (shoe_stored shoe) (size_stored size) r))
         (shoe_inventory d).

(** No quantity of the inventory is negative. *)
Definition non_negative (d : db) : Prop :=
  Forall (fun r => 0 <= inv_quantity r) (shoe_inventory d).

(** What a PATCH leaves of [s0]: the shoes, the rows under other keys
    than the one it names, and the sign of the quantities. *)
Definition patched (shoeId : string) (body : jsval) (s0 d : db) : Prop :=
  shoes d = shoes s0 /\
  (forall pid size,
     ToNumber (JStr shoeId) = Fin pid ->
     ToNumber (get body "size") = Fin size ->
     elsewhere pid size d = elsewhere pid size s0) /\
  (non_negative s0 -> non_negative d).

(** The requests a PATCH turns down before it asks for a connection. *)
Definition patch_refused (body : jsval) : Prop :=
  truthy body = false \/
  isFinite (ToNumber (get body "size")) = false \/
  (is_nullish (get body "quantity") = false /\ is_nullish (get body "delta") = false) \/
  (is_nullish (get body "quantity") = true /\ is_nullish (get body "delta") = true).

(** [d] holds what [s0] held and more: rows were only added, after
    those that were there. *)
Definition grown (s0 d : db) : Prop :=
  (exists l, shoes d = shoes s0 ++ l) /\
  (exists l, shoe_inventory d = shoe_inventory s0 ++ l).

(** The ids of [n] rows inserted one after another from [first] on. *)
Definition consecutive (first : Z) (n : nat) : list Z :=
  map (fun k => first + Z.of_nat k) (seq 0 n).

(** The row of [shoes] holds the values sent for it. *)
Definition holds (v : param * param * param * param) (r : shoe_row) : Prop :=
  let '(n, b, p, i) := v in
  text_of_param 255 n = inr (shoe_name r) /\
  text_of_param 100 b = inr (shoe_brand r) /\
  price_of_param p = inr (shoe_price r) /\
  text_of_param 512 i = inr (shoe_image r).

(** The text [t] is what a VARCHAR([len]) column keeps of the value [v]: a
    string as it is, a number as its digits, a boolean as 1 or 0. *)
Definition text_kept (len : nat) (v : jsval) (t : string) : Prop :=
  match v with
  | JStr s => t = kept len s
  | JNum n => t = kept len (mysql_text n)
  | JBool b => t = if b then "1"%string else "0"%string
  | _ => False
  end.

(** The row made from one item of a POST: its [name], its [brand] and its
    [image] as they are, and its [price] as a number, rounded to
    hundredths. *)
Definition made_from (item : jsval) (r : shoe_row) : Prop :=
  text_kept 255 (get item "name") (shoe_name r) /\
  text_kept 100 (get item "brand") (shoe_brand r) /\
  (exists price, ToNumber (get item "price") = Fin price /\
                 shoe_price r = rounded 2 price) /\
  truthy (get item "image") = true /\
  text_kept 512 (get item "image") (shoe_image r).

(** [d'] is [d] after the shoes made from [items] and the rows of their
    inventories were inserted: the shoes under consecutive ids from the
    counter on, in the order of the items, and the inventory rows the
    handler collects for those ids. *)
Definition seeded (items : list jsval) (d d' : db) : Prop :=
  exists rows invs params,
    shoes d' = shoes d ++ rows /\
    shoes_auto d' = shoes_auto d + Z.of_nat (List.length items) /\
    map shoe_id rows = consecutive (shoes_auto d) (List.length items) /\
    Forall2 made_from items rows /\
    shoe_inventory d' = shoe_inventory d ++ invs /\
    Seeding.collect_inventory CreateShoes.inventory_entry (shoes_auto d) items
    = Ok params /\
    Forall2 stored params invs.



(** The quantities of the table are those of an INT column. *)
Definition quantities_fit (d : db) : Prop :=
  Forall (fun r => INT_MIN <= inv_quantity r <= INT_MAX) (shoe_inventory d).

(** The single item form of a POST body, with a size and no inventory of
    its own. *)
Definition single_with_size (body : jsval) (size : dec) : Prop :=
  isArray (get body "shoes") = false /\
  truthy (get body "name") = true /\
  truthy (get body "brand") = true /\
  is_nullish (get body "price") = false /\
  isArray (get body "inventory") = false /\
  is_nullish (get body "size") = false /\
  ToNumber (get body "size") = Fin size.

(** A handler that only reads: on [w] it answers, with one of
    [statuses], and leaves the committed store as it was. *)
Definition answers_reading (statuses : list Z) (m : M response) (w : world) : Prop :=
  exists r w', m w = (Ok r, w') /\ store w' = store w /\ In (statusCode r) statuses.

End Expected.
Export Expected.

(** * A program logic for the handlers *)

Module Logic.

Lemma triple_ret {A : Type} (P : world -> Prop) (a : A) Q E :
  (forall w, P w -> Q a w) -> triple P (ret a) Q E.
Proof. intros H w Hw. simpl. auto. Qed.

Lemma triple_throw {A : Type} (P : world -> Prop) (e : exn)
  (Q : A -> world -> Prop) E :
  (forall w, P w -> E e w) -> triple P (throw e) Q E.
Proof. intros H w Hw. simpl. auto. Qed.

Lemma triple_bind {A B : Type} (P : world -> Prop) (m : M A) (k : A -> M B)
  (R : A -> world -> Prop) Q E :
  triple P m R E ->
  (forall a, triple (R a) (k a) Q E) ->
  triple P (bind m k) Q E.
Proof.
  intros Hm Hk w Hw. unfold bind. specialize (Hm w Hw).
  destruct (m w) as [[a | e] w']; [apply (Hk a w' Hm) | exact Hm].
Qed.

Lemma triple_try {A : Type} (P : world -> Prop) (m : M A) (h : exn -> M A)
  (E' : exn -> world -> Prop) Q E :
  triple P m Q E' ->
  (forall e, triple (E' e) (h e) Q E) ->
  triple P (try_catch m h) Q E.
Proof.
  intros Hm Hh w Hw. unfold try_catch. specialize (Hm w Hw).
  destruct (m w) as [[a | e] w']; [exact Hm | apply (Hh e w' Hm)].
Qed.

Lemma triple_conseq {A : Type} (P P' : world -> Prop) (m : M A)
  (Q Q' : A -> world -> Prop) (E E' : exn -> world -> Prop) :
  triple P' m Q' E' ->
  (forall w, P w -> P' w) ->
  (forall a w, Q' a w -> Q a w) ->
  (forall e w, E' e w -> E e w) ->
  triple P m Q E.
Proof.
  intros Hm HP HQ HE w Hw. specialize (Hm w (HP w Hw)).
  destruct (m w) as [[a | e] w']; auto.
Qed.

Lemma triple_pre {A : Type} (P P' : world -> Prop) (m : M A) Q E :
  triple P' m Q E -> (forall w, P w -> P' w) -> triple P m Q E.
Proof. intros Hm HP. eapply triple_conseq; eauto. Qed.

Lemma triple_bind_ret {A B : Type} (P : world -> Prop) (a : A) (k : A -> M B) Q E :
  triple P (k a) Q E -> triple P (bind (ret a) k) Q E.
Proof. intros H w Hw. exact (H w Hw). Qed.

Lemma triple_for_each {A : Type} (I : world -> Prop) (f : A -> M unit)
  (l : list A) E :
  (forall x, In x l -> triple I (f x) (fun _ => I) E) ->
  triple I (for_each f l) (fun _ => I) E.
Proof.
  induction l as [| x rest IH]; intros Hf.
  - apply triple_ret. auto.
  - simpl. eapply triple_bind.
    + apply Hf. left. reflexivity.
    + intros u. apply IH. intros y Hy. apply Hf. right. exact Hy.
Qed.

(** Running a computation whose triple is known. *)
Lemma triple_run {A : Type} (P : world -> Prop) (m : M A) Q E w :
  triple P m Q E -> P w ->
  (exists a w', m w = (Ok a, w') /\ Q a w') \/
  (exists e w', m w = (Throw e, w') /\ E e w').
Proof.
  intros Hm Hw. specialize (Hm w Hw).
  destruct (m w) as [[a | e] w']; [left | right]; eauto.
Qed.

Lemma bind_ok {A B : Type} (m : M A) (k : A -> M B) w a w' :
  m w = (Ok a, w') -> bind m k w = k a w'.
Proof. intros H. unfold bind. rewrite H. reflexivity. Qed.

Lemma bind_throw {A B : Type} (m : M A) (k : A -> M B) w e w' :
  m w = (Throw e, w') -> bind m k w = (Throw e, w').
Proof. intros H. unfold bind. rewrite H. reflexivity. Qed.

(** *** States of the connection *)

Lemma in_txn_unsettled c s0 d w : in_txn c s0 d w -> unsettled c s0 w.
Proof.
  intros [Hs Hc]. split; [exact Hs |]. rewrite Hc. simpl.
  split; [reflexivity | discriminate].
Qed.

Lemma autocommit_idle c w : autocommit c w -> idle w.
Proof. unfold autocommit, idle. intros ->. reflexivity. Qed.

(** *** The calls on a connection *)

Ltac crush_world :=
  repeat match goal with
         | |- _ /\ _ => split
         | H : _ /\ _ |- _ => destruct H
         | |- context [Nat.eqb ?n ?n] => rewrite Nat.eqb_refl
         end; simpl in *; subst; auto; try congruence;
  try match goal with
      | |- context [fault_fatal ?f] =>
          destruct (fault_fatal f); simpl; auto; try congruence
      end.

Lemma beginTransaction_spec c s0 :
  triple (fun w => store w = s0 /\ autocommit c w) (beginTransaction c)
         (fun _ => in_txn c s0 s0) (fun _ => settled s0).
Proof.
  intros w [Hs Hc]. unfold beginTransaction, round_trip, bind, live, take_fault.
  rewrite Hc. simpl. rewrite Nat.eqb_refl. simpl.
  destruct (faults w) as [| [ft |] rest]; simpl;
    unfold in_txn, settled, idle; simpl; crush_world.
Qed.

Lemma query_txn_spec {A : Type} c s0 d (stmt : db -> stmt_result A) :
  triple (in_txn c s0 d) (query c stmt)
         (fun a w' => exists d', stmt d = Done a d' /\ in_txn c s0 d' w')
         (fun _ => unsettled c s0).
Proof.
  intros w [Hs Hc]. unfold query, round_trip, bind, live, take_fault.
  rewrite Hc. simpl. rewrite Nat.eqb_refl. simpl.
  destruct (faults w) as [| [ft |] rest]; simpl.
  - destruct (stmt d) as [a d' | m] eqn:Hst.
    + exists d'. unfold in_txn. simpl. auto.
    + unfold unsettled. rewrite Hc. simpl. crush_world.
  - unfold unsettled. simpl. crush_world.
  - destruct (stmt d) as [a d' | m] eqn:Hst.
    + exists d'. unfold in_txn. simpl. auto.
    + unfold unsettled. simpl. rewrite Hc. simpl. crush_world.
Qed.

Lemma rollback_spec c s0 :
  triple (unsettled c s0) (rollback c)
         (fun _ => settled s0) (fun _ => settled s0).
Proof.
  intros w [Hs Hc]. unfold rollback, round_trip, bind, live, take_fault, put_conn.
  destruct (cachedConn w) as [cn |] eqn:Hcn.
  - destruct Hc as [Hid Hdead]. rewrite Hid, Nat.eqb_refl. simpl.
    destruct (disconnected cn) eqn:Hd; simpl.
    + split; [exact Hs |]. unfold idle. rewrite Hcn. auto.
    + destruct (faults w) as [| [ft |] rest]; simpl;
        unfold settled, idle; simpl; crush_world.
  - simpl. split; [exact Hs |]. unfold idle. rewrite Hcn. exact I.
Qed.

Lemma commit_spec c s0 d :
  triple (in_txn c s0 d) (commit c)
         (fun _ => settled d) (fun _ => unsettled c s0).
Proof.
  intros w [Hs Hc]. unfold commit, round_trip, bind, live, take_fault, put_conn.
  rewrite Hc. simpl. rewrite Nat.eqb_refl. simpl.
  destruct (faults w) as [| [ft |] rest]; simpl;
    unfold settled, unsettled, idle; simpl; crush_world.
Qed.

Lemma query_autocommit_spec {A : Type} c d (stmt : db -> stmt_result A) :
  triple (fun w => store w = d /\ autocommit c w) (query c stmt)
         (fun a w' => exists d', stmt d = Done a d' /\ store w' = d' /\ autocommit c w')
         (fun _ => settled d).
Proof.
  intros w [Hs Hc]. unfold query, round_trip, bind, live, take_fault.
  rewrite Hc. simpl. rewrite Nat.eqb_refl. simpl.
  destruct (faults w) as [| [ft |] rest]; simpl.
  - rewrite Hs. destruct (stmt d) as [a d' | m] eqn:Hst.
    + exists d'. unfold autocommit. simpl. auto.
    + unfold settled, idle. rewrite Hc. auto.
  - unfold settled, idle. simpl. crush_world.
  - rewrite Hs. destruct (stmt d) as [a d' | m] eqn:Hst.
    + exists d'. unfold autocommit. simpl. auto.
    + unfold settled, idle. simpl. rewrite Hc. auto.
Qed.

(** Both outcomes of ROLLBACK leave nothing open. *)
Lemma rollback_closes c s0 :
  triple (unsettled c s0) (rollback c)
         (fun _ w => unsettled c s0 w /\ idle w)
         (fun _ w => unsettled c s0 w /\ idle w).
Proof.
  intros w [Hs Hc]. unfold rollback, round_trip, bind, live, take_fault, put_conn.
  destruct (cachedConn w) as [cn |] eqn:Hcn.
  - destruct Hc as [Hid Hdead]. rewrite Hid, Nat.eqb_refl. simpl.
    destruct (disconnected cn) eqn:Hd; simpl.
    + unfold unsettled, idle. rewrite Hcn. rewrite Hd. auto.
    + destruct (faults w) as [| [ft |] rest]; simpl;
        unfold unsettled, idle; simpl; crush_world.
  - simpl. unfold unsettled, idle. rewrite Hcn. auto.
Qed.

(** ROLLBACK on the way out of a [try] block: a failure is still caught. *)
Lemma rollback_inside c s0 :
  triple (unsettled c s0) (rollback c)
         (fun _ => settled s0) (fun _ => unsettled c s0).
Proof.
  eapply triple_conseq; [apply (@rollback_closes c s0) | auto | |];
    simpl; intros ? w [[Hs Hc] Hi]; split; auto.
Qed.

Lemma triple_exists_pre {A B : Type} (P : B -> world -> Prop) (m : M A) Q E :
  (forall b, triple (P b) m Q E) ->
  triple (fun w => exists b, P b w) m Q E.
Proof. intros H w [b Hb]. exact (H b w Hb). Qed.

(** A statement inside a transaction, whatever it does, keeps the
    transaction open or leaves it unsettled. *)
Lemma query_keeps_txn {A : Type} c s0 (stmt : db -> stmt_result A) :
  triple (fun w => exists d, in_txn c s0 d w) (query c stmt)
         (fun _ w => exists d, in_txn c s0 d w)
         (fun _ => unsettled c s0).
Proof.
  apply triple_exists_pre. intros d.
  eapply triple_conseq; [apply (@query_txn_spec _ c s0 d stmt) | auto | | auto].
  intros a w [d' [_ H]]. exists d'. exact H.
Qed.

(** *** Secrets and connection *)

Lemma fetch_secret_frame w :
  store (snd (fetch_secret w)) = store w /\
  cachedConn (snd (fetch_secret w)) = cachedConn w /\
  next_conn_id (snd (fetch_secret w)) = next_conn_id w.
Proof.
  unfold fetch_secret, bind, take_fault.
  destruct (faults w) as [| [ft |] rest]; simpl; auto.
Qed.

Lemma getSecret_strict_frame : secret_frame getSecret_strict.
Proof.
  intros w. unfold getSecret_strict.
  destruct (negb (secrets_manager_mode w)); [simpl; auto |].
  destruct (cachedSecret w); [simpl; auto |].
  destruct (negb (str_truthy (secret_name w))); [simpl; auto |].
  apply fetch_secret_frame.
Qed.

Lemma getSecret_default_frame : secret_frame getSecret_default.
Proof.
  intros w. unfold getSecret_default.
  destruct (negb (secrets_manager_mode w)); [simpl; auto |].
  destruct (cachedSecret w); [simpl; auto |].
  apply fetch_secret_frame.
Qed.

(** [createConnection] followed by the assignment to the cache. *)
Lemma connect_spec g s0 :
  secret_frame g ->
  triple (settled s0)
         (connection <- createConnection g ;;
          put_conn connection ;;
          ret (conn_id connection))
         (fun c w' => store w' = s0 /\ autocommit c w')
         (fun _ => settled s0).
Proof.
  intros Hg w [Hs Hi]. unfold createConnection, bind, take_fault, put_conn, ret, throw.
  destruct (Hg w) as [H1 [H2 H3]].
  destruct (g w) as [[[] | e] w1]; simpl in *.
  - destruct (faults w1) as [| [ft |] rest]; simpl;
      unfold settled, autocommit, idle; simpl; rewrite ?H1, ?H2; auto.
  - unfold settled, idle. rewrite H1, H2. auto.
Qed.

Lemma getConnection_spec g s0 :
  secret_frame g ->
  triple (settled s0) (getConnection g)
         (fun c w' => store w' = s0 /\ autocommit c w')
         (fun _ => settled s0).
Proof.
  intros Hg w Hw. unfold getConnection.
  destruct (cachedConn w) as [cn |] eqn:Hcn.
  - destruct (disconnected cn) eqn:Hd; simpl.
    + apply (@connect_spec g s0 Hg w Hw).
    + destruct Hw as [Hs Hi]. unfold idle in Hi. rewrite Hcn in Hi.
      split; [exact Hs |]. unfold autocommit. rewrite Hcn.
      destruct cn as [i dc t]. simpl in *. subst. reflexivity.
  - apply (@connect_spec g s0 Hg w Hw).
Qed.

(** *** With no fault scheduled *)


Lemma take_fault_none w :
  no_fault w ->
  exists w',
    take_fault w = (Ok None, w') /\ no_fault w' /\
    store w' = store w /\ cachedConn w' = cachedConn w /\
    next_conn_id w' = next_conn_id w /\ cachedSecret w' = cachedSecret w.
Proof.
  unfold no_fault, take_fault. intros Hf.
  destruct (faults w) as [| f rest] eqn:Hl.
  - exists w. rewrite Hl. repeat split; auto.
  - inversion Hf; subst. exists (set_faults rest w). simpl. repeat split; auto.
Qed.

(** Then a statement fails only by its own error. *)
Lemma query_steady {A : Type} c d (stmt : db -> stmt_result A) :
  triple (steady c d) (query c stmt)
         (fun a w' => exists d', stmt d = Done a d' /\ steady c d' w')
         (fun e w' => exists m, stmt d = Failed m /\ e = Err m /\ steady c d w').
Proof.
  intros w [Hf [Hs Hc]]. unfold query, round_trip, live.
  unfold bind at 1. unfold bind at 1. rewrite Hc. simpl. rewrite Nat.eqb_refl. simpl.
  destruct (take_fault_none Hf) as [w1 [Ht [Hf1 [Hs1 [Hc1 _]]]]].
  unfold bind. rewrite Ht. simpl.
  rewrite Hs1, Hs. destruct (stmt d) as [a d' | m] eqn:Hst.
  - exists d'. unfold steady, autocommit, no_fault. simpl.
    rewrite Hc1, Hc. auto.
  - exists m. unfold steady, autocommit. rewrite Hs1, Hc1. auto.
Qed.

(** A statement that cannot fail on [d]. *)
Lemma query_steady_done {A : Type} c d (stmt : db -> stmt_result A) a d' w :
  stmt d = Done a d' -> steady c d w ->
  exists w', query c stmt w = (Ok a, w') /\ steady c d' w'.
Proof.
  intros Hst Hw. pose proof (@query_steady A c d stmt w Hw) as H.
  destruct (query c stmt w) as [[a' | e] w'].
  - destruct H as [d'' [H1 H2]]. rewrite Hst in H1. inversion H1; subst.
    exists w'. auto.
  - destruct H as [m [H1 _]]. rewrite Hst in H1. discriminate.
Qed.

Lemma getConnection_calm d w :
  calm d w ->
  exists c w', getConnection getSecret_default w = (Ok c, w') /\ steady c d w'.
Proof.
  intros [Hf [Hs Hi]]. unfold getConnection.
  assert (Hsecret : exists w1,
             getSecret_default w = (Ok tt, w1) /\ no_fault w1 /\
             store w1 = store w).
  { unfold getSecret_default.
    destruct (negb (secrets_manager_mode w)); [exists w; auto |].
    destruct (cachedSecret w); [exists w; auto |].
    unfold fetch_secret, bind.
    destruct (take_fault_none Hf) as [w1 [Ht [Hf1 [Hs1 _]]]].
    rewrite Ht. exists (set_cachedSecret true w1). simpl. auto. }
  assert (Hnew : exists c w',
             (connection <- createConnection getSecret_default ;;
              put_conn connection ;; ret (conn_id connection)) w = (Ok c, w')
             /\ steady c d w').
  { destruct Hsecret as [w1 [Hg [Hf1 Hs1]]].
    destruct (take_fault_none Hf1) as [w2 [Ht [Hf2 [Hs2 _]]]].
    unfold createConnection, bind, put_conn, ret. rewrite Hg, Ht.
    eexists. eexists. split; [reflexivity |].
    unfold steady, autocommit, no_fault. simpl.
    rewrite Hs2, Hs1, Hs. auto. }
  destruct (cachedConn w) as [cn |] eqn:Hcn; [| exact Hnew].
  destruct (disconnected cn) eqn:Hd; simpl; [exact Hnew |].
  exists (conn_id cn), w. split; [reflexivity |].
  unfold idle in Hi. rewrite Hcn in Hi.
  unfold steady, autocommit. rewrite Hcn.
  destruct cn as [i dc t]. simpl in *. subst. auto.
Qed.

End Logic.

Import Logic.

(** * Numbers: what comparison and rounding give *)

Lemma pow10_pos n : 0 < pow10 n.
Proof. unfold pow10. apply Z.pow_pos_nonneg; lia. Qed.

Lemma pow10_S n : pow10 (S n) = 10 * pow10 n.
Proof. unfold pow10. rewrite Nat2Z.inj_succ, Z.pow_succ_r; lia. Qed.


Lemma ltb_zero_r d : Numbers.ltb d 0 = (mant d <? 0).
Proof.
  unfold Numbers.ltb, compare, units. cbn [of_Z mant scale]. rewrite Z.mul_0_l.
  match goal with
  | |- context [pow10 ?n] => pose proof (pow10_pos n) as Hp; set (p := pow10 n) in *
  end.
  destruct (Z.compare_spec (mant d * p) 0) as [H | H | H];
    destruct (Z.ltb_spec (mant d) 0); try reflexivity; nia.
Qed.

Lemma ltb_zero_l d : Numbers.ltb 0 d = (0 <? mant d).
Proof.
  unfold Numbers.ltb, compare, units. cbn [of_Z mant scale]. rewrite Z.mul_0_l.
  match goal with
  | |- context [pow10 ?n] => pose proof (pow10_pos n) as Hp; set (p := pow10 n) in *
  end.
  destruct (Z.compare_spec 0 (mant d * p)) as [H | H | H];
    destruct (Z.ltb_spec 0 (mant d)); try reflexivity; nia.
Qed.

(** The fraction with its last zeros dropped is the same number. *)
Lemma norm_aux_spec m s :
  (scale (norm_aux m s) <= s)%nat /\
  m = mant (norm_aux m s) * pow10 (s - scale (norm_aux m s)).
Proof.
  revert m. induction s as [| s IH]; intros m; cbn [norm_aux].
  - cbn [scale mant]. split; [lia |]. change (pow10 (0 - 0)) with 1. lia.
  - destruct (Z.eqb_spec (m mod 10) 0) as [H0 | H0].
    + destruct (IH (m / 10)) as [Hs Hm]. split; [lia |].
      replace (S s - scale (norm_aux (m / 10) s))%nat
        with (S (s - scale (norm_aux (m / 10) s))) by lia.
      rewrite pow10_S.
      pose proof (Z.div_mod m 10 ltac:(lia)) as Hdm. nia.
    + cbn [scale mant]. split; [lia |]. rewrite Nat.sub_diag.
      change (pow10 0) with 1. lia.
Qed.

Lemma round_div_exact z b : 0 < b -> round_div (z * b) b = z.
Proof.
  intros Hb. unfold round_div.
  assert (Habs : Z.abs (z * b) = Z.abs z * b) by (rewrite Z.abs_mul; lia).
  rewrite Habs.
  replace (2 * (Z.abs z * b) + b) with (Z.abs z * (2 * b) + b) by lia.
  rewrite Z.div_add_l by lia. rewrite (Z.div_small b (2 * b)) by lia.
  rewrite Z.add_0_r. rewrite Z.sgn_mul. rewrite (Z.sgn_pos b) by lia.
  rewrite Z.mul_1_r. rewrite Z.mul_comm. apply Z.abs_sgn.
Qed.

Lemma round_div_nonneg a b : 0 <= a -> 0 < b -> 0 <= round_div a b.
Proof.
  intros Ha Hb. unfold round_div.
  assert (0 <= (2 * Z.abs a + b) / (2 * b)) by (apply Z.div_pos; lia).
  destruct (Z.eq_dec a 0) as [-> | Hne]; [simpl; lia |].
  rewrite Z.sgn_pos by lia. lia.
Qed.

(** Rounding what lies below an integer stays at or below it. *)
Lemma round_div_below a b n : 0 < b -> a <= n * b -> 0 <= n -> round_div a b <= n.
Proof.
  intros Hb Ha Hn. unfold round_div.
  destruct (Z.lt_trichotomy a 0) as [Hneg | [-> | Hpos]].
  - rewrite Z.sgn_neg by lia.
    assert (0 <= (2 * Z.abs a + b) / (2 * b)) by (apply Z.div_pos; lia). lia.
  - simpl. exact Hn.
  - rewrite Z.sgn_pos by lia. rewrite Z.abs_eq by lia.
    assert ((2 * a + b) / (2 * b) < n + 1); [| lia].
    apply Z.div_lt_upper_bound; nia.
Qed.

Lemma rounded_of_Z z : rounded 0 (of_Z z) = z.
Proof. unfold rounded, units. simpl. change (pow10 0) with 1. lia. Qed.

Lemma rounded_nonneg s d : 0 <= mant d -> 0 <= rounded s d.
Proof.
  intros Hm. unfold rounded, units. destruct (scale d <=? s)%nat.
  - pose proof (pow10_pos (s - scale d)). nia.
  - apply round_div_nonneg; [exact Hm | apply pow10_pos].
Qed.

Lemma int_of_Z z : int_of (of_Z z) = Some z.
Proof. reflexivity. Qed.

Lemma id_is_of_Z z m : id_is (of_Z z) m = (z =? m).
Proof. reflexivity. Qed.

(** A number that is the integer of a column rounds to it. *)
Lemma id_is_rounded k z : id_is k z = true -> rounded 0 k = z.
Proof.
  unfold id_is, int_of, norm. intros H.
  destruct (norm_aux_spec (mant k) (scale k)) as [Hs Hm].
  destruct (norm_aux (mant k) (scale k)) as [m [| s']] eqn:Hn; [| discriminate].
  apply Z.eqb_eq in H. subst m. simpl in Hm, Hs.
  unfold rounded, units. destruct (Nat.leb_spec (scale k) 0) as [H0 | H0].
  - replace (scale k) with 0%nat in * by lia. simpl in *.
    change (pow10 0) with 1 in *. lia.
  - rewrite Nat.sub_0_r in *. rewrite Hm. apply round_div_exact. apply pow10_pos.
Qed.

(** A number that is the size of a column rounds to it. *)
Lemma size_is_rounded k t : size_is k t = true -> rounded 1 k = t.
Proof.
  unfold size_is, eqb, compare, units. simpl scale. simpl mant. intros H.
  destruct (Z.compare_spec (mant k * pow10 (Nat.max (scale k) 1 - scale k))
                           (t * pow10 (Nat.max (scale k) 1 - 1)))
    as [He | He | He]; try discriminate.
  unfold rounded, units. destruct (Nat.leb_spec (scale k) 1) as [H1 | H1].
  - replace (Nat.max (scale k) 1) with 1%nat in He by lia.
    change (pow10 (1 - 1)) with 1 in He. lia.
  - replace (Nat.max (scale k) 1) with (scale k) in He by lia.
    rewrite Nat.sub_diag in He. change (pow10 0) with 1 in He.
    replace (mant k) with (t * pow10 (scale k - 1)) by lia.
    apply round_div_exact. apply pow10_pos.
Qed.

Lemma has_key_holds shoe size r :
  has_key shoe size r = true ->
  holds_key (rounded 0 shoe) (rounded 1 size) r = true.
Proof.
  unfold has_key, holds_key. intros H. apply andb_true_iff in H.
  destruct H as [Hs Hz].
  rewrite (id_is_rounded _ _ Hs), (size_is_rounded _ _ Hz), !Z.eqb_refl.
  reflexivity.
Qed.

(** [GREATEST(0, ...)] is never negative, is what the integers give when
    the step is one, and does not exceed what was there when the step is
    negative. *)
Lemma greatest_nonneg delta q : 0 <= greatest delta q.
Proof.
  unfold greatest, Numbers.max. rewrite ltb_zero_l.
  destruct (Z.ltb_spec 0 (mant (add (Dec q 0) delta))).
  - apply rounded_nonneg. lia.
  - reflexivity.
Qed.

Lemma greatest_of_Z z q : greatest (of_Z z) q = Z.max 0 (q + z).
Proof.
  unfold greatest, Numbers.max. rewrite ltb_zero_l.
  unfold add, units. cbn [of_Z mant scale Nat.max Nat.sub].
  change (pow10 0) with 1. rewrite !Z.mul_1_r.
  destruct (Z.ltb_spec 0 (q + z)); unfold rounded, units; cbn [mant scale Nat.leb Nat.sub];
    change (pow10 0) with 1; lia.
Qed.

Lemma greatest_below delta q :
  Numbers.ltb delta 0 = true -> greatest delta q <= Z.max 0 q.
Proof.
  rewrite ltb_zero_r. intros Hd. apply Z.ltb_lt in Hd.
  unfold greatest, Numbers.max. rewrite ltb_zero_l.
  unfold add, units. cbn [of_Z mant scale Nat.max].
  rewrite Nat.sub_0_r, Nat.sub_diag. change (pow10 0) with 1.
  rewrite Z.mul_1_r.
  pose proof (pow10_pos (scale delta)) as Hp.
  destruct (Z.ltb_spec 0 (q * pow10 (scale delta) + mant delta)) as [Hpos | Hneg].
  - unfold rounded, units. cbn [mant scale].
    destruct (Nat.leb_spec (scale delta) 0) as [H0 | H0].
    + replace (scale delta) with 0%nat in * by lia.
      change (pow10 (0 - 0)) with 1. change (pow10 0) with 1 in *. lia.
    + rewrite Nat.sub_0_r. apply round_div_below; [exact Hp | nia | lia].
  - unfold rounded, units. cbn [mant scale Nat.leb Nat.sub].
    change (pow10 0) with 1. lia.
Qed.

(** * UpdateProduct: the transaction of [handlePutUpdate] *)

Section UpdateInTransaction.

Variables (c : nat) (s0 : db) (shoeId : string).

Local Abbreviation open_txn := (fun w : world => exists d, in_txn c s0 d w).

Lemma open_txn_unsettled w : open_txn w -> unsettled c s0 w.
Proof. intros [d H]. exact (in_txn_unsettled H). Qed.

Lemma replace_inventory_keeps_txn inventory :
  triple open_txn (UpdateShoes.replace_inventory c shoeId inventory)
         (fun _ => open_txn) (fun _ => unsettled c s0).
Proof.
  destruct inventory; try (apply triple_ret; auto).
  unfold UpdateShoes.replace_inventory.
  eapply triple_bind; [apply query_keeps_txn |].
  intros u. apply triple_for_each. intros batch _.
  eapply triple_bind; [apply query_keeps_txn |].
  intros n. apply triple_ret. auto.
Qed.

Lemma update_in_transaction_spec body :
  triple (in_txn c s0 s0) (UpdateShoes.update_in_transaction c shoeId body)
         (fun r w => idle w /\ (statusCode r = 200 \/ store w = s0))
         (fun _ => unsettled c s0).
Proof.
  unfold UpdateShoes.update_in_transaction.
  eapply triple_bind with (R := fun _ => open_txn).
  - eapply triple_pre with (P' := open_txn); [| intros w H; exists s0; exact H].
    destruct (UpdateShoes.field_sets body).
    + eapply triple_bind; [apply query_keeps_txn |].
      intros rows. apply triple_ret. auto.
    + eapply triple_bind; [apply query_keeps_txn |].
      intros upd. apply triple_ret. auto.
  - intros found. destruct (negb found).
    + eapply triple_bind.
      * eapply triple_pre; [apply (@rollback_inside c s0) | apply open_txn_unsettled].
      * intros u. apply triple_ret. intros w [Hs Hi]. auto.
    + eapply triple_bind; [apply replace_inventory_keeps_txn |].
      intros u. eapply triple_bind; [apply query_keeps_txn |].
      intros rows. apply triple_exists_pre. intros d.
      eapply triple_bind.
      * apply (@commit_spec c s0 d).
      * intros u'. apply triple_ret. intros w [_ Hi]. split; [exact Hi |].
        left. reflexivity.
Qed.

End UpdateInTransaction.

Lemma handlePutUpdate_spec ev shoeId s0 :
  triple (settled s0) (UpdateShoes.handlePutUpdate ev shoeId)
         (fun r w => idle w /\ (statusCode r = 200 \/ store w = s0))
         (fun _ => settled s0).
Proof.
  unfold UpdateShoes.handlePutUpdate.
  destruct (negb (truthy (UpdateShoes.parseJsonBody ev))).
  - apply triple_ret. intros w [Hs Hi]. auto.
  - eapply triple_bind.
    + apply (@getConnection_spec getSecret_default s0 getSecret_default_frame).
    + intros c. eapply triple_bind; [apply beginTransaction_spec |].
      intros u. eapply triple_try.
      * apply update_in_transaction_spec.
      * intros e. eapply triple_bind.
        -- apply rollback_spec.
        -- intros u'. apply triple_throw. auto.
Qed.

(** C3. An exception raised inside the transaction of [handlePutUpdate]
    (by the field update, by the delete of the inventory rows, by an insert
    of the batches, or by the commit itself) is rethrown only after the
    rollback: whenever the call throws, starting from a connection with no
    transaction open, the committed store is what it was before the call,
    so the shoe and its inventory rows are unchanged, and no transaction is
    left open. *)
Theorem update_rolls_back_on_error :
  forall ev shoeId w e w',
    idle w ->
    UpdateShoes.handlePutUpdate ev shoeId w = (Throw e, w') ->
    store w' = store w /\ idle w'.
Proof.
  intros ev shoeId w e w' Hi Hrun.
  pose proof (@handlePutUpdate_spec ev shoeId (store w) w (conj eq_refl Hi)) as H.
  rewrite Hrun in H. exact H.
Qed.

(** The same at the level of the responses: a PUT that is not answered
    200 (400, 404, or the 500 an exception becomes) has committed
    nothing. *)
Lemma update_commits_only_with_200 ev shoeId w :
  idle w ->
  let run := try_catch (UpdateShoes.handlePutUpdate ev shoeId)
               (fun err => ret (resp 500 (msg_error_body "Internal Server Error"
                                                         (error_text err)))) w in
  forall r, fst run = Ok r -> statusCode r <> 200 -> store (snd run) = store w.
Proof.
  intros Hi. unfold try_catch.
  pose proof (@handlePutUpdate_spec ev shoeId (store w) w (conj eq_refl Hi)) as H.
  destruct (UpdateShoes.handlePutUpdate ev shoeId w) as [[r0 | e] w']; simpl.
  - intros r Hr Hst. inversion Hr; subst. destruct H as [_ [H | H]]; congruence.
  - intros r _ _. exact (proj1 H).
Qed.

(** * PatchInventory *)

Lemma get_not_nullish_truthy b k :
  is_nullish (get b k) = false -> truthy b = true.
Proof. destruct b; simpl; try discriminate. reflexivity. Qed.

Lemma select_shoe_str shoeId d :
  select_shoe (PStr shoeId) d =
  Done (filter (fun r => id_is (mysql_number shoeId) (shoe_id r)) (shoes d)) d.
Proof. reflexivity. Qed.

Lemma select_shoe_reads p d a d' : select_shoe p d = Done a d' -> d' = d.
Proof.
  unfold select_shoe. destruct (key_of_param p); intros H; inversion H; reflexivity.
Qed.

Lemma select_inventory_reads s z d a d' :
  select_inventory s z d = Done a d' -> d' = d.
Proof.
  unfold select_inventory.
  destruct (key_of_param s), (key_of_param z); intros H; inversion H; reflexivity.
Qed.

Lemma product_exists_rows shoeId d :
  product_exists shoeId d = true ->
  exists r rest,
    filter (fun r => id_is (mysql_number shoeId) (shoe_id r)) (shoes d) = r :: rest.
Proof.
  unfold product_exists. induction (shoes d) as [| r l IH]; simpl.
  - discriminate.
  - destruct (id_is (mysql_number shoeId) (shoe_id r)); simpl; eauto.
Qed.

(** A read-only statement in autocommit. *)
Lemma query_reads {A : Type} c s0 (stmt : db -> stmt_result A) :
  (forall d a d', stmt d = Done a d' -> d' = d) ->
  triple (fun w => store w = s0 /\ autocommit c w) (query c stmt)
         (fun _ w => store w = s0 /\ autocommit c w)
         (fun _ w => store w = s0).
Proof.
  intros Hro.
  eapply triple_conseq; [apply (@query_autocommit_spec A c s0 stmt) | auto | |].
  - simpl. intros a w [d' [Hst [Hs Hc]]]. apply Hro in Hst. subst. auto.
  - simpl. intros e w [Hs _]. exact Hs.
Qed.

Lemma is_zero_not_below d : is_zero d = true -> Numbers.ltb d 0 = false.
Proof.
  unfold is_zero. intros H. apply Z.eqb_eq in H. rewrite ltb_zero_r, H. reflexivity.
Qed.

Lemma is_zero_not_above d : is_zero d = true -> Numbers.ltb 0 d = false.
Proof.
  unfold is_zero. intros H. apply Z.eqb_eq in H. rewrite ltb_zero_l, H. reflexivity.
Qed.

Section PatchZeroDelta.

Variables (ev : event) (shoeId : string) (size delta : dec).

Local Abbreviation body := (UpdateShoes.parseJsonBody ev).

Hypothesis no_quantity : is_nullish (get body "quantity") = true.
Hypothesis has_delta : is_nullish (get body "delta") = false.
Hypothesis delta_given : ToNumber (get body "delta") = Fin delta.
Hypothesis delta_zero : is_zero delta = true.
Hypothesis size_given : ToNumber (get body "size") = Fin size.

Lemma patch_write_zero c : UpdateShoes.patch_write c shoeId size body = ret None.
Proof.
  unfold UpdateShoes.patch_write.
  rewrite no_quantity, delta_given. simpl negb. cbv iota.
  rewrite (is_zero_not_above _ delta_zero), (is_zero_not_below _ delta_zero).
  reflexivity.
Qed.

Lemma patch_zero_unfolded :
  UpdateShoes.handlePatchInventory ev shoeId =
  (conn <- UpdateShoes.getConnection ;;
   exists_ <- query conn (select_shoe (PStr shoeId)) ;;
   match exists_ with
   | [] => ret (resp 404 (msg_body "Shoe not found."))
   | _ =>
       early <- UpdateShoes.patch_write conn shoeId size body ;;
       match early with
       | Some r => ret r
       | None =>
           rows <- query conn
                     (select_inventory (param_of_num (ToNumber (JStr shoeId)))
                                       (PNum size)) ;;
           ret (resp 200
                  (match rows with
                   | r :: _ => js_of_inventory r
                   | [] => JObj [("shoe_id", js_of_num (ToNumber (JStr shoeId)));
                                 ("size", JNum size);
                                 ("quantity", JNum 0)]%string
                   end))
       end
   end).
Proof.
  unfold UpdateShoes.handlePatchInventory.
  rewrite (get_not_nullish_truthy _ _ has_delta).
  rewrite size_given, no_quantity, has_delta. reflexivity.
Qed.

Lemma patch_zero_frame s0 :
  triple (settled s0) (UpdateShoes.handlePatchInventory ev shoeId)
         (fun _ w => store w = s0) (fun _ w => store w = s0).
Proof.
  rewrite patch_zero_unfolded.
  eapply triple_bind.
  - eapply triple_conseq;
      [apply (@getConnection_spec getSecret_default s0 getSecret_default_frame)
      | auto | intros a w H; exact H | intros e w [H _]; exact H].
  - intros c. eapply triple_bind.
    + apply query_reads. apply select_shoe_reads.
    + intros [| r rows].
      * apply triple_ret. intros w [H _]. exact H.
      * rewrite patch_write_zero. apply triple_bind_ret.
        eapply triple_bind.
        -- apply query_reads. apply select_inventory_reads.
        -- intros rows'. apply triple_ret. intros w [H _]. exact H.
Qed.

(** C10. A PATCH with [delta: 0] (and no [quantity]) runs no INSERT and no
    UPDATE, whatever the size, whole or not: from a connection with no
    transaction open the committed store is unchanged whatever happens to
    the calls; and when nothing fails and the shoe exists, the answer is
    200 with the first row for (shoe, size), or with [quantity: 0] when
    there is none. *)
Theorem patch_zero_delta_reads_only :
  forall w pid,
    idle w ->
    store (snd (UpdateShoes.handlePatchInventory ev shoeId w)) = store w /\
    (no_fault w ->
     product_exists shoeId (store w) = true ->
     ToNumber (JStr shoeId) = Fin pid ->
     fst (UpdateShoes.handlePatchInventory ev shoeId w) =
     Ok (resp 200 (patch_body pid size (store w)))).
Proof.
  intros w pid Hi. split.
  - pose proof (@patch_zero_frame (store w) w (conj eq_refl Hi)) as H.
    destruct (UpdateShoes.handlePatchInventory ev shoeId w) as [[r | e] w'];
      exact H.
  - intros Hf Hex Hpid. rewrite patch_zero_unfolded.
    destruct (@getConnection_calm (store w) w) as [c [w1 [Hc Hw1]]];
      [repeat split; auto |].
    unfold UpdateShoes.getConnection. rewrite (@bind_ok _ _ _ _ _ _ _ Hc).
    destruct (product_exists_rows _ _ Hex) as [r [rest Hrows]].
    destruct (@query_steady_done _ c (store w) (select_shoe (PStr shoeId)) _ _ w1
                (select_shoe_str shoeId (store w)) Hw1) as [w2 [Hq Hw2]].
    rewrite (@bind_ok _ _ _ _ _ _ _ Hq). rewrite Hrows.
    rewrite patch_write_zero. unfold bind at 1. rewrite Hpid.
    change (param_of_num (Fin pid)) with (PNum pid).
    change (js_of_num (Fin pid)) with (JNum pid).
    cbv beta iota delta [ret].
    destruct (@query_steady_done _ c (store w)
                (select_inventory (PNum pid) (PNum size)) _ _ w2
                eq_refl Hw2) as [w3 [Hq3 Hw3]].
    rewrite (@bind_ok _ _ _ _ _ _ _ Hq3). reflexivity.
Qed.

End PatchZeroDelta.

(** The handler once its checks have passed, and its run up to the write
    when nothing fails. *)
Section PatchCommon.

Variables (ev : event) (shoeId : string) (size pid : dec).

Local Abbreviation body := (UpdateShoes.parseJsonBody ev).

Hypothesis body_ok : truthy body = true.
Hypothesis size_given : ToNumber (get body "size") = Fin size.
Hypothesis one_of :
  is_nullish (get body "quantity") = negb (is_nullish (get body "delta")).
Hypothesis id_number : ToNumber (JStr shoeId) = Fin pid.

Lemma patch_unfolded :
  UpdateShoes.handlePatchInventory ev shoeId =
  (conn <- UpdateShoes.getConnection ;;
   exists_ <- query conn (select_shoe (PStr shoeId)) ;;
   match exists_ with
   | [] => ret (resp 404 (msg_body "Shoe not found."))
   | _ => patch_tail shoeId size pid body conn
   end).
Proof.
  unfold UpdateShoes.handlePatchInventory, patch_tail, no_row_body.
  rewrite body_ok, size_given, one_of, id_number.
  destruct (is_nullish (get body "delta")); reflexivity.
Qed.

Lemma patch_run d w :
  calm d w ->
  product_exists shoeId d = true ->
  exists c w1,
    steady c d w1 /\
    UpdateShoes.handlePatchInventory ev shoeId w =
    patch_tail shoeId size pid body c w1.
Proof.
  intros Hw Hex. rewrite patch_unfolded.
  destruct (getConnection_calm Hw) as [c [w0 [Hc Hw0]]].
  unfold UpdateShoes.getConnection. rewrite (@bind_ok _ _ _ _ _ _ _ Hc).
  destruct (product_exists_rows _ _ Hex) as [r [rest Hrows]].
  destruct (@query_steady_done _ c d (select_shoe (PStr shoeId)) _ _ w0
              (select_shoe_str shoeId d) Hw0) as [w1 [Hq Hw1]].
  rewrite (@bind_ok _ _ _ _ _ _ _ Hq). rewrite Hrows.
  exists c, w1. split; [exact Hw1 | reflexivity].
Qed.

(** The answer after a write that returned normally. *)
Lemma patch_answer c d w :
  steady c d w ->
  exists w',
    (rows <- query c (select_inventory (PNum pid) (PNum size)) ;;
     ret (resp 200
            (match rows with
             | r :: _ => js_of_inventory r
             | [] => no_row_body pid size
             end))) w
    = (Ok (resp 200 (patch_body pid size d)), w')
    /\ steady c d w'.
Proof.
  intros Hw.
  destruct (@query_steady_done _ c d (select_inventory (PNum pid) (PNum size))
              _ _ w eq_refl Hw) as [w' [Hq Hw']].
  exists w'. rewrite (@bind_ok _ _ _ _ _ _ _ Hq). split; [reflexivity | exact Hw'].
Qed.

End PatchCommon.

(** ** Quantities that stay in their column *)

Lemma within_fits lo hi v : lo <= v <= hi -> within lo hi v = inr v.
Proof.
  intros [Hlo Hhi]. unfold within.
  destruct (Z.leb_spec lo v); [| lia]. destruct (Z.leb_spec v hi); [| lia].
  reflexivity.
Qed.

Lemma within_inr lo hi v x : within lo hi v = inr x -> x = v /\ lo <= v <= hi.
Proof.
  unfold within. destruct (Z.leb_spec lo v); destruct (Z.leb_spec v hi); simpl;
    intros Heq; inversion Heq; subst; lia.
Qed.

(** Where every new quantity fits, the rows are requantified. *)
Lemma requantified_fits hit f l :
  (forall r, In r l -> hit r = true -> INT_MIN <= f (inv_quantity r) <= INT_MAX) ->
  requantified hit f l = inr (map (requantify hit f) l).
Proof.
  induction l as [| r l IH]; intros H; simpl; [reflexivity |].
  rewrite IH by (intros r' Hin; apply H; right; exact Hin).
  unfold requantify. destruct (hit r) eqn:Hr; [| reflexivity].
  rewrite within_fits by (apply H; [left; reflexivity | exact Hr]). reflexivity.
Qed.

Lemma requantified_done hit f l l' :
  requantified hit f l = inr l' -> l' = map (requantify hit f) l.
Proof.
  revert l'. induction l as [| r l IH]; intros l' H; simpl in *.
  - inversion H. reflexivity.
  - unfold requantify at 1.
    destruct (hit r).
    + destruct (within INT_MIN INT_MAX (f (inv_quantity r))) as [m | q] eqn:Hw;
        [discriminate |].
      destruct (@within_inr _ _ _ _ Hw) as [Hq _]. subst q.
      destruct (requantified hit f l) as [m | rest]; [discriminate |].
      inversion H. rewrite (IH rest eq_refl). reflexivity.
    + destruct (requantified hit f l) as [m | rest]; [discriminate |].
      inversion H. rewrite (IH rest eq_refl). reflexivity.
Qed.

Lemma requantify_nonneg hit f l r :
  (forall q, 0 <= f q) ->
  In r (map (requantify hit f) l) ->
  hit r = true ->
  (forall r0, hit (requantify hit f r0) = hit r0) ->
  0 <= inv_quantity r.
Proof.
  intros Hf Hin Hk Hsame. apply in_map_iff in Hin. destruct Hin as [r0 [Hr _]].
  pose proof (Hsame r0) as Hs. rewrite Hr in Hs.
  unfold requantify in Hr. destruct (hit r0) eqn:Hk0.
  - subst r. simpl. apply Hf.
  - congruence.
Qed.

Lemma has_key_requantify shoe size f r :
  has_key shoe size (requantify (has_key shoe size) f r) = has_key shoe size r.
Proof.
  unfold requantify. destruct (has_key shoe size r) eqn:H; [| exact H].
  unfold has_key in *. simpl. exact H.
Qed.

Lemma holds_key_requantify shoe size f r :
  holds_key shoe size (requantify (holds_key shoe size) f r) = holds_key shoe size r.
Proof.
  unfold requantify. destruct (holds_key shoe size r) eqn:H; [| exact H].
  unfold holds_key in *. simpl. exact H.
Qed.

(** A half is the most that rounding moves a number. *)
Lemma round_div_nearest a b : 0 < b -> 2 * Z.abs (round_div a b * b - a) <= b.
Proof.
  intros Hb. unfold round_div.
  pose proof (Z.div_mod (2 * Z.abs a + b) (2 * b) ltac:(lia)) as Hdm.
  pose proof (Z.mod_pos_bound (2 * Z.abs a + b) (2 * b) ltac:(lia)) as Hm.
  revert Hdm Hm.
  generalize ((2 * Z.abs a + b) / (2 * b)) as k.
  generalize ((2 * Z.abs a + b) mod (2 * b)) as m.
  intros m k Hdm Hm.
  destruct (Z.lt_trichotomy a 0) as [Hneg | [Hz | Hpos]].
  - rewrite Z.sgn_neg by lia. nia.
  - subst a. simpl in *. nia.
  - rewrite Z.sgn_pos by lia. nia.
Qed.


Section PatchNegativeDelta.

Variables (ev : event) (shoeId : string) (size pid delta : dec).

Local Abbreviation body := (UpdateShoes.parseJsonBody ev).

Hypothesis no_quantity : is_nullish (get body "quantity") = true.
Hypothesis delta_given : ToNumber (get body "delta") = Fin delta.
Hypothesis delta_negative : Numbers.ltb delta 0 = true.
Hypothesis size_given : ToNumber (get body "size") = Fin size.
Hypothesis id_number : ToNumber (JStr shoeId) = Fin pid.

Lemma negative_delta_present : is_nullish (get body "delta") = false.
Proof.
  destruct (get body "delta") eqn:Hd; try reflexivity; simpl in delta_given.
  - discriminate.
  - inversion delta_given as [H]. rewrite <- H in delta_negative.
    vm_compute in delta_negative. discriminate.
Qed.

Lemma patch_write_negative c :
  UpdateShoes.patch_write c shoeId size body =
  (curRows <- query c (select_inventory (PNum pid) (PNum size)) ;;
   match curRows with
   | [] =>
       ret (Some (resp 400 (msg_body
         "Cannot decrement: inventory row does not exist for this size.")))
   | _ =>
       query c (update_inventory_greatest (PNum delta) (PNum pid) (PNum size)) ;;
       ret None
   end).
Proof.
  unfold UpdateShoes.patch_write.
  rewrite no_quantity, delta_given, id_number. simpl negb. cbv iota.
  rewrite delta_negative.
  assert (Habove : Numbers.ltb 0 delta = false).
  { rewrite ltb_zero_l. rewrite ltb_zero_r in delta_negative.
    apply Z.ltb_lt in delta_negative. apply Z.ltb_ge. lia. }
  rewrite Habove. reflexivity.
Qed.

(** C2, as the code has it.  A PATCH with a negative [delta], whole or
    not, on an existing shoe, when nothing fails on the way: if no
    inventory row holds (shoe, size) the answer is 400 and the store is as
    before, whatever the magnitude of [delta]; if one does, and the table
    holds quantities of its INT column, the quantity of each such row
    becomes [max 0 (quantity + delta)] rounded to an integer, every other
    row is untouched, and the quantity stored for the key is never
    negative.  The rounded value is an integer nearest to
    [max 0 (quantity + delta)], and is that number itself when [delta] is
    an integer. *)
Theorem patch_negative_delta :
  forall w,
    idle w ->
    no_fault w ->
    product_exists shoeId (store w) = true ->
    (rows_at pid size (store w) = [] ->
     exists w',
       UpdateShoes.handlePatchInventory ev shoeId w =
       (Ok (resp 400 (msg_body
          "Cannot decrement: inventory row does not exist for this size.")), w')
       /\ store w' = store w) /\
    (rows_at pid size (store w) <> [] ->
     quantities_fit (store w) ->
     exists w',
       UpdateShoes.handlePatchInventory ev shoeId w =
       (Ok (resp 200 (patch_body pid size (store w'))), w')
       /\ shoe_inventory (store w') =
          map (requantify (has_key pid size) (greatest delta))
              (shoe_inventory (store w))
       /\ shoes (store w') = shoes (store w)
       /\ forall r, In r (shoe_inventory (store w')) ->
                    has_key pid size r = true -> 0 <= inv_quantity r) /\
    (forall q,
       0 <= greatest delta q /\
       2 * Z.abs (greatest delta q * pow10 (scale delta)
                  - Z.max 0 (q * pow10 (scale delta) + mant delta))
       <= pow10 (scale delta)) /\
    (forall z q, delta = of_Z z -> greatest delta q = Z.max 0 (q + z)).
Proof.
  intros w Hi Hf Hex.
  assert (Hcalm : calm (store w) w) by (repeat split; auto).
  pose proof negative_delta_present as Hd.
  destruct (@patch_run ev shoeId size pid
              (get_not_nullish_truthy _ _ Hd) size_given
              (eq_trans no_quantity (eq_sym (f_equal negb Hd))) id_number
              (store w) w Hcalm Hex) as [c [w1 [Hw1 Hrun]]].
  rewrite Hrun. unfold patch_tail. rewrite patch_write_negative.
  destruct (@query_steady_done _ c (store w)
              (select_inventory (PNum pid) (PNum size)) _ _ w1 eq_refl Hw1)
    as [w2 [Hq Hw2]].
  fold (rows_at pid size (store w)) in Hq.
  split; [| split; [| split]].
  - intros Hrows. exists w2. unfold bind at 1. unfold bind at 1. rewrite Hq, Hrows.
    split; [reflexivity |]. destruct Hw2 as [_ [Hs _]]. exact Hs.
  - intros Hrows Hfit.
    destruct (rows_at pid size (store w)) as [| r0 rest] eqn:Hr; [congruence |].
    assert (Hstmt :
              update_inventory_greatest (PNum delta) (PNum pid) (PNum size) (store w) =
              Done (Z.of_nat (List.length (filter (has_key pid size)
                                                  (shoe_inventory (store w)))))
                   (set_inventory
                      (map (requantify (has_key pid size) (greatest delta))
                           (shoe_inventory (store w))) (store w))).
    { unfold update_inventory_greatest. simpl key_of_param. cbv iota.
      rewrite requantified_fits; [reflexivity |].
      intros r Hin _. unfold quantities_fit in Hfit. rewrite Forall_forall in Hfit.
      specialize (Hfit r Hin).
      pose proof (greatest_nonneg delta (inv_quantity r)) as H0.
      pose proof (greatest_below delta (inv_quantity r) delta_negative) as H1.
      unfold INT_MIN, INT_MAX in *. lia. }
    destruct (@query_steady_done _ c (store w)
                (update_inventory_greatest (PNum delta) (PNum pid) (PNum size))
                _ _ w2 Hstmt Hw2) as [w3 [Hu Hw3]].
    destruct (@patch_answer size pid c _ w3 Hw3) as [w4 [Ha Hw4]].
    exists w4. unfold bind at 1. unfold bind at 1. rewrite Hq.
    cbv iota beta. unfold bind at 1. rewrite Hu. cbv iota beta.
    unfold ret at 1. cbv iota beta.
    destruct Hw4 as [_ [Hs4 _]]. rewrite Hs4.
    split; [exact Ha |]. simpl.
    split; [reflexivity |]. split; [reflexivity |].
    intros r Hin Hk.
    apply (@requantify_nonneg (has_key pid size) (greatest delta)
             (shoe_inventory (store w)) r); auto.
    + apply greatest_nonneg.
    + intros r1. apply has_key_requantify.
  - intros q. split; [apply greatest_nonneg |].
    unfold greatest, Numbers.max. rewrite ltb_zero_l.
    unfold add, units. cbn [of_Z mant scale Nat.max].
    rewrite Nat.sub_0_r, Nat.sub_diag. change (pow10 0) with 1.
    rewrite Z.mul_1_r.
    pose proof (pow10_pos (scale delta)) as Hp.
    destruct (Z.ltb_spec 0 (q * pow10 (scale delta) + mant delta)) as [Hpos | Hneg].
    + rewrite Z.max_r by lia. unfold rounded, units. cbn [mant scale].
      destruct (Nat.leb_spec (scale delta) 0) as [H0 | H0].
      * replace (scale delta) with 0%nat in * by lia.
        change (pow10 (0 - 0)) with 1. change (pow10 0) with 1 in *. lia.
      * rewrite Nat.sub_0_r. apply round_div_nearest. exact Hp.
    + rewrite Z.max_l by lia. unfold rounded, units. cbn [mant scale Nat.leb Nat.sub].
      change (pow10 0) with 1. lia.
  - intros z q Hz. rewrite Hz. apply greatest_of_Z.
Qed.

End PatchNegativeDelta.

(** C2 as stated does not hold: [delta] is any signed number, and the
    quantity is a whole number.  Taking half a pair from three leaves
    three in the table: [max 0 (3 - 0.5)] is 2.5, which the INT column
    rounds. *)
Lemma patch_negative_delta_stores_no_fraction :
  let run := UpdateShoes.handler
               (Samples.patch_1
                  (JObj [("size", JNum (Dec 95 1));
                         ("delta", JNum (Dec (-5) 1))]%string))
               (Samples.cold (Samples.one_shoe false)) in
  fst run = Ok (resp 200 (js_of_inventory Samples.size9)) /\
  shoe_inventory (store (snd run)) = [Samples.size9] /\
  inv_quantity Samples.size9 = 3 /\
  Numbers.max 0 (add 3 (Dec (-5) 1)) = Dec 25 1 /\
  int_of (Dec 25 1) = None.
Proof. vm_compute. repeat split; reflexivity. Qed.

(** ** Absolute mode *)

Lemma numeric_of_number places lo hi n :
  lo <= rounded places n <= hi ->
  numeric_of_param places lo hi (PNum n) = inr (rounded places n).
Proof. intros H. unfold numeric_of_param. apply within_fits. exact H. Qed.

(** The upsert of three numbers that fit their columns, when the
    quantities it leaves fit too. *)
Lemma upsert_inventory_num on_dup s z q d :
  fits s z q ->
  (forall r, In r (shoe_inventory d) ->
             holds_key (shoe_stored s) (size_stored z) r = true ->
             INT_MIN <= on_dup (inv_quantity r) (quantity_stored q) <= INT_MAX) ->
  exists n,
    upsert_inventory on_dup (PNum s) (PNum z) (PNum q) d =
    Done n (set_inventory
              (upserted on_dup (shoe_stored s) (size_stored z) (quantity_stored q) d)
              (set_inventory_auto (inventory_auto d + 1) d)).
Proof.
  intros [Hs [Hz Hq]] Hrows. unfold upsert_inventory, upserted.
  unfold bigint_of_param, size_of_param, int_of_param.
  rewrite (@numeric_of_number 0 _ _ s Hs), (@numeric_of_number 1 _ _ z Hz),
    (@numeric_of_number 0 _ _ q Hq).
  fold (shoe_stored s). fold (size_stored z). fold (quantity_stored q).
  destruct (existsb (holds_key (shoe_stored s) (size_stored z)) (shoe_inventory d)).
  - rewrite requantified_fits by exact Hrows. eexists. reflexivity.
  - eexists. reflexivity.
Qed.


Lemma existsb_requantify shoe size f l :
  existsb (holds_key shoe size) (map (requantify (holds_key shoe size) f) l) =
  existsb (holds_key shoe size) l.
Proof.
  induction l as [| r l IH]; simpl; [reflexivity |].
  rewrite holds_key_requantify, IH. reflexivity.
Qed.



Lemma holds_key_same shoe size i q :
  holds_key shoe size
    {| inv_id := i; inv_shoe := shoe; inv_size := size; inv_quantity := q |} = true.
Proof. unfold holds_key. simpl. rewrite !Z.eqb_refl. reflexivity. Qed.

(** The rows after the upsert hold the key, and upserting the same value
    again changes none of them. *)
Lemma upserted_has_key on_dup shoe size q d :
  existsb (holds_key shoe size) (upserted on_dup shoe size q d) = true.
Proof.
  unfold upserted. destruct (existsb (holds_key shoe size) (shoe_inventory d)) eqn:H.
  - rewrite existsb_requantify. exact H.
  - rewrite existsb_app. simpl. rewrite holds_key_same.
    rewrite orb_true_r. reflexivity.
Qed.



Section PatchAbsolute.

Variables (ev : event) (shoeId : string) (size pid q : dec).

Local Abbreviation body := (UpdateShoes.parseJsonBody ev).

Hypothesis has_quantity : is_nullish (get body "quantity") = false.
Hypothesis no_delta : is_nullish (get body "delta") = true.
Hypothesis quantity_given : ToNumber (get body "quantity") = Fin q.
Hypothesis quantity_nonneg : Numbers.ltb q 0 = false.
Hypothesis size_given : ToNumber (get body "size") = Fin size.
Hypothesis id_number : ToNumber (JStr shoeId) = Fin pid.





End PatchAbsolute.


(** * The guard of the mutating handlers *)

Lemma eqb_options_false m :
  Some m <> Some "OPTIONS"%string -> String.eqb m "OPTIONS" = false.
Proof.
  intros H. destruct (String.eqb_spec m "OPTIONS"); [subst; congruence | reflexivity].
Qed.

(** C7. In the guarded handlers of DELETE, of PUT and PATCH, and of POST:
    a preflight OPTIONS request is answered 200 with an empty body
    whatever its claims, and any other request whose claims lack the admin
    group is answered 403.  In both cases the world is returned as it was
    received: no connection was created or taken from the cache, no
    scheduled call was used up, and the store is unchanged. *)
Theorem guard_precedes_store_access :
  forall ev w,
    (method_of ev = Some "OPTIONS"%string ->
     DeleteShoes.handler ev w = (Ok preflight_ok, w) /\
     UpdateShoes.handler ev w = (Ok preflight_ok, w) /\
     CreateShoes.handler ev w = (Ok preflight_ok, w)) /\
    (method_of ev <> Some "OPTIONS"%string ->
     isAdmin (getClaims ev) = false ->
     DeleteShoes.handler ev w = (Ok forbidden, w) /\
     UpdateShoes.handler ev w = (Ok forbidden, w) /\
     CreateShoes.handler ev w = (Ok forbidden, w)).
Proof.
  intros ev w. unfold method_of. split.
  - intros Hm.
    unfold DeleteShoes.handler, DeleteShoes.route, UpdateShoes.handler,
      UpdateShoes.route, CreateShoes.handler, CreateShoes.route, try_catch.
    rewrite Hm. repeat split; reflexivity.
  - intros Hm Hadmin.
    unfold DeleteShoes.handler, DeleteShoes.route, UpdateShoes.handler,
      UpdateShoes.route, CreateShoes.handler, CreateShoes.route, try_catch.
    rewrite Hadmin.
    destruct (str_or (ctx_method ev) (httpMethod ev)) as [m |].
    + rewrite (eqb_options_false Hm). repeat split; reflexivity.
    + repeat split; reflexivity.
Qed.

(** * The retry of [withDb] *)

(** The signatures the pattern recognises, in any case and anywhere in the
    message; an error of the statement itself is not one of them. *)
Example transient_signatures :
  transient (Err "Connection lost: The server closed the connection. PROTOCOL_CONNECTION_LOST") = true /\
  transient (Err "read ECONNRESET") = true /\
  transient (Err "connect etimedout") = true /\
  transient (Err "write EPIPE") = true /\
  transient (Err "ER_DUP_ENTRY") = false /\
  transient (Err "Cannot destructure property of null or undefined") = false.
Proof. vm_compute. repeat split; reflexivity. Qed.

(** C6. [withDb] obtains a connection and invokes the operation.  When
    that first invocation returns, or throws an error that is not
    transient, this is the outcome of [withDb], the error unmodified.
    When it throws a transient error, the cached connection is discarded
    and a connection is created anew (it is then the cached one, open,
    with no transaction); the operation is invoked on it once more, and
    the outcome of that second invocation, a value or an error, is the
    outcome of [withDb]: nothing is retried after it.  An error met while
    reconnecting propagates. *)
Theorem withDb_retries_once :
  forall (getSecret : M unit) (A : Type) (fn : nat -> M A) w conn w1,
    getConnection getSecret w = (Ok conn, w1) ->
    (forall a w2, fn conn w1 = (Ok a, w2) ->
       withDb getSecret fn w = (Ok a, w2)) /\
    (forall err w2, fn conn w1 = (Throw err, w2) -> transient err = false ->
       withDb getSecret fn w = (Throw err, w2)) /\
    (forall err w2, fn conn w1 = (Throw err, w2) -> transient err = true ->
       let w3 := set_cachedConn None w2 in
       cachedConn w3 = None /\
       (forall conn' w4, getConnection getSecret w3 = (Ok conn', w4) ->
          cachedConn w4 =
            Some {| conn_id := conn'; disconnected := false; txn := None |}
          /\ next_conn_id w4 = S conn'
          /\ withDb getSecret fn w = fn conn' w4) /\
       (forall err' w4, getConnection getSecret w3 = (Throw err', w4) ->
          withDb getSecret fn w = (Throw err', w4))).
Proof.
  intros getSecret A fn w conn w1 Hconn.
  unfold withDb. rewrite (@bind_ok _ _ _ _ _ _ _ Hconn). unfold try_catch.
  split; [| split].
  - intros a w2 H. rewrite H. reflexivity.
  - intros err w2 H Ht. rewrite H, Ht. reflexivity.
  - intros err w2 H Ht. rewrite H, Ht.
    split; [reflexivity |]. split.
    + intros conn' w4 H4. change (negb true) with false.
      unfold bind at 1. unfold discard_cached.
      cbv beta iota. rewrite (@bind_ok _ _ _ _ _ _ _ H4).
      split; [| split]; [| | reflexivity];
        unfold getConnection in H4; simpl in H4;
        unfold createConnection, bind, take_fault, put_conn, ret, throw in H4;
        destruct (getSecret (set_cachedConn None w2)) as [[[] | e] w5];
        try discriminate;
        destruct (faults w5) as [| [ft |] rest]; simpl in H4;
        inversion H4; subst; reflexivity.
    + intros err' w4 H4. change (negb true) with false.
      unfold bind at 1. unfold discard_cached.
      cbv beta iota. rewrite (@bind_throw _ _ _ _ _ _ _ H4). reflexivity.
Qed.

(** * DeleteProduct *)

(** C1, on the store of the README without the optional cascade.  Both
    DELETE handlers answer 200 to the delete of shoe 1, and the inventory
    row of shoe 1 is still in the table: the transaction holds the single
    statement [DELETE FROM shoes WHERE id = ?]. *)
Theorem delete_leaves_inventory_rows :
  let w0 := Samples.cold (Samples.one_shoe false) in
  let guarded := DeleteShoes.handler Samples.delete_1 w0 in
  let plain := DeleteShoesPlain.handler Samples.delete_1 w0 in
  fst guarded = Ok (resp 200 (msg_body "Shoe deleted successfully.")) /\
  shoes (store (snd guarded)) = [] /\
  shoe_inventory (store (snd guarded)) = [Samples.size9] /\
  fst plain = Ok (resp 200 (msg_body "Shoe and inventory deleted successfully.")) /\
  shoes (store (snd plain)) = [] /\
  shoe_inventory (store (snd plain)) = [Samples.size9] /\
  inv_shoe Samples.size9 = 1.
Proof. vm_compute. repeat split; reflexivity. Qed.

(** * UpdateProduct: the rows of the inventory replacement *)

Lemma batches_fuel_concat {A : Type} fuel (l : list A) :
  (List.length l <= fuel)%nat -> List.concat (batches_fuel fuel l) = l.
Proof.
  revert l. induction fuel as [| fuel IH]; intros l Hlen.
  - destruct l; [reflexivity | simpl in Hlen; lia].
  - destruct l as [| x l']; [reflexivity |].
    change (batches_fuel (S fuel) (x :: l'))
      with (firstn 10 (x :: l') :: batches_fuel fuel (skipn 10 (x :: l'))).
    change (List.concat (firstn 10 (x :: l') :: batches_fuel fuel (skipn 10 (x :: l'))))
      with (firstn 10 (x :: l') ++ List.concat (batches_fuel fuel (skipn 10 (x :: l')))).
    rewrite IH.
    + apply firstn_skipn.
    + rewrite length_skipn. simpl List.length in *. lia.
Qed.

(** The batches of the loops lose no row and keep the order. *)
Lemma batches_concat {A : Type} (l : list A) : List.concat (batches l) = l.
Proof. apply batches_fuel_concat. apply Nat.le_refl. Qed.

Lemma new_inventory_stored rows :
  forall first table l,
    new_inventory first table rows = inr l -> Forall2 stored rows l.
Proof.
  induction rows as [| [[s z] q] rows IH]; intros first table l H; simpl in H.
  - inversion H. constructor.
  - destruct (bigint_of_param s) as [m | s'] eqn:Hs; [discriminate |].
    destruct (size_of_param z) as [m | z'] eqn:Hz; [discriminate |].
    destruct (int_of_param q) as [m | q'] eqn:Hq; [discriminate |].
    destruct (existsb (holds_key s' z') table); [discriminate |].
    destruct (new_inventory (first + 1) _ rows) as [m | l'] eqn:Hrec;
      [discriminate |].
    inversion H; subst. constructor.
    + unfold stored. simpl. auto.
    + exact (IH _ _ _ Hrec).
Qed.

Lemma numeric_of_num places lo hi n v :
  numeric_of_param places lo hi (param_of_num n) = inr v ->
  exists d, n = Fin d /\ v = rounded places d /\ lo <= rounded places d <= hi.
Proof.
  destruct n as [d | neg |]; simpl; try discriminate.
  intros H. apply within_inr in H. exists d. tauto.
Qed.

Lemma insert_inventory_done rows d n d' :
  insert_inventory rows d = Done n d' ->
  exists l,
    shoe_inventory d' = shoe_inventory d ++ l /\
    Forall2 stored rows l /\
    shoes d' = shoes d.
Proof.
  unfold insert_inventory.
  destruct (new_inventory (inventory_auto d) (shoe_inventory d) rows) as [m | l] eqn:H;
    [discriminate |].
  intros Hd. inversion Hd; subst. exists l. simpl.
  split; [reflexivity |]. split; [exact (new_inventory_stored _ _ _ H) | reflexivity].
Qed.

Lemma Forall2_app_stored a b la lb :
  Forall2 stored a la -> Forall2 stored b lb -> Forall2 stored (a ++ b) (la ++ lb).
Proof. intros Ha Hb. induction Ha; simpl; [exact Hb | constructor; auto]. Qed.

Lemma stored_carries rows l :
  Forall2 stored (map UpdateShoes.row_params rows) l -> Forall2 carries rows l.
Proof.
  revert l. induction rows as [| [[s z] q] rows IH]; intros l H; inversion H; subst.
  - constructor.
  - constructor; [| apply IH; assumption].
    match goal with Hst : stored _ _ |- _ => destruct Hst as [H1 [H2 H3]] end.
    apply numeric_of_num in H1. destruct H1 as [shoe [Hs [Hsv Hsr]]].
    apply numeric_of_num in H2. destruct H2 as [size [Hz [Hzv Hzr]]].
    apply numeric_of_num in H3. destruct H3 as [quantity [Hq [Hqv Hqr]]].
    subst. exists shoe, size, quantity.
    unfold fits, shoe_stored, size_stored, quantity_stored. tauto.
Qed.

Lemma update_shoe_keeps_inventory sets p d a d' :
  update_shoe sets p d = Done a d' -> shoe_inventory d' = shoe_inventory d.
Proof.
  unfold update_shoe. destruct (existsb _ sets); [discriminate |].
  destruct (key_of_param p) as [n | |]; [| intros H; inversion H; reflexivity
                                          | discriminate].
  destruct (update_rows sets n (shoes d)); intros H; inversion H; reflexivity.
Qed.

Section ReplaceInventory.

Variables (c : nat) (s0 : db) (shoeId : string).

(** The insert loop inside the transaction: what it adds to the
    transaction's inventory when every batch goes through. *)
Lemma insert_batches_spec bs :
  forall d,
    triple (in_txn c s0 d)
           (for_each (fun batch => query c (insert_inventory batch) ;; ret tt) bs)
           (fun _ w => exists d' news,
                in_txn c s0 d' w /\
                shoe_inventory d' = shoe_inventory d ++ news /\
                Forall2 stored (List.concat bs) news /\
                shoes d' = shoes d)
           (fun _ _ => True).
Proof.
  induction bs as [| b bs IH]; intros d.
  - apply triple_ret. intros w H. exists d, [].
    split; [exact H |]. split; [rewrite app_nil_r; reflexivity |].
    split; [constructor | reflexivity].
  - simpl for_each.
    eapply triple_bind
      with (R := fun _ w => exists n d', insert_inventory b d = Done n d' /\
                                         in_txn c s0 d' w).
    + eapply triple_bind.
      * eapply triple_conseq;
          [apply (@query_txn_spec _ c s0 d (insert_inventory b)) | auto | | auto].
        intros a w H. exact H.
      * intros n. apply triple_ret. intros w H. exists n. exact H.
    + intros u w [n [d1 [Hins Htx]]].
      destruct (insert_inventory_done _ _ Hins) as [l1 [Hl1 [Hst1 Hsh1]]].
      pose proof (IH d1 w Htx) as Hrec.
      destruct (for_each _ bs w) as [[v | e] w']; [| exact I].
      destruct Hrec as [d' [news [Htx' [Hinv [Hst Hsh]]]]].
      exists d', (l1 ++ news). split; [exact Htx' |].
      split; [rewrite Hinv, Hl1, app_assoc; reflexivity |].
      split; [simpl; apply Forall2_app_stored; assumption | congruence].
Qed.

Lemma replace_inventory_spec items d :
  triple (in_txn c s0 d)
         (UpdateShoes.replace_inventory c shoeId (JArr items))
         (fun _ w => exists d' news,
              in_txn c s0 d' w /\
              shoe_inventory d' = rows_of_others shoeId d ++ news /\
              Forall2 carries (UpdateShoes.inventory_rows shoeId items) news)
         (fun _ _ => True).
Proof.
  unfold UpdateShoes.replace_inventory. eapply triple_bind.
  - eapply triple_conseq;
      [apply (@query_txn_spec _ c s0 d (delete_inventory (PStr shoeId)))
      | auto | | auto].
    intros a w H. exact H.
  - intros n. apply triple_exists_pre. intros d1. intros w [Hdel Htx].
    simpl in Hdel. inversion Hdel; subst. clear Hdel.
    pose proof (@insert_batches_spec
                  (batches (map UpdateShoes.row_params
                                (UpdateShoes.inventory_rows shoeId items)))
                  _ w Htx) as H.
    destruct (for_each _ _ w) as [[v | e] w']; [| exact I].
    destruct H as [d' [news [Htx' [Hinv [Hst _]]]]].
    exists d', news. split; [exact Htx' |]. split; [exact Hinv |].
    rewrite batches_concat in Hst. exact (stored_carries _ Hst).
Qed.

Lemma update_in_transaction_rows body items :
  get body "inventory" = JArr items ->
  triple (in_txn c s0 s0) (UpdateShoes.update_in_transaction c shoeId body)
         (fun r w => statusCode r = 200 ->
            exists news,
              shoe_inventory (store w) = rows_of_others shoeId s0 ++ news /\
              Forall2 carries (UpdateShoes.inventory_rows shoeId items) news)
         (fun _ _ => True).
Proof.
  intros Hinv. unfold UpdateShoes.update_in_transaction. rewrite Hinv.
  eapply triple_bind
    with (R := fun _ w => exists d, in_txn c s0 d w /\
                                    shoe_inventory d = shoe_inventory s0).
  - destruct (UpdateShoes.field_sets body).
    + eapply triple_bind.
      * eapply triple_conseq;
          [apply (@query_txn_spec _ c s0 s0 (select_shoe (PStr shoeId)))
          | auto | | auto].
        intros a w H. exact H.
      * intros rows. apply triple_ret. intros w [d [Hsel Htx]].
        apply select_shoe_reads in Hsel. subst. eauto.
    + eapply triple_bind.
      * eapply triple_conseq;
          [apply (@query_txn_spec _ c s0 s0 (update_shoe (p :: l) (PStr shoeId)))
          | auto | | auto].
        intros a w H. exact H.
      * intros upd. apply triple_ret. intros w [d [Hup Htx]].
        apply update_shoe_keeps_inventory in Hup. eauto.
  - intros found. apply triple_exists_pre. intros d.
    destruct (negb found).
    + intros w [Htx _]. unfold bind. destruct (rollback c w) as [[[] | e] w']; simpl.
      * discriminate.
      * exact I.
    + intros w [Htx Hd].
      pose proof (@replace_inventory_spec items d w Htx) as Hrep.
      unfold bind at 1.
      destruct (UpdateShoes.replace_inventory c shoeId (JArr items) w)
        as [[[] | e] w1]; [| exact I].
      destruct Hrep as [d1 [news [Htx1 [Hinv1 Hcar]]]].
      pose proof (@query_txn_spec _ c s0 d1 (select_shoe (PStr shoeId)) w1 Htx1) as Hsel.
      unfold bind at 1.
      destruct (query c (select_shoe (PStr shoeId)) w1) as [[rows | e] w2];
        [| exact I].
      destruct Hsel as [d2 [Hsel Htx2]]. apply select_shoe_reads in Hsel. subst d2.
      pose proof (@commit_spec c s0 d1 w2 Htx2) as Hcom.
      unfold bind at 1.
      destruct (commit c w2) as [[[] | e] w3]; [| exact I].
      simpl. intros _. destruct Hcom as [Hs3 _]. exists news.
      rewrite Hs3, Hinv1. unfold rows_of_others. rewrite Hd. auto.
Qed.

End ReplaceInventory.

Lemma handlePutUpdate_rows ev shoeId s0 items :
  get (UpdateShoes.parseJsonBody ev) "inventory" = JArr items ->
  triple (settled s0) (UpdateShoes.handlePutUpdate ev shoeId)
         (fun r w => statusCode r = 200 ->
            exists news,
              shoe_inventory (store w) = rows_of_others shoeId s0 ++ news /\
              Forall2 carries (UpdateShoes.inventory_rows shoeId items) news)
         (fun _ _ => True).
Proof.
  intros Hinv. unfold UpdateShoes.handlePutUpdate.
  destruct (negb (truthy (UpdateShoes.parseJsonBody ev))).
  - apply triple_ret. intros w _. simpl. discriminate.
  - eapply triple_bind.
    + eapply triple_conseq;
        [apply (@getConnection_spec getSecret_default s0 getSecret_default_frame)
        | auto | intros a w H; exact H | auto].
    + intros c. eapply triple_bind.
      * eapply triple_conseq; [apply (@beginTransaction_spec c s0) | auto | | auto].
        intros a w H. exact H.
      * intros u. eapply triple_try.
        -- apply update_in_transaction_rows. exact Hinv.
        -- intros e w _. unfold bind.
           destruct (rollback c w) as [[[] | e'] w']; simpl; exact I.
Qed.

Unset Implicit Arguments.

Lemma inventory_row_default shoeId item :
  truthy item = true ->
  is_nullish (get item "size") = false ->
  no_quantity item ->
  UpdateShoes.inventory_row shoeId item =
  Some (ToNumber (JStr shoeId), ToNumber (get item "size"), Fin 1).
Proof.
  intros Ht Hs Hq. unfold UpdateShoes.inventory_row. rewrite Ht, Hs. simpl.
  unfold no_quantity in Hq. unfold js_or. rewrite Hq. reflexivity.
Qed.

(** A pushed quantity that is not 1 was given, and was truthy. *)
Lemma inventory_row_given shoeId item s z q :
  UpdateShoes.inventory_row shoeId item = Some (s, z, Fin q) ->
  quantity_stored q <> 1 ->
  truthy (get item "quantity") = true /\
  ToNumber (get item "quantity") = Fin q.
Proof.
  unfold UpdateShoes.inventory_row.
  destruct (truthy item && negb (is_nullish (get item "size"))); [| discriminate].
  intros H Hq. injection H as Hs Hz Hn. unfold js_or in Hn.
  destruct (truthy (get item "quantity")).
  - split; [reflexivity | exact Hn].
  - exfalso. apply Hq. simpl in Hn. injection Hn as Hn. rewrite <- Hn. reflexivity.
Qed.

Lemma inventory_rows_in shoeId items item row :
  In item items ->
  UpdateShoes.inventory_row shoeId item = Some row ->
  In row (UpdateShoes.inventory_rows shoeId items).
Proof.
  induction items as [| x items IH]; simpl; [contradiction |].
  intros [Hx | Hin] Hrow.
  - subst x. rewrite Hrow. left. reflexivity.
  - destruct (UpdateShoes.inventory_row shoeId x); [right |]; auto.
Qed.

Lemma inventory_rows_from shoeId items row :
  In row (UpdateShoes.inventory_rows shoeId items) ->
  exists item, In item items /\ UpdateShoes.inventory_row shoeId item = Some row.
Proof.
  induction items as [| x items IH]; simpl; [contradiction |].
  destruct (UpdateShoes.inventory_row shoeId x) as [r |] eqn:Hx.
  - intros [Hr | Hin].
    + subst r. exists x. auto.
    + destruct (IH Hin) as [item [H1 H2]]. exists item. auto.
  - intros Hin. destruct (IH Hin) as [item [H1 H2]]. exists item. auto.
Qed.

Lemma Forall2_carried rows news row :
  Forall2 carries rows news -> In row rows ->
  exists r, In r news /\ carries row r.
Proof.
  intros H. induction H as [| x y l l' Hxy _ IH]; simpl; [contradiction |].
  intros [Hx | Hin].
  - subst x. exists y. auto.
  - destruct (IH Hin) as [r [H1 H2]]. exists r. auto.
Qed.

Lemma Forall2_carrier rows news r :
  Forall2 carries rows news -> In r news ->
  exists row, In row rows /\ carries row r.
Proof.
  intros H. induction H as [| x y l l' Hxy _ IH]; simpl; [contradiction |].
  intros [Hy | Hin].
  - subst y. exists x. auto.
  - destruct (IH Hin) as [row [H1 H2]]. exists row. auto.
Qed.

(** C9, as the code has it.  After a PUT that replaced the inventory and
    answered 200, the inventory table holds the rows of the other shoes
    and, for this shoe, one row for each entry with a size, in order, with
    the numbers the handler pushed, each rounded to its column.  An entry
    whose quantity is falsy (missing, [null], the number 0, the empty
    string, [false]) is stored with quantity 1.  A row with quantity 0 is
    stored all the same, by an entry whose quantity is truthy and whose
    number rounds to 0: the only rows that do not hold 1 by default are
    those of truthy quantities. *)
Theorem replace_defaults_quantity_to_one :
  forall ev shoeId w r w' items,
    idle w ->
    UpdateShoes.handlePutUpdate ev shoeId w = (Ok r, w') ->
    statusCode r = 200 ->
    get (UpdateShoes.parseJsonBody ev) "inventory" = JArr items ->
    exists news,
      shoe_inventory (store w') = rows_of_others shoeId (store w) ++ news /\
      Forall2 carries (UpdateShoes.inventory_rows shoeId items) news /\
      (forall item,
         In item items -> truthy item = true ->
         is_nullish (get item "size") = false -> no_quantity item ->
         exists row size,
           In row news /\
           ToNumber (get item "size") = Fin size /\
           inv_size row = size_stored size /\
           inv_quantity row = 1) /\
      (forall row,
         In row news -> inv_quantity row <> 1 ->
         exists item q,
           In item items /\
           truthy (get item "quantity") = true /\
           ToNumber (get item "quantity") = Fin q /\
           inv_quantity row = quantity_stored q).
Proof.
  intros ev shoeId w r w' items Hi Hrun Hst Hinv.
  pose proof (@handlePutUpdate_rows ev shoeId (store w) items Hinv w
                (conj eq_refl Hi)) as H.
  rewrite Hrun in H. destruct (H Hst) as [news [Hrows Hcar]].
  exists news. split; [exact Hrows |]. split; [exact Hcar |]. split.
  - intros item Hin Ht Hs Hq.
    pose proof (inventory_row_default shoeId item Ht Hs Hq) as Hrow.
    destruct (Forall2_carried _ _ _ Hcar (inventory_rows_in _ _ _ _ Hin Hrow))
      as [row [Hrin Hc]].
    destruct Hc as [shoe [size [quantity [Heq [_ [_ [Hz Hqv]]]]]]].
    inversion Heq as [[Hshoe Hsize Hquantity]].
    exists row, size. split; [exact Hrin |]. split; [exact Hsize |].
    split; [exact Hz |]. rewrite Hqv, <- Hquantity. reflexivity.
  - intros row Hrin Hnot.
    destruct (Forall2_carrier _ _ _ Hcar Hrin) as [pushed [Hpin Hc]].
    destruct (inventory_rows_from _ _ _ Hpin) as [item [Hitem Hrow]].
    destruct Hc as [shoe [size [quantity [Heq [_ [_ [_ Hqv]]]]]]].
    subst pushed. rewrite Hqv in Hnot.
    destruct (inventory_row_given _ _ _ _ _ Hrow Hnot) as [Ht Hn].
    exists item, quantity. auto.
Qed.

(** C9 as stated does not hold: a quantity given as the string "0", or as
    the number 0.4, is truthy, so [quantity || 1] keeps it, and the column
    takes 0 from it. *)
Lemma replace_stores_quantity_zero :
  let run := UpdateShoes.handler
               (Samples.put_inventory [Samples.entry 9 (JStr "0")])
               (Samples.cold (Samples.one_shoe false)) in
  let run' := UpdateShoes.handler
               (Samples.put_inventory [Samples.entry 9 (JNum (Dec 4 1))])
               (Samples.cold (Samples.one_shoe false)) in
  fst run = Ok (resp 200 (js_of_shoe Samples.air_zoom)) /\
  shoe_inventory (store (snd run)) =
  [{| inv_id := 2; inv_shoe := 1; inv_size := 90; inv_quantity := 0 |}] /\
  fst run' = Ok (resp 200 (js_of_shoe Samples.air_zoom)) /\
  shoe_inventory (store (snd run')) =
  [{| inv_id := 2; inv_shoe := 1; inv_size := 90; inv_quantity := 0 |}] /\
  exists row, In row (shoe_inventory (store (snd run))) /\ inv_quantity row = 0.
Proof.
  vm_compute. repeat (split; [reflexivity |]).
  eexists. split; [left; reflexivity | reflexivity].
Qed.

(** * CreateProducts *)

Lemma create_past_guard ev w :
  method_of ev <> Some "OPTIONS"%string ->
  isAdmin (getClaims ev) = true ->
  CreateShoes.handler ev w =
  try_catch (CreateShoes.create ev)
    (fun err => ret (resp 500 (msg_error_body "Seeding/creation failed."
                                              (error_text err)))) w.
Proof.
  intros Hm Hadmin. unfold CreateShoes.handler, CreateShoes.route, try_catch.
  unfold method_of in Hm. rewrite Hadmin. simpl negb. cbv iota.
  destruct (str_or (ctx_method ev) (httpMethod ev)) as [m |].
  - rewrite (eqb_options_false Hm). reflexivity.
  - reflexivity.
Qed.



(** ** What a successful insert run returns *)








(** ** Outside a transaction nothing opens one *)

Lemma query_idle {A : Type} c (stmt : db -> stmt_result A) :
  triple idle (query c stmt) (fun _ => idle) (fun _ => idle).
Proof.
  intros w Hi. unfold query, round_trip, bind, live, take_fault, put_conn, ret, throw.
  unfold idle in Hi.
  destruct (cachedConn w) as [cn |] eqn:Hcn; [| unfold idle; rewrite Hcn; exact I].
  destruct ((conn_id cn =? c)%nat && negb (disconnected cn));
    [| unfold idle; rewrite Hcn; exact Hi].
  destruct (faults w) as [| [ft |] rest]; simpl.
  - rewrite Hi. destruct (stmt (store w)); unfold idle; simpl; rewrite Hcn; exact Hi.
  - unfold idle. simpl. rewrite Hi. destruct (fault_fatal ft); reflexivity.
  - rewrite Hi. destruct (stmt (store w)); unfold idle; simpl; rewrite Hcn; exact Hi.
Qed.

Lemma lift_idle {A : Type} (o : outcome A) :
  triple idle (Seeding.lift o) (fun _ => idle) (fun _ => idle).
Proof. intros w Hi. unfold Seeding.lift. destruct o; exact Hi. Qed.

Lemma getConnection_idle g :
  secret_frame g ->
  triple idle (getConnection g) (fun _ => idle) (fun _ => idle).
Proof.
  intros Hg w Hi.
  pose proof (@getConnection_spec g (store w) Hg w (conj eq_refl Hi)) as H.
  destruct (getConnection g w) as [[c | e] w'].
  - destruct H as [_ H]. exact (autocommit_idle H).
  - destruct H as [_ H]. exact H.
Qed.

Lemma inventory_loop_idle c bs :
  triple idle (for_each (fun b => query c (insert_inventory b) ;; ret tt) bs)
         (fun _ => idle) (fun _ => idle).
Proof.
  apply triple_for_each. intros b _.
  eapply triple_bind; [apply query_idle |].
  intros n. apply triple_ret. auto.
Qed.

Lemma seed_batch_idle c single acc b :
  triple idle (CreateShoes.seed_batch c single acc b) (fun _ => idle) (fun _ => idle).
Proof.
  unfold CreateShoes.seed_batch.
  eapply triple_bind; [apply lift_idle |]. intros vals.
  eapply triple_bind; [apply query_idle |]. intros insertId.
  eapply triple_bind with (R := fun _ => idle).
  - destruct single.
    + eapply triple_bind; [apply query_idle |]. intros rows.
      apply triple_ret. auto.
    + apply triple_ret. auto.
  - intros created. eapply triple_bind; [apply lift_idle |]. intros invRows.
    eapply triple_bind; [apply inventory_loop_idle |]. intros u.
    apply triple_ret. auto.
Qed.

Lemma seed_loop_idle c single chunks :
  forall acc,
    triple idle (CreateShoes.seed_loop c single acc chunks)
           (fun _ => idle) (fun _ => idle).
Proof.
  induction chunks as [| b chunks IH]; intros acc; simpl.
  - apply triple_ret. auto.
  - eapply triple_bind; [apply seed_batch_idle |]. intros acc'. apply IH.
Qed.

Lemma withDb_idle {A : Type} g (fn : nat -> M A) :
  secret_frame g ->
  (forall c, triple idle (fn c) (fun _ => idle) (fun _ => idle)) ->
  triple idle (withDb g fn) (fun _ => idle) (fun _ => idle).
Proof.
  intros Hg Hfn. unfold withDb.
  eapply triple_bind; [apply (getConnection_idle g Hg) |]. intros c.
  eapply triple_try; [apply Hfn |]. intros e.
  destruct (negb (transient e)).
  - apply triple_throw. auto.
  - eapply triple_bind with (R := fun _ => idle).
    + intros w _. unfold discard_cached, idle. simpl. exact I.
    + intros u. eapply triple_bind; [apply (getConnection_idle g Hg) |].
      intros c'. apply Hfn.
Qed.

(** ** Invariants of the committed store *)

(** A statement, on whatever the connection is, keeps an invariant of the
    committed store that it keeps as a function. *)
Lemma query_store {A : Type} c (stmt : db -> stmt_result A) (I : db -> Prop) :
  (forall d a d', I d -> stmt d = Done a d' -> I d') ->
  triple (fun w => I (store w)) (query c stmt)
         (fun _ w => I (store w)) (fun _ w => I (store w)).
Proof.
  intros Hstmt w HI.
  unfold query, round_trip, bind, live, take_fault, put_conn, ret, throw.
  destruct (cachedConn w) as [cn |]; [| exact HI].
  destruct ((conn_id cn =? c)%nat && negb (disconnected cn)); [| exact HI].
  destruct (faults w) as [| [ft |] rest]; simpl; try exact HI.
  - destruct (txn cn) as [t |].
    + destruct (stmt t); exact HI.
    + destruct (stmt (store w)) as [a d' | m] eqn:Hst; [| exact HI].
      simpl. exact (Hstmt _ _ _ HI Hst).
  - destruct (txn cn) as [t |].
    + destruct (stmt t); exact HI.
    + destruct (stmt (store w)) as [a d' | m] eqn:Hst; [| exact HI].
      simpl. exact (Hstmt _ _ _ HI Hst).
Qed.

Lemma getConnection_keeps_store g w :
  secret_frame g -> store (snd (getConnection g w)) = store w.
Proof.
  intros Hg. unfold getConnection.
  assert (Hnew : store (snd ((connection <- createConnection g ;;
                              put_conn connection ;;
                              ret (conn_id connection)) w)) = store w).
  { unfold createConnection, bind, take_fault, put_conn, ret, throw.
    destruct (Hg w) as [H1 _].
    destruct (g w) as [[[] | e] w1]; simpl in *; [| exact H1].
    destruct (faults w1) as [| [ft |] rest]; simpl; exact H1. }
  destruct (cachedConn w) as [cn |]; [| exact Hnew].
  destruct (disconnected cn); [exact Hnew | reflexivity].
Qed.

Lemma getConnection_store g (I : db -> Prop) :
  secret_frame g ->
  triple (fun w => I (store w)) (getConnection g)
         (fun _ w => I (store w)) (fun _ w => I (store w)).
Proof.
  intros Hg w HI. pose proof (getConnection_keeps_store g w Hg) as H.
  destruct (getConnection g w) as [[c | e] w']; simpl in H; rewrite H; exact HI.
Qed.

Section StoreInvariant.

Variable I : db -> Prop.

Local Abbreviation keeps m :=
  (triple (fun w => I (store w)) m (fun _ w => I (store w)) (fun _ w => I (store w))).

Lemma keeps_ret {A : Type} (a : A) : keeps (ret a).
Proof. apply triple_ret. auto. Qed.

Lemma keeps_throw {A : Type} (e : exn) : keeps (@throw A e).
Proof. apply triple_throw. auto. Qed.

Lemma keeps_lift {A : Type} (o : outcome A) : keeps (Seeding.lift o).
Proof. intros w H. unfold Seeding.lift. destruct o; exact H. Qed.

Lemma keeps_bind {A B : Type} (m : M A) (k : A -> M B) :
  keeps m -> (forall a, keeps (k a)) -> keeps (bind m k).
Proof. intros Hm Hk. eapply triple_bind; [exact Hm | exact Hk]. Qed.

Lemma keeps_try {A : Type} (m : M A) (h : exn -> M A) :
  keeps m -> (forall e, keeps (h e)) -> keeps (try_catch m h).
Proof. intros Hm Hh. eapply triple_try; [exact Hm | exact Hh]. Qed.

Lemma keeps_for_each {A : Type} (f : A -> M unit) l :
  (forall x, keeps (f x)) -> keeps (for_each f l).
Proof. intros Hf. apply triple_for_each. intros x _. apply Hf. Qed.

Lemma keeps_withDb {A : Type} g (fn : nat -> M A) :
  secret_frame g -> (forall c, keeps (fn c)) -> keeps (withDb g fn).
Proof.
  intros Hg Hfn. unfold withDb.
  apply keeps_bind; [apply (getConnection_store g I Hg) |]. intros c.
  apply keeps_try; [apply Hfn |]. intros e.
  destruct (negb (transient e)); [apply keeps_throw |].
  apply keeps_bind; [intros w H; exact H |]. intros u.
  apply keeps_bind; [apply (getConnection_store g I Hg) | apply Hfn].
Qed.

End StoreInvariant.

(** ** The rows of a batch *)

Lemma consecutive_S first n :
  consecutive first (S n) = first :: consecutive (first + 1) n.
Proof.
  unfold consecutive. simpl. rewrite Z.add_0_r. f_equal.
  rewrite <- seq_shift, map_map. apply map_ext. intros k. lia.
Qed.

Lemma consecutive_app first n m :
  consecutive first (n + m) =
  consecutive first n ++ consecutive (first + Z.of_nat n) m.
Proof.
  revert first. induction n as [| n IH]; intros first.
  - simpl. rewrite Z.add_0_r. reflexivity.
  - change (S n + m)%nat with (S (n + m)). rewrite !consecutive_S, IH. simpl.
    do 3 f_equal. lia.
Qed.

Lemma in_consecutive first n k :
  (k < n)%nat -> In (first + Z.of_nat k) (consecutive first n).
Proof.
  intros Hk. unfold consecutive. apply in_map_iff. exists k.
  split; [reflexivity | apply in_seq; lia].
Qed.

Lemma substring_all s : forall len,
  (String.length s <= len)%nat -> substring 0 len s = s.
Proof.
  induction s as [| ch s IH]; intros len Hlen.
  - destruct len; reflexivity.
  - destruct len as [| len]; [simpl in Hlen; lia |].
    simpl. rewrite IH by (simpl in Hlen; lia). reflexivity.
Qed.

Lemma within_error lo hi v m : within lo hi v = inl m -> In m statement_errors.
Proof.
  unfold within. destruct ((lo <=? v) && (v <=? hi)); [discriminate |].
  intros H. inversion H. unfold statement_errors. simpl. auto 10.
Qed.

Lemma numeric_of_param_error places lo hi p m :
  numeric_of_param places lo hi p = inl m -> In m statement_errors.
Proof.
  unfold numeric_of_param.
  destruct p as [| n | t | |].
  - intros H. inversion H. unfold statement_errors. simpl. auto 10.
  - apply within_error.
  - destruct (mysql_numeral t) as [[negative [d | |]] |].
    + apply within_error.
    + intros H. inversion H. unfold statement_errors. simpl. auto 10.
    + discriminate.
    + intros H. inversion H. unfold statement_errors. simpl. auto 10.
  - intros H. inversion H. unfold statement_errors. simpl. auto 10.
  - intros H. inversion H. unfold statement_errors. simpl. auto 10.
Qed.

(** What a VARCHAR column takes is the text it was given, cut at its
    length. *)
Lemma text_of_param_text len p t :
  text_of_param len p = inr t ->
  match p with
  | PStr s => t = kept len s
  | PNum n => t = kept len (mysql_text n)
  | _ => False
  end.
Proof.
  assert (Hfit : forall s,
            (if (String.length s <=? len)%nat then inr s
             else if forallb (fun c => Ascii.eqb c " ")
                       (list_ascii_of_string
                          (substring len (String.length s - len) s))
                  then inr (substring 0 len s)
                  else inl too_long_msg) = inr t -> t = kept len s).
  { intros s. unfold kept. destruct (Nat.leb_spec (String.length s) len) as [Hl | Hl].
    - intros H. injection H as <-. symmetry. apply substring_all. exact Hl.
    - destruct (forallb _ _); [| discriminate]. intros H. inversion H. reflexivity. }
  unfold text_of_param. destruct p as [| n | s | |]; try discriminate.
  - apply Hfit.
  - apply Hfit.
Qed.

Lemma text_of_param_error len p m :
  text_of_param len p = inl m -> In m statement_errors.
Proof.
  assert (Hfit : forall s,
            (if (String.length s <=? len)%nat then inr s
             else if forallb (fun c => Ascii.eqb c " ")
                       (list_ascii_of_string
                          (substring len (String.length s - len) s))
                  then inr (substring 0 len s)
                  else inl too_long_msg) = inl m -> In m statement_errors).
  { intros s. destruct (String.length s <=? len)%nat; [discriminate |].
    destruct (forallb _ _); [discriminate |].
    intros H. inversion H. unfold statement_errors. simpl. auto 10. }
  unfold text_of_param. destruct p as [| n | s | |]; try apply Hfit;
    intros H; inversion H; unfold statement_errors; simpl; auto 10.
Qed.

(** The text a column keeps of a value of the request. *)
Lemma text_of_param_kept len v t :
  (1 <= len)%nat ->
  text_of_param len (param_of_js v) = inr t -> text_kept len v t.
Proof.
  intros Hlen H. pose proof (@text_of_param_text _ _ _ H) as Ht.
  destruct v as [| | b | n | neg | s | l | l]; simpl in *; try contradiction;
    try exact Ht.
  subst t. unfold kept. rewrite substring_all; [destruct b; reflexivity |].
  destruct b; exact Hlen.
Qed.

Lemma shoe_values_made_from item v r :
  CreateShoes.shoe_values item = Ok v -> holds v r -> made_from item r.
Proof.
  unfold CreateShoes.shoe_values. destruct (is_nullish item); [discriminate |].
  intros Hv. inversion Hv; subst v. clear Hv.
  intros [Hn [Hb [Hp Hi]]]. unfold made_from.
  split; [apply text_of_param_kept; [lia | exact Hn] |].
  split; [apply text_of_param_kept; [lia | exact Hb] |].
  split.
  - unfold price_of_param in Hp. apply numeric_of_num in Hp.
    destruct Hp as [d [Hd [Hr _]]]. exists d. auto.
  - unfold js_or in Hi. destruct (truthy (get item "image")).
    + split; [reflexivity |]. apply text_of_param_kept; [lia | exact Hi].
    + discriminate.
Qed.

Lemma new_shoes_done vals : forall first l,
  new_shoes first vals = inr l ->
  Forall2 holds vals l /\ map shoe_id l = consecutive first (List.length vals).
Proof.
  induction vals as [| [[[n b] p] i] vals IH]; intros first l H; simpl in H.
  - inversion H; subst. split; [constructor | reflexivity].
  - destruct (text_of_param 255 n) as [m | n'] eqn:Hn; [discriminate |].
    destruct (text_of_param 100 b) as [m | b'] eqn:Hb; [discriminate |].
    destruct (price_of_param p) as [m | p'] eqn:Hp; [discriminate |].
    destruct (text_of_param 512 i) as [m | i'] eqn:Hi; [discriminate |].
    destruct (new_shoes (first + 1) vals) as [m | l'] eqn:Hrec; [discriminate |].
    inversion H; subst. destruct (IH _ _ Hrec) as [IH1 IH2]. split.
    + constructor; [| exact IH1]. unfold holds. simpl. auto.
    + simpl List.length. rewrite consecutive_S. simpl. rewrite IH2. reflexivity.
Qed.

Lemma new_shoes_error vals : forall first m,
  new_shoes first vals = inl m -> In m statement_errors.
Proof.
  induction vals as [| [[[n b] p] i] vals IH]; intros first m H; simpl in H.
  - discriminate.
  - destruct (text_of_param 255 n) as [m1 | n'] eqn:Hn;
      [inversion H; subst; exact (@text_of_param_error _ _ _ Hn) |].
    destruct (text_of_param 100 b) as [m1 | b'] eqn:Hb;
      [inversion H; subst; exact (@text_of_param_error _ _ _ Hb) |].
    destruct (price_of_param p) as [m1 | p'] eqn:Hpp;
      [inversion H; subst; exact (@numeric_of_param_error _ _ _ _ _ Hpp) |].
    destruct (text_of_param 512 i) as [m1 | i'] eqn:Hi;
      [inversion H; subst; exact (@text_of_param_error _ _ _ Hi) |].
    destruct (new_shoes (first + 1) vals) as [m1 | l'] eqn:Hrec; [| discriminate].
    inversion H; subst. exact (IH _ _ Hrec).
Qed.

Lemma statement_error_not_transient m :
  In m statement_errors -> transient (Err m) = false.
Proof.
  unfold statement_errors.
  intros [H | [H | [H | [H | [H | [H | []]]]]]]; subst; vm_compute; reflexivity.
Qed.

Lemma new_inventory_error rows : forall first table m,
  new_inventory first table rows = inl m -> In m statement_errors.
Proof.
  induction rows as [| [[s z] q] rows IH]; intros first table m H; simpl in H.
  - discriminate.
  - destruct (bigint_of_param s) as [m1 | s'] eqn:Hs;
      [inversion H; subst; exact (@numeric_of_param_error _ _ _ _ _ Hs) |].
    destruct (size_of_param z) as [m1 | z'] eqn:Hz;
      [inversion H; subst; exact (@numeric_of_param_error _ _ _ _ _ Hz) |].
    destruct (int_of_param q) as [m1 | q'] eqn:Hq;
      [inversion H; subst; exact (@numeric_of_param_error _ _ _ _ _ Hq) |].
    destruct (existsb (holds_key s' z') table);
      [inversion H; unfold statement_errors; simpl; auto 10 |].
    destruct (new_inventory (first + 1) _ rows) as [m1 | l'] eqn:Hrec;
      [| discriminate].
    inversion H; subst. exact (IH _ _ _ Hrec).
Qed.

Lemma insert_inventory_effect rows d n d' :
  insert_inventory rows d = Done n d' ->
  exists l,
    shoe_inventory d' = shoe_inventory d ++ l /\
    Forall2 stored rows l /\
    shoes d' = shoes d /\ shoes_auto d' = shoes_auto d.
Proof.
  intros H. destruct (@insert_inventory_done _ _ _ _ H) as [l [H1 [H2 H3]]].
  exists l. repeat split; auto.
  unfold insert_inventory in H.
  destruct (new_inventory _ _ rows); [discriminate |]. inversion H; reflexivity.
Qed.

Lemma lift_steady {A : Type} (P : world -> Prop) (o : outcome A) :
  triple P (Seeding.lift o) (fun a w => o = Ok a /\ P w) (fun e w => o = Throw e /\ P w).
Proof. intros w Hw. unfold Seeding.lift. destruct o; auto. Qed.

Lemma map_throwing_values_error b e :
  Seeding.map_throwing CreateShoes.shoe_values b = Throw e -> transient e = false.
Proof.
  induction b as [| x b IH]; simpl; [discriminate |].
  unfold CreateShoes.shoe_values at 1.
  destruct (is_nullish x).
  - intros H. inversion H; subst. vm_compute. reflexivity.
  - destruct (Seeding.map_throwing CreateShoes.shoe_values b); [discriminate |].
    intros H. inversion H; subst. apply IH. reflexivity.
Qed.

Lemma map_throwing_entries_error id entries e :
  Seeding.map_throwing (CreateShoes.inventory_entry id) entries = Throw e ->
  transient e = false.
Proof.
  induction entries as [| x entries IH]; simpl; [discriminate |].
  unfold CreateShoes.inventory_entry at 1.
  destruct (is_nullish x).
  - intros H. inversion H; subst. vm_compute. reflexivity.
  - destruct (negb (is_nullish (get x "size")));
      (destruct (Seeding.map_throwing (CreateShoes.inventory_entry id) entries);
       [discriminate | intros H; inversion H; subst; apply IH; reflexivity]).
Qed.

Lemma collect_inventory_error b : forall id e,
  Seeding.collect_inventory CreateShoes.inventory_entry id b = Throw e ->
  transient e = false.
Proof.
  induction b as [| shoe b IH]; intros id e; simpl; [discriminate |].
  destruct (get shoe "inventory") as [| | | | | | entries |];
    try (destruct (Seeding.collect_inventory CreateShoes.inventory_entry (id + 1) b)
           eqn:Hrec; [discriminate | intros H; inversion H; subst; exact (IH _ _ Hrec)]).
  destruct (Seeding.map_throwing (CreateShoes.inventory_entry id) entries) eqn:Hm.
  - destruct (Seeding.collect_inventory CreateShoes.inventory_entry (id + 1) b)
      eqn:Hrec; [discriminate | intros H; inversion H; subst; exact (IH _ _ Hrec)].
  - intros H. inversion H; subst. exact (map_throwing_entries_error _ _ _ Hm).
Qed.

Lemma map_throwing_app {A B : Type} (f : A -> outcome B) a b x y :
  Seeding.map_throwing f a = Ok x -> Seeding.map_throwing f b = Ok y ->
  Seeding.map_throwing f (a ++ b) = Ok (x ++ y).
Proof.
  revert x. induction a as [| u a IH]; intros x; simpl.
  - intros H. inversion H; subst. auto.
  - destruct (f u); [| discriminate].
    destruct (Seeding.map_throwing f a) as [x' |]; [| discriminate].
    intros H Hb. inversion H; subst. rewrite (IH x' eq_refl Hb). reflexivity.
Qed.

Lemma collect_inventory_app row a : forall id b x y,
  Seeding.collect_inventory row id a = Ok x ->
  Seeding.collect_inventory row (id + Z.of_nat (List.length a)) b = Ok y ->
  Seeding.collect_inventory row id (a ++ b) = Ok (x ++ y).
Proof.
  induction a as [| shoe a IH]; intros id b x y; simpl.
  - intros H. inversion H; subst. rewrite Z.add_0_r. auto.
  - destruct (match get shoe "inventory" with
              | JArr entries => Seeding.map_throwing (row id) entries
              | _ => Ok []
              end) as [mine |]; [| discriminate].
    destruct (Seeding.collect_inventory row (id + 1) a) as [others |] eqn:Ha;
      [| discriminate].
    intros H Hb. inversion H; subst.
    assert (Hb' : Seeding.collect_inventory row
                    (id + 1 + Z.of_nat (List.length a)) b = Ok y).
    { rewrite <- Hb. f_equal. simpl List.length. lia. }
    rewrite (IH (id + 1) b others y Ha Hb'), app_assoc. reflexivity.
Qed.

Lemma Forall2_made_from b vals rows :
  Seeding.map_throwing CreateShoes.shoe_values b = Ok vals ->
  Forall2 holds vals rows -> Forall2 made_from b rows.
Proof.
  revert vals rows. induction b as [| x b IH]; intros vals rows; simpl.
  - intros H. inversion H; subst. intros Hr. inversion Hr. constructor.
  - destruct (CreateShoes.shoe_values x) as [v |] eqn:Hv; [| discriminate].
    destruct (Seeding.map_throwing CreateShoes.shoe_values b) as [vs |]; [| discriminate].
    intros H. inversion H; subst. intros Hr. inversion Hr; subst.
    constructor; [eapply shoe_values_made_from; eassumption | apply (IH vs); auto].
Qed.

Lemma map_throwing_length {A B : Type} (f : A -> outcome B) l ys :
  Seeding.map_throwing f l = Ok ys -> List.length ys = List.length l.
Proof.
  revert ys. induction l as [| x l IH]; intros ys; simpl.
  - intros H. inversion H. reflexivity.
  - destruct (f x); [| discriminate].
    destruct (Seeding.map_throwing f l) as [ys' |]; [| discriminate].
    intros H. inversion H; subst. simpl. rewrite (IH ys' eq_refl). reflexivity.
Qed.

Lemma seeded_nil d : seeded [] d d.
Proof.
  exists [], [], []. simpl. rewrite !app_nil_r, Z.add_0_r.
  repeat split; constructor.
Qed.

Lemma seeded_app a b d d1 d2 :
  seeded a d d1 -> seeded b d1 d2 -> seeded (a ++ b) d d2.
Proof.
  intros [r1 [i1 [p1 [Ha1 [Ha2 [Ha3 [Ha4 [Ha5 [Ha6 Ha7]]]]]]]]]
         [r2 [i2 [p2 [Hb1 [Hb2 [Hb3 [Hb4 [Hb5 [Hb6 Hb7]]]]]]]]].
  exists (r1 ++ r2), (i1 ++ i2), (p1 ++ p2).
  rewrite length_app, Nat2Z.inj_add, consecutive_app, map_app.
  rewrite Hb1, Ha1, Hb2, Ha2, Hb5, Ha5, Ha3, Hb3, Ha2, !app_assoc.
  repeat split; auto.
  - lia.
  - apply Forall2_app; assumption.
  - apply collect_inventory_app; [exact Ha6 |]. rewrite <- Ha2. exact Hb6.
  - apply Forall2_app_stored; assumption.
Qed.

Lemma triple_pure_pre_r {A : Type} (phi : Prop) (P : world -> Prop) (m : M A) Q E :
  (phi -> triple P m Q E) -> triple (fun w => P w /\ phi) m Q E.
Proof. intros H w [Hw Hphi]. exact (H Hphi w Hw). Qed.

Section SeedSteady.

Variable c : nat.

Lemma inventory_loop_steady bs : forall d,
  triple (steady c d)
         (for_each (fun b => query c (insert_inventory b) ;; ret tt) bs)
         (fun _ w => exists d' news,
              steady c d' w /\
              shoe_inventory d' = shoe_inventory d ++ news /\
              Forall2 stored (List.concat bs) news /\
              shoes d' = shoes d /\ shoes_auto d' = shoes_auto d)
         (fun e _ => transient e = false).
Proof.
  induction bs as [| b bs IH]; intros d.
  - apply triple_ret. intros w H. exists d, [].
    rewrite app_nil_r. split; [exact H |]. split; [reflexivity |].
    split; [constructor |]. split; reflexivity.
  - simpl for_each. intros w Hw. unfold bind at 1. unfold bind at 1.
    pose proof (@query_steady _ c d (insert_inventory b) w Hw) as Hq.
    destruct (query c (insert_inventory b) w) as [[n | e] w1].
    + destruct Hq as [d1 [Hins Hw1]]. unfold ret at 1. cbv iota beta.
      destruct (insert_inventory_effect _ _ _ _ Hins) as [l1 [Hl1 [Hst1 [Hsh1 Hau1]]]].
      pose proof (IH d1 w1 Hw1) as Hrec.
      destruct (for_each _ bs w1) as [[u | e] w2]; [| exact Hrec].
      destruct Hrec as [d' [news [Hw2 [Hinv [Hst [Hsh Hau]]]]]].
      exists d', (l1 ++ news). split; [exact Hw2 |].
      rewrite Hinv, Hl1, app_assoc. simpl List.concat.
      repeat split; [apply Forall2_app_stored; assumption | congruence | congruence].
    + destruct Hq as [m [Hfail [He _]]]. subst e.
      apply statement_error_not_transient.
      unfold insert_inventory in Hfail.
      destruct (new_inventory _ _ b) as [m' | l] eqn:Hn; [| discriminate].
      inversion Hfail; subst. exact (new_inventory_error _ _ _ _ Hn).
Qed.

Lemma seed_batch_steady single acc b d :
  triple (steady c d) (CreateShoes.seed_batch c single acc b)
         (fun _ w => exists d', steady c d' w /\ seeded b d d')
         (fun e _ => transient e = false).
Proof.
  unfold CreateShoes.seed_batch. intros w Hw.
  unfold bind at 1. unfold Seeding.lift at 1.
  destruct (Seeding.map_throwing CreateShoes.shoe_values b) as [vals | e] eqn:Hvals;
    [| exact (map_throwing_values_error _ _ Hvals)].
  unfold bind at 1.
  pose proof (@query_steady _ c d (insert_shoes vals) w Hw) as Hq.
  destruct (query c (insert_shoes vals) w) as [[insertId | e] w1].
  2:{ destruct Hq as [m [Hfail [He _]]]. subst e.
      apply statement_error_not_transient.
      unfold insert_shoes in Hfail.
      destruct (new_shoes _ vals) as [m' | l] eqn:Hn; [| discriminate].
      inversion Hfail; subst. exact (new_shoes_error _ _ _ Hn). }
  destruct Hq as [d1 [Hins Hw1]].
  unfold insert_shoes in Hins.
  destruct (new_shoes (shoes_auto d) vals) as [m | rows] eqn:Hnew; [discriminate |].
  inversion Hins; subst insertId d1. clear Hins.
  destruct (new_shoes_done _ _ _ Hnew) as [Hholds Hids].
  assert (Hlen : List.length rows = List.length b).
  { rewrite <- (map_throwing_length _ _ _ Hvals).
    symmetry. exact (Forall2_length Hholds). }
  rewrite (map_throwing_length _ _ _ Hvals) in Hids.
  unfold bind at 1.
  assert (Hcreated : exists w2 created,
            (if single
             then rows0 <- query c (select_shoe (PNum (shoes_auto d))) ;;
                  ret (match rows0 with
                       | r :: _ => CreateShoes.createdRows acc ++ [js_of_shoe r]
                       | [] => CreateShoes.createdRows acc
                       end)
             else ret (CreateShoes.createdRows acc)) w1 = (Ok created, w2) /\
            steady c (set_shoes_auto (shoes_auto d + Z.of_nat (List.length rows))
                        (set_shoes (shoes d ++ rows) d)) w2).
  { destruct single.
    - destruct (@query_steady_done _ c _ (select_shoe (PNum (shoes_auto d)))
                  _ _ w1 eq_refl Hw1) as [w2 [Hsel Hw2]].
      exists w2. eexists. unfold bind. rewrite Hsel. split; [reflexivity | exact Hw2].
    - exists w1. eexists. split; [reflexivity | exact Hw1]. }
  destruct Hcreated as [w2 [created [Hcr Hw2]]]. rewrite Hcr.
  unfold bind at 1. unfold Seeding.lift at 1.
  destruct (Seeding.collect_inventory CreateShoes.inventory_entry (shoes_auto d) b)
    as [invRows | e] eqn:Hcol; [| exact (collect_inventory_error _ _ _ Hcol)].
  unfold bind at 1.
  pose proof (inventory_loop_steady (batches invRows) _ w2 Hw2) as Hloop.
  destruct (for_each _ (batches invRows) w2) as [[u | e] w3]; [| exact Hloop].
  destruct Hloop as [d' [news [Hw3 [Hinv [Hst [Hsh Hau]]]]]].
  unfold ret. exists d'. split; [exact Hw3 |].
  exists rows, news, invRows. simpl in Hinv, Hsh, Hau.
  rewrite batches_concat in Hst. rewrite Hlen in Hau.
  repeat split; auto.
  exact (Forall2_made_from _ _ _ Hvals Hholds).
Qed.

Lemma seed_loop_steady single chunks : forall acc d,
  triple (steady c d) (CreateShoes.seed_loop c single acc chunks)
         (fun _ w => exists d', steady c d' w /\ seeded (List.concat chunks) d d')
         (fun e _ => transient e = false).
Proof.
  induction chunks as [| b chunks IH]; intros acc d; simpl.
  - apply triple_ret. intros w H. exists d. split; [exact H | apply seeded_nil].
  - eapply triple_bind; [apply seed_batch_steady |].
    intros acc'. apply triple_exists_pre. intros d1.
    apply triple_pure_pre_r. intros Hseeded.
    eapply triple_conseq; [apply (IH acc' d1) | auto | | auto].
    intros res w [d' [Hw Hrest]]. exists d'. split; [exact Hw |].
    exact (seeded_app _ _ _ _ _ Hseeded Hrest).
Qed.

End SeedSteady.

(** A POST that passed the guard with a batch and was not answered 500,
    when nothing fails on the way: the first run of the inserts went
    through, and nothing was run twice. *)
Lemma create_run ev w body s l r w' :
  idle w -> no_fault w ->
  method_of ev <> Some "OPTIONS"%string ->
  isAdmin (getClaims ev) = true ->
  CreateShoes.parse_body ev = Some body ->
  is_nullish body = false ->
  CreateShoes.shoes_of body = JArr (s :: l) ->
  CreateShoes.handler ev w = (Ok r, w') ->
  statusCode r <> 500 ->
  seeded (s :: l) (store w) (store w').
Proof.
  intros Hi Hf Hm Hadmin Hp Hnn Hshoes Hrun Hst.
  rewrite (create_past_guard ev w Hm Hadmin) in Hrun.
  unfold try_catch, CreateShoes.create in Hrun.
  rewrite Hp, Hnn, Hshoes in Hrun. cbv zeta in Hrun.
  unfold bind at 1 in Hrun. unfold CreateShoes.withDb, withDb in Hrun.
  destruct (@getConnection_calm (store w) w) as [c [w1 [Hc Hw1]]];
    [repeat split; auto |].
  rewrite (@bind_ok _ _ _ _ _ _ _ Hc) in Hrun. unfold try_catch in Hrun.
  pose proof (seed_loop_steady c (List.length (s :: l) =? 1)%nat (batches (s :: l))
                {| CreateShoes.totalInserted := 0; CreateShoes.createdRows := [] |}
                (store w) w1 Hw1) as Hseed.
  unfold CreateShoes.seed in Hrun.
  destruct (CreateShoes.seed_loop c (List.length (s :: l) =? 1)%nat _
              (batches (s :: l)) w1) as [[res | e] w2].
  - destruct Hseed as [d' [Hw2 Hsd]]. simpl in Hrun. inversion Hrun; subst.
    rewrite batches_concat in Hsd. destruct Hw2 as [_ [Hs _]]. rewrite Hs. exact Hsd.
  - rewrite Hseed in Hrun. simpl in Hrun. inversion Hrun; subst.
    simpl in Hst. congruence.
Qed.














(** With the cascade declared the same request takes the inventory row
    along: the difference lies in the schema, not in the handler. *)
Example delete_cascades_in_the_store :
  let run := DeleteShoes.handler Samples.delete_1
               (Samples.cold (Samples.one_shoe true)) in
  fst run = Ok (resp 200 (msg_body "Shoe deleted successfully.")) /\
  shoe_inventory (store (snd run)) = [].
Proof. vm_compute. split; reflexivity. Qed.

(** * The delete transaction, and what every handler leaves behind *)

Lemma beginTransaction_settled c s0 :
  triple (settled s0) (beginTransaction c)
         (fun _ => in_txn c s0 s0) (fun _ => settled s0).
Proof.
  intros w [Hs Hi]. unfold beginTransaction, round_trip, bind, live, take_fault,
    put_conn, ret, throw.
  unfold idle in Hi.
  destruct (cachedConn w) as [cn |] eqn:Hcn;
    [| split; [exact Hs | unfold idle; rewrite Hcn; exact I]].
  destruct ((conn_id cn =? c)%nat && negb (disconnected cn)) eqn:Hlive;
    [| split; [exact Hs | unfold idle; rewrite Hcn; exact Hi]].
  apply andb_true_iff in Hlive. destruct Hlive as [Hid Hd].
  apply Nat.eqb_eq in Hid. apply negb_true_iff in Hd.
  destruct (faults w) as [| [ft |] rest]; simpl.
  - rewrite Hi. unfold in_txn, with_txn. simpl. rewrite Hs, Hid, Hd. auto.
  - unfold settled, idle. simpl. rewrite Hi.
    split; [exact Hs | destruct (fault_fatal ft); reflexivity].
  - rewrite Hi. unfold in_txn, with_txn. simpl. rewrite Hs, Hid, Hd. auto.
Qed.

Lemma withDb_settled {A : Type} g (fn : nat -> M A) s0 (Q : A -> world -> Prop) :
  secret_frame g ->
  (forall c, triple (settled s0) (fn c) Q (fun _ => settled s0)) ->
  triple (settled s0) (withDb g fn) Q (fun _ => settled s0).
Proof.
  intros Hg Hfn. unfold withDb.
  assert (Hconn : triple (settled s0) (getConnection g)
                         (fun _ => settled s0) (fun _ => settled s0)).
  { eapply triple_conseq; [apply (@getConnection_spec g s0 Hg) | auto | | auto].
    intros c w [Hs Hc]. split; [exact Hs | exact (autocommit_idle Hc)]. }
  eapply triple_bind; [exact Hconn |]. intros c.
  eapply triple_try; [apply Hfn |]. intros e.
  destruct (negb (transient e)).
  - apply triple_throw. auto.
  - eapply triple_bind with (R := fun _ => settled s0).
    + intros w [Hs _]. unfold discard_cached, settled, idle. simpl. auto.
    + intros u. eapply triple_bind; [exact Hconn |]. intros c'. apply Hfn.
Qed.

Lemma delete_shoe_keeps_inventory p d n d' :
  on_delete_cascade d = false ->
  delete_shoe p d = Done n d' ->
  shoe_inventory d' = shoe_inventory d.
Proof.
  intros Hc. unfold delete_shoe. rewrite Hc. simpl.
  destruct (key_of_param p); intros H; inversion H; reflexivity.
Qed.

(** The transaction of the guarded DELETE: it leaves nothing open, and
    without the cascade of the schema the inventory is as it was. *)
Lemma delete_in_transaction_spec shoeId c s0 :
  triple (settled s0) (DeleteShoes.delete_in_transaction shoeId c)
         (fun _ w => idle w /\
                     (on_delete_cascade s0 = false ->
                      shoe_inventory (store w) = shoe_inventory s0))
         (fun _ => settled s0).
Proof.
  unfold DeleteShoes.delete_in_transaction.
  eapply triple_bind; [apply beginTransaction_settled |]. intros u.
  eapply triple_try with (E' := fun _ => unsettled c s0).
  - eapply triple_bind; [apply (@query_txn_spec _ c s0 s0) |].
    intros del. apply triple_exists_pre. intros d.
    destruct (del =? 0).
    + eapply triple_bind.
      * eapply triple_pre; [apply (@rollback_inside c s0) |].
        intros w [_ H]. exact (in_txn_unsettled H).
      * intros u'. apply triple_ret. intros w [Hs Hi].
        split; [exact Hi | intros _; rewrite Hs; reflexivity].
    + intros w [Hdel Htx]. unfold bind.
      pose proof (@commit_spec c s0 d w Htx) as Hcom.
      destruct (commit c w) as [[[] | e] w']; simpl.
      * destruct Hcom as [Hs Hi]. split; [exact Hi |]. intros Hc.
        rewrite Hs. exact (delete_shoe_keeps_inventory _ _ _ _ Hc Hdel).
      * exact Hcom.
  - intros e. eapply triple_bind; [apply rollback_spec |].
    intros u'. apply triple_throw. auto.
Qed.

(** Whatever the request and whatever fails, the guarded DELETE handler
    removes no inventory row of a store without the cascade. *)
Lemma delete_handler_keeps_inventory ev s0 :
  on_delete_cascade s0 = false ->
  triple (settled s0) (DeleteShoes.handler ev)
         (fun _ w => idle w /\ shoe_inventory (store w) = shoe_inventory s0)
         (fun _ w => idle w /\ shoe_inventory (store w) = shoe_inventory s0).
Proof.
  intros Hc.
  assert (Hkeep : forall w, settled s0 w ->
                    idle w /\ shoe_inventory (store w) = shoe_inventory s0).
  { intros w [Hs Hi]. rewrite Hs. auto. }
  unfold DeleteShoes.handler.
  eapply triple_try
    with (E' := fun _ w => idle w /\ shoe_inventory (store w) = shoe_inventory s0).
  - unfold DeleteShoes.route.
    repeat match goal with
           | |- triple _ (if ?b then _ else _) _ _ => destruct b
           | |- triple _ (match ?o with Some _ => _ | None => _ end) _ _ =>
               destruct o
           | |- triple _ (ret _) _ _ => apply triple_ret; exact Hkeep
           end.
    eapply triple_bind.
    + unfold DeleteShoes.withDb.
      eapply triple_conseq with
        (Q' := fun _ w => idle w /\ shoe_inventory (store w) = shoe_inventory s0);
        [apply (@withDb_settled _ getSecret_strict _ s0 _ getSecret_strict_frame)
        | auto | intros a w H; exact H | intros e w H; exact (Hkeep w H)].
      intros c. eapply triple_conseq;
        [apply (delete_in_transaction_spec s c s0) | auto | | auto].
      intros a w [Hi Hinv]. auto.
    + intros result. destruct result; apply triple_ret; auto.
  - intros e. apply triple_ret. auto.
Qed.

(** ** No handler leaves a transaction open *)

Ltac idle_step :=
  match goal with
  | |- triple _ (ret _) _ _ => apply triple_ret; auto
  | |- triple _ (throw _) _ _ => apply triple_throw; auto
  | |- triple _ (bind (query _ _) _) _ _ =>
      eapply triple_bind; [apply query_idle | intros ?]
  | |- triple _ (if ?b then _ else _) _ _ => destruct b
  | |- triple _ (match ?x with _ => _ end) _ _ => destruct x
  end.

Lemma patch_write_idle c shoeId size body :
  triple idle (UpdateShoes.patch_write c shoeId size body)
         (fun _ => idle) (fun _ => idle).
Proof. unfold UpdateShoes.patch_write. repeat idle_step. Qed.

Lemma handlePatchInventory_idle ev shoeId :
  triple idle (UpdateShoes.handlePatchInventory ev shoeId)
         (fun _ => idle) (fun _ => idle).
Proof.
  unfold UpdateShoes.handlePatchInventory. cbv zeta.
  repeat match goal with
         | |- triple _ (if ?b then _ else _) _ _ => destruct b
         | |- triple _ (match ToNumber ?x with _ => _ end) _ _ =>
             destruct (ToNumber x)
         | |- triple _ (ret _) _ _ => apply triple_ret; auto
         end.
  eapply triple_bind;
    [apply (getConnection_idle _ getSecret_default_frame) | intros conn].
  eapply triple_bind; [apply query_idle | intros rows].
  destruct rows; [apply triple_ret; auto |].
  eapply triple_bind; [apply patch_write_idle | intros early].
  destruct early; [apply triple_ret; auto |].
  eapply triple_bind; [apply query_idle | intros rows'].
  apply triple_ret. auto.
Qed.

Lemma handlePutUpdate_idle ev shoeId :
  triple idle (UpdateShoes.handlePutUpdate ev shoeId)
         (fun _ => idle) (fun _ => idle).
Proof.
  intros w Hi.
  pose proof (@handlePutUpdate_spec ev shoeId (store w) w (conj eq_refl Hi)) as H.
  destruct (UpdateShoes.handlePutUpdate ev shoeId w) as [[r | e] w'].
  - exact (proj1 H).
  - exact (proj2 H).
Qed.

(** The precondition of the theorems on the transactions is an invariant
    of the process: a handler entered with no transaction open on the
    cached connection returns with none open, whatever it answers and
    whatever failed on the way; and a cold process has no connection at
    all. *)
Lemma handlers_leave_no_transaction ev w :
  idle w ->
  idle (snd (DeleteShoes.handler ev w)) /\
  idle (snd (UpdateShoes.handler ev w)) /\
  idle (snd (CreateShoes.handler ev w)).
Proof.
  intros Hi. split; [| split].
  - assert (H : triple idle (DeleteShoes.handler ev) (fun _ => idle) (fun _ => idle)).
    { unfold DeleteShoes.handler.
      eapply triple_try with (E' := fun _ => idle); [| intros e; apply triple_ret; auto].
      unfold DeleteShoes.route.
      repeat match goal with
             | |- triple _ (if ?b then _ else _) _ _ => destruct b
             | |- triple _ (match ?o with Some _ => _ | None => _ end) _ _ =>
                 destruct o
             | |- triple _ (ret _) _ _ => apply triple_ret; auto
             end.
      eapply triple_bind with (R := fun _ => idle).
      - unfold DeleteShoes.withDb.
        apply (withDb_idle _ _ getSecret_strict_frame). intros c w0 Hw0.
        pose proof (delete_in_transaction_spec s c (store w0) w0 (conj eq_refl Hw0))
          as H.
        destruct (DeleteShoes.delete_in_transaction s c w0) as [[r | e] w'].
        + exact (proj1 H).
        + exact (proj2 H).
      - intros result. destruct result; apply triple_ret; auto. }
    specialize (H w Hi).
    destruct (DeleteShoes.handler ev w) as [[r | e] w']; exact H.
  - assert (H : triple idle (UpdateShoes.handler ev) (fun _ => idle) (fun _ => idle)).
    { unfold UpdateShoes.handler.
      eapply triple_try with (E' := fun _ => idle); [| intros e; apply triple_ret; auto].
      unfold UpdateShoes.route. cbv zeta.
      repeat match goal with
             | |- triple _ (if ?b then _ else _) _ _ => destruct b
             | |- triple _ (match ?o with Some _ => _ | None => _ end) _ _ =>
                 destruct o
             | |- triple _ (ret _) _ _ => apply triple_ret; auto
             | |- triple _ (UpdateShoes.handlePatchInventory _ _) _ _ =>
                 apply handlePatchInventory_idle
             | |- triple _ (UpdateShoes.handlePutUpdate _ _) _ _ =>
                 apply handlePutUpdate_idle
             end. }
    specialize (H w Hi).
    destruct (UpdateShoes.handler ev w) as [[r | e] w']; exact H.
  - assert (H : triple idle (CreateShoes.handler ev) (fun _ => idle) (fun _ => idle)).
    { unfold CreateShoes.handler.
      eapply triple_try with (E' := fun _ => idle); [| intros e; apply triple_ret; auto].
      unfold CreateShoes.route, CreateShoes.create. cbv zeta.
      repeat match goal with
             | |- triple _ (if ?b then _ else _) _ _ => destruct b
             | |- triple _ (match ?o with Some _ => _ | None => _ end) _ _ =>
                 destruct o
             | |- triple _ (match CreateShoes.shoes_of ?b with _ => _ end) _ _ =>
                 destruct (CreateShoes.shoes_of b) as [| | | | | | [| ? ?] |]
             | |- triple _ (ret _) _ _ => apply triple_ret; auto
             | |- triple _ (throw _) _ _ => apply triple_throw; auto
             end;
        (eapply triple_bind with (R := fun _ => idle);
         [ unfold CreateShoes.withDb;
           apply (withDb_idle _ _ getSecret_default_frame);
           intros c; apply seed_loop_idle
         | intros result; apply triple_ret; auto ]). }
    specialize (H w Hi).
    destruct (CreateShoes.handler ev w) as [[r | e] w']; exact H.
Qed.

(** * The theorems at concrete requests *)

(** A preflight and a customer's DELETE on a cold process. *)
Lemma guard_precedes_store_access_witness :
  DeleteShoes.handler Samples.preflight (Samples.cold (Samples.one_shoe false))
  = (Ok preflight_ok, Samples.cold (Samples.one_shoe false)) /\
  DeleteShoes.handler Samples.customer_delete (Samples.cold (Samples.one_shoe false))
  = (Ok forbidden, Samples.cold (Samples.one_shoe false)).
Proof.
  split.
  - destruct (@guard_precedes_store_access Samples.preflight
                (Samples.cold (Samples.one_shoe false))) as [H _].
    destruct (H eq_refl) as [Hd _]. exact Hd.
  - destruct (@guard_precedes_store_access Samples.customer_delete
                (Samples.cold (Samples.one_shoe false))) as [_ H].
    assert (Hm : method_of Samples.customer_delete <> Some "OPTIONS"%string)
      by (vm_compute; discriminate).
    destruct (H Hm eq_refl) as [Hd _]. exact Hd.
Defined.

(** A DELETE whose first attempt meets a connection reset: the second
    attempt, on connection 1, deletes the shoe. *)
Lemma withDb_retries_once_witness :
  exists w',
    withDb getSecret_strict Samples.delete_once Samples.flaky = (Ok 1, w') /\
    shoes (store w') = [] /\
    cachedConn w' = Some {| conn_id := 1; disconnected := false; txn := None |}.
Proof.
  edestruct (@withDb_retries_once getSecret_strict Z Samples.delete_once
               Samples.flaky)
    as [_ [_ H3]]; [vm_compute; reflexivity |].
  edestruct H3 as [_ [H4 _]]; [vm_compute; reflexivity | vm_compute; reflexivity |].
  edestruct H4 as [Hc [_ Hfin]]; [vm_compute; reflexivity |].
  eexists. rewrite Hfin. split; [vm_compute; reflexivity |].
  split; vm_compute; reflexivity.
Defined.

(** A PUT whose insert of the new inventory fails after the old rows were
    deleted inside the transaction. *)
Lemma update_rolls_back_on_error_witness :
  (exists e, fst (UpdateShoes.handlePutUpdate
                    (Samples.put_inventory [Samples.entry 10 (JNum 2)]) "1"
                    Samples.failing_insert) = Throw e) /\
  store (snd (UpdateShoes.handlePutUpdate
                (Samples.put_inventory [Samples.entry 10 (JNum 2)]) "1"
                Samples.failing_insert))
  = store Samples.failing_insert.
Proof.
  destruct (UpdateShoes.handlePutUpdate
              (Samples.put_inventory [Samples.entry 10 (JNum 2)]) "1"
              Samples.failing_insert) as [[r | e] w'] eqn:Hrun.
  - vm_compute in Hrun. discriminate.
  - split; [exists e; reflexivity |].
    exact (proj1 (@update_rolls_back_on_error
                    (Samples.put_inventory [Samples.entry 10 (JNum 2)]) "1"
                    Samples.failing_insert e w' I Hrun)).
Defined.

(** Decrementing by 5 the three pairs of size 9.5. *)
Lemma patch_negative_delta_witness :
  exists w',
    UpdateShoes.handlePatchInventory
      (Samples.patch_1
         (JObj [("size", JNum (Dec 95 1)); ("delta", JNum (-5))]%string)) "1"
      (Samples.cold (Samples.one_shoe false))
    = (Ok (resp 200 (patch_body 1 (Dec 95 1) (store w'))), w') /\
    shoe_inventory (store w') =
    [{| inv_id := 1; inv_shoe := 1; inv_size := 95; inv_quantity := 0 |}].
Proof.
  destruct (@patch_negative_delta
              (Samples.patch_1
                 (JObj [("size", JNum (Dec 95 1)); ("delta", JNum (-5))]%string))
              "1" (Dec 95 1) 1 (-5) eq_refl eq_refl eq_refl eq_refl eq_refl
              (Samples.cold (Samples.one_shoe false)) I (Forall_nil _) eq_refl)
    as [_ [H _]].
  destruct H as [w' [Hrun [Hinv _]]].
  - vm_compute. discriminate.
  - constructor; [unfold INT_MIN, INT_MAX; simpl; lia | constructor].
  - exists w'. split; [exact Hrun | exact Hinv].
Defined.


(** [delta: 0] for a size the shoe does not have. *)
Lemma patch_zero_delta_reads_only_witness :
  store (snd (UpdateShoes.handlePatchInventory
                (Samples.patch_1 (JObj [("size", JNum 7); ("delta", JNum 0)]%string))
                "1" (Samples.cold (Samples.one_shoe false))))
  = Samples.one_shoe false /\
  fst (UpdateShoes.handlePatchInventory
         (Samples.patch_1 (JObj [("size", JNum 7); ("delta", JNum 0)]%string))
         "1" (Samples.cold (Samples.one_shoe false)))
  = Ok (resp 200 (no_row_body 1 7)).
Proof.
  destruct (@patch_zero_delta_reads_only
              (Samples.patch_1 (JObj [("size", JNum 7); ("delta", JNum 0)]%string))
              "1" 7 0 eq_refl eq_refl eq_refl eq_refl eq_refl
              (Samples.cold (Samples.one_shoe false)) 1 I)
    as [Hstore Hresp].
  split; [exact Hstore | exact (Hresp (Forall_nil _) eq_refl eq_refl)].
Defined.

(** A PUT with the entry [{ size: 10, quantity: 0 }]. *)
Lemma replace_defaults_quantity_to_one_witness :
  exists news,
    shoe_inventory
      (store (snd (UpdateShoes.handlePutUpdate
                     (Samples.put_inventory [Samples.entry 10 (JNum 0)]) "1"
                     (Samples.cold (Samples.one_shoe false)))))
    = [] ++ news /\
    exists row, In row news /\ inv_size row = 100 /\ inv_quantity row = 1.
Proof.
  edestruct (@replace_defaults_quantity_to_one
               (Samples.put_inventory [Samples.entry 10 (JNum 0)]) "1"
               (Samples.cold (Samples.one_shoe false)))
    as [news [Hrows [_ [Hone _]]]];
    [exact I | vm_compute; reflexivity | reflexivity | reflexivity |].
  exists news. split; [exact Hrows |].
  destruct (Hone (Samples.entry 10 (JNum 0))) as [row [size [Hin [Hsize [Hz Hq]]]]];
    [left; reflexivity | reflexivity | reflexivity | reflexivity |].
  exists row. split; [exact Hin |]. split; [| exact Hq].
  rewrite Hz. injection Hsize as <-. reflexivity.
Defined.



(** * Beyond the claims: connection and credentials *)

(** X1. [getConnection] caches what it returns: after a call that
    succeeded the cache holds the connection returned, open, and a second
    call returns the same connection without any external call, leaving
    the world as it is. *)
Theorem getConnection_reuses_connection :
  forall (getSecret : M unit) w c w1,
    getConnection getSecret w = (Ok c, w1) ->
    (exists t, cachedConn w1 =
               Some {| conn_id := c; disconnected := false; txn := t |}) /\
    getConnection getSecret w1 = (Ok c, w1).
Proof.
  intros g w c w1 H.
  assert (Hnew : (connection <- createConnection g ;;
                  put_conn connection ;; ret (conn_id connection)) w = (Ok c, w1) ->
                 cachedConn w1 =
                 Some {| conn_id := c; disconnected := false; txn := None |}).
  { unfold createConnection, bind, take_fault, put_conn, ret, throw.
    destruct (g w) as [[[] | e] w2]; [| discriminate].
    destruct (faults w2) as [| [ft |] rest]; simpl; intros H0;
      inversion H0; subst; reflexivity. }
  assert (Hcached : exists t, cachedConn w1 =
                      Some {| conn_id := c; disconnected := false; txn := t |}).
  { unfold getConnection in H.
    destruct (cachedConn w) as [cn |] eqn:Hcn.
    - destruct (disconnected cn) eqn:Hd; simpl in H.
      + exists None. exact (Hnew H).
      + inversion H; subst. exists (txn cn). rewrite Hcn.
        destruct cn as [i dc t]. simpl in *. subst. reflexivity.
    - exists None. exact (Hnew H). }
  split; [exact Hcached |].
  destruct Hcached as [t Ht]. unfold getConnection. rewrite Ht. reflexivity.
Qed.

(** X2. The credentials are fetched at most once.  With
    [CONFIG_SOURCE] other than [SecretsManager], [getSecret] makes no
    external call at all; in either mode a call that succeeded is followed
    by calls that leave the world as it is; and the strict variant, asked
    for a secret that is not cached while [SECRET_NAME] is unset, throws
    before any external call. *)
Theorem getSecret_fetches_once :
  forall w,
    (secrets_manager_mode w = false ->
     getSecret_strict w = (Ok tt, w) /\ getSecret_default w = (Ok tt, w)) /\
    (forall w1, getSecret_strict w = (Ok tt, w1) ->
                getSecret_strict w1 = (Ok tt, w1)) /\
    (forall w1, getSecret_default w = (Ok tt, w1) ->
                getSecret_default w1 = (Ok tt, w1)) /\
    (secrets_manager_mode w = true -> cachedSecret w = false ->
     str_truthy (secret_name w) = false ->
     exists e, getSecret_strict w = (Throw e, w)).
Proof.
  intros w.
  assert (Hfetch : forall w1, fetch_secret w = (Ok tt, w1) ->
                     cachedSecret w1 = true /\
                     secrets_manager_mode w1 = secrets_manager_mode w).
  { intros w1. unfold fetch_secret, bind, take_fault, throw.
    destruct (faults w) as [| [ft |] rest]; simpl; intros H;
      inversion H; subst; split; reflexivity. }
  split; [| split; [| split]].
  - intros Hm. unfold getSecret_strict, getSecret_default. rewrite Hm.
    split; reflexivity.
  - intros w1. unfold getSecret_strict.
    destruct (secrets_manager_mode w) eqn:Hm; simpl.
    + destruct (cachedSecret w) eqn:Hc.
      * intros H. inversion H; subst. rewrite Hm, Hc. reflexivity.
      * destruct (str_truthy (secret_name w)); simpl; [| discriminate].
        intros H. destruct (Hfetch w1 H) as [H1 H2].
        rewrite H2, ?Hm, H1. reflexivity.
    + intros H. inversion H; subst. rewrite Hm. reflexivity.
  - intros w1. unfold getSecret_default.
    destruct (secrets_manager_mode w) eqn:Hm; simpl.
    + destruct (cachedSecret w) eqn:Hc.
      * intros H. inversion H; subst. rewrite Hm, Hc. reflexivity.
      * intros H. destruct (Hfetch w1 H) as [H1 H2].
        rewrite H2, ?Hm, H1. reflexivity.
    + intros H. inversion H; subst. rewrite Hm. reflexivity.
  - intros Hm Hc Hn. unfold getSecret_strict. rewrite Hm, Hc, Hn. simpl.
    eexists. reflexivity.
Qed.

(** * Beyond the claims: what the guarded handlers answer *)

Lemma triple_any {A : Type} (m : M A) :
  triple (fun _ => True) m (fun _ _ => True) (fun _ _ => True).
Proof. intros w _. destruct (m w) as [[a | e] w']; exact I. Qed.

(** The tail of a handler, followed down to its answers: whatever the
    calls on the way return, [leaf] settles every answer. *)
Ltac walk leaf :=
  repeat first
    [ apply triple_ret; intros ? _; leaf
    | apply triple_throw; intros ? _; exact I
    | eapply triple_bind; [apply triple_any | intros ?]
    | eapply triple_try; [| intros ?]
    | match goal with
      | |- triple _ (if ?b then _ else _) _ _ => destruct b
      | |- triple _ (match ?x with _ => _ end) _ _ => destruct x
      end ].

Ltac status_in := simpl; auto 10.

Ltac other_answer :=
  let H := fresh "H" in
  intros H;
  first [ apply (f_equal statusCode) in H; simpl in H; discriminate
        | cbv in H; discriminate ].

Lemma rev_head_last {A : Type} (l : list A) x r d :
  rev l = x :: r -> last l d = x.
Proof.
  intros H. rewrite <- (rev_involutive l), H. simpl. apply last_last.
Qed.

(** A path that matches [/\/shoes\/[^/]+$/] ends in a piece that is not
    empty. *)
Lemma shoe_route_last p :
  shoe_route p = true -> last (split "/" p) EmptyString <> EmptyString.
Proof.
  unfold shoe_route.
  destruct (rev (split "/" p)) as [| x [| y [| z r]]] eqn:Hr; try discriminate.
  intros H. apply andb_true_iff in H. destruct H as [H _].
  rewrite (rev_head_last _ _ _ _ Hr). intros Hx. subst x. discriminate.
Qed.

Lemma last_piece_of_rev p x r :
  rev (split "/" p) = x :: r -> x <> EmptyString ->
  UpdateShoes.last_piece p = Some x.
Proof.
  intros Hr Hx. unfold UpdateShoes.last_piece.
  rewrite <- filter_rev, Hr. simpl.
  destruct (String.eqb_spec x EmptyString); [contradiction | reflexivity].
Qed.

Lemma routes_have_last_piece p :
  shoe_route p = true \/ inventory_route p = true ->
  exists id, UpdateShoes.last_piece p = Some id.
Proof.
  unfold shoe_route, inventory_route.
  destruct (rev (split "/" p)) as [| x r] eqn:Hr; [intros [H | H]; discriminate |].
  intros H. exists x. apply (last_piece_of_rev _ _ _ Hr).
  intros Hx. subst x. destruct H as [H | H].
  - destruct r as [| y [| z r]]; discriminate.
  - destruct r as [| y [| z [| u r]]]; discriminate.
Qed.

Lemma str_or_given a id : exists id', str_or a (Some id) = Some id'.
Proof.
  unfold str_or. destruct a as [s |]; [| eauto].
  destruct (String.eqb s EmptyString); eauto.
Qed.

Lemma delete_route_answers ev :
  triple (fun _ => True) (DeleteShoes.route ev)
         (fun r _ => In (statusCode r) [200; 403; 404; 500])
         (fun _ _ => True).
Proof.
  unfold DeleteShoes.route.
  destruct (match str_or (ctx_method ev) (httpMethod ev) with
            | Some m => String.eqb m "OPTIONS"
            | None => false
            end); [walk status_in |].
  destruct (negb (isAdmin (getClaims ev))); [walk status_in |].
  cbv zeta.
  destruct (String.eqb _ "DELETE"); simpl andb; [| walk status_in].
  destruct (shoe_route (request_path ev)) eqn:Hroute; [| walk status_in].
  pose proof (shoe_route_last _ Hroute) as Hlast.
  unfold str_or.
  destruct (path_id ev) as [s |].
  - destruct (String.eqb_spec s EmptyString) as [Hs | Hs].
    + destruct (String.eqb_spec (last (split "/" (request_path ev)) EmptyString)
                                EmptyString); [contradiction |].
      walk status_in.
    + destruct (String.eqb_spec s EmptyString); [contradiction |].
      walk status_in.
  - destruct (String.eqb_spec (last (split "/" (request_path ev)) EmptyString)
                              EmptyString); [contradiction |].
    walk status_in.
Qed.

Lemma patch_write_answers c shoeId size body :
  triple (fun _ => True) (UpdateShoes.patch_write c shoeId size body)
         (fun early _ =>
            match early with
            | Some r => statusCode r = 400 /\ r <> id_required
            | None => True
            end)
         (fun _ _ => True).
Proof.
  unfold UpdateShoes.patch_write.
  walk ltac:(first [exact I | split; [reflexivity | other_answer]]).
Qed.

Lemma update_route_answers ev :
  triple (fun _ => True) (UpdateShoes.route ev)
         (fun r _ => In (statusCode r) [200; 400; 403; 404; 500] /\ r <> id_required)
         (fun _ _ => True).
Proof.
  assert (Hpatch : forall id,
            triple (fun _ => True) (UpdateShoes.handlePatchInventory ev id)
                   (fun r _ => In (statusCode r) [200; 400; 403; 404; 500] /\
                               r <> id_required)
                   (fun _ _ => True)).
  { intros id. unfold UpdateShoes.handlePatchInventory. cbv zeta.
    destruct (negb (truthy (UpdateShoes.parseJsonBody ev)));
      [walk ltac:(split; [status_in | other_answer]) |].
    destruct (ToNumber (get (UpdateShoes.parseJsonBody ev) "size"));
      [| walk ltac:(split; [status_in | other_answer])
       | walk ltac:(split; [status_in | other_answer])].
    destruct (_ && _); [walk ltac:(split; [status_in | other_answer]) |].
    destruct (_ && _); [walk ltac:(split; [status_in | other_answer]) |].
    eapply triple_bind; [apply triple_any | intros conn].
    eapply triple_bind; [apply triple_any | intros rows].
    destruct rows; [walk ltac:(split; [status_in | other_answer]) |].
    eapply triple_bind with
      (R := fun early _ => match early with
                           | Some r => statusCode r = 400 /\ r <> id_required
                           | None => True
                           end); [apply patch_write_answers |].
    intros [r |].
    - apply triple_ret. intros w [Hs Hr]. split; [rewrite Hs; status_in | exact Hr].
    - eapply triple_pre with (P' := fun _ => True); [| auto].
      walk ltac:(split; [status_in | other_answer]). }
  assert (Hput : forall id,
            triple (fun _ => True) (UpdateShoes.handlePutUpdate ev id)
                   (fun r _ => In (statusCode r) [200; 400; 403; 404; 500] /\
                               r <> id_required)
                   (fun _ _ => True)).
  { intros id. unfold UpdateShoes.handlePutUpdate, UpdateShoes.update_in_transaction.
    cbv zeta. walk ltac:(split; [status_in | other_answer]). }
  unfold UpdateShoes.route. cbv zeta.
  destruct (String.eqb _ "OPTIONS"); [walk ltac:(split; [status_in | other_answer]) |].
  destruct (negb (isAdmin (getClaims ev)));
    [walk ltac:(split; [status_in | other_answer]) |].
  destruct (String.eqb _ "PATCH"); simpl andb.
  - destruct (inventory_route (request_path ev)) eqn:Hroute.
    + destruct (routes_have_last_piece _ (or_intror Hroute)) as [id Hid].
      rewrite Hid. destruct (str_or_given (path_id ev) id) as [id' Hid'].
      rewrite Hid'. apply Hpatch.
    + destruct (String.eqb _ "PUT"); simpl andb;
        [| walk ltac:(split; [status_in | other_answer])].
      destruct (shoe_route (request_path ev)) eqn:Hroute2;
        [| walk ltac:(split; [status_in | other_answer])].
      destruct (routes_have_last_piece _ (or_introl Hroute2)) as [id Hid].
      rewrite Hid. destruct (str_or_given (path_id ev) id) as [id' Hid'].
      rewrite Hid'. apply Hput.
  - destruct (String.eqb _ "PUT"); simpl andb;
      [| walk ltac:(split; [status_in | other_answer])].
    destruct (shoe_route (request_path ev)) eqn:Hroute2;
      [| walk ltac:(split; [status_in | other_answer])].
    destruct (routes_have_last_piece _ (or_introl Hroute2)) as [id Hid].
    rewrite Hid. destruct (str_or_given (path_id ev) id) as [id' Hid'].
    rewrite Hid'. apply Hput.
Qed.

Lemma create_route_answers ev :
  triple (fun _ => True) (CreateShoes.route ev)
         (fun r _ => In (statusCode r) [200; 201; 400; 403; 500])
         (fun _ _ => True).
Proof.
  assert (Hrespond : forall shoes result,
            In (statusCode (CreateShoes.respond shoes result))
               [200; 201; 400; 403; 500]).
  { intros shoes result. unfold CreateShoes.respond.
    destruct (CreateShoes.createdRows result) as [| row [| row' rows]];
      [status_in | | status_in].
    destruct (List.length shoes =? 1)%nat; status_in. }
  unfold CreateShoes.route, CreateShoes.create. cbv zeta.
  walk ltac:(first [apply Hrespond | status_in]).
Qed.

Lemma handler_answers (route : M response) (Q : response -> Prop) msg
  (text : exn -> string) w :
  triple (fun _ => True) route (fun r _ => Q r) (fun _ _ => True) ->
  (forall e, Q (resp 500 (msg_error_body msg (text e)))) ->
  exists r w',
    try_catch route (fun err => ret (resp 500 (msg_error_body msg (text err)))) w
    = (Ok r, w') /\ Q r.
Proof.
  intros H H500. unfold try_catch. specialize (H w I).
  destruct (route w) as [[r | e] w'].
  - exists r, w'. auto.
  - eexists. eexists. split; [reflexivity | apply H500].
Qed.

(** X3. The guarded handlers always answer: no exception leaves them, and
    the status is one of 200, 403, 404, 500 for DELETE, of 200, 400, 403,
    404, 500 for PUT and PATCH, of 200, 201, 400, 403, 500 for POST.  The
    answer [400 Shoe ID is required.] is never given by the DELETE
    handler nor by the PUT and PATCH handler: a path that matches the
    route has a last piece, which stands in for a missing path
    parameter. *)
Theorem guarded_handlers_answer :
  forall ev w,
    (exists r w', DeleteShoes.handler ev w = (Ok r, w') /\
                  In (statusCode r) [200; 403; 404; 500]) /\
    (exists r w', UpdateShoes.handler ev w = (Ok r, w') /\
                  In (statusCode r) [200; 400; 403; 404; 500] /\
                  r <> id_required) /\
    (exists r w', CreateShoes.handler ev w = (Ok r, w') /\
                  In (statusCode r) [200; 201; 400; 403; 500]).
Proof.
  intros ev w. split; [| split].
  - apply (handler_answers (DeleteShoes.route ev)
             (fun r => In (statusCode r) [200; 403; 404; 500]));
      [apply delete_route_answers | intros e; status_in].
  - apply (handler_answers (UpdateShoes.route ev)
             (fun r => In (statusCode r) [200; 400; 403; 404; 500] /\
                       r <> id_required));
      [apply update_route_answers | intros e; split; [status_in | other_answer]].
  - apply (handler_answers (CreateShoes.route ev)
             (fun r => In (statusCode r) [200; 201; 400; 403; 500]));
      [apply create_route_answers | intros e; status_in].
Qed.

(** * Beyond the claims: what a DELETE does to the store *)

Lemma delete_shoe_done shoeId d k d' :
  delete_shoe (PStr shoeId) d = Done k d' -> k <> 0 ->
  product_exists shoeId d = true /\
  shoes d' = without (mysql_number shoeId) (shoes d).
Proof.
  unfold delete_shoe, product_exists, without. simpl. intros H Hk.
  inversion H; subst. clear H. split; [| reflexivity].
  induction (shoes d) as [| r l IH]; simpl in *; [contradiction Hk; reflexivity |].
  destruct (id_is (mysql_number shoeId) (shoe_id r)); simpl in *; [reflexivity |].
  apply IH. exact Hk.
Qed.

(** The transaction of the guarded DELETE, by its result. *)
Lemma delete_in_transaction_effect shoeId c s0 :
  triple (settled s0) (DeleteShoes.delete_in_transaction shoeId c)
         (fun res w =>
            idle w /\
            match res with
            | DeleteShoes.NotFound => store w = s0
            | DeleteShoes.Deleted =>
                exists k, k <> 0 /\ delete_shoe (PStr shoeId) s0 = Done k (store w)
            end)
         (fun _ => settled s0).
Proof.
  unfold DeleteShoes.delete_in_transaction.
  eapply triple_bind; [apply beginTransaction_settled |]. intros u.
  eapply triple_try with (E' := fun _ => unsettled c s0).
  - eapply triple_bind; [apply (@query_txn_spec _ c s0 s0) |].
    intros del. apply triple_exists_pre. intros d.
    destruct (Z.eqb_spec del 0) as [Hz | Hz].
    + eapply triple_bind.
      * eapply triple_pre; [apply (@rollback_inside c s0) |].
        intros w [_ H]. exact (in_txn_unsettled H).
      * intros u'. apply triple_ret. intros w [Hs Hi]. auto.
    + intros w [Hdel Htx]. unfold bind.
      pose proof (@commit_spec c s0 d w Htx) as Hcom.
      destruct (commit c w) as [[[] | e] w']; simpl.
      * destruct Hcom as [Hs Hi]. split; [exact Hi |].
        exists del. rewrite Hs. auto.
      * exact Hcom.
  - intros e. eapply triple_bind; [apply rollback_spec |].
    intros u'. apply triple_throw. auto.
Qed.

Lemma delete_route_effect ev s0 :
  triple (settled s0) (DeleteShoes.route ev)
         (fun r w =>
            (r = deleted_guarded ->
             exists k, k <> 0 /\
                       delete_shoe (PStr (delete_target ev)) s0 = Done k (store w)) /\
            (r <> deleted_guarded -> store w = s0))
         (fun _ w => store w = s0).
Proof.
  assert (Hother : forall r, r <> deleted_guarded ->
            triple (settled s0) (ret r)
              (fun r w =>
                 (r = deleted_guarded ->
                  exists k, k <> 0 /\
                    delete_shoe (PStr (delete_target ev)) s0 = Done k (store w)) /\
                 (r <> deleted_guarded -> store w = s0))
              (fun _ w => store w = s0)).
  { intros r Hr. apply triple_ret. intros w [Hs _].
    split; [intros H; contradiction | auto]. }
  unfold DeleteShoes.route. cbv zeta.
  destruct (match str_or (ctx_method ev) (httpMethod ev) with
            | Some m => String.eqb m "OPTIONS"
            | None => false
            end); [apply Hother; other_answer |].
  destruct (negb (isAdmin (getClaims ev))); [apply Hother; other_answer |].
  destruct (_ && _); [| apply Hother; other_answer].
  destruct (str_or (path_id ev)
              (Some (last (split "/" (request_path ev)) EmptyString)))
    as [shoeId |] eqn:Hid; [| apply Hother; other_answer].
  assert (Htarget : delete_target ev = shoeId).
  { unfold delete_target. rewrite Hid. reflexivity. }
  destruct (String.eqb shoeId EmptyString); [apply Hother; other_answer |].
  eapply triple_bind.
  - unfold DeleteShoes.withDb.
    eapply triple_conseq;
      [apply (@withDb_settled _ getSecret_strict _ s0
                (fun res w =>
                   idle w /\
                   match res with
                   | DeleteShoes.NotFound => store w = s0
                   | DeleteShoes.Deleted =>
                       exists k, k <> 0 /\
                                 delete_shoe (PStr shoeId) s0 = Done k (store w)
                   end)
                getSecret_strict_frame);
       intros c; apply delete_in_transaction_effect
      | auto | intros a w H; exact H | intros e w [Hs _]; exact Hs].
  - intros [|]; apply triple_ret; intros w [Hi H].
    + split; [other_answer | auto].
    + rewrite Htarget. split; [auto | intros Hr; contradiction Hr; reflexivity].
Qed.

(** X4. The guarded DELETE handler, entered with no transaction open,
    whatever fails on the way: when it answers
    [200 Shoe deleted successfully.] the shoe the request names was in
    the table and the table now holds the other shoes, unchanged and in
    their order; with any other answer the committed store is what it
    was. *)
Theorem delete_removes_the_shoe :
  forall ev w r w',
    idle w ->
    DeleteShoes.handler ev w = (Ok r, w') ->
    (r = deleted_guarded ->
     product_exists (delete_target ev) (store w) = true /\
     shoes (store w') =
     without (mysql_number (delete_target ev)) (shoes (store w))) /\
    (r <> deleted_guarded -> store w' = store w).
Proof.
  intros ev w r w' Hi Hrun.
  pose proof (delete_route_effect ev (store w) w (conj eq_refl Hi)) as H.
  unfold DeleteShoes.handler, try_catch in Hrun.
  destruct (DeleteShoes.route ev w) as [[r0 | e] w0].
  - inversion Hrun; subst. destruct H as [H1 H2]. split; [| exact H2].
    intros Hr. destruct (H1 Hr) as [k [Hk Hdel]].
    exact (delete_shoe_done _ _ _ _ Hdel Hk).
  - inversion Hrun; subst. split; [other_answer | intros _; exact H].
Qed.

Lemma beginTransaction_inside c s0 :
  triple (fun w => store w = s0 /\ autocommit c w) (beginTransaction c)
         (fun _ => in_txn c s0 s0) (fun _ => unsettled c s0).
Proof.
  intros w [Hs Hc]. unfold beginTransaction, round_trip, bind, live, take_fault.
  rewrite Hc. simpl. rewrite Nat.eqb_refl. simpl.
  destruct (faults w) as [| [ft |] rest]; simpl;
    unfold in_txn, unsettled; simpl; crush_world.
Qed.

(** The transaction of the handler without guard, from the connection
    on. *)
Lemma plain_delete_transaction shoeId connection s0 :
  triple (fun w => store w = s0 /\ autocommit connection w)
         (try_catch
            (beginTransaction connection ;;
             deleteResult <- query connection (delete_shoe (PStr shoeId)) ;;
             if deleteResult =? 0 then
               rollback connection ;;
               ret (resp 404 (msg_body "Shoe not found."))
             else
               commit connection ;;
               ret (resp 200 (msg_body "Shoe and inventory deleted successfully.")))
            (fun error =>
               rollback connection ;;
               ret (resp 500 (msg_error_body "Error deleting shoe." (message error)))))
         (fun r w =>
            (r = deleted_plain ->
             exists k, k <> 0 /\ delete_shoe (PStr shoeId) s0 = Done k (store w)) /\
            (r <> deleted_plain -> store w = s0))
         (fun _ w => store w = s0).
Proof.
  eapply triple_try with (E' := fun _ => unsettled connection s0).
  - eapply triple_bind; [apply beginTransaction_inside |].
    intros u. eapply triple_bind; [apply (@query_txn_spec _ connection s0 s0) |].
    intros del. apply triple_exists_pre. intros d.
    destruct (Z.eqb_spec del 0) as [Hz | Hz].
    + eapply triple_bind.
      * eapply triple_pre; [apply (@rollback_inside connection s0) |].
        intros w [_ H]. exact (in_txn_unsettled H).
      * intros u'. apply triple_ret. intros w [Hs Hi].
        split; [other_answer | auto].
    + intros w [Hdel Htx]. unfold bind.
      pose proof (@commit_spec connection s0 d w Htx) as Hcom.
      destruct (commit connection w) as [[[] | e] w']; simpl.
      * destruct Hcom as [Hs Hi].
        split; [| intros Hr; contradiction Hr; reflexivity].
        intros _. exists del. rewrite Hs. auto.
      * exact Hcom.
  - intros e. eapply triple_bind.
    + eapply triple_conseq;
        [apply (@rollback_spec connection s0) | auto
        | intros a w H; exact H | intros e' w [Hs _]; exact Hs].
    + intros u'. apply triple_ret. intros w [Hs _].
      split; [other_answer | auto].
Qed.

(** X5. The DELETE handler without guard, entered with no transaction
    open, whatever fails on the way and also when the ROLLBACK of its
    [catch] block throws in its turn: when it answers
    [200 Shoe and inventory deleted successfully.] the shoe of the path
    parameter was in the table and the table now holds the other shoes;
    with any other outcome the committed store is what it was. *)
Theorem plain_delete_removes_the_shoe :
  forall ev shoeId w,
    idle w ->
    path_id ev = Some shoeId ->
    (fst (DeleteShoesPlain.handler ev w) = Ok deleted_plain ->
     product_exists shoeId (store w) = true /\
     shoes (store (snd (DeleteShoesPlain.handler ev w))) =
     without (mysql_number shoeId) (shoes (store w))) /\
    (fst (DeleteShoesPlain.handler ev w) <> Ok deleted_plain ->
     store (snd (DeleteShoesPlain.handler ev w)) = store w).
Proof.
  intros ev shoeId w Hi Hid. unfold DeleteShoesPlain.handler. rewrite Hid.
  destruct (negb (str_truthy (Some shoeId))).
  - simpl. split; [intros H; inversion H | reflexivity].
  - pose proof (@getConnection_spec getSecret_default (store w)
                  getSecret_default_frame w (conj eq_refl Hi)) as Hc.
    unfold DeleteShoesPlain.getConnection.
    destruct (getConnection getSecret_default w) as [[c | e] w1].
    + pose proof (plain_delete_transaction shoeId c (store w) w1 Hc) as H.
      match goal with
      | |- context [try_catch ?m ?h w1] => destruct (try_catch m h w1) as [[r | e] w2]
      end; simpl.
      * destruct H as [H1 H2]. split.
        -- intros Hr. inversion Hr as [Hr']. destruct (H1 Hr') as [k [Hk Hdel]].
           exact (delete_shoe_done _ _ _ _ Hdel Hk).
        -- intros Hr. apply H2. intros Hr'. apply Hr. rewrite Hr'. reflexivity.
      * split; [discriminate | intros _; exact H].
    + simpl. split; [intros H; inversion H | intros _; exact (proj1 Hc)].
Qed.

(** * Beyond the claims: what a PUT touches *)

Lemma beside_refl shoeId replaced s0 : beside shoeId replaced s0 s0.
Proof. repeat split; reflexivity. Qed.

Lemma assign_keeps_id col v r r' :
  assign col v r = inr r' -> shoe_id r' = shoe_id r.
Proof.
  destruct col; simpl;
    match goal with
    | |- context [match ?t with inl _ => _ | inr _ => _ end] => destruct t
    end; intros H; inversion H; reflexivity.
Qed.

Lemma assignments_keep_id sets : forall r r',
  assignments sets r = inr r' -> shoe_id r' = shoe_id r.
Proof.
  induction sets as [| [col p] sets IH]; simpl; intros r r' H.
  - inversion H; subst. reflexivity.
  - destruct (assign col p r) as [m | r1] eqn:Ha; [discriminate |].
    rewrite (IH _ _ H). eapply assign_keeps_id. exact Ha.
Qed.

(** The rows after an UPDATE: those under the id are what the
    assignments make of them, the others are as they were. *)
Lemma update_rows_done sets n l : forall l',
  update_rows sets n l = inr l' ->
  Forall2 (fun r r' => if id_is n (shoe_id r)
                       then assignments sets r = inr r' else r' = r) l l'.
Proof.
  induction l as [| r l IH]; intros l' H; simpl in H.
  - inversion H. constructor.
  - destruct (id_is n (shoe_id r)) eqn:Hr.
    + destruct (assignments sets r) as [m | r1] eqn:Ha; [discriminate |].
      destruct (update_rows sets n l) as [m | rest]; [discriminate |].
      inversion H; subst. constructor; [rewrite Hr; exact Ha | apply IH; reflexivity].
    + destruct (update_rows sets n l) as [m | rest]; [discriminate |].
      inversion H; subst. constructor; [rewrite Hr; reflexivity | apply IH; reflexivity].
Qed.

Lemma update_shoe_done sets shoeId d a d' :
  update_shoe sets (PStr shoeId) d = Done a d' ->
  update_rows sets (mysql_number shoeId) (shoes d) = inr (shoes d') /\
  shoe_inventory d' = shoe_inventory d /\
  a = Z.of_nat (List.length (filter (fun r => id_is (mysql_number shoeId) (shoe_id r))
                                    (shoes d))).
Proof.
  unfold update_shoe. destruct (existsb _ sets); [discriminate |]. simpl.
  destruct (update_rows sets (mysql_number shoeId) (shoes d)) as [m | l];
    [discriminate |].
  intros H. inversion H; subst. simpl. auto.
Qed.

Lemma updated_rows_keep_ids sets n l l' :
  Forall2 (fun r r' => if id_is n (shoe_id r)
                       then assignments sets r = inr r' else r' = r) l l' ->
  map shoe_id l' = map shoe_id l /\ without n l' = without n l.
Proof.
  intros H. unfold without. induction H as [| r r' l l' Hr _ [IH1 IH2]]; simpl; [auto |].
  destruct (id_is n (shoe_id r)) eqn:Hn.
  - rewrite (@assignments_keep_id _ _ _ Hr), Hn, IH1, IH2. simpl. auto.
  - subst r'. rewrite Hn, IH1, IH2. simpl. auto.
Qed.

Lemma update_shoe_beside sets shoeId replaced s0 d a d' :
  beside shoeId replaced s0 d ->
  update_shoe sets (PStr shoeId) d = Done a d' ->
  beside shoeId replaced s0 d'.
Proof.
  intros [H1 [H2 [H3 H4]]] Hup.
  destruct (@update_shoe_done _ _ _ _ _ Hup) as [Hrows [Hinv _]].
  destruct (@updated_rows_keep_ids _ _ _ _ (@update_rows_done _ _ _ _ Hrows)) as [Hm Hw].
  unfold beside, rows_beside. rewrite Hinv, Hm, Hw. auto.
Qed.

Lemma filter_twice {A : Type} (f : A -> bool) l : filter f (filter f l) = filter f l.
Proof.
  induction l as [| x l IH]; simpl; [reflexivity |].
  destruct (f x) eqn:Hx; simpl; rewrite ?Hx, IH; reflexivity.
Qed.

Lemma filter_filter_weaker {A : Type} (f g : A -> bool) l :
  (forall x, g x = false -> f x = false) ->
  filter f (filter g l) = filter f l.
Proof.
  intros H. induction l as [| x l IH]; simpl; [reflexivity |].
  destruct (g x) eqn:Hg; simpl; [rewrite IH; reflexivity |].
  rewrite (H x Hg). exact IH.
Qed.

Lemma delete_inventory_beside shoeId s0 d a d' :
  beside shoeId true s0 d ->
  delete_inventory (PStr shoeId) d = Done a d' ->
  beside shoeId true s0 d'.
Proof.
  intros [H1 [H2 [H3 _]]] Hdel. unfold delete_inventory in Hdel. simpl in Hdel.
  inversion Hdel; subst. unfold beside, rows_beside in *. simpl.
  rewrite filter_filter_weaker.
  - repeat split; auto. discriminate.
  - intros r Hr. unfold named. apply negb_false_iff in Hr. rewrite Hr. reflexivity.
Qed.

Lemma stored_under shoeId z q r :
  stored (param_of_num (ToNumber (JStr shoeId)), z, q) r ->
  named shoeId (inv_shoe r) = true.
Proof.
  intros [H _]. unfold bigint_of_param in H. apply numeric_of_num in H.
  destruct H as [pid [Hpid [Hr _]]]. unfold named. rewrite Hpid, Hr.
  unfold shoe_stored. rewrite Z.eqb_refl. apply orb_true_r.
Qed.

Lemma rows_of_the_shoe shoeId rows l :
  Forall (fun p => fst (fst p) = param_of_num (ToNumber (JStr shoeId))) rows ->
  Forall2 stored rows l ->
  filter (fun r => negb (named shoeId (inv_shoe r))) l = [].
Proof.
  intros Hrows Hst. induction Hst as [| [[s z] q] r rows l Hr _ IH]; [reflexivity |].
  inversion Hrows as [| ? ? Hp Hrest]; subst. simpl in Hp. subst s. simpl.
  rewrite (@stored_under _ _ _ _ Hr). simpl. exact (IH Hrest).
Qed.

Lemma insert_inventory_beside shoeId s0 rows d a d' :
  Forall (fun p => fst (fst p) = param_of_num (ToNumber (JStr shoeId))) rows ->
  beside shoeId true s0 d ->
  insert_inventory rows d = Done a d' ->
  beside shoeId true s0 d'.
Proof.
  intros Hrows [H1 [H2 [H3 _]]] Hins.
  destruct (@insert_inventory_done _ _ _ _ Hins) as [l [Hl [Hst Hsh]]].
  unfold beside, rows_beside in *. rewrite Hsh, Hl, filter_app.
  rewrite (@rows_of_the_shoe _ _ _ Hrows Hst), app_nil_r.
  repeat split; auto. discriminate.
Qed.

(** Where the id of the path is an integer written in decimal digits, the
    shoes it names are the shoe of that id. *)
Lemma rows_beside_others shoeId z d :
  mysql_number shoeId = of_Z z ->
  ToNumber (JStr shoeId) = Fin (of_Z z) ->
  rows_beside shoeId d = rows_of_others shoeId d.
Proof.
  intros Hm Hn. unfold rows_beside, rows_of_others. apply filter_ext.
  intros r. unfold named. rewrite Hn, Hm, id_is_of_Z.
  unfold shoe_stored. rewrite rounded_of_Z.
  rewrite (Z.eqb_sym (inv_shoe r) z). rewrite orb_diag. reflexivity.
Qed.

Lemma inventory_rows_under shoeId items :
  Forall (fun p => fst (fst p) = param_of_num (ToNumber (JStr shoeId)))
         (map UpdateShoes.row_params (UpdateShoes.inventory_rows shoeId items)).
Proof.
  induction items as [| item items IH]; simpl; [constructor |].
  unfold UpdateShoes.inventory_row.
  destruct (truthy item && negb (is_nullish (get item "size"))); [| exact IH].
  simpl. constructor; [reflexivity | exact IH].
Qed.

Lemma in_batches {A : Type} (l b : list A) x :
  In b (batches l) -> In x b -> In x l.
Proof.
  intros Hb Hx. rewrite <- (@batches_concat A l). apply in_concat. eauto.
Qed.

Lemma Forall_batch {A : Type} (P : A -> Prop) (l b : list A) :
  Forall P l -> In b (batches l) -> Forall P b.
Proof.
  intros Hl Hb. apply Forall_forall. intros x Hx.
  rewrite Forall_forall in Hl. exact (Hl x (in_batches _ _ _ Hb Hx)).
Qed.

Section PutFrame.

Variables (c : nat) (s0 : db) (shoeId : string).

(** A statement inside the transaction that keeps [I]. *)
Lemma query_txn_inv {A : Type} (stmt : db -> stmt_result A) (I : db -> Prop) :
  (forall d a d', I d -> stmt d = Done a d' -> I d') ->
  triple (fun w => exists d, in_txn c s0 d w /\ I d) (query c stmt)
         (fun _ w => exists d, in_txn c s0 d w /\ I d)
         (fun _ => unsettled c s0).
Proof.
  intros Hstmt. apply triple_exists_pre. intros d w [Htx HI].
  pose proof (@query_txn_spec _ c s0 d stmt w Htx) as H.
  destruct (query c stmt w) as [[a | e] w'].
  - destruct H as [d' [Hst Htx']]. exists d'. split; [exact Htx' |].
    exact (Hstmt _ _ _ HI Hst).
  - exact H.
Qed.

Lemma replace_inventory_beside inventory :
  triple (fun w => exists d, in_txn c s0 d w /\
                             beside shoeId (isArray inventory) s0 d)
         (UpdateShoes.replace_inventory c shoeId inventory)
         (fun _ w => exists d, in_txn c s0 d w /\
                               beside shoeId (isArray inventory) s0 d)
         (fun _ => unsettled c s0).
Proof.
  destruct inventory; try (apply triple_ret; auto).
  unfold UpdateShoes.replace_inventory. simpl isArray.
  eapply triple_bind.
  - apply query_txn_inv. intros d a d'. apply delete_inventory_beside.
  - intros n. apply triple_for_each. intros b Hb.
    eapply triple_bind.
    + apply query_txn_inv. intros d a d'. apply insert_inventory_beside.
      exact (Forall_batch _ _ _ (inventory_rows_under shoeId items) Hb).
    + intros k. apply triple_ret. auto.
Qed.

Lemma update_in_transaction_beside body :
  triple (in_txn c s0 s0) (UpdateShoes.update_in_transaction c shoeId body)
         (fun _ w => beside shoeId (isArray (get body "inventory")) s0 (store w))
         (fun _ => unsettled c s0).
Proof.
  unfold UpdateShoes.update_in_transaction. cbv zeta.
  eapply triple_bind
    with (R := fun _ w => exists d, in_txn c s0 d w /\
                            beside shoeId (isArray (get body "inventory")) s0 d).
  - eapply triple_pre
      with (P' := fun w => exists d, in_txn c s0 d w /\
                             beside shoeId (isArray (get body "inventory")) s0 d);
      [| intros w H; exists s0; split; [exact H | apply beside_refl]].
    destruct (UpdateShoes.field_sets body) as [| p l].
    + eapply triple_bind.
      * apply query_txn_inv. intros d a d' HI Hsel.
        apply select_shoe_reads in Hsel. subst. exact HI.
      * intros rows. apply triple_ret. auto.
    + eapply triple_bind.
      * apply query_txn_inv. intros d a d'. apply update_shoe_beside.
      * intros upd. apply triple_ret. auto.
  - intros found. destruct (negb found).
    + eapply triple_bind.
      * eapply triple_pre; [apply (@rollback_inside c s0) |].
        intros w [d [H _]]. exact (in_txn_unsettled H).
      * intros u. apply triple_ret. intros w [Hs _]. rewrite Hs. apply beside_refl.
    + eapply triple_bind; [apply replace_inventory_beside |].
      intros u. eapply triple_bind.
      * apply query_txn_inv. intros d a d' HI Hsel.
        apply select_shoe_reads in Hsel. subst. exact HI.
      * intros rows. apply triple_exists_pre. intros d.
        intros w [Htx HI]. unfold bind.
        pose proof (@commit_spec c s0 d w Htx) as Hcom.
        destruct (commit c w) as [[[] | e] w']; simpl.
        -- destruct Hcom as [Hs _]. rewrite Hs. exact HI.
        -- exact Hcom.
Qed.

End PutFrame.

Lemma handlePutUpdate_beside ev shoeId s0 :
  triple (settled s0) (UpdateShoes.handlePutUpdate ev shoeId)
         (fun _ w => beside shoeId
                       (isArray (get (UpdateShoes.parseJsonBody ev) "inventory"))
                       s0 (store w))
         (fun _ w => store w = s0).
Proof.
  unfold UpdateShoes.handlePutUpdate. cbv zeta.
  destruct (negb (truthy (UpdateShoes.parseJsonBody ev))).
  - apply triple_ret. intros w [Hs _]. rewrite Hs. apply beside_refl.
  - eapply triple_bind.
    + eapply triple_conseq;
        [apply (@getConnection_spec getSecret_default s0 getSecret_default_frame)
        | auto | intros a w H; exact H | intros e w [H _]; exact H].
    + intros c. eapply triple_bind.
      * eapply triple_conseq; [apply (@beginTransaction_spec c s0) | auto | |].
        -- intros a w H. exact H.
        -- intros e w [H _]. exact H.
      * intros u. eapply triple_try.
        -- apply update_in_transaction_beside.
        -- intros e. eapply triple_bind.
           ++ eapply triple_conseq;
                [apply (@rollback_spec c s0) | auto
                | intros a w H; exact H | intros e' w [H _]; exact H].
           ++ intros u'. apply triple_throw. intros w [H _]. exact H.
Qed.

(** X6. A PUT on [/shoes/{id}], whatever its body and whatever fails on
    the way, touches only the shoe it names.  Entered with no transaction
    open it leaves a store with the same shoe ids in the same order, in
    which every other shoe and every inventory row of another shoe is as
    it was; and when [inventory] is not an array the inventory table is
    as it was.  For an id that is an integer in decimal digits the shoe
    named is the shoe of that id, and the inventory rows of all the
    others are as they were. *)
Theorem put_touches_one_shoe :
  forall ev shoeId w,
    idle w ->
    beside shoeId (isArray (get (UpdateShoes.parseJsonBody ev) "inventory"))
           (store w) (store (snd (UpdateShoes.handlePutUpdate ev shoeId w))) /\
    (forall z,
       mysql_number shoeId = of_Z z ->
       ToNumber (JStr shoeId) = Fin (of_Z z) ->
       rows_of_others shoeId (store (snd (UpdateShoes.handlePutUpdate ev shoeId w)))
       = rows_of_others shoeId (store w)).
Proof.
  intros ev shoeId w Hi.
  assert (Hb : beside shoeId
                 (isArray (get (UpdateShoes.parseJsonBody ev) "inventory"))
                 (store w) (store (snd (UpdateShoes.handlePutUpdate ev shoeId w)))).
  { pose proof (handlePutUpdate_beside ev shoeId (store w) w (conj eq_refl Hi)) as H.
    destruct (UpdateShoes.handlePutUpdate ev shoeId w) as [[r | e] w']; simpl.
    - exact H.
    - rewrite H. apply beside_refl. }
  split; [exact Hb |].
  intros z Hm Hn. destruct Hb as [_ [_ [H3 _]]].
  rewrite <- !(@rows_beside_others shoeId z _ Hm Hn). exact H3.
Qed.

(** * Beyond the claims: the fields a PUT stores *)

Lemma field_sets_none body r :
  UpdateShoes.field_sets body = [] -> updated body r = r.
Proof.
  unfold UpdateShoes.field_sets, updated.
  destruct (is_nullish (get body "name")); [| discriminate].
  destruct (is_nullish (get body "brand")); [| discriminate].
  destruct (is_nullish (get body "price")); [| discriminate].
  destruct (is_nullish (get body "image")) eqn:Hi; [| discriminate].
  intros _. destruct (get body "image"); try discriminate; destruct r; reflexivity.
Qed.

(** The image an UPDATE stores. *)
Lemma image_stored image t :
  text_of_param 512 (param_of_js (js_or image JNull)) = inr t ->
  match image with
  | JStr s => t = kept 512 s
  | JNum n => t = kept 512 (mysql_text n)
  | JBool true => t = "1"%string
  | _ => False
  end.
Proof.
  intros H. apply text_of_param_text in H. unfold js_or in H.
  destruct image as [| | b | n | neg | s | l | l]; try exact H.
  - destruct b; exact H.
  - destruct (truthy (JNum n)); simpl in H; [exact H | contradiction].
  - destruct (truthy (JStr s)); simpl in H; [exact H | contradiction].
Qed.

Lemma assignments_updated body r r' :
  assignments (UpdateShoes.field_sets body) r = inr r' -> r' = updated body r.
Proof.
  unfold UpdateShoes.field_sets, updated.
  set (name := get body "name"). set (brand := get body "brand").
  set (price := get body "price"). set (image := get body "image").
  assert (Himage : is_nullish image = true ->
                   match image with
                   | JStr s => kept 512 s
                   | JNum n => kept 512 (mysql_text n)
                   | JBool true => "1"%string
                   | _ => shoe_image r
                   end = shoe_image r).
  { destruct image; try discriminate; reflexivity. }
  destruct (is_nullish name); simpl negb; cbv iota; simpl app;
    [| cbn [assignments assign];
       destruct (text_of_param 255 (PStr (ToString name))) as [m | n'] eqn:Hn;
       [discriminate | apply text_of_param_text in Hn; subst n']];
    (destruct (is_nullish brand); simpl negb; cbv iota; simpl app;
     [| cbn [assignments assign];
        destruct (text_of_param 100 (PStr (ToString brand))) as [m | b'] eqn:Hb;
        [discriminate | apply text_of_param_text in Hb; subst b']]);
    (destruct (is_nullish price); simpl negb; cbv iota; simpl app;
     [| cbn [assignments assign];
        destruct (price_of_param (param_of_num (ToNumber price))) as [m | p'] eqn:Hp;
        [discriminate
        | unfold price_of_param in Hp; apply numeric_of_num in Hp;
          destruct Hp as [d [Hd [Hv _]]]; rewrite Hd; subst p']]);
    (destruct (is_nullish image) eqn:Hi; simpl negb; cbv iota; simpl app;
     [rewrite (Himage eq_refl)
     | cbn [assignments assign];
       destruct (text_of_param 512 (param_of_js (js_or image JNull)))
         as [m | i'] eqn:Himg;
       [discriminate | apply image_stored in Himg]]);
    cbn [assignments]; intros H; injection H as <-; simpl;
    try (destruct r; reflexivity);
    try (destruct image as [| | [|] | | | | |]; try contradiction; subst i';
         reflexivity).
Qed.

Lemma updated_rows_map sets n (g : shoe_row -> shoe_row) l l' :
  (forall r r', assignments sets r = inr r' -> r' = g r) ->
  Forall2 (fun r r' => if id_is n (shoe_id r)
                       then assignments sets r = inr r' else r' = r) l l' ->
  l' = map (fun r => if id_is n (shoe_id r) then g r else r) l.
Proof.
  intros Hg H. induction H as [| r r' l l' Hr _ IH]; simpl; [reflexivity |].
  rewrite <- IH. f_equal.
  destruct (id_is n (shoe_id r)); [exact (Hg _ _ Hr) | exact Hr].
Qed.

Lemma filter_updated n (g : shoe_row -> shoe_row) l :
  (forall r, shoe_id (g r) = shoe_id r) ->
  filter (fun r => id_is n (shoe_id r))
         (map (fun r => if id_is n (shoe_id r) then g r else r) l)
  = map g (filter (fun r => id_is n (shoe_id r)) l).
Proof.
  intros Hg. induction l as [| r l IH]; simpl; [reflexivity |].
  destruct (id_is n (shoe_id r)) eqn:Hr; simpl.
  - rewrite Hg, Hr, IH. reflexivity.
  - rewrite Hr, IH. reflexivity.
Qed.

Lemma triple_pure_pre {A : Type} (phi : Prop) (P : world -> Prop) (m : M A) Q E :
  (phi -> triple P m Q E) -> triple (fun w => phi /\ P w) m Q E.
Proof. intros H w [Hphi Hw]. exact (H Hphi w Hw). Qed.

Lemma triple_any_from {A : Type} (P : world -> Prop) (m : M A) :
  triple P m (fun _ _ => True) (fun _ _ => True).
Proof. intros w _. destruct (m w) as [[a | e] w']; exact I. Qed.

Section PutFields.

Variables (c : nat) (s0 : db) (shoeId : string) (body : jsval).

Local Abbreviation target :=
  (map (fun s => if id_is (mysql_number shoeId) (shoe_id s)
                 then updated body s else s)
       (shoes s0)).

Lemma replace_inventory_keeps_shoes inventory :
  triple (fun w => exists d, in_txn c s0 d w /\ shoes d = target)
         (UpdateShoes.replace_inventory c shoeId inventory)
         (fun _ w => exists d, in_txn c s0 d w /\ shoes d = target)
         (fun _ _ => True).
Proof.
  assert (Hq : forall (A : Type) (stmt : db -> stmt_result A),
            (forall d a d', stmt d = Done a d' -> shoes d' = shoes d) ->
            triple (fun w => exists d, in_txn c s0 d w /\ shoes d = target)
                   (query c stmt)
                   (fun _ w => exists d, in_txn c s0 d w /\ shoes d = target)
                   (fun _ _ => True)).
  { intros A stmt Hst. eapply triple_conseq;
      [apply (query_txn_inv c s0 stmt (fun d => shoes d = target))
      | auto | intros a w H; exact H | auto].
    intros d a d' HI Hd. rewrite (Hst _ _ _ Hd). exact HI. }
  destruct inventory; try (apply triple_ret; auto).
  unfold UpdateShoes.replace_inventory.
  eapply triple_bind.
  - apply Hq. intros d a d' H. unfold delete_inventory in H. simpl in H.
    inversion H; reflexivity.
  - intros n. apply triple_for_each. intros b _.
    eapply triple_bind.
    + apply Hq. intros d a d' H.
      destruct (@insert_inventory_done _ _ _ _ H) as [l [_ [_ Hsh]]]. exact Hsh.
    + intros k. apply triple_ret. auto.
Qed.

Lemma update_in_transaction_fields :
  triple (in_txn c s0 s0) (UpdateShoes.update_in_transaction c shoeId body)
         (fun r w =>
            statusCode r = 200 ->
            shoes (store w) = target /\
            exists s rest,
              filter (fun s => id_is (mysql_number shoeId) (shoe_id s)) (shoes s0)
              = s :: rest /\
              r = resp 200 (js_of_shoe (updated body s)))
         (fun _ _ => True).
Proof.
  unfold UpdateShoes.update_in_transaction. cbv zeta.
  eapply triple_bind
    with (R := fun found w =>
                 (found = true ->
                  exists s rest,
                    filter (fun s => id_is (mysql_number shoeId) (shoe_id s))
                           (shoes s0)
                    = s :: rest) /\
                 exists d, in_txn c s0 d w /\ shoes d = target).
  - destruct (UpdateShoes.field_sets body) as [| p l] eqn:Hsets.
    + eapply triple_bind.
      * eapply triple_conseq;
          [apply (@query_txn_spec _ c s0 s0 (select_shoe (PStr shoeId)))
          | auto | intros a w H; exact H | auto].
      * intros rows. apply triple_ret. intros w [d [Hsel Htx]].
        rewrite select_shoe_str in Hsel. inversion Hsel; subst. split.
        -- destruct (filter _ (shoes d)) as [| s rest]; [discriminate | eauto].
        -- exists d. split; [exact Htx |].
           rewrite <- (map_id (shoes d)) at 1. apply map_ext. intros r.
           rewrite (field_sets_none body r Hsets).
           destruct (id_is (mysql_number shoeId) (shoe_id r)); reflexivity.
    + eapply triple_bind.
      * eapply triple_conseq;
          [apply (@query_txn_spec _ c s0 s0 (update_shoe (p :: l) (PStr shoeId)))
          | auto | intros a w H; exact H | auto].
      * intros upd. apply triple_ret. intros w [d [Hup Htx]].
        rewrite <- Hsets in Hup.
        destruct (@update_shoe_done _ _ _ _ _ Hup) as [Hrows [_ Hn]].
        split.
        -- subst upd.
           destruct (filter _ (shoes s0)) as [| s rest]; [discriminate | eauto].
        -- exists d. split; [exact Htx |].
           apply (@updated_rows_map (UpdateShoes.field_sets body)).
           ++ intros r r'. apply assignments_updated.
           ++ apply update_rows_done. exact Hrows.
  - intros found. apply triple_pure_pre. intros Hfound.
    destruct found; simpl negb; cbv iota.
    + destruct (Hfound eq_refl) as [s [rest Hs]].
      eapply triple_bind; [apply replace_inventory_keeps_shoes |]. intros u.
      eapply triple_bind
        with (R := fun rows w =>
                     exists d, in_txn c s0 d w /\ shoes d = target /\
                       rows = filter (fun s => id_is (mysql_number shoeId) (shoe_id s))
                                     (shoes d)).
      * apply triple_exists_pre. intros d w [Htx Hsh].
        pose proof (@query_txn_spec _ c s0 d (select_shoe (PStr shoeId)) w Htx) as H.
        destruct (query c (select_shoe (PStr shoeId)) w) as [[rows | e] w'];
          [| exact I].
        destruct H as [d' [Hsel Htx']]. rewrite select_shoe_str in Hsel.
        inversion Hsel; subst. exists d'. auto.
      * intros rows. apply triple_exists_pre. intros d w [Htx [Hsh Hrows]].
        unfold bind. pose proof (@commit_spec c s0 d w Htx) as Hcom.
        destruct (commit c w) as [[[] | e] w']; simpl; [| exact I].
        intros _. destruct Hcom as [Hst _]. rewrite Hst. split; [exact Hsh |].
        exists s, rest. split; [exact Hs |].
        rewrite Hrows, Hsh, filter_updated, Hs by reflexivity. reflexivity.
    + eapply triple_bind; [apply triple_any_from |].
      intros u. apply triple_ret. intros w _ H. simpl in H. discriminate.
Qed.

End PutFields.

Lemma handlePutUpdate_fields ev shoeId s0 :
  triple (settled s0) (UpdateShoes.handlePutUpdate ev shoeId)
         (fun r w =>
            statusCode r = 200 ->
            shoes (store w) =
            map (fun s => if id_is (mysql_number shoeId) (shoe_id s)
                          then updated (UpdateShoes.parseJsonBody ev) s else s)
                (shoes s0) /\
            exists s rest,
              filter (fun s => id_is (mysql_number shoeId) (shoe_id s)) (shoes s0)
              = s :: rest /\
              r = resp 200 (js_of_shoe (updated (UpdateShoes.parseJsonBody ev) s)))
         (fun _ _ => True).
Proof.
  unfold UpdateShoes.handlePutUpdate. cbv zeta.
  destruct (negb (truthy (UpdateShoes.parseJsonBody ev))).
  - apply triple_ret. intros w _ H. simpl in H. discriminate.
  - eapply triple_bind.
    + eapply triple_conseq;
        [apply (@getConnection_spec getSecret_default s0 getSecret_default_frame)
        | auto | intros a w H; exact H | auto].
    + intros c. eapply triple_bind.
      * eapply triple_conseq; [apply (@beginTransaction_spec c s0) | auto | | auto].
        intros a w H. exact H.
      * intros u. eapply triple_try.
        -- apply update_in_transaction_fields.
        -- intros e. eapply triple_bind; [apply triple_any_from |].
           intros u'. apply triple_throw. auto.
Qed.

(** X7. A PUT that is answered 200, entered with no transaction open: in
    the committed table every shoe with the id of the request holds the
    fields of the body as the columns take them ([name] and [brand] as
    strings, cut at the length of the column; [price] as a number,
    whole or not, rounded to hundredths; [image] as its text), a field
    that is [null] or missing leaving its column as it was; the other
    shoes are as they were; and the answer carries the shoe so updated,
    its price as the decimal text of the column. *)
Theorem put_stores_the_fields :
  forall ev shoeId w r w',
    idle w ->
    UpdateShoes.handlePutUpdate ev shoeId w = (Ok r, w') ->
    statusCode r = 200 ->
    shoes (store w') =
    map (fun s => if id_is (mysql_number shoeId) (shoe_id s)
                  then updated (UpdateShoes.parseJsonBody ev) s else s)
        (shoes (store w)) /\
    exists s rest,
      filter (fun s => id_is (mysql_number shoeId) (shoe_id s)) (shoes (store w))
      = s :: rest /\
      r = resp 200 (js_of_shoe (updated (UpdateShoes.parseJsonBody ev) s)).
Proof.
  intros ev shoeId w r w' Hi Hrun Hst.
  pose proof (handlePutUpdate_fields ev shoeId (store w) w (conj eq_refl Hi)) as H.
  rewrite Hrun in H. exact (H Hst).
Qed.

(** * Beyond the claims: PatchInventory *)

Section PatchPositiveDelta.

Variables (ev : event) (shoeId : string) (size pid delta : dec).

Local Abbreviation body := (UpdateShoes.parseJsonBody ev).

Hypothesis no_quantity : is_nullish (get body "quantity") = true.
Hypothesis delta_given : ToNumber (get body "delta") = Fin delta.
Hypothesis delta_positive : Numbers.ltb 0 delta = true.
Hypothesis size_given : ToNumber (get body "size") = Fin size.
Hypothesis id_number : ToNumber (JStr shoeId) = Fin pid.

Lemma positive_delta_present : is_nullish (get body "delta") = false.
Proof.
  destruct (get body "delta") eqn:Hd; try reflexivity; simpl in delta_given.
  - discriminate.
  - inversion delta_given as [H]. rewrite <- H in delta_positive.
    vm_compute in delta_positive. discriminate.
Qed.

Lemma patch_write_positive c :
  UpdateShoes.patch_write c shoeId size body =
  (query c (upsert_inventory (fun old new => old + new)
                             (PNum pid) (PNum size) (PNum delta)) ;;
   ret None).
Proof.
  unfold UpdateShoes.patch_write.
  rewrite no_quantity, delta_given, id_number. simpl negb. cbv iota.
  rewrite delta_positive. reflexivity.
Qed.

(** X8. A PATCH with a positive [delta], whole or not (and no
    [quantity]), on an existing shoe, when nothing fails on the way and
    the numbers fit their columns, is an upsert that adds: a row that
    holds the shoe and the size, as the columns round them, gets its
    quantity plus [delta] rounded to an integer, and when there is none a
    row with that integer is added under the next id; the other rows and
    the shoes are as they were, and the answer is 200 with the row that
    the size of the request finds, or with quantity 0.  The rounded
    [delta] is [delta] when it is an integer. *)
Theorem patch_positive_delta_adds :
  forall w,
    idle w ->
    no_fault w ->
    product_exists shoeId (store w) = true ->
    fits pid size delta ->
    (forall r, In r (shoe_inventory (store w)) ->
               holds_key (shoe_stored pid) (size_stored size) r = true ->
               inv_quantity r + quantity_stored delta <= INT_MAX) ->
    quantities_fit (store w) ->
    exists w',
      UpdateShoes.handlePatchInventory ev shoeId w =
      (Ok (resp 200 (patch_body pid size (store w'))), w')
      /\ shoes (store w') = shoes (store w)
      /\ shoe_inventory (store w') =
         upserted (fun old new => old + new) (shoe_stored pid) (size_stored size)
                  (quantity_stored delta) (store w)
      /\ (exists r, In r (shoe_inventory (store w')) /\
                    holds_key (shoe_stored pid) (size_stored size) r = true)
      /\ 0 <= quantity_stored delta
      /\ (forall z, delta = of_Z z -> quantity_stored delta = z).
Proof.
  intros w Hi Hf Hex Hfits Hsum Hfit.
  assert (Hcalm : calm (store w) w) by (repeat split; auto).
  pose proof positive_delta_present as Hd.
  assert (Hpos : 0 <= quantity_stored delta).
  { apply rounded_nonneg. rewrite ltb_zero_l in delta_positive.
    apply Z.ltb_lt in delta_positive. lia. }
  destruct (@patch_run ev shoeId size pid
              (get_not_nullish_truthy _ _ Hd) size_given
              (eq_trans no_quantity (eq_sym (f_equal negb Hd))) id_number
              (store w) w Hcalm Hex) as [c [w1 [Hw1 Hrun]]].
  rewrite Hrun. unfold patch_tail. rewrite patch_write_positive.
  destruct (@upsert_inventory_num (fun old new => old + new) pid size delta
              (store w) Hfits) as [n Hup].
  { intros r Hin Hk. split; [| exact (Hsum r Hin Hk)].
    unfold quantities_fit in Hfit. rewrite Forall_forall in Hfit.
    specialize (Hfit r Hin). lia. }
  destruct (@query_steady_done _ c (store w) _ _ _ w1 Hup Hw1) as [w2 [Hq Hw2]].
  destruct (@patch_answer size pid c _ w2 Hw2) as [w3 [Ha Hw3]].
  exists w3. unfold bind at 1. unfold bind at 1. rewrite Hq.
  cbv iota beta. unfold ret at 1. cbv iota beta.
  destruct Hw3 as [_ [Hs3 _]]. rewrite Hs3.
  split; [exact Ha |]. split; [reflexivity |]. split; [reflexivity |].
  split; [| split; [exact Hpos |]].
  - simpl. apply existsb_exists. apply upserted_has_key.
  - intros z Hz. rewrite Hz. apply rounded_of_Z.
Qed.

End PatchPositiveDelta.

(** ** What no PATCH does *)

Lemma patched_refl shoeId body s0 : patched shoeId body s0 s0.
Proof. repeat split; auto. Qed.

Lemma elsewhere_requantify f shoe size l :
  filter (fun r => negb (holds_key shoe size r))
         (map (requantify (holds_key shoe size) f) l)
  = filter (fun r => negb (holds_key shoe size r)) l.
Proof.
  induction l as [| r l IH]; simpl; [reflexivity |].
  rewrite holds_key_requantify. destruct (holds_key shoe size r) eqn:Hk; simpl.
  - exact IH.
  - unfold requantify at 1. rewrite Hk, IH. reflexivity.
Qed.

(** The rows that the WHERE clause of the decrement finds hold the key as
    the columns have it. *)
Lemma elsewhere_requantify_exact f pid size l :
  filter (fun r => negb (holds_key (shoe_stored pid) (size_stored size) r))
         (map (requantify (has_key pid size) f) l)
  = filter (fun r => negb (holds_key (shoe_stored pid) (size_stored size) r)) l.
Proof.
  induction l as [| r l IH]; simpl; [reflexivity |].
  assert (Hr : holds_key (shoe_stored pid) (size_stored size)
                 (requantify (has_key pid size) f r)
               = holds_key (shoe_stored pid) (size_stored size) r).
  { unfold requantify. destruct (has_key pid size r); reflexivity. }
  rewrite Hr, IH.
  destruct (holds_key (shoe_stored pid) (size_stored size) r) eqn:Hh; simpl;
    [reflexivity |].
  f_equal. unfold requantify. destruct (has_key pid size r) eqn:Hk; [| reflexivity].
  apply has_key_holds in Hk. unfold shoe_stored, size_stored in Hh. congruence.
Qed.

Lemma elsewhere_upserted on_dup shoe size q d :
  filter (fun r => negb (holds_key shoe size r)) (upserted on_dup shoe size q d)
  = filter (fun r => negb (holds_key shoe size r)) (shoe_inventory d).
Proof.
  unfold upserted.
  destruct (existsb (holds_key shoe size) (shoe_inventory d)).
  - apply elsewhere_requantify.
  - rewrite filter_app. simpl. rewrite holds_key_same. simpl. apply app_nil_r.
Qed.

Lemma non_negative_requantify hit f l :
  (forall old, 0 <= old -> 0 <= f old) ->
  Forall (fun r => 0 <= inv_quantity r) l ->
  Forall (fun r => 0 <= inv_quantity r) (map (requantify hit f) l).
Proof.
  intros Hf Hl. induction Hl as [| r l Hr _ IH]; simpl; constructor; [| exact IH].
  unfold requantify. destruct (hit r); simpl; auto.
Qed.

Lemma non_negative_upserted on_dup shoe size q d :
  (forall old, 0 <= old -> 0 <= on_dup old q) -> 0 <= q ->
  non_negative d ->
  Forall (fun r => 0 <= inv_quantity r) (upserted on_dup shoe size q d).
Proof.
  intros Hdup Hq Hd. unfold upserted.
  destruct (existsb (holds_key shoe size) (shoe_inventory d)).
  - apply non_negative_requantify; assumption.
  - apply Forall_app. split; [exact Hd |]. constructor; [exact Hq | constructor].
Qed.

(** An upsert that went through. *)
Lemma upsert_inventory_done on_dup s z q d a d' :
  upsert_inventory on_dup (PNum s) (PNum z) (PNum q) d = Done a d' ->
  shoes d' = shoes d /\
  shoe_inventory d' =
  upserted on_dup (shoe_stored s) (size_stored z) (quantity_stored q) d.
Proof.
  unfold upsert_inventory, upserted.
  unfold bigint_of_param, size_of_param, int_of_param, numeric_of_param.
  destruct (within BIGINT_MIN BIGINT_MAX (rounded 0 s)) as [m | s'] eqn:Hs;
    [discriminate |].
  destruct (within (-999) 999 (rounded 1 z)) as [m | z'] eqn:Hz; [discriminate |].
  destruct (within INT_MIN INT_MAX (rounded 0 q)) as [m | q'] eqn:Hq;
    [discriminate |].
  apply within_inr in Hs. apply within_inr in Hz. apply within_inr in Hq.
  destruct Hs as [-> _]. destruct Hz as [-> _]. destruct Hq as [-> _].
  unfold shoe_stored, size_stored, quantity_stored.
  destruct (existsb (holds_key (rounded 0 s) (rounded 1 z)) (shoe_inventory d)).
  - destruct (requantified _ _ (shoe_inventory d)) as [m | l] eqn:Hl; [discriminate |].
    apply requantified_done in Hl. intros H. inversion H; subst. simpl. auto.
  - intros H. inversion H; subst. simpl. auto.
Qed.

Lemma upsert_patched shoeId body s0 on_dup size q d a d' :
  (forall old, 0 <= old -> 0 <= on_dup old (quantity_stored q)) ->
  0 <= quantity_stored q ->
  ToNumber (get body "size") = Fin size ->
  patched shoeId body s0 d ->
  upsert_inventory on_dup (param_of_num (ToNumber (JStr shoeId)))
                   (PNum size) (PNum q) d = Done a d' ->
  patched shoeId body s0 d'.
Proof.
  intros Hdup Hq Hsize [H1 [H2 H3]] Hup.
  destruct (ToNumber (JStr shoeId)) as [pid | neg |] eqn:Hpid;
    [| discriminate | discriminate].
  simpl param_of_num in Hup.
  destruct (upsert_inventory_done _ _ _ _ _ _ _ Hup) as [Hsh Hinv].
  split; [rewrite Hsh; exact H1 |]. split.
  - intros pid' size' Hp Hs.
    assert (Hpp : pid' = pid) by congruence.
    assert (Hss : size' = size) by congruence. subst pid' size'.
    unfold elsewhere at 1. rewrite Hinv, elsewhere_upserted.
    apply H2; [first [reflexivity | exact Hpid] | exact Hsize].
  - intros Hs0. unfold non_negative. rewrite Hinv.
    apply non_negative_upserted; auto.
Qed.

Lemma greatest_patched shoeId body s0 size delta d a d' :
  ToNumber (get body "size") = Fin size ->
  patched shoeId body s0 d ->
  update_inventory_greatest (PNum delta) (param_of_num (ToNumber (JStr shoeId)))
                            (PNum size) d = Done a d' ->
  patched shoeId body s0 d'.
Proof.
  intros Hsize [H1 [H2 H3]] Hup.
  destruct (ToNumber (JStr shoeId)) as [pid | neg |] eqn:Hpid;
    [| discriminate | discriminate].
  unfold update_inventory_greatest in Hup. simpl in Hup.
  destruct (requantified (has_key pid size) (greatest delta) (shoe_inventory d))
    as [m | l] eqn:Hl; [discriminate |].
  apply requantified_done in Hl. inversion Hup; subst. clear Hup.
  split; [exact H1 |]. split.
  - intros pid' size' Hp Hs.
    assert (Hpp : pid' = pid) by congruence.
    assert (Hss : size' = size) by congruence. subst pid' size'.
    unfold elsewhere at 1. simpl.
    rewrite elsewhere_requantify_exact.
    apply H2; [first [reflexivity | exact Hpid] | exact Hsize].
  - intros Hs0. unfold non_negative. simpl.
    apply non_negative_requantify.
    + intros old _. apply greatest_nonneg.
    + exact (H3 Hs0).
Qed.

Lemma patch_write_patched c shoeId size body s0 :
  ToNumber (get body "size") = Fin size ->
  triple (fun w => patched shoeId body s0 (store w))
         (UpdateShoes.patch_write c shoeId size body)
         (fun _ w => patched shoeId body s0 (store w))
         (fun _ w => patched shoeId body s0 (store w)).
Proof.
  intros Hsize. unfold UpdateShoes.patch_write. cbv zeta.
  destruct (negb (is_nullish (get body "quantity"))).
  - destruct (ToNumber (get body "quantity")) as [quantity | neg |];
      [| apply triple_ret; auto | apply triple_ret; auto].
    destruct (Numbers.ltb quantity 0) eqn:Hq; [apply triple_ret; auto |].
    eapply triple_bind; [| intros u; apply triple_ret; intros w0 H0; exact H0].
    apply query_store. intros d a d'.
    assert (Hstored : 0 <= quantity_stored quantity).
    { apply rounded_nonneg. rewrite ltb_zero_r in Hq. apply Z.ltb_ge in Hq. exact Hq. }
    apply (@upsert_patched shoeId body s0 (fun _ new => new)); auto.
  - destruct (ToNumber (get body "delta")) as [delta | neg |];
      [| apply triple_ret; auto | apply triple_ret; auto].
    destruct (Numbers.ltb 0 delta) eqn:Hpos.
    + eapply triple_bind; [| intros u; apply triple_ret; intros w0 H0; exact H0].
      assert (Hq : 0 <= quantity_stored delta).
      { apply rounded_nonneg. rewrite ltb_zero_l in Hpos.
        apply Z.ltb_lt in Hpos. lia. }
      apply query_store. intros d a d'.
      apply (@upsert_patched shoeId body s0 (fun old new => old + new)); auto.
      intros old Hold. lia.
    + destruct (Numbers.ltb delta 0); [| apply triple_ret; auto].
      eapply triple_bind.
      * apply query_store. intros d a d' HI Hsel.
        apply select_inventory_reads in Hsel. subst. exact HI.
      * intros [| r rows]; [apply triple_ret; auto |].
        eapply triple_bind; [| intros u; apply triple_ret; intros w0 H0; exact H0].
        apply query_store. intros d a d'. apply greatest_patched. exact Hsize.
Qed.

Lemma handlePatchInventory_patched ev shoeId s0 :
  triple (fun w => patched shoeId (UpdateShoes.parseJsonBody ev) s0 (store w))
         (UpdateShoes.handlePatchInventory ev shoeId)
         (fun _ w => patched shoeId (UpdateShoes.parseJsonBody ev) s0 (store w))
         (fun _ w => patched shoeId (UpdateShoes.parseJsonBody ev) s0 (store w)).
Proof.
  unfold UpdateShoes.handlePatchInventory. cbv zeta.
  destruct (negb (truthy (UpdateShoes.parseJsonBody ev))); [apply triple_ret; auto |].
  destruct (ToNumber (get (UpdateShoes.parseJsonBody ev) "size"))
    as [size | neg |] eqn:Hsize;
    [| apply triple_ret; auto | apply triple_ret; auto].
  destruct (_ && _); [apply triple_ret; auto |].
  destruct (_ && _); [apply triple_ret; auto |].
  eapply triple_bind;
    [apply (getConnection_store getSecret_default _ getSecret_default_frame) |].
  intros conn. eapply triple_bind.
  - apply query_store. intros d a d' HI Hsel.
    apply select_shoe_reads in Hsel. subst. exact HI.
  - intros [| r rows]; [apply triple_ret; auto |].
    eapply triple_bind; [apply patch_write_patched; exact Hsize |].
    intros [early |]; [apply triple_ret; auto |].
    eapply triple_bind; [| intros rows'; apply triple_ret; intros w0 H0; exact H0].
    apply query_store. intros d a d' HI Hsel.
    apply select_inventory_reads in Hsel. subst. exact HI.
Qed.

(** X9. What no PATCH does, whatever its body, whatever the state of the
    connection and whatever fails on the way: it leaves the shoes as they
    were, it leaves every inventory row under another key than the (shoe,
    size) it names as it was, and it makes no quantity negative: when no
    quantity of the inventory was negative before the call, none is after
    it. *)
Theorem patch_keeps_the_rest :
  forall ev shoeId w,
    patched shoeId (UpdateShoes.parseJsonBody ev) (store w)
            (store (snd (UpdateShoes.handlePatchInventory ev shoeId w))).
Proof.
  intros ev shoeId w.
  pose proof (handlePatchInventory_patched ev shoeId (store w) w
                (patched_refl _ _ _)) as H.
  destruct (UpdateShoes.handlePatchInventory ev shoeId w) as [[r | e] w']; exact H.
Qed.

(** X10. A PATCH is turned down with 400 before any connection is asked
    for, the world left as it was, when its body does not parse, when
    [Number(size)] is not finite ([NaN] or an infinity: a size such as
    9.5, or the string of one, is a number and is not turned down), when
    both [quantity] and [delta] are given, and when neither is. *)
Theorem patch_refuses_before_connecting :
  forall ev shoeId w,
    patch_refused (UpdateShoes.parseJsonBody ev) ->
    exists m,
      UpdateShoes.handlePatchInventory ev shoeId w = (Ok (resp 400 (msg_body m)), w).
Proof.
  intros ev shoeId w Href. unfold UpdateShoes.handlePatchInventory. cbv zeta.
  destruct (truthy (UpdateShoes.parseJsonBody ev)) eqn:Ht; simpl negb; cbv iota;
    [| eexists; reflexivity].
  destruct Href as [H | [H | [[H1 H2] | [H1 H2]]]]; [congruence | | |].
  - destruct (ToNumber _); [discriminate | |]; eexists; reflexivity.
  - rewrite H1, H2. simpl.
    destruct (ToNumber _); eexists; reflexivity.
  - rewrite H1, H2. simpl.
    destruct (ToNumber _); eexists; reflexivity.
Qed.

(** * Beyond the claims: the batches of the insert loops *)

Lemma batches_fuel_sizes {A : Type} fuel : forall (l : list A),
  (List.length l <= fuel)%nat ->
  Forall (fun b => (1 <= List.length b <= 10)%nat) (batches_fuel fuel l) /\
  List.length (batches_fuel fuel l) = ((List.length l + 9) / 10)%nat.
Proof.
  induction fuel as [| fuel IH]; intros l Hlen.
  - destruct l; [split; [constructor | reflexivity] | simpl in Hlen; lia].
  - destruct l as [| x l']; [split; [constructor | reflexivity] |].
    change (batches_fuel (S fuel) (x :: l'))
      with (firstn 10 (x :: l') :: batches_fuel fuel (skipn 10 (x :: l'))).
    assert (Hskip : (List.length (skipn 10 (x :: l')) <= fuel)%nat).
    { rewrite length_skipn. simpl List.length in *. lia. }
    destruct (IH _ Hskip) as [IH1 IH2]. split.
    + constructor; [| exact IH1].
      rewrite length_firstn. simpl List.length. lia.
    + change (List.length (firstn 10 (x :: l') ::
                           batches_fuel fuel (skipn 10 (x :: l'))))
        with (S (List.length (batches_fuel fuel (skipn 10 (x :: l'))))).
      rewrite IH2, length_skipn.
      remember (List.length (x :: l')) as n eqn:Hn.
      assert (Hpos : (1 <= n)%nat) by (subst n; simpl; lia).
      destruct (Nat.le_gt_cases n 10) as [Hle | Hgt].
      * replace (n - 10)%nat with 0%nat by lia.
        change ((0 + 9) / 10)%nat with 0%nat.
        apply (Nat.div_unique (n + 9) 10 1 (n - 1)); lia.
      * replace (n + 9)%nat with ((n - 10 + 9) + 1 * 10)%nat by lia.
        rewrite Nat.div_add by lia. lia.
Qed.

(** X11. The loops that insert in batches ([rows.slice(i, i + 10)] for
    [i = 0, 10, 20, ...]) send every row once and in order, in batches
    that hold between one and ten rows, and in as few statements as that
    allows: the number of rows over ten, rounded up. *)
Theorem batches_cover_the_rows :
  forall (A : Type) (rows : list A),
    List.concat (batches rows) = rows /\
    Forall (fun b => (1 <= List.length b <= 10)%nat) (batches rows) /\
    List.length (batches rows) = ((List.length rows + 9) / 10)%nat.
Proof.
  intros A rows. split; [apply batches_concat |].
  apply batches_fuel_sizes. apply Nat.le_refl.
Qed.

(** * Beyond the claims: the seeders only add *)

Lemma grown_refl s0 : grown s0 s0.
Proof. split; exists []; rewrite app_nil_r; reflexivity. Qed.

Lemma insert_shoes_grown s0 vals d a d' :
  grown s0 d -> insert_shoes vals d = Done a d' -> grown s0 d'.
Proof.
  intros [[l1 H1] H2] H. unfold insert_shoes in H.
  destruct (new_shoes (shoes_auto d) vals) as [m | l]; [discriminate |].
  inversion H; subst. split; simpl; [| exact H2].
  exists (l1 ++ l). rewrite H1, app_assoc. reflexivity.
Qed.

Lemma insert_inventory_grown s0 rows d a d' :
  grown s0 d -> insert_inventory rows d = Done a d' -> grown s0 d'.
Proof.
  intros [[l1 H1] [l2 H2]] H.
  destruct (@insert_inventory_done _ _ _ _ H) as [l [Hl [_ Hsh]]].
  split.
  - exists l1. rewrite Hsh. exact H1.
  - exists (l2 ++ l). rewrite Hl, H2, app_assoc. reflexivity.
Qed.

Lemma inventory_loop_grown s0 c bs :
  triple (fun w => grown s0 (store w))
         (for_each (fun b => query c (insert_inventory b) ;; ret tt) bs)
         (fun _ w => grown s0 (store w)) (fun _ w => grown s0 (store w)).
Proof.
  apply keeps_for_each. intros b. apply keeps_bind; [| intros n; apply keeps_ret].
  apply query_store. intros d a d'. apply insert_inventory_grown.
Qed.

Lemma create_seed_grown s0 shoes c :
  triple (fun w => grown s0 (store w)) (CreateShoes.seed shoes c)
         (fun _ w => grown s0 (store w)) (fun _ w => grown s0 (store w)).
Proof.
  unfold CreateShoes.seed.
  generalize (List.length shoes =? 1)%nat as single.
  generalize {| CreateShoes.totalInserted := 0; CreateShoes.createdRows := [] |} as acc.
  induction (batches shoes) as [| b chunks IH]; intros acc single; simpl.
  - apply keeps_ret.
  - apply keeps_bind; [| intros acc'; apply IH].
    unfold CreateShoes.seed_batch.
    apply keeps_bind; [apply keeps_lift |]. intros vals.
    apply keeps_bind;
      [apply query_store; intros d a d'; apply insert_shoes_grown |].
    intros insertId. apply keeps_bind.
    + destruct single; [| apply keeps_ret].
      apply keeps_bind; [| intros rows; apply keeps_ret].
      apply query_store. intros d a d' HI Hsel.
      apply select_shoe_reads in Hsel. subst. exact HI.
    + intros created. apply keeps_bind; [apply keeps_lift |]. intros invRows.
      apply keeps_bind; [apply inventory_loop_grown |]. intros u. apply keeps_ret.
Qed.

Lemma create_handler_grown s0 ev :
  triple (fun w => grown s0 (store w)) (CreateShoes.handler ev)
         (fun _ w => grown s0 (store w)) (fun _ w => grown s0 (store w)).
Proof.
  unfold CreateShoes.handler. apply keeps_try; [| intros e; apply keeps_ret].
  unfold CreateShoes.route, CreateShoes.create. cbv zeta.
  repeat match goal with
         | |- triple _ (if ?b then _ else _) _ _ => destruct b
         | |- triple _ (match ?o with Some _ => _ | None => _ end) _ _ => destruct o
         | |- triple _ (match CreateShoes.shoes_of ?b with _ => _ end) _ _ =>
             destruct (CreateShoes.shoes_of b) as [| | | | | | [| ? ?] |]
         | |- triple _ (ret _) _ _ => apply keeps_ret
         | |- triple _ (throw _) _ _ => apply keeps_throw
         end.
  apply keeps_bind; [| intros result; apply keeps_ret].
  unfold CreateShoes.withDb.
  apply (keeps_withDb _ _ _ getSecret_default_frame). intros c.
  apply create_seed_grown.
Qed.

Lemma seed_handler_grown s0 ev :
  triple (fun w => grown s0 (store w)) (SeedShoes.handler ev)
         (fun _ w => grown s0 (store w)) (fun _ w => grown s0 (store w)).
Proof.
  unfold SeedShoes.handler. apply keeps_try; [| intros e; apply keeps_ret].
  unfold SeedShoes.body_of_handler.
  apply keeps_bind;
    [apply (getConnection_store getSecret_default _ getSecret_default_frame) |].
  intros connection. apply keeps_bind; [apply keeps_lift |]. intros shoes.
  destruct shoes as [| | | | | | [| s l] |]; try apply keeps_ret.
  apply keeps_bind; [| intros n; apply keeps_ret].
  generalize 0%nat as total.
  induction (batches (s :: l)) as [| b chunks IH]; intros total; simpl.
  - apply keeps_ret.
  - apply keeps_bind; [| intros n; apply IH].
    unfold SeedShoes.seed_batch.
    apply keeps_bind; [apply keeps_lift |]. intros vals.
    apply keeps_bind;
      [apply query_store; intros d a d'; apply insert_shoes_grown |].
    intros insertId. apply keeps_bind; [apply keeps_lift |]. intros rows.
    apply keeps_bind; [apply inventory_loop_grown |]. intros u. apply keeps_ret.
Qed.

(** X12. The two handlers of POST only add.  Whatever the request,
    whatever the state of the connection and whatever fails on the way,
    even when a batch is given up half way or run a second time after a
    lost connection, the rows that were in [shoes] and in
    [shoe_inventory] are still there, unchanged and in their order, and
    what is new comes after them. *)
Theorem seeders_only_add :
  forall ev w,
    grown (store w) (store (snd (CreateShoes.handler ev w))) /\
    grown (store w) (store (snd (SeedShoes.handler ev w))).
Proof.
  intros ev w. split.
  - pose proof (create_handler_grown (store w) ev w (grown_refl _)) as H.
    destruct (CreateShoes.handler ev w) as [[r | e] w']; exact H.
  - pose proof (seed_handler_grown (store w) ev w (grown_refl _)) as H.
    destruct (SeedShoes.handler ev w) as [[r | e] w']; exact H.
Qed.

(** * Beyond the claims: what a POST inserts *)

Lemma entries_under id entries rows :
  Seeding.map_throwing (CreateShoes.inventory_entry id) entries = Ok rows ->
  Forall (fun p => fst (fst p) = PNum id)
         (flat_map (fun o => match o with Some r => [r] | None => [] end) rows).
Proof.
  revert rows. induction entries as [| x entries IH]; intros rows; simpl.
  - intros H. inversion H. constructor.
  - unfold CreateShoes.inventory_entry at 1.
    destruct (is_nullish x); [discriminate |].
    destruct (negb (is_nullish (get x "size")));
      (destruct (Seeding.map_throwing (CreateShoes.inventory_entry id) entries)
         as [rows' |]; [| discriminate];
       intros H; inversion H; subst; simpl;
       try constructor; try reflexivity; apply IH; reflexivity).
Qed.

Lemma collect_under items : forall first params,
  Seeding.collect_inventory CreateShoes.inventory_entry first items = Ok params ->
  Forall (fun p => exists k, (k < List.length items)%nat /\
                             fst (fst p) = PNum (first + Z.of_nat k)) params.
Proof.
  induction items as [| shoe items IH]; intros first params; simpl.
  - intros H. inversion H. constructor.
  - destruct (match get shoe "inventory" with
              | JArr entries =>
                  Seeding.map_throwing (CreateShoes.inventory_entry first) entries
              | _ => Ok []
              end) as [mine |] eqn:Hmine; [| discriminate].
    destruct (Seeding.collect_inventory CreateShoes.inventory_entry (first + 1) items)
      as [others |] eqn:Hothers; [| discriminate].
    intros H. inversion H; subst. apply Forall_app. split.
    + assert (Hm : Forall (fun p => fst (fst p) = PNum first)
                     (flat_map (fun o => match o with Some r => [r] | None => [] end)
                               mine)).
      { destruct (get shoe "inventory") as [| | | | | | entries |];
          try (inversion Hmine; constructor).
        exact (entries_under _ _ _ Hmine). }
      eapply Forall_impl; [| exact Hm]. intros p Hp. exists 0%nat.
      split; [lia | rewrite Hp; do 2 f_equal; lia].
    + eapply Forall_impl; [| exact (IH _ _ Hothers)].
      intros p [k [Hk Hp]]. exists (S k). split; [lia |].
      rewrite Hp. do 2 f_equal. lia.
Qed.

Lemma stored_shoes params invs first n :
  Forall (fun p => exists k, (k < n)%nat /\ fst (fst p) = PNum (first + Z.of_nat k))
         params ->
  Forall2 stored params invs ->
  forall i, In i invs -> In (inv_shoe i) (consecutive first n).
Proof.
  intros Hp Hst. induction Hst as [| [[s z] q] r params invs Hr _ IH];
    intros i Hin; [contradiction |].
  inversion Hp as [| ? ? [k [Hk Hs]] Hrest]; subst. destruct Hin as [Hi | Hi].
  - subst i. simpl in Hs. subst s. destruct Hr as [H _].
    unfold bigint_of_param, numeric_of_param in H. apply within_inr in H.
    destruct H as [H _]. rewrite H, rounded_of_Z. apply in_consecutive. exact Hk.
  - exact (IH Hrest i Hi).
Qed.

(** X13. A POST that passed the guard with a batch of [n] items and was
    not answered 500, on a connection with no transaction open and when
    nothing fails on the way: [n] shoes were added after those of the
    table, under the ids that follow the AUTO_INCREMENT counter, in the
    order of the batch, each made from its item ([name], [brand] and
    [image] as the text the columns keep, [Number(price)], whole or not,
    rounded to hundredths); and every inventory row that was added
    belongs to one of these new shoes. *)
Theorem create_inserts_the_batch :
  forall ev w body s l r w',
    idle w ->
    no_fault w ->
    method_of ev <> Some "OPTIONS"%string ->
    isAdmin (getClaims ev) = true ->
    CreateShoes.parse_body ev = Some body ->
    is_nullish body = false ->
    CreateShoes.shoes_of body = JArr (s :: l) ->
    CreateShoes.handler ev w = (Ok r, w') ->
    statusCode r <> 500 ->
    exists rows invs,
      shoes (store w') = shoes (store w) ++ rows /\
      map shoe_id rows = consecutive (shoes_auto (store w)) (List.length (s :: l)) /\
      Forall2 made_from (s :: l) rows /\
      shoe_inventory (store w') = shoe_inventory (store w) ++ invs /\
      (forall i, In i invs -> In (inv_shoe i) (map shoe_id rows)).
Proof.
  intros ev w body s l r w' Hi Hf Hm Hadmin Hp Hnn Hshoes Hrun Hst.
  destruct (create_run ev w body s l r w' Hi Hf Hm Hadmin Hp Hnn Hshoes Hrun Hst)
    as [rows [invs [params [H1 [H2 [H3 [H4 [H5 [H6 H7]]]]]]]]].
  exists rows, invs. repeat split; auto.
  rewrite H3. exact (stored_shoes _ _ _ _ (collect_under _ _ _ H6) H7).
Qed.

(** X14. The single item form of a POST, [{ name, brand, price, size,
    image }] with no [shoes] and no [inventory] array: when the request
    passed the guard and was not answered 500, on a connection with no
    transaction open and nothing failing on the way, one shoe was added
    under the next id, made from the fields of the body, and one
    inventory row for it: the size of the body, whole or a half or any
    number that the column rounds to a tenth, with quantity 1. *)
Theorem single_item_gets_one_pair :
  forall ev w body size r w',
    idle w ->
    no_fault w ->
    method_of ev <> Some "OPTIONS"%string ->
    isAdmin (getClaims ev) = true ->
    CreateShoes.parse_body ev = Some body ->
    single_with_size body size ->
    CreateShoes.handler ev w = (Ok r, w') ->
    statusCode r <> 500 ->
    exists shoe row,
      shoes (store w') = shoes (store w) ++ [shoe] /\
      shoe_id shoe = shoes_auto (store w) /\
      made_from body shoe /\
      shoe_inventory (store w') = shoe_inventory (store w) ++ [row] /\
      inv_shoe row = shoe_id shoe /\ inv_size row = size_stored size /\
      inv_quantity row = 1.
Proof.
  intros ev w body size r w' Hi Hf Hm Hadmin Hp
         [Hshoes [Hname [Hbrand [Hprice [Hinv [Hsz Hsize]]]]]] Hrun Hst.
  assert (Hnn : is_nullish body = false).
  { destruct body; simpl in Hname; try discriminate; reflexivity. }
  assert (Hof : CreateShoes.shoes_of body = JArr [CreateShoes.single_item body]).
  { unfold CreateShoes.shoes_of. rewrite Hshoes, Hname, Hbrand, Hprice. reflexivity. }
  destruct (create_run ev w body _ _ r w' Hi Hf Hm Hadmin Hp Hnn Hof Hrun Hst)
    as [rows [invs [params [H1 [H2 [H3 [H4 [H5 [H6 H7]]]]]]]]].
  inversion H4 as [| item shoe items rows' Hmade Hnil]; subst.
  inversion Hnil; subst. clear H4 Hnil.
  assert (Hparams : params =
            [(PNum (shoes_auto (store w)), PNum size, PNum 1)]).
  { unfold Seeding.collect_inventory, CreateShoes.single_item in H6.
    simpl get in H6. rewrite Hinv, Hsz in H6. simpl in H6.
    unfold CreateShoes.inventory_entry in H6. simpl in H6.
    rewrite Hsz, Hsize in H6. simpl in H6. inversion H6. reflexivity. }
  subst params.
  inversion H7 as [| p row ps invs' Hrow Hnil]; subst.
  inversion Hnil; subst. clear H7 Hnil.
  destruct Hrow as [Hr1 [Hr2 Hr3]].
  unfold bigint_of_param, numeric_of_param in Hr1. apply within_inr in Hr1.
  unfold size_of_param, numeric_of_param in Hr2. apply within_inr in Hr2.
  unfold int_of_param, numeric_of_param in Hr3. apply within_inr in Hr3.
  destruct Hr1 as [Hr1 _]. destruct Hr2 as [Hr2 _]. destruct Hr3 as [Hr3 _].
  rewrite rounded_of_Z in Hr1, Hr3.
  simpl in H3. unfold consecutive in H3. simpl in H3. injection H3 as Hid.
  rewrite Z.add_0_r in Hid.
  exists shoe, row. rewrite Hid, Hr1, Hr2, Hr3.
  split; [exact H1 |]. split; [reflexivity |].
  split; [| split; [exact H5 | repeat split]].
  destruct Hmade as [M1 [M2 [M3 [M4 M5]]]].
  unfold CreateShoes.single_item in M1, M2, M3, M4, M5. simpl get in *.
  unfold made_from. auto.
Qed.

(** * Beyond the claims: the read-only handlers *)

(** ** ORDER BY *)

Section OrderBy.

Variable A : Type.
Variable le : A -> A -> bool.

Hypothesis le_total : forall a b, le a b = false -> le b a = true.
Hypothesis le_trans : forall a b c, le a b = true -> le b c = true -> le a c = true.

Local Abbreviation R := (fun a b => le a b = true).

Lemma insert_by_perm x l : Permutation (Reading.insert_by le x l) (x :: l).
Proof.
  induction l as [| y l IH]; simpl; [constructor; constructor |].
  destruct (le x y); [apply Permutation_refl |].
  eapply perm_trans; [apply perm_skip; exact IH | apply perm_swap].
Qed.

Lemma order_by_perm l : Permutation (Reading.order_by le l) l.
Proof.
  induction l as [| x l IH]; simpl; [constructor |].
  eapply perm_trans; [apply insert_by_perm | apply perm_skip; exact IH].
Qed.

Lemma insert_by_sorted x l :
  StronglySorted R l -> StronglySorted R (Reading.insert_by le x l).
Proof.
  intros Hl. induction Hl as [| y l Hl IH Hy]; simpl.
  - constructor; constructor.
  - destruct (le x y) eqn:Hxy.
    + constructor; [constructor; assumption |].
      constructor; [exact Hxy |].
      eapply Forall_impl; [| exact Hy]. intros z Hz. exact (le_trans _ _ _ Hxy Hz).
    + constructor; [exact IH |].
      apply Forall_forall. intros z Hz.
      apply (Permutation_in _ (insert_by_perm x l)) in Hz.
      destruct Hz as [Hz | Hz].
      * subst z. exact (le_total _ _ Hxy).
      * rewrite Forall_forall in Hy. exact (Hy z Hz).
Qed.

Lemma order_by_sorted l : StronglySorted R (Reading.order_by le l).
Proof.
  induction l as [| x l IH]; simpl; [constructor | apply insert_by_sorted; exact IH].
Qed.

(** Two lists in order with the same rows are the same list, when no two
    rows compare equal. *)
Lemma sorted_unique l1 : forall l2,
  StronglySorted R l1 -> StronglySorted R l2 -> Permutation l1 l2 ->
  (forall a b, In a l1 -> In b l1 -> le a b = true -> le b a = true -> a = b) ->
  l1 = l2.
Proof.
  induction l1 as [| a l1 IH]; intros l2 H1 H2 Hp Hanti.
  - apply Permutation_nil in Hp. subst. reflexivity.
  - destruct l2 as [| b l2];
      [apply Permutation_sym, Permutation_nil in Hp; discriminate |].
    inversion H1 as [| ? ? H1' Ha]; subst. inversion H2 as [| ? ? H2' Hb]; subst.
    assert (Hab : a = b).
    { assert (Hina : In a (b :: l2))
        by (apply (Permutation_in _ Hp); left; reflexivity).
      assert (Hinb : In b (a :: l1))
        by (apply (Permutation_in _ (Permutation_sym Hp)); left; reflexivity).
      destruct Hina as [Hina | Hina]; [auto |].
      destruct Hinb as [Hinb | Hinb]; [auto |].
      rewrite Forall_forall in Ha, Hb.
      apply Hanti; [left; reflexivity | right; exact Hinb | auto | auto]. }
    subst b. f_equal. apply IH; [exact H1' | exact H2' | |].
    + exact (Permutation_cons_inv Hp).
    + intros x y Hx Hy. apply Hanti; right; assumption.
Qed.

End OrderBy.

Lemma order_by_map {A B : Type} (f : A -> B) (le : A -> A -> bool)
  (le' : B -> B -> bool) l :
  (forall a b, le' (f a) (f b) = le a b) ->
  Reading.order_by le' (map f l) = map f (Reading.order_by le l).
Proof.
  intros Hle. induction l as [| x l IH]; simpl; [reflexivity |].
  rewrite IH. generalize (Reading.order_by le l) as s.
  induction s as [| y s IHs]; simpl; [reflexivity |].
  rewrite Hle. destruct (le x y); simpl; [reflexivity | rewrite IHs; reflexivity].
Qed.

Lemma StronglySorted_app {A : Type} (R : A -> A -> Prop) l1 l2 :
  StronglySorted R l1 -> StronglySorted R l2 ->
  (forall a b, In a l1 -> In b l2 -> R a b) ->
  StronglySorted R (l1 ++ l2).
Proof.
  intros H1 H2 H12. induction H1 as [| a l1 H1 IH Ha]; simpl; [exact H2 |].
  constructor.
  - apply IH. intros x y Hx Hy. apply H12; [right |]; assumption.
  - apply Forall_app. split; [exact Ha |].
    apply Forall_forall. intros y Hy. apply H12; [left; reflexivity | exact Hy].
Qed.

Lemma by_size_total a b : Reading.by_size a b = false -> Reading.by_size b a = true.
Proof. unfold Reading.by_size. intros H. apply Z.leb_le. apply Z.leb_gt in H. lia. Qed.

Lemma by_size_trans a b c :
  Reading.by_size a b = true -> Reading.by_size b c = true -> Reading.by_size a c = true.
Proof.
  unfold Reading.by_size. intros H1 H2.
  apply Z.leb_le in H1. apply Z.leb_le in H2. apply Z.leb_le. lia.
Qed.

Lemma by_id_total a b : Reading.by_id a b = false -> Reading.by_id b a = true.
Proof. unfold Reading.by_id. intros H. apply Z.leb_le. apply Z.leb_gt in H. lia. Qed.

Lemma by_id_trans a b c :
  Reading.by_id a b = true -> Reading.by_id b c = true -> Reading.by_id a c = true.
Proof.
  unfold Reading.by_id. intros H1 H2.
  apply Z.leb_le in H1. apply Z.leb_le in H2. apply Z.leb_le. lia.
Qed.

Lemma by_joined_size_total a b :
  Reading.by_joined_size a b = false -> Reading.by_joined_size b a = true.
Proof.
  unfold Reading.by_joined_size.
  destruct (Reading.j_inv a), (Reading.j_inv b); try discriminate; try reflexivity.
  apply by_size_total.
Qed.

Lemma by_joined_size_trans a b c :
  Reading.by_joined_size a b = true -> Reading.by_joined_size b c = true ->
  Reading.by_joined_size a c = true.
Proof.
  unfold Reading.by_joined_size.
  destruct (Reading.j_inv a), (Reading.j_inv b), (Reading.j_inv c);
    try discriminate; try reflexivity.
  apply by_size_trans.
Qed.

Lemma by_id_size_cases a b :
  Reading.by_id_size a b = true <->
  shoe_id (Reading.j_shoe a) < shoe_id (Reading.j_shoe b) \/
  (shoe_id (Reading.j_shoe a) = shoe_id (Reading.j_shoe b) /\
   Reading.by_joined_size a b = true).
Proof.
  unfold Reading.by_id_size. rewrite orb_true_iff, andb_true_iff, Z.ltb_lt, Z.eqb_eq.
  reflexivity.
Qed.

Lemma by_id_size_total a b :
  Reading.by_id_size a b = false -> Reading.by_id_size b a = true.
Proof.
  intros H. apply by_id_size_cases.
  destruct (Z.lt_trichotomy (shoe_id (Reading.j_shoe a)) (shoe_id (Reading.j_shoe b)))
    as [Hlt | [Heq | Hgt]].
  - assert (Reading.by_id_size a b = true) by (apply by_id_size_cases; auto).
    congruence.
  - right. split; [auto |].
    destruct (Reading.by_joined_size a b) eqn:Hab.
    + assert (Reading.by_id_size a b = true) by (apply by_id_size_cases; auto).
      congruence.
    + exact (by_joined_size_total _ _ Hab).
  - left. lia.
Qed.

Lemma by_id_size_trans a b c :
  Reading.by_id_size a b = true -> Reading.by_id_size b c = true ->
  Reading.by_id_size a c = true.
Proof.
  rewrite !by_id_size_cases. intros [H1 | [H1 H1']] [H2 | [H2 H2']].
  - left. lia.
  - left. lia.
  - left. lia.
  - right. split; [lia | exact (by_joined_size_trans _ _ _ H1' H2')].
Qed.

(** ** The connection of a reader *)

Lemma getSecret_cached_frame : secret_frame getSecret_cached.
Proof.
  intros w. unfold getSecret_cached.
  destruct (cachedSecret w); [simpl; auto | apply fetch_secret_frame].
Qed.

Lemma fetch_secret_calm w :
  no_fault w ->
  exists w1, fetch_secret w = (Ok tt, w1) /\ no_fault w1 /\ store w1 = store w /\
             cachedConn w1 = cachedConn w.
Proof.
  intros Hf. unfold fetch_secret, bind.
  destruct (@take_fault_none w Hf) as [w1 [Ht [Hf1 [Hs1 [Hc1 _]]]]].
  rewrite Ht. exists (set_cachedSecret true w1). simpl. auto.
Qed.

Lemma getSecret_cached_calm : secret_calm getSecret_cached.
Proof.
  intros w Hf. unfold getSecret_cached.
  destruct (cachedSecret w); [exists w; auto | exact (fetch_secret_calm w Hf)].
Qed.

Lemma getSecret_default_calm : secret_calm getSecret_default.
Proof.
  intros w Hf. unfold getSecret_default.
  destruct (negb (secrets_manager_mode w)); [exists w; auto |].
  destruct (cachedSecret w); [exists w; auto | exact (fetch_secret_calm w Hf)].
Qed.

Lemma getConnection_calm_with g d w :
  secret_calm g -> calm d w ->
  exists c w', getConnection g w = (Ok c, w') /\ steady c d w'.
Proof.
  intros Hg [Hf [Hs Hi]]. unfold getConnection.
  assert (Hnew : exists c w',
             (connection <- createConnection g ;;
              put_conn connection ;; ret (conn_id connection)) w = (Ok c, w')
             /\ steady c d w').
  { destruct (Hg w Hf) as [w1 [Hgw [Hf1 [Hs1 _]]]].
    destruct (@take_fault_none w1 Hf1) as [w2 [Ht [Hf2 [Hs2 _]]]].
    unfold createConnection, bind, put_conn, ret. rewrite Hgw, Ht.
    eexists. eexists. split; [reflexivity |].
    unfold steady, autocommit, no_fault. simpl.
    rewrite Hs2, Hs1, Hs. auto. }
  destruct (cachedConn w) as [cn |] eqn:Hcn; [| exact Hnew].
  destruct (disconnected cn) eqn:Hd; simpl; [exact Hnew |].
  exists (conn_id cn), w. split; [reflexivity |].
  unfold idle in Hi. rewrite Hcn in Hi.
  unfold steady, autocommit. rewrite Hcn.
  destruct cn as [i dc t]. simpl in *. subst. auto.
Qed.

(** A reader that gets its connection and runs one SELECT, when nothing
    fails. *)
Lemma read_once {A : Type} g (stmt : db -> stmt_result A) (answer : A -> response)
  msg a w :
  secret_calm g -> idle w -> no_fault w ->
  stmt (store w) = Done a (store w) ->
  exists w',
    try_catch
      (connection <- getConnection g ;;
       rows <- query connection stmt ;;
       ret (answer rows))
      (fun error => ret (resp 500 (msg_error_body msg (message error)))) w
    = (Ok (answer a), w') /\ store w' = store w.
Proof.
  intros Hg Hi Hf Hst.
  destruct (getConnection_calm_with g (store w) w Hg) as [c [w1 [Hc Hw1]]];
    [repeat split; auto |].
  destruct (@query_steady_done _ c (store w) stmt a (store w) w1 Hst Hw1)
    as [w2 [Hq Hw2]].
  exists w2. unfold try_catch.
  rewrite (@bind_ok _ _ _ _ _ _ _ Hc), (@bind_ok _ _ _ _ _ _ _ Hq).
  split; [reflexivity |]. destruct Hw2 as [_ [Hs _]]. exact Hs.
Qed.

Lemma filter_none_of {A : Type} (f : A -> bool) (l : list A) :
  existsb f l = false -> filter f l = [].
Proof.
  induction l as [| r l IH]; simpl; [reflexivity |].
  destruct (f r); simpl; [discriminate | exact IH].
Qed.

(** A number that is an id is no other id. *)
Lemma id_is_only n z : id_is n z = true -> forall x, id_is n x = (z =? x).
Proof.
  unfold id_is. destruct (int_of n) as [m |]; [| discriminate].
  intros H x. apply Z.eqb_eq in H. subst m. reflexivity.
Qed.

(** Under the primary key one shoe at most has a given id. *)
Lemma filter_the_one n (l : list shoe_row) s :
  NoDup (map shoe_id l) -> In s l ->
  id_is n (shoe_id s) = true ->
  filter (fun r => id_is n (shoe_id r)) l = [s].
Proof.
  intros Hnd Hin Hn.
  rewrite (filter_ext _ (fun r => shoe_id s =? shoe_id r))
    by (intros r; apply id_is_only; exact Hn).
  clear Hn. induction l as [| r l IH]; simpl; [contradiction |].
  inversion Hnd as [| ? ? Hnotin Hnd']; subst.
  destruct Hin as [Hr | Hin].
  - subst r. rewrite Z.eqb_refl. f_equal.
    apply filter_none_of. apply not_true_is_false. intros Hex.
    apply existsb_exists in Hex. destruct Hex as [x [Hx Hid]].
    apply Z.eqb_eq in Hid. apply Hnotin. rewrite Hid. apply in_map. exact Hx.
  - destruct (Z.eqb_spec (shoe_id s) (shoe_id r)) as [Heq | Hne].
    + exfalso. apply Hnotin. rewrite <- Heq. apply in_map. exact Hin.
    + apply IH; assumption.
Qed.

(** X15. GET /shoes/{id} (the row alone), on a connection with no
    transaction open and when nothing fails: the answer is 404 when no
    shoe has the id of the path, and 200 with the shoe when one has; the
    store is left as it was.  Without a path parameter the answer is 400
    and nothing is touched. *)
Theorem get_shoe_by_id_answers :
  forall ev w,
    (path_id ev = None \/ path_id ev = Some EmptyString ->
     GetShoeByIdPlain.handler ev w = (Ok id_required, w)) /\
    (forall shoeId,
       path_id ev = Some shoeId -> shoeId <> EmptyString ->
       idle w -> no_fault w ->
       (product_exists shoeId (store w) = false ->
        exists w', GetShoeByIdPlain.handler ev w =
                   (Ok (resp 404 (msg_body "Shoe not found.")), w') /\
                   store w' = store w) /\
       (forall s, primary_key (store w) -> In s (shoes (store w)) ->
                  id_is (mysql_number shoeId) (shoe_id s) = true ->
        exists w', GetShoeByIdPlain.handler ev w = (Ok (resp 200 (js_of_shoe s)), w') /\
                   store w' = store w)).
Proof.
  intros ev w. split.
  - unfold GetShoeByIdPlain.handler. intros [H | H]; rewrite H; reflexivity.
  - intros shoeId Hid Hne Hi Hf. unfold GetShoeByIdPlain.handler. rewrite Hid.
    destruct (String.eqb_spec shoeId EmptyString); [contradiction |].
    pose proof (read_once getSecret_cached (select_shoe (PStr shoeId))
                  (fun rows => match rows with
                               | [] => resp 404 (msg_body "Shoe not found.")
                               | row :: _ => resp 200 (js_of_shoe row)
                               end)
                  "Error fetching shoe." _ w
                  getSecret_cached_calm Hi Hf (select_shoe_str shoeId (store w)))
      as [w' [Hrun Hs]].
    assert (Hsame : forall rows : list shoe_row,
              match rows with
              | [] => ret (resp 404 (msg_body "Shoe not found."))
              | row :: _ => ret (resp 200 (js_of_shoe row))
              end =
              ret (match rows with
                   | [] => resp 404 (msg_body "Shoe not found.")
                   | row :: _ => resp 200 (js_of_shoe row)
                   end)) by (intros [| row rows]; reflexivity).
    unfold GetShoeByIdPlain.getConnection.
    split.
    + intros Hnone. exists w'. split; [| exact Hs].
      unfold product_exists in Hnone.
      rewrite (filter_none_of _ _ Hnone) in Hrun. rewrite <- Hrun.
      unfold try_catch, bind.
      destruct (getConnection getSecret_cached w) as [[c | e] w1]; [| reflexivity].
      destruct (query c (select_shoe (PStr shoeId)) w1) as [[rows | e] w2];
        [| reflexivity].
      rewrite Hsame. reflexivity.
    + intros s Hpk Hin Hsid. exists w'. split; [| exact Hs].
      rewrite (filter_the_one _ _ _ Hpk Hin Hsid) in Hrun. rewrite <- Hrun.
      unfold try_catch, bind.
      destruct (getConnection getSecret_cached w) as [[c | e] w1]; [| reflexivity].
      destruct (query c (select_shoe (PStr shoeId)) w1) as [[rows | e] w2];
        [| reflexivity].
      rewrite Hsame. reflexivity.
Qed.

(** X16. GET /shoes (the rows alone), on a connection with no transaction
    open and when nothing fails, is answered 200 with the shoes of the
    table whose brand is the one asked for, every one of them and only
    they, and with all the shoes when no brand is asked for, which is
    also the case of an empty [brand] parameter; the store is left as it
    was. *)
Theorem get_shoes_lists_the_brand :
  forall same_text queryParams w,
    idle w -> no_fault w ->
    exists rows w',
      GetShoesPlain.handler same_text queryParams w =
      (Ok (resp 200 (JArr (map js_of_shoe rows))), w') /\
      store w' = store w /\
      (requested_brand queryParams = None -> rows = shoes (store w)) /\
      (forall brand,
         requested_brand queryParams = Some brand ->
         forall s, In s rows <->
                   In s (shoes (store w)) /\ Reading.brand_is same_text brand s = true) /\
      (forall fields,
         queryParams = Some fields -> In ("brand"%string, EmptyString) fields ->
         NoDup (map fst fields) ->
         rows = shoes (store w)).
Proof.
  intros same_text queryParams w Hi Hf.
  destruct (read_once getSecret_cached
              (Reading.select_shoes same_text (requested_brand queryParams))
              (fun rows => resp 200 (JArr (map js_of_shoe rows)))
              "Error fetching shoes." _ w getSecret_cached_calm Hi Hf eq_refl)
    as [w' [Hrun Hs]].
  exists (filter (Reading.where_brand same_text (requested_brand queryParams))
                 (shoes (store w))), w'.
  split; [exact Hrun |]. split; [exact Hs |].
  assert (Hall : requested_brand queryParams = None ->
                 filter (Reading.where_brand same_text (requested_brand queryParams))
                        (shoes (store w)) = shoes (store w)).
  { intros H. rewrite H. clear.
    induction (shoes (store w)) as [| s l IH]; simpl; [reflexivity |].
    rewrite IH. reflexivity. }
  split; [exact Hall |]. split.
  - intros brand Hb s. rewrite Hb. simpl. apply filter_In.
  - intros fields Hq Hin Hnd. apply Hall. subst queryParams.
    unfold requested_brand.
    assert (Hfind : find (fun kv => String.eqb (fst kv) "brand") fields
                    = Some ("brand"%string, EmptyString)).
    { clear - Hin Hnd. induction fields as [| [k v] fields IH]; [contradiction |].
      simpl in *. inversion Hnd as [| ? ? Hk Hnd']; subst.
      destruct Hin as [Heq | Hin].
      - inversion Heq; subst. reflexivity.
      - destruct (String.eqb_spec k "brand") as [Hkb | Hkb].
        + exfalso. apply Hk. subst k.
          change "brand"%string with (fst ("brand"%string, EmptyString)).
          apply in_map. exact Hin.
        + apply IH; assumption. }
    rewrite Hfind. reflexivity.
Qed.

(** ** The LEFT JOIN of one shoe *)

Lemma entries_with_shoe s l :
  Reading.entries (map (Reading.with_shoe s) l) = map Reading.entry_of l.
Proof. induction l as [| i l IH]; simpl; [reflexivity | rewrite IH; reflexivity]. Qed.

(** The rows of one shoe in the order of the sizes. *)
Lemma block_of_shoe inventory s :
  Reading.order_by Reading.by_joined_size (Reading.join_shoe inventory s) =
  match Reading.inventory_of (shoe_id s) inventory with
  | [] => [{| Reading.j_shoe := s; Reading.j_inv := None |}]
  | _ => map (Reading.with_shoe s)
             (Reading.order_by Reading.by_size
                (Reading.inventory_of (shoe_id s) inventory))
  end.
Proof.
  unfold Reading.join_shoe.
  destruct (Reading.inventory_of (shoe_id s) inventory) as [| i l]; [reflexivity |].
  apply order_by_map. intros a b. reflexivity.
Qed.

Lemma order_by_nil_iff {A : Type} (le : A -> A -> bool) l :
  Reading.order_by le l = [] -> l = [].
Proof.
  intros H. pose proof (order_by_perm A le l) as Hp. rewrite H in Hp.
  exact (Permutation_nil Hp).
Qed.

Lemma block_entries inventory s :
  Reading.entries
    (Reading.order_by Reading.by_joined_size (Reading.join_shoe inventory s))
  = map Reading.entry_of
        (Reading.order_by Reading.by_size (Reading.inventory_of (shoe_id s) inventory)).
Proof.
  rewrite block_of_shoe.
  destruct (Reading.inventory_of (shoe_id s) inventory) as [| i l]; [reflexivity |].
  apply entries_with_shoe.
Qed.

Lemma block_head inventory s :
  exists first rest,
    Reading.order_by Reading.by_joined_size (Reading.join_shoe inventory s)
    = first :: rest /\
    Forall (fun row => Reading.j_shoe row = s) (first :: rest).
Proof.
  rewrite block_of_shoe.
  destruct (Reading.inventory_of (shoe_id s) inventory) as [| i l] eqn:Hinv.
  - eexists. eexists. split; [reflexivity |]. constructor; [reflexivity | constructor].
  - destruct (Reading.order_by Reading.by_size (i :: l)) as [| x xs] eqn:Hs.
    + apply order_by_nil_iff in Hs. discriminate.
    + simpl. eexists. eexists. split; [reflexivity |].
      constructor; [reflexivity |]. apply Forall_forall. intros row Hrow.
      apply in_map_iff in Hrow. destruct Hrow as [y [Hy _]]. subst row. reflexivity.
Qed.

Lemma StronglySorted_weaken {A : Type} (R R' : A -> A -> Prop) l :
  (forall a b, R a b -> R' a b) -> StronglySorted R l -> StronglySorted R' l.
Proof.
  intros HR Hl. induction Hl as [| a l Hl IH Hall]; constructor; [exact IH |].
  eapply Forall_impl; [| exact Hall]. intros b. apply HR.
Qed.

(** X17. GET /shoes/{id} with the inventory, in both copies of the
    handler, on a connection with no transaction open and when nothing
    fails: the answer is 404 when no shoe has the id of the path; when one
    has, it is 200 with that shoe and, as its [inventory], one entry
    [{ size, quantity }] for each of its inventory rows, in the order of
    the sizes (and none for a shoe without inventory).  The store is left
    as it was. *)
Theorem get_shoe_with_inventory :
  forall getSecret ev shoeId w,
    secret_calm getSecret ->
    path_id ev = Some shoeId -> shoeId <> EmptyString ->
    idle w -> no_fault w ->
    (product_exists shoeId (store w) = false ->
     exists w', GetShoeById.handler getSecret ev w =
                (Ok (resp 404 (msg_body "Shoe not found.")), w') /\
                store w' = store w) /\
    (forall s, primary_key (store w) -> In s (shoes (store w)) ->
               id_is (mysql_number shoeId) (shoe_id s) = true ->
     exists w',
       GetShoeById.handler getSecret ev w =
       (Ok (resp 200 (Reading.shoe_with_inventory s
                        (map Reading.entry_of (sizes_of (shoe_id s) (store w))))), w') /\
       store w' = store w /\
       StronglySorted (fun a b => inv_size a <= inv_size b)
                      (sizes_of (shoe_id s) (store w)) /\
       Permutation (sizes_of (shoe_id s) (store w))
                   (Reading.inventory_of (shoe_id s) (shoe_inventory (store w)))).
Proof.
  intros g ev shoeId w Hg Hid Hne Hi Hf.
  assert (Hstmt : Reading.select_shoe_inventory (PStr shoeId) (store w) =
                  Done (Reading.order_by Reading.by_joined_size
                          (Reading.left_join
                             (fun s => id_is (mysql_number shoeId) (shoe_id s))
                             (store w)))
                       (store w)) by reflexivity.
  destruct (read_once g (Reading.select_shoe_inventory (PStr shoeId))
              (fun rows => match rows with
                           | [] => resp 404 (msg_body "Shoe not found.")
                           | first :: _ =>
                               resp 200 (Reading.shoe_with_inventory
                                           (Reading.j_shoe first) (Reading.entries rows))
                           end)
              "Error fetching shoe." _ w Hg Hi Hf Hstmt)
    as [w' [Hrun Hs]].
  assert (Hhandler :
            GetShoeById.handler g ev w =
            try_catch
              (connection <- getConnection g ;;
               rows <- query connection (Reading.select_shoe_inventory (PStr shoeId)) ;;
               ret (match rows with
                    | [] => resp 404 (msg_body "Shoe not found.")
                    | first :: _ =>
                        resp 200 (Reading.shoe_with_inventory
                                    (Reading.j_shoe first) (Reading.entries rows))
                    end))
              (fun error => ret (resp 500 (msg_error_body "Error fetching shoe."
                                                          (message error)))) w).
  { unfold GetShoeById.handler, GetShoeById.getConnection. rewrite Hid.
    destruct (String.eqb_spec shoeId EmptyString); [contradiction |].
    unfold try_catch, bind.
    destruct (getConnection g w) as [[c | e] w1]; [| reflexivity].
    destruct (query c (Reading.select_shoe_inventory (PStr shoeId)) w1)
      as [[[| first rows] | e] w2]; reflexivity. }
  rewrite Hhandler, Hrun. unfold Reading.left_join. split.
  - intros Hnone. exists w'. split; [| exact Hs].
    unfold product_exists in Hnone. rewrite (filter_none_of _ _ Hnone). reflexivity.
  - intros s Hpk Hin Hsid. exists w'.
    rewrite (filter_the_one _ _ _ Hpk Hin Hsid). simpl flat_map.
    rewrite app_nil_r.
    destruct (block_head (shoe_inventory (store w)) s) as [first [rest [Hb Hall]]].
    pose proof (block_entries (shoe_inventory (store w)) s) as He.
    rewrite Hb in He. rewrite Hb.
    pose proof (Forall_inv Hall) as Hfirst. simpl in Hfirst.
    rewrite He, Hfirst. split; [reflexivity |]. split; [exact Hs |]. split.
    + pose proof (order_by_sorted inv_row Reading.by_size by_size_total by_size_trans
                    (Reading.inventory_of (shoe_id s) (shoe_inventory (store w))))
        as Hsorted.
      unfold sizes_of.
      eapply StronglySorted_weaken; [| exact Hsorted].
      intros a b Hab. unfold Reading.by_size in Hab. apply Z.leb_le. exact Hab.
    + apply order_by_perm.
Qed.

(** ** The LEFT JOIN of all shoes, grouped *)

Lemma NoDup_map_same {A B : Type} (f : A -> B) l :
  NoDup (map f l) -> forall a b, In a l -> In b l -> f a = f b -> a = b.
Proof.
  induction l as [| x l IH]; intros Hnd a b Ha Hb Hf; [contradiction |].
  simpl in Hnd. inversion Hnd as [| ? ? Hx Hnd']; subst.
  destruct Ha as [Ha | Ha]; destruct Hb as [Hb | Hb]; subst.
  - reflexivity.
  - exfalso. apply Hx. rewrite Hf. apply in_map. exact Hb.
  - exfalso. apply Hx. rewrite <- Hf. apply in_map. exact Ha.
  - apply IH; assumption.
Qed.

Lemma NoDup_map_filter {A B : Type} (f : A -> B) (keep : A -> bool) l :
  NoDup (map f l) -> NoDup (map f (filter keep l)).
Proof.
  induction l as [| x l IH]; intros Hnd; simpl; [constructor |].
  simpl in Hnd. inversion Hnd as [| ? ? Hx Hnd']; subst.
  destruct (keep x); simpl; [| exact (IH Hnd')].
  constructor; [| exact (IH Hnd')].
  intros Hin. apply Hx. apply in_map_iff in Hin. destruct Hin as [y [Hy Hin]].
  apply filter_In in Hin. rewrite <- Hy. apply in_map. exact (proj1 Hin).
Qed.

(** What a row of the join is made of. *)
Lemma in_join_shoe inventory s row :
  In row (Reading.join_shoe inventory s) ->
  Reading.j_shoe row = s /\
  match Reading.j_inv row with
  | Some i => In i inventory /\ inv_shoe i = shoe_id s
  | None => True
  end.
Proof.
  unfold Reading.join_shoe.
  destruct (Reading.inventory_of (shoe_id s) inventory) as [| i l] eqn:Hinv.
  - intros [H | []]. subst row. split; [reflexivity | exact I].
  - intros H. apply in_map_iff in H. destruct H as [x [Hx Hin]]. subst row.
    split; [reflexivity |]. simpl. rewrite <- Hinv in Hin.
    apply filter_In in Hin. destruct Hin as [Hin Hid].
    split; [exact Hin | apply Z.eqb_eq; exact Hid].
Qed.

Lemma in_left_join keep d row :
  In row (Reading.left_join keep d) ->
  In (Reading.j_shoe row) (shoes d) /\
  match Reading.j_inv row with
  | Some i => In i (shoe_inventory d) /\ inv_shoe i = shoe_id (Reading.j_shoe row)
  | None => True
  end.
Proof.
  unfold Reading.left_join. intros H. apply in_flat_map in H.
  destruct H as [s [Hs Hrow]]. apply filter_In in Hs.
  apply in_join_shoe in Hrow. destruct Hrow as [Hj Hi]. rewrite Hj.
  split; [exact (proj1 Hs) | exact Hi].
Qed.

(** Under the keys of the schema no two rows of the join compare equal. *)
Lemma left_join_antisymmetric keep d :
  primary_key d -> unique_key d ->
  forall a b,
    In a (Reading.left_join keep d) -> In b (Reading.left_join keep d) ->
    Reading.by_id_size a b = true -> Reading.by_id_size b a = true -> a = b.
Proof.
  intros Hpk Huk a b Ha Hb Hab Hba.
  apply in_left_join in Ha. apply in_left_join in Hb.
  destruct Ha as [Hsa Hia]. destruct Hb as [Hsb Hib].
  apply by_id_size_cases in Hab. apply by_id_size_cases in Hba.
  destruct Hab as [Hab | [Hid Hab]]; [destruct Hba as [Hba | [Hba _]]; lia |].
  destruct Hba as [Hba | [_ Hba]]; [lia |].
  assert (Hshoe : Reading.j_shoe a = Reading.j_shoe b)
    by (apply (NoDup_map_same shoe_id (shoes d) Hpk); assumption).
  destruct a as [sa ia]. destruct b as [sb ib]. simpl in *. subst sb.
  unfold Reading.by_joined_size in Hab, Hba. simpl in Hab, Hba.
  destruct ia as [x |]; destruct ib as [y |]; try discriminate; [| reflexivity].
  destruct Hia as [Hx Hxs]. destruct Hib as [Hy Hys].
  unfold Reading.by_size in Hab, Hba. apply Z.leb_le in Hab. apply Z.leb_le in Hba.
  assert (Hxy : x = y).
  { apply (NoDup_map_same (fun i => (inv_shoe i, inv_size i)) (shoe_inventory d) Huk);
      [exact Hx | exact Hy |].
    f_equal; [congruence | lia]. }
  subst y. reflexivity.
Qed.

(** The rows of one shoe are in the order of the statement. *)
Lemma block_sorted inventory s :
  StronglySorted (fun a b => Reading.by_id_size a b = true)
    (Reading.order_by Reading.by_joined_size (Reading.join_shoe inventory s)).
Proof.
  pose proof (order_by_sorted _ Reading.by_joined_size
                by_joined_size_total by_joined_size_trans
                (Reading.join_shoe inventory s)) as Hsorted.
  pose proof (order_by_perm _ Reading.by_joined_size (Reading.join_shoe inventory s))
    as Hperm.
  assert (Hall : Forall (fun row => Reading.j_shoe row = s)
                   (Reading.order_by Reading.by_joined_size
                      (Reading.join_shoe inventory s))).
  { apply Forall_forall. intros row Hrow.
    apply (Permutation_in _ Hperm) in Hrow.
    exact (proj1 (in_join_shoe _ _ _ Hrow)). }
  clear Hperm. revert Hall.
  induction Hsorted as [| a l Hl IH Ha]; intros Hall; constructor.
  - apply IH. exact (Forall_inv_tail Hall).
  - pose proof (Forall_inv Hall) as Hsa. pose proof (Forall_inv_tail Hall) as Hsl.
    rewrite Forall_forall in *. intros b Hb. apply by_id_size_cases. right.
    split; [rewrite Hsa, (Hsl b Hb); reflexivity | exact (Ha b Hb)].
Qed.

(** Shoes in the order of their ids, each with its rows in the order of the
    sizes, are rows in the order of the statement. *)
Lemma blocks_sorted inventory l :
  StronglySorted (fun a b => Reading.by_id a b = true) l ->
  NoDup (map shoe_id l) ->
  StronglySorted (fun a b => Reading.by_id_size a b = true)
    (flat_map (fun s => Reading.order_by Reading.by_joined_size
                          (Reading.join_shoe inventory s)) l).
Proof.
  intros Hl. induction Hl as [| s l Hl IH Hs]; intros Hnd; simpl; [constructor |].
  simpl in Hnd. inversion Hnd as [| ? ? Hnot Hnd']; subst.
  apply StronglySorted_app; [apply block_sorted | exact (IH Hnd') |].
  intros a b Ha Hb.
  apply (Permutation_in _ (order_by_perm _ _ _)) in Ha.
  apply in_join_shoe in Ha. destruct Ha as [Ha _].
  apply in_flat_map in Hb. destruct Hb as [s' [Hs' Hb]].
  apply (Permutation_in _ (order_by_perm _ _ _)) in Hb.
  apply in_join_shoe in Hb. destruct Hb as [Hb _].
  apply by_id_size_cases. left. rewrite Ha, Hb.
  rewrite Forall_forall in Hs. specialize (Hs s' Hs').
  unfold Reading.by_id in Hs. apply Z.leb_le in Hs.
  assert (shoe_id s <> shoe_id s').
  { intros Heq. apply Hnot. rewrite Heq. apply in_map. exact Hs'. }
  lia.
Qed.

Lemma flat_map_perm {A B : Type} (f g : A -> list B) l :
  (forall a, Permutation (f a) (g a)) ->
  Permutation (flat_map f l) (flat_map g l).
Proof.
  intros Hfg. induction l as [| a l IH]; simpl; [constructor |].
  apply Permutation_app; [apply Hfg | exact IH].
Qed.

(** The rows of the statement, under the keys of the schema: the shoes in
    the order of their ids, each with its rows in the order of the
    sizes. *)
Lemma rows_in_blocks keep d :
  primary_key d -> unique_key d ->
  Reading.order_by Reading.by_id_size (Reading.left_join keep d) =
  flat_map (fun s => Reading.order_by Reading.by_joined_size
                       (Reading.join_shoe (shoe_inventory d) s))
           (Reading.order_by Reading.by_id (filter keep (shoes d))).
Proof.
  intros Hpk Huk.
  pose proof (order_by_perm _ Reading.by_id_size (Reading.left_join keep d)) as Hperm.
  apply sorted_unique with (le := Reading.by_id_size).
  - apply order_by_sorted; [exact by_id_size_total | exact by_id_size_trans].
  - apply blocks_sorted.
    + apply order_by_sorted; [exact by_id_total | exact by_id_trans].
    + eapply Permutation_NoDup.
      * apply Permutation_map. apply Permutation_sym. apply order_by_perm.
      * apply NoDup_map_filter. exact Hpk.
  - eapply perm_trans; [exact Hperm |]. unfold Reading.left_join.
    eapply perm_trans.
    + apply (flat_map_perm (Reading.join_shoe (shoe_inventory d))
               (fun s => Reading.order_by Reading.by_joined_size
                           (Reading.join_shoe (shoe_inventory d) s))).
      intros s. apply Permutation_sym. apply order_by_perm.
    + apply Permutation_flat_map. apply Permutation_sym. apply order_by_perm.
  - intros a b Ha Hb. apply (left_join_antisymmetric keep d Hpk Huk).
    + exact (Permutation_in _ Hperm Ha).
    + exact (Permutation_in _ Hperm Hb).
Qed.

Lemma has_app m1 m2 id :
  Reading.has (m1 ++ m2) id = Reading.has m1 id || Reading.has m2 id.
Proof. unfold Reading.has. apply existsb_app. Qed.

Lemma push_last m id s acc e :
  Reading.has m id = false ->
  Reading.push id e (m ++ [(id, (s, acc))]) = m ++ [(id, (s, acc ++ [e]))].
Proof.
  induction m as [| [k [s' inv]] m IH]; simpl; intros Hhas.
  - rewrite Z.eqb_refl. reflexivity.
  - apply orb_false_iff in Hhas. destruct Hhas as [Hk Hm].
    simpl in Hk. rewrite Hk, (IH Hm). reflexivity.
Qed.

(** The turns of the loop over the rows of one shoe, once its object is in
    the map. *)
Lemma visit_block m s rows : forall acc,
  Reading.has m (shoe_id s) = false ->
  Forall (fun row => Reading.j_shoe row = s) rows ->
  fold_left Reading.visit rows (m ++ [(shoe_id s, (s, acc))]) =
  m ++ [(shoe_id s, (s, acc ++ Reading.entries rows))].
Proof.
  induction rows as [| row rows IH]; intros acc Hhas Hall; simpl.
  - rewrite app_nil_r. reflexivity.
  - pose proof (Forall_inv Hall) as Hrow. pose proof (Forall_inv_tail Hall) as Hrest.
    unfold Reading.visit at 2. rewrite Hrow, has_app. simpl.
    rewrite Z.eqb_refl, orb_true_r.
    destruct (Reading.j_inv row) as [i |].
    + rewrite (push_last m (shoe_id s) s acc _ Hhas), (IH _ Hhas Hrest).
      rewrite <- app_assoc. reflexivity.
    + exact (IH _ Hhas Hrest).
Qed.

(** The first row of a shoe puts its object in the map. *)
Lemma visit_new_block m s rows :
  Reading.has m (shoe_id s) = false ->
  rows <> [] ->
  Forall (fun row => Reading.j_shoe row = s) rows ->
  fold_left Reading.visit rows m = m ++ [(shoe_id s, (s, Reading.entries rows))].
Proof.
  intros Hhas Hne Hall. destruct rows as [| row rows]; [contradiction |].
  pose proof (Forall_inv Hall) as Hrow. pose proof (Forall_inv_tail Hall) as Hrest.
  simpl. unfold Reading.visit at 2. rewrite Hrow, Hhas.
  destruct (Reading.j_inv row) as [i |].
  - rewrite (push_last m (shoe_id s) s [] _ Hhas). simpl.
    exact (visit_block m s rows _ Hhas Hrest).
  - exact (visit_block m s rows _ Hhas Hrest).
Qed.

Lemma has_keys (m : Reading.shoes_map) id :
  Reading.has m id = false <-> ~ In id (map fst m).
Proof.
  unfold Reading.has. induction m as [| [k v] m IH]; simpl.
  - split; [intros _ [] | reflexivity].
  - rewrite orb_false_iff, IH, Z.eqb_neq. tauto.
Qed.

(** The loop over the rows of the statement builds the catalogue. *)
Lemma group_blocks inventory l : forall m,
  NoDup (map shoe_id l) ->
  (forall s, In s l -> Reading.has m (shoe_id s) = false) ->
  fold_left Reading.visit
    (flat_map (fun s => Reading.order_by Reading.by_joined_size
                          (Reading.join_shoe inventory s)) l) m =
  m ++ map (fun s => (shoe_id s,
                      (s, map Reading.entry_of
                            (Reading.order_by Reading.by_size
                               (Reading.inventory_of (shoe_id s) inventory))))) l.
Proof.
  induction l as [| s l IH]; intros m Hnd Hm; simpl.
  - rewrite app_nil_r. reflexivity.
  - simpl in Hnd. inversion Hnd as [| ? ? Hnot Hnd']; subst.
    rewrite fold_left_app.
    destruct (block_head inventory s) as [first [rest [Hb Hall]]].
    assert (Hblock :
              fold_left Reading.visit
                (Reading.order_by Reading.by_joined_size
                   (Reading.join_shoe inventory s)) m =
              m ++ [(shoe_id s,
                     (s, Reading.entries
                           (Reading.order_by Reading.by_joined_size
                              (Reading.join_shoe inventory s))))]).
    { apply visit_new_block.
      - apply Hm. left. reflexivity.
      - rewrite Hb. discriminate.
      - rewrite Hb. exact Hall. }
    rewrite Hblock, block_entries, IH; [rewrite <- app_assoc; reflexivity | exact Hnd' |].
    intros s' Hs'. rewrite has_app, (Hm s' (or_intror Hs')). simpl.
    rewrite orb_false_r. apply Z.eqb_neq. intros Heq. apply Hnot.
    rewrite Heq. apply in_map. exact Hs'.
Qed.

Lemma group_catalogue keep d :
  primary_key d -> unique_key d ->
  Reading.group (Reading.order_by Reading.by_id_size (Reading.left_join keep d)) =
  catalogue keep d.
Proof.
  intros Hpk Huk. unfold Reading.group. rewrite (rows_in_blocks keep d Hpk Huk).
  rewrite group_blocks; [reflexivity | | intros; reflexivity].
  eapply Permutation_NoDup.
  - apply Permutation_map. apply Permutation_sym. apply order_by_perm.
  - apply NoDup_map_filter. exact Hpk.
Qed.

(** X18. GET /shoes with the inventory, in both copies of the handler, on
    a connection with no transaction open, when nothing fails and the
    tables keep their keys (the id of a shoe, the pair of shoe and size of
    an inventory row): the answer is 200 with one object for each shoe of
    the brand asked for (for each shoe when none is), in the order of the
    ids, each with one entry [{ size, quantity }] for each of its
    inventory rows in the order of the sizes, a shoe without inventory
    being listed with none.  The store is left as it was. *)
Theorem get_shoes_groups_inventory :
  forall getSecret same_text queryParams w,
    secret_calm getSecret ->
    idle w -> no_fault w ->
    primary_key (store w) -> unique_key (store w) ->
    exists listed w',
      GetShoes.handler getSecret same_text queryParams w =
      (Ok (resp 200
             (JArr (map (fun s =>
                           Reading.shoe_with_inventory s
                             (map Reading.entry_of (sizes_of (shoe_id s) (store w))))
                        listed))), w') /\
      store w' = store w /\
      Permutation listed
        (filter (Reading.where_brand same_text (requested_brand queryParams))
                (shoes (store w))) /\
      StronglySorted (fun a b => shoe_id a < shoe_id b) listed /\
      (forall s, StronglySorted (fun a b => inv_size a < inv_size b)
                                (sizes_of (shoe_id s) (store w)) /\
                 Permutation (sizes_of (shoe_id s) (store w))
                   (Reading.inventory_of (shoe_id s) (shoe_inventory (store w)))).
Proof.
  intros g same_text queryParams w Hg Hi Hf Hpk Huk.
  set (keep := Reading.where_brand same_text (requested_brand queryParams)).
  destruct (read_once g (Reading.select_shoes_inventory keep)
              (fun rows => resp 200 (JArr (Reading.values (Reading.group rows))))
              "Error fetching shoes." _ w Hg Hi Hf eq_refl)
    as [w' [Hrun Hs]].
  exists (Reading.order_by Reading.by_id (filter keep (shoes (store w)))), w'.
  assert (Hnd : NoDup (map shoe_id
                         (Reading.order_by Reading.by_id (filter keep (shoes (store w)))))).
  { eapply Permutation_NoDup.
    - apply Permutation_map. apply Permutation_sym. apply order_by_perm.
    - apply NoDup_map_filter. exact Hpk. }
  split; [| split; [exact Hs | split; [apply order_by_perm | split]]].
  - unfold GetShoes.handler, GetShoes.getConnection. fold keep. rewrite Hrun.
    rewrite (group_catalogue keep (store w) Hpk Huk). unfold catalogue, Reading.values.
    rewrite map_map. reflexivity.
  - pose proof (order_by_sorted _ Reading.by_id by_id_total by_id_trans
                  (filter keep (shoes (store w)))) as Hsorted.
    revert Hnd. induction Hsorted as [| a l Hl IH Ha]; intros Hnd; constructor.
    + apply IH. simpl in Hnd. inversion Hnd; assumption.
    + simpl in Hnd. inversion Hnd as [| ? ? Hnot _]; subst.
      rewrite Forall_forall in *. intros b Hb. specialize (Ha b Hb).
      unfold Reading.by_id in Ha. apply Z.leb_le in Ha.
      assert (shoe_id a <> shoe_id b).
      { intros Heq. apply Hnot. rewrite Heq. apply in_map. exact Hb. }
      lia.
  - intros s. unfold sizes_of. split; [| apply order_by_perm].
    pose proof (order_by_sorted _ Reading.by_size by_size_total by_size_trans
                  (Reading.inventory_of (shoe_id s) (shoe_inventory (store w))))
      as Hsorted.
    pose proof (order_by_perm _ Reading.by_size
                  (Reading.inventory_of (shoe_id s) (shoe_inventory (store w))))
      as Hperm.
    assert (Hnds : NoDup (map inv_size
                            (Reading.order_by Reading.by_size
                               (Reading.inventory_of (shoe_id s)
                                  (shoe_inventory (store w)))))).
    { eapply Permutation_NoDup.
      - apply Permutation_map. apply Permutation_sym. exact Hperm.
      - clear - Huk. unfold unique_key in Huk. unfold Reading.inventory_of.
        induction (shoe_inventory (store w)) as [| i l IH]; simpl; [constructor |].
        simpl in Huk. inversion Huk as [| ? ? Hnot Huk']; subst.
        destruct (inv_shoe i =? shoe_id s) eqn:Hid; [| exact (IH Huk')].
        simpl. constructor; [| exact (IH Huk')].
        intros Hin. apply Hnot. apply in_map_iff in Hin.
        destruct Hin as [y [Hy Hin]]. apply filter_In in Hin.
        destruct Hin as [Hin Hys]. apply Z.eqb_eq in Hid. apply Z.eqb_eq in Hys.
        apply in_map_iff. exists y. split; [| exact Hin].
        f_equal; congruence. }
    clear Hperm. revert Hnds.
    induction Hsorted as [| a l Hl IH Ha]; intros Hnds; constructor.
    + apply IH. simpl in Hnds. inversion Hnds; assumption.
    + simpl in Hnds. inversion Hnds as [| ? ? Hnot _]; subst.
      rewrite Forall_forall in *. intros b Hb. specialize (Ha b Hb).
      unfold Reading.by_size in Ha. apply Z.leb_le in Ha.
      assert (inv_size a <> inv_size b).
      { intros Heq. apply Hnot. rewrite Heq. apply in_map. exact Hb. }
      lia.
Qed.

(** * Beyond the claims: the handlers that only read *)

(** One statement that leaves the store as it is, on the cached
    connection, and an answer for its rows: whatever the state of the
    connection and whatever fails, the handler answers and the store is
    as it was. *)
Lemma reads_answer {A : Type} g (stmt : db -> stmt_result A) (k : A -> M response)
  msg (Q : response -> Prop) :
  secret_frame g ->
  (forall d a d', stmt d = Done a d' -> d' = d) ->
  (forall a, exists r, k a = ret r /\ Q r) ->
  (forall e, Q (resp 500 (msg_error_body msg (message e)))) ->
  forall w, exists r w',
    try_catch
      (connection <- getConnection g ;;
       rows <- query connection stmt ;;
       k rows)
      (fun error => ret (resp 500 (msg_error_body msg (message error)))) w
    = (Ok r, w') /\ store w' = store w /\ Q r.
Proof.
  intros Hg Hstmt Hk H500 w.
  pose proof (getConnection_keeps_store g w Hg) as Hc.
  unfold try_catch, bind.
  destruct (getConnection g w) as [[c | e] w1]; simpl in Hc.
  - assert (Hq : triple (fun w0 => store w0 = store w) (query c stmt)
                   (fun _ w0 => store w0 = store w) (fun _ w0 => store w0 = store w)).
    { apply (query_store c stmt (fun d => d = store w)).
      intros d a d' Hd Hst. rewrite (Hstmt d a d' Hst). exact Hd. }
    specialize (Hq w1 Hc).
    destruct (query c stmt w1) as [[rows | e] w2].
    + destruct (Hk rows) as [r [Hr HQ]]. rewrite Hr. exists r, w2.
      split; [reflexivity | split; [exact Hq | exact HQ]].
    + eexists. eexists. split; [reflexivity | split; [exact Hq | apply H500]].
  - eexists. eexists. split; [reflexivity | split; [exact Hc | apply H500]].
Qed.

Lemma select_shoes_reads same_text brand d a d' :
  Reading.select_shoes same_text brand d = Done a d' -> d' = d.
Proof. unfold Reading.select_shoes. intros H. inversion H. reflexivity. Qed.

Lemma select_shoe_inventory_reads p d a d' :
  Reading.select_shoe_inventory p d = Done a d' -> d' = d.
Proof.
  unfold Reading.select_shoe_inventory. intros H.
  destruct (key_of_param p); inversion H; reflexivity.
Qed.

Lemma select_shoes_inventory_reads keep d a d' :
  Reading.select_shoes_inventory keep d = Done a d' -> d' = d.
Proof. unfold Reading.select_shoes_inventory. intros H. inversion H. reflexivity. Qed.

Lemma get_shoe_by_id_reads g ev w :
  secret_frame g ->
  answers_reading [200; 400; 404; 500] (GetShoeById.handler g ev) w.
Proof.
  intros Hg. unfold answers_reading, GetShoeById.handler.
  destruct (path_id ev) as [shoeId |];
    [| eexists; eexists; split; [reflexivity | split; [reflexivity | status_in]]].
  destruct (String.eqb shoeId EmptyString);
    [eexists; eexists; split; [reflexivity | split; [reflexivity | status_in]] |].
  apply (reads_answer g (Reading.select_shoe_inventory (PStr shoeId)) _
           "Error fetching shoe." (fun r => In (statusCode r) [200; 400; 404; 500]) Hg).
  - intros d a d'. apply select_shoe_inventory_reads.
  - intros [| first rest]; eexists; (split; [reflexivity | status_in]).
  - intros e. status_in.
Qed.

Lemma get_shoes_reads g same_text queryParams w :
  secret_frame g ->
  answers_reading [200; 500] (GetShoes.handler g same_text queryParams) w.
Proof.
  intros Hg. unfold answers_reading, GetShoes.handler.
  apply (reads_answer g _ (fun rows => ret (resp 200 (JArr (Reading.values
                                                           (Reading.group rows)))))
           "Error fetching shoes." (fun r => In (statusCode r) [200; 500]) Hg).
  - intros d a d'. apply select_shoes_inventory_reads.
  - intros rows. eexists. split; [reflexivity | status_in].
  - intros e. status_in.
Qed.

(** X19. The handlers of GET only read, whatever the state of the cached
    connection (none, closed, inside a transaction another handler left
    open) and whatever fails on the way (the secret, the connection, the
    statement): each of them answers, no exception leaves it, the
    committed store is as it was, and the status is 200 or 500 for the two
    lists, 200, 400, 404 or 500 for the two handlers of one shoe, 200, 404
    or 500 for the list of images. *)
Theorem get_handlers_only_read :
  forall w,
    (forall same_text queryParams,
       answers_reading [200; 500] (GetShoesPlain.handler same_text queryParams) w /\
       answers_reading [200; 500]
         (GetShoes.handler getSecret_default same_text queryParams) w /\
       answers_reading [200; 500]
         (GetShoes.handler getSecret_cached same_text queryParams) w) /\
    (forall ev,
       answers_reading [200; 400; 404; 500] (GetShoeByIdPlain.handler ev) w /\
       answers_reading [200; 400; 404; 500] (GetShoeById.handler getSecret_default ev) w /\
       answers_reading [200; 400; 404; 500] (GetShoeById.handler getSecret_cached ev) w) /\
    (forall contents,
       answers_reading [200; 404; 500] (ListImages.handler contents) w).
Proof.
  intros w. split; [| split].
  - intros same_text queryParams. split; [| split].
    + unfold answers_reading, GetShoesPlain.handler, GetShoesPlain.getConnection.
      apply (reads_answer getSecret_cached _
               (fun rows => ret (resp 200 (JArr (map js_of_shoe rows))))
               "Error fetching shoes." (fun r => In (statusCode r) [200; 500])
               getSecret_cached_frame).
      * intros d a d'. apply select_shoes_reads.
      * intros rows. eexists. split; [reflexivity | status_in].
      * intros e. status_in.
    + apply get_shoes_reads. exact getSecret_default_frame.
    + apply get_shoes_reads. exact getSecret_cached_frame.
  - intros ev. split; [| split].
    + unfold answers_reading, GetShoeByIdPlain.handler, GetShoeByIdPlain.getConnection.
      destruct (path_id ev) as [shoeId |];
        [| eexists; eexists; split; [reflexivity | split; [reflexivity | status_in]]].
      destruct (String.eqb shoeId EmptyString);
        [eexists; eexists; split; [reflexivity | split; [reflexivity | status_in]] |].
      apply (reads_answer getSecret_cached (select_shoe (PStr shoeId)) _
               "Error fetching shoe." (fun r => In (statusCode r) [200; 400; 404; 500])
               getSecret_cached_frame).
      * intros d a d' H. apply select_shoe_reads in H. exact H.
      * intros [| first rest]; eexists; (split; [reflexivity | status_in]).
      * intros e. status_in.
    + apply get_shoe_by_id_reads. exact getSecret_default_frame.
    + apply get_shoe_by_id_reads. exact getSecret_cached_frame.
  - intros contents. unfold answers_reading, ListImages.handler, try_catch, bind, take_fault.
    destruct (faults w) as [| [ft |] rest]; simpl.
    + destruct contents as [[| key keys] |];
        eexists; eexists; (split; [reflexivity | split; [reflexivity | status_in]]).
    + eexists. eexists. split; [reflexivity | split; [reflexivity | status_in]].
    + destruct contents as [[| key keys] |];
        eexists; eexists; (split; [reflexivity | split; [reflexivity | status_in]]).
Qed.

(** ** The list of images *)

Lemma url_ends_as_key key :
  key <> EmptyString ->
  ListImages.endsWith_slash (ListImages.url_of key) = ListImages.endsWith_slash key.
Proof.
  intros Hne. destruct key as [| c rest]; [contradiction | reflexivity].
Qed.

(** X20. GET /images, when the call to S3 goes through: 404 when the
    listing has no [Contents] or an empty one; otherwise 200 with the URL
    in the bucket of every key that does not end in a slash, and of no
    other.  A listing that holds folders
    alone is answered 200 with no image, not 404; and no URL listed ends
    in a slash, the keys of objects being non-empty. *)
Theorem list_images_answers :
  forall contents w,
    no_fault w ->
    exists w',
      store w' = store w /\
      (contents = None \/ contents = Some [] ->
       ListImages.handler contents w = (Ok (resp 404 (msg_body "No images found.")), w')) /\
      (forall keys,
         contents = Some keys -> keys <> [] ->
         exists urls,
           ListImages.handler contents w =
           (Ok (resp 200 (JObj [("images"%string, JArr (map JStr urls))])), w') /\
           (forall url, In url urls <->
                        exists key, In key keys /\
                                    ListImages.endsWith_slash key = false /\
                                    url = ListImages.url_of key) /\
           (Forall (fun key => ListImages.endsWith_slash key = true) keys -> urls = []) /\
           (Forall (fun key => key <> EmptyString) keys ->
            Forall (fun url => ListImages.endsWith_slash url = false) urls)).
Proof.
  intros contents w Hf.
  assert (Hcall : exists w', take_fault w = (Ok None, w') /\ store w' = store w).
  { unfold take_fault. unfold no_fault in Hf.
    destruct (faults w) as [| f rest]; [exists w; split; reflexivity |].
    pose proof (Forall_inv Hf) as Hnone. simpl in Hnone. subst f.
    eexists. split; reflexivity. }
  destruct Hcall as [w' [Hcall Hs]]. exists w'. split; [exact Hs |].
  unfold ListImages.handler, try_catch, bind. rewrite Hcall. split.
  - intros [H | H]; subst contents; reflexivity.
  - intros keys Hc Hne. subst contents. exists (ListImages.imageUrls keys).
    split; [destruct keys; [contradiction | reflexivity] |].
    unfold ListImages.imageUrls. split; [| split].
    + intros url. rewrite in_map_iff. split.
      * intros [key [Hu Hin]]. apply filter_In in Hin. destruct Hin as [Hin Hk].
        exists key. split; [exact Hin |]. split; [| symmetry; exact Hu].
        apply negb_true_iff. exact Hk.
      * intros [key [Hin [Hk Hu]]]. exists key. split; [symmetry; exact Hu |].
        apply filter_In. split; [exact Hin | rewrite Hk; reflexivity].
    + intros Hall. clear Hne. induction keys as [| key keys IH]; [reflexivity |].
      simpl. rewrite (Forall_inv Hall). simpl. exact (IH (Forall_inv_tail Hall)).
    + intros Hall. apply Forall_forall. intros url Hin.
      apply in_map_iff in Hin. destruct Hin as [key [Hu Hin]].
      apply filter_In in Hin. destruct Hin as [Hin Hk].
      rewrite Forall_forall in Hall. rewrite <- Hu, (url_ends_as_key key (Hall key Hin)).
      apply negb_true_iff. exact Hk.
Qed.

(** * Beyond the claims: the statements at work *)

(** A cold process asks twice for the connection. *)
Lemma getConnection_reuses_connection_witness :
  exists c w1,
    getConnection getSecret_default (Samples.cold (Samples.one_shoe false)) = (Ok c, w1) /\
    getConnection getSecret_default w1 = (Ok c, w1).
Proof.
  destruct (getConnection getSecret_default (Samples.cold (Samples.one_shoe false)))
    as [[c | e] w1] eqn:Hrun.
  - exists c, w1. split; [reflexivity |].
    exact (proj2 (getConnection_reuses_connection getSecret_default _ c w1 Hrun)).
  - vm_compute in Hrun. discriminate.
Defined.

(** Credentials from the environment: no call is made. *)
Lemma getSecret_fetches_once_witness :
  getSecret_strict (Samples.cold (Samples.one_shoe false))
  = (Ok tt, Samples.cold (Samples.one_shoe false)).
Proof.
  exact (proj1 (proj1 (getSecret_fetches_once (Samples.cold (Samples.one_shoe false)))
                      eq_refl)).
Defined.

(** The only shoe is deleted. *)
Lemma delete_removes_the_shoe_witness :
  shoes (store (snd (DeleteShoes.handler Samples.delete_1
                       (Samples.cold (Samples.one_shoe false))))) = [].
Proof.
  destruct (DeleteShoes.handler Samples.delete_1 (Samples.cold (Samples.one_shoe false)))
    as [[r | e] w'] eqn:Hrun.
  - destruct (delete_removes_the_shoe Samples.delete_1
                (Samples.cold (Samples.one_shoe false)) r w' I Hrun) as [Hdone _].
    assert (Hr : r = deleted_guarded).
    { pose proof Hrun as Hrun'. vm_compute in Hrun'.
      injection Hrun' as Hr _. rewrite <- Hr. reflexivity. }
    destruct (Hdone Hr) as [_ Hshoes]. simpl. rewrite Hshoes. reflexivity.
  - vm_compute in Hrun. discriminate.
Defined.

Lemma plain_delete_removes_the_shoe_witness :
  shoes (store (snd (DeleteShoesPlain.handler Samples.delete_1
                       (Samples.cold (Samples.one_shoe false))))) = [].
Proof.
  destruct (plain_delete_removes_the_shoe Samples.delete_1 "1"
              (Samples.cold (Samples.one_shoe false)) I eq_refl) as [Hdone _].
  destruct (Hdone ltac:(vm_compute; reflexivity)) as [_ Hshoes].
  rewrite Hshoes. reflexivity.
Defined.

(** The inventory of shoe 1 is replaced by one row. *)
Lemma put_touches_one_shoe_witness :
  beside "1" true (Samples.one_shoe false)
         (store (snd (UpdateShoes.handlePutUpdate
                        (Samples.put_inventory [Samples.entry 8 (JNum 2)]) "1"
                        (Samples.cold (Samples.one_shoe false))))).
Proof.
  exact (proj1 (put_touches_one_shoe
                  (Samples.put_inventory [Samples.entry 8 (JNum 2)]) "1"
                  (Samples.cold (Samples.one_shoe false)) I)).
Defined.

(** A new name and a new price, 99.5, for shoe 1. *)
Lemma put_stores_the_fields_witness :
  shoes (store (snd (UpdateShoes.handlePutUpdate
                       (Samples.request "PUT" Samples.admin_claims "/shoes/1"
                          (Some "1"%string)
                          (JObj [("name", JStr "Pegasus");
                                 ("price", JNum (Dec 995 1))]%string))
                       "1" (Samples.cold (Samples.one_shoe false))))) =
  [{| shoe_id := 1; shoe_name := "Pegasus"; shoe_brand := "Nike";
      shoe_price := 9950; shoe_image := "u" |}].
Proof.
  destruct (UpdateShoes.handlePutUpdate
              (Samples.request "PUT" Samples.admin_claims "/shoes/1" (Some "1"%string)
                 (JObj [("name", JStr "Pegasus"); ("price", JNum (Dec 995 1))]%string))
              "1" (Samples.cold (Samples.one_shoe false)))
    as [[r | e] w'] eqn:Hrun.
  - assert (Hst : statusCode r = 200).
    { pose proof Hrun as Hrun'. vm_compute in Hrun'.
      injection Hrun' as Hr _. rewrite <- Hr. reflexivity. }
    destruct (put_stores_the_fields
                (Samples.request "PUT" Samples.admin_claims "/shoes/1" (Some "1"%string)
                   (JObj [("name", JStr "Pegasus"); ("price", JNum (Dec 995 1))]%string))
                "1" (Samples.cold (Samples.one_shoe false)) r w' I Hrun Hst)
      as [Hshoes _].
    simpl. rewrite Hshoes. reflexivity.
  - vm_compute in Hrun. discriminate.
Defined.

(** Two more pairs of size 9.5. *)
Lemma patch_positive_delta_adds_witness :
  exists w',
    UpdateShoes.handlePatchInventory
      (Samples.patch_1
         (JObj [("size", JNum (Dec 95 1)); ("delta", JNum 2)]%string)) "1"
      (Samples.cold (Samples.one_shoe false))
    = (Ok (resp 200 (patch_body 1 (Dec 95 1) (store w'))), w') /\
    shoe_inventory (store w') =
    [{| inv_id := 1; inv_shoe := 1; inv_size := 95; inv_quantity := 5 |}].
Proof.
  destruct (patch_positive_delta_adds
              (Samples.patch_1
                 (JObj [("size", JNum (Dec 95 1)); ("delta", JNum 2)]%string))
              "1" (Dec 95 1) 1 2 eq_refl eq_refl eq_refl eq_refl eq_refl
              (Samples.cold (Samples.one_shoe false)) I (Forall_nil _) eq_refl)
    as [w' [Hrun [_ [Hinv _]]]].
  - unfold fits, shoe_stored, size_stored, quantity_stored,
      BIGINT_MIN, BIGINT_MAX, INT_MIN, INT_MAX.
    repeat split; vm_compute; discriminate.
  - intros r [Hr | []] _. subst r. vm_compute. discriminate.
  - constructor; [unfold INT_MIN, INT_MAX; simpl; lia | constructor].
  - exists w'. split; [exact Hrun | exact Hinv].
Defined.

(** Neither [quantity] nor [delta]. *)
Lemma patch_refuses_before_connecting_witness :
  exists m,
    UpdateShoes.handlePatchInventory
      (Samples.patch_1 (JObj [("size"%string, JNum 9)])) "1"
      (Samples.cold (Samples.one_shoe false))
    = (Ok (resp 400 (msg_body m)), Samples.cold (Samples.one_shoe false)).
Proof.
  apply (patch_refuses_before_connecting
           (Samples.patch_1 (JObj [("size"%string, JNum 9)])) "1"
           (Samples.cold (Samples.one_shoe false))).
  right. right. right. split; reflexivity.
Defined.

(** One shoe with its inventory is added to a table that holds one. *)
Lemma create_inserts_the_batch_witness :
  exists rows,
    shoes (store (snd (CreateShoes.handler
                         (Samples.post (Samples.batch [Samples.air_max]))
                         (Samples.cold (Samples.one_shoe false))))) =
    [Samples.air_zoom] ++ rows /\
    map shoe_id rows = [2].
Proof.
  assert (Hm : method_of (Samples.post (Samples.batch [Samples.air_max]))
               <> Some "OPTIONS"%string) by (vm_compute; discriminate).
  destruct (CreateShoes.handler (Samples.post (Samples.batch [Samples.air_max]))
                                (Samples.cold (Samples.one_shoe false)))
    as [[r | e] w'] eqn:Hrun.
  - assert (Hst : statusCode r <> 500).
    { intros Hs. pose proof Hrun as Hrun'. vm_compute in Hrun'.
      injection Hrun' as Hr _. rewrite <- Hr in Hs. vm_compute in Hs. discriminate. }
    destruct (create_inserts_the_batch
                (Samples.post (Samples.batch [Samples.air_max]))
                (Samples.cold (Samples.one_shoe false))
                (Samples.batch [Samples.air_max]) Samples.air_max [] r w'
                I (Forall_nil _) Hm eq_refl eq_refl eq_refl eq_refl Hrun Hst)
      as [rows [invs [Hshoes [Hids _]]]].
    exists rows. simpl. split; [exact Hshoes | exact Hids].
  - vm_compute in Hrun. discriminate.
Defined.

(** The single item form with size 9.5, at 129.99. *)
Lemma single_item_gets_one_pair_witness :
  exists shoe row,
    shoes (store (snd (CreateShoes.handler
                         (Samples.post
                            (JObj [("name", JStr "Air Max"); ("brand", JStr "Nike");
                                   ("price", JNum (Dec 12999 2));
                                   ("size", JNum (Dec 95 1));
                                   ("image", JStr "v")]%string))
                         (Samples.cold (Samples.one_shoe false))))) =
    [Samples.air_zoom; shoe] /\
    shoe_inventory (store (snd (CreateShoes.handler
                         (Samples.post
                            (JObj [("name", JStr "Air Max"); ("brand", JStr "Nike");
                                   ("price", JNum (Dec 12999 2));
                                   ("size", JNum (Dec 95 1));
                                   ("image", JStr "v")]%string))
                         (Samples.cold (Samples.one_shoe false))))) =
    [Samples.size9; row] /\
    shoe_id shoe = 2 /\ inv_shoe row = 2 /\ inv_size row = 95 /\ inv_quantity row = 1.
Proof.
  assert (Hm : method_of (Samples.post
                            (JObj [("name", JStr "Air Max"); ("brand", JStr "Nike");
                                   ("price", JNum (Dec 12999 2));
                                   ("size", JNum (Dec 95 1));
                                   ("image", JStr "v")]%string))
               <> Some "OPTIONS"%string) by (vm_compute; discriminate).
  destruct (CreateShoes.handler
              (Samples.post
                 (JObj [("name", JStr "Air Max"); ("brand", JStr "Nike");
                        ("price", JNum (Dec 12999 2)); ("size", JNum (Dec 95 1));
                        ("image", JStr "v")]%string))
              (Samples.cold (Samples.one_shoe false)))
    as [[r | e] w'] eqn:Hrun.
  - assert (Hst : statusCode r <> 500).
    { intros Hs. pose proof Hrun as Hrun'. vm_compute in Hrun'.
      injection Hrun' as Hr _. rewrite <- Hr in Hs. vm_compute in Hs. discriminate. }
    destruct (single_item_gets_one_pair
                (Samples.post
                   (JObj [("name", JStr "Air Max"); ("brand", JStr "Nike");
                          ("price", JNum (Dec 12999 2)); ("size", JNum (Dec 95 1));
                          ("image", JStr "v")]%string))
                (Samples.cold (Samples.one_shoe false))
                (JObj [("name", JStr "Air Max"); ("brand", JStr "Nike");
                       ("price", JNum (Dec 12999 2)); ("size", JNum (Dec 95 1));
                       ("image", JStr "v")]%string)
                (Dec 95 1) r w' I (Forall_nil _) Hm eq_refl eq_refl
                ltac:(unfold single_with_size; repeat split) Hrun Hst)
      as [shoe [row [Hshoes [Hid [_ [Hinv [Hrow [Hsize Hq]]]]]]]].
    exists shoe, row. cbn [fst snd]. rewrite Hshoes, Hinv, Hrow, Hid.
    repeat split; assumption.
  - vm_compute in Hrun. discriminate.
Defined.

(** Shoe 1 by its id, from a cold process. *)
Lemma get_shoe_by_id_answers_witness :
  exists w',
    GetShoeByIdPlain.handler
      (Samples.request "GET" JUndef "/shoes/1" (Some "1"%string) JUndef)
      (Samples.cold (Samples.one_shoe false))
    = (Ok (resp 200 (js_of_shoe Samples.air_zoom)), w').
Proof.
  destruct (proj2 (get_shoe_by_id_answers
                     (Samples.request "GET" JUndef "/shoes/1" (Some "1"%string) JUndef)
                     (Samples.cold (Samples.one_shoe false)))
                  "1"%string eq_refl ltac:(discriminate) I (Forall_nil _))
    as [_ Hfound].
  destruct (Hfound Samples.air_zoom) as [w' [Hrun _]].
  - constructor; [intros [] | constructor].
  - left. reflexivity.
  - reflexivity.
  - exists w'. exact Hrun.
Defined.

(** The shoes of Nike, the brand compared as written. *)
Lemma get_shoes_lists_the_brand_witness :
  exists rows w',
    GetShoesPlain.handler String.eqb (Some [("brand", "Nike")]%string)
                          (Samples.cold (Samples.one_shoe false))
    = (Ok (resp 200 (JArr (map js_of_shoe rows))), w') /\
    In Samples.air_zoom rows.
Proof.
  destruct (get_shoes_lists_the_brand String.eqb (Some [("brand", "Nike")]%string)
              (Samples.cold (Samples.one_shoe false)) I (Forall_nil _))
    as [rows [w' [Hrun [_ [_ [Hbrand _]]]]]].
  exists rows, w'. split; [exact Hrun |].
  apply (Hbrand "Nike"%string eq_refl). split; [left; reflexivity | reflexivity].
Defined.

(** Shoe 1 with its one size. *)
Lemma get_shoe_with_inventory_witness :
  exists w',
    GetShoeById.handler getSecret_cached
      (Samples.request "GET" JUndef "/shoes/1" (Some "1"%string) JUndef)
      (Samples.cold (Samples.one_shoe false))
    = (Ok (resp 200 (Reading.shoe_with_inventory Samples.air_zoom
                       [Reading.entry_of Samples.size9])), w').
Proof.
  destruct (get_shoe_with_inventory getSecret_cached
              (Samples.request "GET" JUndef "/shoes/1" (Some "1"%string) JUndef)
              "1"%string (Samples.cold (Samples.one_shoe false))
              getSecret_cached_calm eq_refl ltac:(discriminate) I (Forall_nil _))
    as [_ Hfound].
  destruct (Hfound Samples.air_zoom) as [w' [Hrun _]].
  - constructor; [intros [] | constructor].
  - left. reflexivity.
  - reflexivity.
  - exists w'. exact Hrun.
Defined.

(** The catalogue of a table with one shoe. *)
Lemma get_shoes_groups_inventory_witness :
  exists listed w',
    GetShoes.handler getSecret_default String.eqb None
                     (Samples.cold (Samples.one_shoe false))
    = (Ok (resp 200
             (JArr (map (fun s =>
                           Reading.shoe_with_inventory s
                             (map Reading.entry_of
                                  (sizes_of (shoe_id s) (Samples.one_shoe false))))
                        listed))), w') /\
    Permutation listed [Samples.air_zoom].
Proof.
  destruct (get_shoes_groups_inventory getSecret_default String.eqb None
              (Samples.cold (Samples.one_shoe false))
              getSecret_default_calm I (Forall_nil _))
    as [listed [w' [Hrun [_ [Hperm _]]]]].
  - constructor; [intros [] | constructor].
  - constructor; [intros [] | constructor].
  - exists listed, w'. split; [exact Hrun | exact Hperm].
Defined.

(** The folder and one image in it. *)
Lemma list_images_answers_witness :
  exists urls w',
    ListImages.handler (Some ["images/"; "images/a.png"]%string)
                       (Samples.cold (Samples.one_shoe false))
    = (Ok (resp 200 (JObj [("images"%string, JArr (map JStr urls))])), w') /\
    In (ListImages.url_of "images/a.png") urls /\
    Forall (fun url => ListImages.endsWith_slash url = false) urls.
Proof.
  destruct (list_images_answers (Some ["images/"; "images/a.png"]%string)
              (Samples.cold (Samples.one_shoe false)) (Forall_nil _))
    as [w' [_ [_ Hlist]]].
  destruct (Hlist _ eq_refl ltac:(discriminate)) as [urls [Hrun [Hin [_ Hends]]]].
  exists urls, w'. split; [exact Hrun |]. split.
  - apply Hin. exists "images/a.png"%string.
    split; [right; left; reflexivity | split; reflexivity].
  - apply Hends. repeat constructor; discriminate.
Defined.
